(** * Grand-Convergence: convergence kernels, Theil-Sen regression, result emitter

    A shallow embedding of
    - [convergence_kernel] of [src/convergence_cuda.cu] and of
      [src/convergence_metal.metal],
    - [cmpfunc], [calculateRegression], [makeupDataOutput], [generateHTML] and
      the file handling and per-pair site array of [outputDataInJS]
      (JDKLabUtility.c),
    and the properties of them that the specification states; then, with
    properties read off the code,
    - the slope set of [calculateRegression] as a list,
    - [convergence_kernel_shared] and the launches of [cuda_convergence]
      and [metal_convergence] over their grids of threads,
    - the pages and the data file of [outputDataInJS], and all of
      [outputDataInJS] with the sizes of its character buffers,
    - [build_tree] and [outputTreeInJson] over a heap of JSON values,
    - [outputDataInJS] with the sizes of its buffers and streams that can
      be NULL.

    The emitter is given three times, each time with more of what can go
    wrong: in [Emit] every buffer is large enough and every [fopen] for
    writing succeeds; [Buffers] adds the sizes that the source gives to
    [malloc]; [Program] adds an [fopen] that can fail.  A statement about
    [Emit] or [Buffers] is one about a run in which what they leave out
    does not happen.

    Numbers.  A C [double] / Metal [float] that holds a finite value is an
    exact rational ([Qc], canonical rationals, so that equal values are equal
    terms); rounding is not modelled, every statement below is about exact
    arithmetic.  Where the source can produce an infinity or a NaN from
    finite inputs (the division of the slope pass), the value is a
    [double] with those cases written out.

    Memory.  A C array is a [list]; an access outside it is undefined
    behaviour in C and is a [fault] here, so that "returns a value" always
    means "every access was inside its array".  A [fault] says that the
    access or the store is outside what C defines, not that the compiled
    program stops there.  Counters and sizes that the
    source holds in an [int] are [nat] (or [Z] where the source lets them be
    negative); the model covers runs in which no signed overflow occurs. *)

From Stdlib Require Import QArith Qcanon Ascii.
From stdpp Require Import base numbers list strings gmap sorting pretty.

(** * Faults and the error monad *)

Inductive fault : Type :=
  | OutOfBounds (array : string) (index : Z) (len : nat)
  | NullStream (path : string)      (* a FILE* that is NULL is used *)
  | NullPointer (what : string).    (* arithmetic on a NULL result *)

#[export] Instance fault_eq_dec : EqDecision fault.
Proof. solve_decision. Defined.

Definition M (A : Type) : Type := fault + A.

#[export] Instance M_ret : MRet M := λ A x, inr x.
#[export] Instance M_bind : MBind M :=
  λ A B f m, match m with inl e => inl e | inr x => f x end.

(** [a[i]] as an rvalue and [a[i] = v], for an array of known extent. *)
Definition read {A} (name : string) (a : list A) (i : nat) : M A :=
  match a !! i with
  | Some v => mret v
  | None => inl (OutOfBounds name (Z.of_nat i) (length a))
  end.

Definition write {A} (name : string) (a : list A) (i : nat) (v : A) : M (list A) :=
  if decide (i < length a) then mret (<[i:=v]> a)
  else inl (OutOfBounds name (Z.of_nat i) (length a)).

(** The same with an [int] index, which may be negative. *)
Definition read_at {A} (name : string) (a : list A) (i : Z) : M A :=
  if decide (0 ≤ i)%Z then read name a (Z.to_nat i)
  else inl (OutOfBounds name i (length a)).

(** [for (i = lo; i < lo + cnt; i++) body], threading the loop state. *)
Fixpoint for_ {St} (lo cnt : nat) (body : nat → St → M St) (s : St) : M St :=
  match cnt with
  | 0 => mret s
  | S c => s' ← body lo s; for_ (S lo) c body s'
  end.

(** [for (i = lo; i < lo + cnt; i++) { if (stop i) break; body }]. *)
Fixpoint for_break {St} (lo cnt : nat) (stop : nat → bool)
    (body : nat → St → M St) (s : St) : M St :=
  match cnt with
  | 0 => mret s
  | S c =>
      if stop lo then mret s
      else s' ← body lo s; for_break (S lo) c stop body s'
  end.

(** Content of an array cell, [0] outside (only used in statements). *)
Definition get (a : list Qc) (i : nat) : Qc := default 0%Qc (a !! i).

(** [sum_upto n f] is [f 0 + ... + f (n-1)]. *)
Fixpoint sum_upto (n : nat) (f : nat → Qc) : Qc :=
  match n with
  | 0 => 0%Qc
  | S m => (sum_upto m f + f m)%Qc
  end.

(** The integer [z] as a value. *)
Definition qz (z : Z) : Qc := Q2Qc (inject_Z z).

(** * The convergence kernels *)

Module Kernel.

(** ** The reduction of section 4.3, in the words of the specification *)

Section Spec.
Variable n : nat.
Variables P1 P2 : nat → nat → Qc.

Definition spec_sumcK (k : nat) : Qc :=
  (sum_upto n (λ j, P2 j k) - P2 k k)%Qc.

Definition spec_total : Qc :=
  (sum_upto n (λ j, sum_upto n (λ k, P2 j k)) - sum_upto n (λ j, P2 j j))%Qc.

Definition spec_sumdK (k : nat) : Qc := (spec_total - spec_sumcK k)%Qc.

Definition spec_probC : Qc :=
  (sum_upto n (λ j, sum_upto n (λ k, spec_sumcK k * P1 j k))
   - sum_upto n (λ j, spec_sumcK j * P1 j j))%Qc.

Definition spec_probD : Qc :=
  (sum_upto n (λ j, sum_upto n (λ k, spec_sumdK k * P1 j k))
   - sum_upto n (λ j, spec_sumdK j * P1 j j))%Qc.

End Spec.

(** ** Launch arguments shared by both backends *)

Record launch : Type := Launch {
  conP_part1 : list Qc;   (* flat posterior tensor *)
  offsets : list nat;     (* unsigned per-node offsets into conP_part1 *)
  nodePairs : list Z;     (* int triples (inode, jnode, selected) *)
  numSites : nat;
  numPairs : nat;
  n : nat                 (* state space size *)
}.

(** A device pointer [buf + base]; [P[i]] reads [buf[base + i]]. *)
Definition deref (buf : list Qc) (base : nat) (i : nat) : M Qc :=
  read "conP_part1" buf (base + i).

(** The local arrays [sumcK[20]] and [sumdK[20]] as declared, before any
    store (their content is indeterminate in C; no cell is read before it
    is written in either kernel). *)
Definition local20 : list Qc := replicate 20 0%Qc.

(** ** CUDA: [convergence_kernel] of convergence_cuda.cu *)

(** Lines 72-125: from the declaration of the local arrays to the final
    values of [probC] and [probD], for the matrices behind [P1] and [P2]. *)
Definition cuda_reduce (n : nat) (P1 P2 : nat → M Qc) : M (Qc * Qc) :=
  let sumcK := local20 in
  let sumdK := local20 in
  let sumdforJ := 0%Qc in
  sumcK ← for_ 0 20 (λ k sumcK, write "sumcK" sumcK k 0%Qc) sumcK;
  '(sumcK, sumdforJ) ←
    for_ 0 n (λ j st,
      '(sumcK, sumdforJ) ←
        for_ 0 n (λ k '(sumcK, sumdforJ),
          val ← P2 (j * n + k);
          c ← read "sumcK" sumcK k;
          sumcK ← write "sumcK" sumcK k (c + val)%Qc;
          mret (sumcK, (sumdforJ + val)%Qc)) st;
      d ← P2 (j * n + j);
      c ← read "sumcK" sumcK j;
      sumcK ← write "sumcK" sumcK j (c - d)%Qc;
      d ← P2 (j * n + j);
      mret (sumcK, (sumdforJ - d)%Qc)) (sumcK, sumdforJ);
  sumdK ←
    for_ 0 n (λ k sumdK,
      c ← read "sumcK" sumcK k;
      write "sumdK" sumdK k (sumdforJ - c)%Qc) sumdK;
  let probC := 0%Qc in
  let probD := 0%Qc in
  for_ 0 n (λ j st,
    '(probC, probD) ←
      for_ 0 n (λ k '(probC, probD),
        p1_val ← P1 (j * n + k);
        c ← read "sumcK" sumcK k;
        d ← read "sumdK" sumdK k;
        mret ((probC + c * p1_val)%Qc, (probD + d * p1_val)%Qc)) st;
    p1_diag ← P1 (j * n + j);
    c ← read "sumcK" sumcK j;
    d ← read "sumdK" sumdK j;
    mret ((probC - c * p1_diag)%Qc, (probD - d * p1_diag)%Qc)) (probC, probD).

(** One thread of the grid.  [blockIdx_x], [blockIdx_y], [blockDim_x] and
    [threadIdx_x] are the built-in coordinates; the result is the pair of
    output buffers after the thread has run. *)
Definition cuda_kernel (L : launch) (blockIdx_x blockIdx_y blockDim_x threadIdx_x : nat)
    (pConvergent pDivergent : list Qc) : M (list Qc * list Qc) :=
  let pairIdx := blockIdx_x in
  let siteIdx := blockIdx_y * blockDim_x + threadIdx_x in
  if decide (numPairs L ≤ pairIdx ∨ numSites L ≤ siteIdx)
  then mret (pConvergent, pDivergent)
  else
    inode ← read "nodePairs" (nodePairs L) (pairIdx * 3);
    jnode ← read "nodePairs" (nodePairs L) (pairIdx * 3 + 1);
    off1 ← read_at "offsets" (offsets L) inode;
    off2 ← read_at "offsets" (offsets L) jnode;
    let P1 := deref (conP_part1 L) (off1 + siteIdx * n L * n L) in
    let P2 := deref (conP_part1 L) (off2 + siteIdx * n L * n L) in
    '(probC, probD) ← cuda_reduce (n L) P1 P2;
    let outIdx := pairIdx * numSites L + siteIdx in
    pConvergent ← write "pConvergent" pConvergent outIdx probC;
    pDivergent ← write "pDivergent" pDivergent outIdx probD;
    mret (pConvergent, pDivergent).

(** ** Metal: [convergence_kernel] of convergence_metal.metal *)

(** Lines 76-128: the per-site reduction.  Every loop runs 20 times, whatever
    [n] is; [n] is only the row stride. *)
Definition metal_reduce (n : nat) (P1 P2 : nat → M Qc) : M (Qc * Qc) :=
  let sumcK := local20 in
  let sumdK := local20 in
  let sumdforJ := 0%Qc in
  sumcK ← for_ 0 20 (λ k sumcK, write "sumcK" sumcK k 0%Qc) sumcK;
  '(sumcK, sumdforJ) ←
    for_ 0 20 (λ j '(sumcK, sumdforJ),
      let rowSum := 0%Qc in
      diag ← P2 (j * n + j);
      '(sumcK, rowSum) ←
        for_ 0 20 (λ k '(sumcK, rowSum),
          val ← P2 (j * n + k);
          c ← read "sumcK" sumcK k;
          sumcK ← write "sumcK" sumcK k (c + val)%Qc;
          mret (sumcK, (rowSum + val)%Qc)) (sumcK, rowSum);
      let sumdforJ := (sumdforJ + (rowSum - diag))%Qc in
      c ← read "sumcK" sumcK j;
      sumcK ← write "sumcK" sumcK j (c - diag)%Qc;
      mret (sumcK, sumdforJ)) (sumcK, sumdforJ);
  sumdK ←
    for_ 0 20 (λ k sumdK,
      c ← read "sumcK" sumcK k;
      write "sumdK" sumdK k (sumdforJ - c)%Qc) sumdK;
  let probC := 0%Qc in
  let probD := 0%Qc in
  for_ 0 20 (λ j st,
    diag_p1 ← P1 (j * n + j);
    '(probC, probD) ←
      for_ 0 20 (λ k '(probC, probD),
        p1_val ← P1 (j * n + k);
        c ← read "sumcK" sumcK k;
        d ← read "sumdK" sumdK k;
        mret ((probC + c * p1_val)%Qc, (probD + d * p1_val)%Qc)) st;
    c ← read "sumcK" sumcK j;
    d ← read "sumdK" sumdK j;
    mret ((probC - c * diag_p1)%Qc, (probD - d * diag_p1)%Qc)) (probC, probD).

(** The body of the site loop (lines 73-133) for one [siteIdx]. *)
Definition metal_site (L : launch) (pairIdx offset1 offset2 siteIdx : nat)
    (out : list Qc * list Qc) : M (list Qc * list Qc) :=
  let '(pConvergent, pDivergent) := out in
  let n2 := n L * n L in
  let P1 := deref (conP_part1 L) (offset1 + siteIdx * n2) in
  let P2 := deref (conP_part1 L) (offset2 + siteIdx * n2) in
  '(probC, probD) ← metal_reduce (n L) P1 P2;
  let outIdx := pairIdx * numSites L + siteIdx in
  pConvergent ← write "pConvergent" pConvergent outIdx probC;
  pDivergent ← write "pDivergent" pDivergent outIdx probD;
  mret (pConvergent, pDivergent).

(** One thread of the grid: [gid_x], [gid_y] are the components of
    [thread_position_in_grid], [sitesPerThread] the fourth field of
    [ConvergenceParams]. *)
Definition metal_kernel (L : launch) (sitesPerThread gid_x gid_y : nat)
    (pConvergent pDivergent : list Qc) : M (list Qc * list Qc) :=
  let pairIdx := gid_x in
  if decide (numPairs L ≤ pairIdx) then mret (pConvergent, pDivergent)
  else
    inode ← read "nodePairs" (nodePairs L) (pairIdx * 3);
    jnode ← read "nodePairs" (nodePairs L) (pairIdx * 3 + 1);
    offset1 ← read_at "offsets" (offsets L) inode;
    offset2 ← read_at "offsets" (offsets L) jnode;
    let threadSiteBase := gid_y * sitesPerThread in
    for_break threadSiteBase sitesPerThread
      (λ siteIdx, bool_decide (numSites L ≤ siteIdx))
      (metal_site L pairIdx offset1 offset2)
      (pConvergent, pDivergent).

(** ** A work item whose accesses are all inside their buffers *)

(** The entry [(j, k)] of the matrix of node offset [off] at site [siteIdx]. *)
Definition matrix_at (L : launch) (off siteIdx : nat) (j k : nat) : Qc :=
  get (conP_part1 L) (off + siteIdx * n L * n L + j * n L + k).

(** Pair [pairIdx] names two nodes with offsets [off1], [off2]; the two
    [n]x[n] matrices of site [siteIdx] lie inside [conP_part1]; the cell
    [(pairIdx, siteIdx)] lies inside both output buffers. *)
Record work_item (L : launch) (pairIdx siteIdx off1 off2 : nat)
    (pConvergent pDivergent : list Qc) : Prop := WorkItem {
  wi_pair : pairIdx < numPairs L;
  wi_site : siteIdx < numSites L;
  wi_inode : ∃ inode, nodePairs L !! (pairIdx * 3) = Some inode ∧ (0 ≤ inode)%Z
                      ∧ offsets L !! Z.to_nat inode = Some off1;
  wi_jnode : ∃ jnode, nodePairs L !! (pairIdx * 3 + 1) = Some jnode ∧ (0 ≤ jnode)%Z
                      ∧ offsets L !! Z.to_nat jnode = Some off2;
  wi_P1 : off1 + siteIdx * n L * n L + n L * n L ≤ length (conP_part1 L);
  wi_P2 : off2 + siteIdx * n L * n L + n L * n L ≤ length (conP_part1 L);
  wi_outC : pairIdx * numSites L + siteIdx < length pConvergent;
  wi_outD : pairIdx * numSites L + siteIdx < length pDivergent
}.

(** "[a] equals [b] within relative precision [eps]", for [b >= 0]. *)
Definition within (eps a b : Qc) : Prop :=
  (b - eps * b ≤ a)%Qc ∧ (a ≤ b + eps * b)%Qc.

(** The looser of the two backend precisions of the specification
    (single precision: 10^-6). *)
Definition backend_eps : Qc := Q2Qc (1 # 1000000).

(** The sum of the off-diagonal entries of an [n]x[n] matrix. *)
Definition off_diagonal (n : nat) (P : nat → nat → Qc) : Qc :=
  sum_upto n (λ j, sum_upto n (λ k, if decide (j = k) then 0%Qc else P j k)).

(** ** Inputs used below *)

(** Scenario S2: a 3-leaf tree (nodes 0-2 and the root 3), every entry of
    every 20x20 matrix equal to 1/20, one site, one enumerated pair (0, 1). *)
Definition uniform : launch :=
  Launch (replicate 1600 (Q2Qc (1 # 20))) [0; 400; 800; 1200; 1600]
         [0; 1; 0]%Z 1 1 20.

(** Codons: two nodes, one site, 61x61 matrices with every entry 1/61. *)
Definition codon : launch :=
  Launch (replicate (2 * (61 * 61)) (Q2Qc (1 # 61))) [0; 61 * 61; 2 * (61 * 61)]
         [0; 1; 0]%Z 1 1 61.

(** Nucleotides: eight nodes, six sites, 4x4 matrices.  The matrix of node 0
    at site 0 is the identity; every other entry of the tensor is 1/4. *)
Definition identity4 : list Qc :=
  [1; 0; 0; 0;  0; 1; 0; 0;  0; 0; 1; 0;  0; 0; 0; 1]%Qc.

Definition nucleotide : launch :=
  Launch (identity4 ++ replicate 752 (Q2Qc (1 # 4)))
         [0; 96; 192; 288; 384; 480; 576; 672; 768]
         [0; 1; 0]%Z 6 1 4.

End Kernel.

(** * The robust regression: [cmpfunc] and [calculateRegression] *)

Module Regression.

(** A C [double] whose finite values are exact.  Zero carries no sign: the
    only division of the source divides by a difference [x[i] - x[j]], which
    is [+0] when it is zero. *)
Inductive double : Type :=
  | Fin (q : Qc)
  | PInf
  | NInf
  | NaN.

#[export] Instance double_eq_dec : EqDecision double.
Proof. solve_decision. Defined.

Definition inf_signed (c : comparison) : double :=
  match c with Gt => PInf | Lt => NInf | Eq => NaN end.

Definition dneg (a : double) : double :=
  match a with Fin q => Fin (- q) | PInf => NInf | NInf => PInf | NaN => NaN end.

Definition dadd (a b : double) : double :=
  match a, b with
  | NaN, _ | _, NaN => NaN
  | Fin x, Fin y => Fin (x + y)
  | PInf, NInf | NInf, PInf => NaN
  | PInf, _ | _, PInf => PInf
  | NInf, _ | _, NInf => NInf
  end.

Definition dsub (a b : double) : double := dadd a (dneg b).

Definition dmul (a b : double) : double :=
  match a, b with
  | NaN, _ | _, NaN => NaN
  | Fin x, Fin y => Fin (x * y)
  | Fin x, PInf | PInf, Fin x => inf_signed (x ?= 0)%Qc
  | Fin x, NInf | NInf, Fin x => inf_signed (CompOpp (x ?= 0)%Qc)
  | PInf, PInf | NInf, NInf => PInf
  | PInf, NInf | NInf, PInf => NInf
  end.

Definition ddiv (a b : double) : double :=
  match a, b with
  | NaN, _ | _, NaN => NaN
  | Fin x, Fin y =>
      if decide (y = 0%Qc) then inf_signed (x ?= 0)%Qc else Fin (x / y)
  | Fin _, (PInf | NInf) => Fin 0
  | PInf, Fin y => if decide (y < 0)%Qc then NInf else PInf
  | NInf, Fin y => if decide (y < 0)%Qc then PInf else NInf
  | (PInf | NInf), (PInf | NInf) => NaN
  end.

(** [a < b], [a == b], [a >= b] and [a != b] of C; every comparison with a
    NaN is false, except [!=]. *)
Definition dlt (a b : double) : bool :=
  match a, b with
  | NaN, _ | _, NaN => false
  | Fin x, Fin y => bool_decide (x < y)%Qc
  | NInf, NInf => false
  | NInf, _ => true
  | PInf, _ => false
  | Fin _, PInf => true
  | Fin _, NInf => false
  end.

Definition deq (a b : double) : bool :=
  match a, b with
  | NaN, _ | _, NaN => false
  | _, _ => bool_decide (a = b)
  end.

Definition dge (a b : double) : bool := dlt b a || deq a b.
Definition dne (a b : double) : bool := negb (deq a b).

(** [cmpfunc] (lines 146-151). *)
Definition cmpfunc (x y : double) : Z :=
  let xx := x in
  let yy := y in
  if dlt xx yy then (-1)%Z
  else if dlt yy xx then 1%Z
  else 0%Z.

(** [qsort(base, nmemb, sizeof(double), cmpfunc)] on an array of exactly
    [nmemb] cells.  The C library leaves the algorithm open; on values
    without NaN [cmpfunc] is a total order whose ties are equal values, so
    every conforming [qsort] returns the one ascending arrangement, which a
    merge sort computes.  With a NaN in the array (the residuals for an
    infinite slope) [cmpfunc] is no order and C leaves the arrangement to
    the library: what [qsort] gives here for such an array is the one of
    this merge sort, which need not be the one of the C library. *)
Definition cmp_le (a b : double) : Prop := (cmpfunc a b ≤ 0)%Z.

#[export] Instance cmp_le_dec : RelDecision cmp_le.
Proof. intros a b. unfold cmp_le. apply _. Defined.

Definition qsort (base : list double) : list double := merge_sort cmp_le base.

(** An array fresh from [malloc]; no cell is read before it is written. *)
Definition malloc (nmemb : nat) : list double := replicate nmemb (Fin 0).

(** Lines 188-193: the loop that sets [cutoff], entered with [cutoff]
    holding the initial value of its declaration. *)
Fixpoint cutoff_loop (vector : list double) (i cnt : nat) (cutoff : Z) : M Z :=
  match cnt with
  | 0 => mret cutoff
  | S c =>
      v ← read "vector" vector i;
      if dge v (Fin (-1)) then mret (Z.of_nat i - 1)%Z
      else cutoff_loop vector (S i) c cutoff
  end.

(** Lines 155-185: the two passes over the pairs [i < j]; the result is the
    array [vector] as filled by pass 2 and [counter]. *)
Definition collect_slopes (pDivergent pAllConvergent : list Qc) (numBranchPairs : nat)
    : M (list double * nat) :=
  let counter := 0 in
  let index := 0 in
  (* Pass 1 *)
  counter ←
    for_ 0 numBranchPairs (λ i counter,
      for_ (i + 1) (numBranchPairs - (i + 1)) (λ j counter,
        xi ← read "pDivergent" pDivergent i;
        xj ← read "pDivergent" pDivergent j;
        yi ← read "pAllConvergent" pAllConvergent i;
        yj ← read "pAllConvergent" pAllConvergent j;
        let xdelta := (xi - xj)%Qc in
        let ydelta := (yi - yj)%Qc in
        if decide (xdelta = 0%Qc ∧ ydelta = 0%Qc) then mret counter
        else
          let slope := ddiv (Fin ydelta) (Fin xdelta) in
          if deq slope (Fin (-1)) then mret counter
          else if dne slope (Fin 0) then mret (S counter)
          else mret counter) counter) counter;
  (* Pass 2 *)
  let vector := malloc counter in
  '(vector, index) ←
    for_ 0 numBranchPairs (λ i st,
      for_ (i + 1) (numBranchPairs - (i + 1)) (λ j '(vector, index),
        xi ← read "pDivergent" pDivergent i;
        xj ← read "pDivergent" pDivergent j;
        yi ← read "pAllConvergent" pAllConvergent i;
        yj ← read "pAllConvergent" pAllConvergent j;
        let xdelta := (xi - xj)%Qc in
        let ydelta := (yi - yj)%Qc in
        if decide (xdelta = 0%Qc ∧ ydelta = 0%Qc) then mret (vector, index)
        else
          let slope := ddiv (Fin ydelta) (Fin xdelta) in
          if deq slope (Fin (-1)) then mret (vector, index)
          else if dne slope (Fin 0) then
            vector ← write "vector" vector index slope;
            mret (vector, S index)
          else mret (vector, index)) st) (vector, index);
  mret (vector, counter).

(** Lines 186-198: the median slope [*k] of the collected slopes, with
    [cutoff] initialised to [0] by its declaration on line 155. *)
Definition median_slope (vector : list double) (counter : nat) : M double :=
  let cutoff := 0%Z in
  let vector := qsort vector in
  cutoff ← cutoff_loop vector 0 counter cutoff;
  if decide (counter mod 2 = 0) then
    a ← read_at "vector" vector (Z.of_nat (counter / 2) + cutoff);
    b ← read_at "vector" vector (Z.of_nat (counter / 2) + cutoff + 1);
    mret (dmul (Fin (Q2Qc (1 # 2))) (dadd a b))
  else
    read_at "vector" vector (Z.of_nat ((counter + 1) / 2) + cutoff).

Definition slope_phase (pDivergent pAllConvergent : list Qc) (numBranchPairs : nat)
    : M double :=
  '(vector, counter) ← collect_slopes pDivergent pAllConvergent numBranchPairs;
  median_slope vector counter.

(** Lines 201-211: the intercept [*b], for the slope [k] stored by the
    lines above. *)
Definition intercept_phase (k : double) (pDivergent pAllConvergent : list Qc)
    (numBranchPairs : nat) : M double :=
  let temp := malloc numBranchPairs in
  temp ←
    for_ 0 numBranchPairs (λ i temp,
      y ← read "pAllConvergent" pAllConvergent i;
      x ← read "pDivergent" pDivergent i;
      write "temp" temp i (dsub (Fin y) (dmul k (Fin x)))) temp;
  let temp := qsort temp in
  if decide (numBranchPairs mod 2 = 0) then
    hi ← read_at "temp" temp (Z.of_nat (numBranchPairs / 2));
    lo ← read_at "temp" temp (Z.of_nat (numBranchPairs / 2) - 1);
    mret (ddiv (dadd hi lo) (Fin 2))
  else
    read_at "temp" temp (Z.of_nat (numBranchPairs / 2)).

(** [calculateRegression]; the result is the pair stored in [*k] and [*b]. *)
Definition calculateRegression (pDivergent pAllConvergent : list Qc)
    (numBranchPairs : nat) : M (double * double) :=
  k ← slope_phase pDivergent pAllConvergent numBranchPairs;
  b ← intercept_phase k pDivergent pAllConvergent numBranchPairs;
  mret (k, b).

(** ** The words of the specification *)

(** "The index of the last slope strictly less than -1 (the index of the
    greatest element < -1, or -1 if no such element exists)." *)
Fixpoint last_index_below (slopes : list double) (i : nat) (found : Z) : Z :=
  match slopes with
  | [] => found
  | v :: rest =>
      last_index_below rest (S i) (if dlt v (Fin (-1)) then Z.of_nat i else found)
  end.

Definition spec_cutoff (slopes : list double) : Z :=
  last_index_below slopes 0 (-1)%Z.

(** "[b] is the median (average of two middles if [N] is even)" of the
    values [t]: some ascending arrangement [s] of [t] has [b] in the middle. *)
Definition median_of (t : list Qc) (b : Qc) : Prop :=
  ∃ s : list Qc,
    s ≡ₚ t ∧ Sorted Qcle s ∧
    if decide (length t mod 2 = 0)
    then ∃ lo hi, s !! (length t / 2 - 1) = Some lo ∧ s !! (length t / 2) = Some hi
                  ∧ b = ((lo + hi) / 2)%Qc
    else s !! (length t / 2) = Some b.

(** [t[i] = y[i] - k * x[i]]. *)
Definition residuals (k : Qc) (x y : list Qc) : list Qc :=
  zip_with (λ xi yi, (yi - k * xi)%Qc) x y.

(** ** Inputs used below *)

(** Three points on the line [y = -2 x]: every pairwise slope is [-2]. *)
Definition steep_x : list Qc := [qz 0; qz 1; qz 2].
Definition steep_y : list Qc := [qz 0; qz (-2); qz (-4)].

(** A tree with two leaves has one branch pair. *)
Definition single_x : list Qc := [Q2Qc (3 # 10)].
Definition single_y : list Qc := [Q2Qc (1 # 10)].

(** Three identical points. *)
Definition same_x : list Qc := [Q2Qc (3 # 10); Q2Qc (3 # 10); Q2Qc (3 # 10)].
Definition same_y : list Qc := [Q2Qc (1 # 10); Q2Qc (1 # 10); Q2Qc (1 # 10)].

(** Scenario S4 of the specification. *)
Definition s4_x : list Qc := [qz 1; qz 2; qz 3; qz 4; qz 5].
Definition s4_y : list Qc := [qz 1; qz 2; qz 4; qz 4; qz 5].

End Regression.

(** * The result emitter: [makeupDataOutput], [generateHTML], [outputDataInJS] *)

Module Emit.

(** Characters that a Rocq string literal cannot hold directly. *)
Definition dq : string := String "034"%char EmptyString.   (* the double quote *)
Definition nl : string := String "010"%char EmptyString.   (* \n *)
Definition tab : string := String "009"%char EmptyString.  (* \t *)

(** [printf("%d", z)]. *)
Definition fmt_d (z : Z) : string := pretty z.

(** ** The file system and the stdio calls the emitter makes

    A file system maps a path to the text of the file.  [fopen(path, "w")]
    creates the file or truncates it to length zero and cannot fail here (the
    output directory [UI/User/] is taken to exist and to be writable); the
    stream it returns is identified with its path.  [fopen(path, "r")]
    returns NULL for a missing file.  Every call acts on the file system at
    once; a fault stops the program with the file system as it then is.
    Character buffers are strings of any length: the sizes given to
    [malloc] for them are not modelled.  Both are added further down:
    the sizes in [Buffers], an [fopen] that can fail in [Program]. *)

Abbreviation fs := (gmap string string).

Definition IO (A : Type) : Type := fs → (fault + A) * fs.

#[export] Instance IO_ret : MRet IO := λ A x σ, (inr x, σ).
#[export] Instance IO_bind : MBind IO :=
  λ A B f m σ, match m σ with
               | (inl e, σ') => (inl e, σ')
               | (inr x, σ') => f x σ'
               end.

Definition lift {A} (m : M A) : IO A := λ σ, (m, σ).

Definition fopen_w (path : string) : IO string :=
  λ σ, (inr path, <[path := EmptyString]> σ).

(** The stream of a file opened for reading is the text still to be read;
    [None] is NULL. *)
Definition fopen_r (path : string) : IO (option string) :=
  λ σ, (inr (σ !! path), σ).

Definition fprintf (stream : string) (text : string) : IO unit :=
  λ σ, (inr (), <[stream := default EmptyString (σ !! stream) +:+ text]> σ).

(** One [fgets(line, lline, stream)] on the text [s] still to be read, with
    [room = lline - 1]: the characters stored in [line] and the text left. *)
Fixpoint fgets (room : nat) (s : string) : string * string :=
  match room, s with
  | 0, _ => (EmptyString, s)
  | _, EmptyString => (EmptyString, EmptyString)
  | S r, String c s' =>
      if Ascii.eqb c "010"%char then (String c EmptyString, s')
      else let '(line, rest) := fgets r s' in (String c line, rest)
  end.

(** [for (i = 0; i < cnt; i++) body] in [IO]. *)
Fixpoint for_io (lo cnt : nat) (body : nat → IO unit) : IO unit :=
  match cnt with
  | 0 => mret ()
  | S c => body lo;; for_io (S lo) c body
  end.

(** [strstr(haystack, needle)]: the suffix of [haystack] that starts at the
    first occurrence of [needle], or [None] for NULL. *)
Fixpoint string_drop (k : nat) (s : string) : string :=
  match k, s with
  | 0, _ => s
  | _, EmptyString => EmptyString
  | S k', String _ s' => string_drop k' s'
  end.

Definition strstr (haystack needle : string) : option string :=
  match String.index 0 needle haystack with
  | Some p => Some (string_drop p haystack)
  | None => None
  end.

(** ** [makeupDataOutput] (lines 60-71) *)

Definition makeupDataOutput (data type : string) : string :=
  let line := type in
  let line := line +:+ " = " in
  let line := line +:+ data in
  line.

(** ** [generateHTML] (lines 73-144) *)

(** The three [fprintf] texts that depend on a branch pair, and the
    placeholder. *)
Definition table_and_plot_text (b1 b2 : Z) : string :=
  "<div id=" +:+ dq +:+ "BP_" +:+ fmt_d b1 +:+ "x" +:+ fmt_d b2 +:+ "-barPlot" +:+ dq
    +:+ "></div>" +:+ nl
  +:+ "<div data-collapse style=" +:+ dq +:+ "float:centre" +:+ dq +:+ ">" +:+ nl
  +:+ tab +:+ "<h4 style=" +:+ dq +:+ "float:centre; margin-left:500px" +:+ dq
    +:+ "> Sites <br> Branch Pair: " +:+ fmt_d b1 +:+ ".." +:+ fmt_d b2 +:+ " </h4>" +:+ nl
  +:+ "<div id=" +:+ dq +:+ "BP_" +:+ fmt_d b1 +:+ "x" +:+ fmt_d b2 +:+ "-sheet" +:+ dq
    +:+ " style=" +:+ dq
    +:+ "float:centre; margin-left:150px; margin-right:150px" +:+ dq
    +:+ "></div>" +:+ nl
  +:+ "</div><br>" +:+ nl +:+ nl.

Definition plot_text (b1 b2 : Z) : string :=
  "<div id=" +:+ dq +:+ "figure" +:+ dq +:+ " style=" +:+ dq
    +:+ "float:left; width:550px; z-index:2000; background-color: #ffffff; "
    +:+ dq +:+ ">" +:+ nl
  +:+ "<h4 style=" +:+ dq +:+ "float:left; margin-left:70px" +:+ dq
    +:+ "> Branch Pair: " +:+ fmt_d b1 +:+ ".." +:+ fmt_d b2 +:+ " </h4>" +:+ nl
  +:+ "<div id=" +:+ dq +:+ "BP_" +:+ fmt_d b1 +:+ "x" +:+ fmt_d b2 +:+ "-data-plot" +:+ dq
    +:+ " style=" +:+ dq
    +:+ "margin-left: 10px; float:left; width:540px; outline: 0 !important; border: 0 !important; "
    +:+ dq +:+ "></div>" +:+ nl +:+ "</div>" +:+ nl.

Definition placeholder_text : string :=
  "<h4 style=" +:+ dq +:+ "float:left; margin-left:70px" +:+ dq
  +:+ "> Branch Pairs must be provided for this plot (see the <i>--branch-pairs</i> parameter)</h4>".

(** The body of the [for(;;)] loop after a successful [fgets] (lines 95-139). *)
Definition html_line (file : string) (selectedBranchPairs : list Z)
    (numOfSelectedBranchPairs : nat) (newHTML line : string) : IO unit :=
  fprintf newHTML line;;
  (if strstr line "@dataTag" is Some _ then
     match strstr file "User/" with
     | Some p =>
         fprintf newHTML
           ("<script src=" +:+ dq +:+ string_drop 5 p +:+ dq +:+ "></script>" +:+ nl)
     | None => lift (inl (NullPointer "strstr(file, User/)"))
     end
   else mret ());;
  (if strstr line "@tableAndPlot" is Some _ then
     for_io 0 numOfSelectedBranchPairs (λ i,
       b1 ← lift (read "selectedBranchPairs" selectedBranchPairs (i * 3));
       b2 ← lift (read "selectedBranchPairs" selectedBranchPairs (i * 3 + 1));
       fprintf newHTML (table_and_plot_text b1 b2));;
     (if decide (numOfSelectedBranchPairs = 0)
      then fprintf newHTML placeholder_text else mret ())
   else mret ());;
  (if strstr line "@rateVsDivPlot" is Some _ then
     for_io 0 numOfSelectedBranchPairs (λ i,
       b1 ← lift (read "selectedBranchPairs" selectedBranchPairs (i * 3));
       b2 ← lift (read "selectedBranchPairs" selectedBranchPairs (i * 3 + 1));
       fprintf newHTML (table_and_plot_text b1 b2))
   else mret ());;
  (if strstr line "@plot" is Some _ then
     for_io 0 numOfSelectedBranchPairs (λ i,
       b1 ← lift (read "selectedBranchPairs" selectedBranchPairs (i * 3));
       b2 ← lift (read "selectedBranchPairs" selectedBranchPairs (i * 3 + 1));
       fprintf newHTML (plot_text b1 b2));;
     (if decide (numOfSelectedBranchPairs = 0)
      then fprintf newHTML placeholder_text else mret ())
   else mret ()).

(** The [for(;;)] loop (lines 93-140) on the text still to be read.  Each
    successful [fgets] takes at least one character, so [fuel] equal to the
    length of the template never runs out. *)
Fixpoint html_lines (fuel : nat) (file : string) (selectedBranchPairs : list Z)
    (numOfSelectedBranchPairs : nat) (newHTML template : string) : IO unit :=
  match fuel with
  | 0 => mret ()
  | S fuel' =>
      let '(line, rest) := fgets 1023 template in
      if decide (line = EmptyString) then mret ()    (* fgets returned NULL *)
      else
        html_line file selectedBranchPairs numOfSelectedBranchPairs newHTML line;;
        html_lines fuel' file selectedBranchPairs numOfSelectedBranchPairs newHTML rest
  end.

(** The path [htmlFileNameFullPath] (lines 74-85); [htmlFileName] is
    [com.htmlFileName], [moreFile] is [None] for NULL. *)
Definition html_path (htmlFileName : string) (moreFile : option string) : string :=
  match moreFile with
  | None => "UI/User/" +:+ htmlFileName
  | Some more => "UI/User/" +:+ more
  end.

Definition generateHTML (htmlFileName : string) (file templateFile : string)
    (moreFile : option string) (selectedBranchPairs : list Z)
    (numOfSelectedBranchPairs : nat) : IO unit :=
  let htmlFileNameFullPath := html_path htmlFileName moreFile in
  template ← fopen_r templateFile;
  newHTML ← fopen_w htmlFileNameFullPath;
  match template with
  | None => lift (inl (NullStream templateFile))    (* fgets(line, lline, NULL) *)
  | Some text =>
      html_lines (String.length text) file selectedBranchPairs
        numOfSelectedBranchPairs newHTML text
      (* fclose(newHTML); fclose(template); *)
  end.

(** ** [outputDataInJS] (lines 214-414) *)

Section OutputData.

(** [printf("%.6f", x)] of the C library, for a [float] promoted to
    [double]. *)
Variable fmt_6f : Qc → string.

(** Lines 365 and 368: the text one [sprintf] appends for site [h]. *)
Definition triple_text (h : nat) (conv div : Qc) (tail : string) : string :=
  "[" +:+ fmt_d (Z.of_nat h) +:+ ", " +:+ fmt_6f conv +:+ ", " +:+ fmt_6f div
  +:+ "]" +:+ tail.

(** Lines 364-365 and 367-368: the test on site [h] of pair [ig] and the
    [sprintf] it guards.  [||] reads its right operand only when the left
    one is zero. *)
Definition site_entry (siteSpecificMap : list Qc) (lst ig h : nat) (tail : string)
    (siteSpecificBP : string) : M string :=
  conv ← read "siteSpecificMap" siteSpecificMap (ig * lst * 2 + h * 2);
  nonzero ←
    (if decide (conv ≠ 0%Qc) then mret true
     else
       div ← read "siteSpecificMap" siteSpecificMap (ig * lst * 2 + h * 2 + 1);
       mret (bool_decide (div ≠ 0%Qc)));
  if nonzero : bool then
    conv ← read "siteSpecificMap" siteSpecificMap (ig * lst * 2 + h * 2);
    div ← read "siteSpecificMap" siteSpecificMap (ig * lst * 2 + h * 2 + 1);
    mret (siteSpecificBP +:+ triple_text h conv div tail)
  else mret siteSpecificBP.

(** Lines 361-369: the site array of the selected pair [ig], in a buffer
    taken as large enough; [Buffers.siteSpecificBP] has the [lst * 30]
    bytes of line 361. *)
Definition siteSpecificBP (siteSpecificMap : list Qc) (lst ig : nat) : M string :=
  let siteSpecificBP := "[ " in
  siteSpecificBP ←
    for_ 0 (lst - 1) (λ h siteSpecificBP,
      site_entry siteSpecificMap lst ig h ", " siteSpecificBP) siteSpecificBP;
  let h := lst - 1 in
  siteSpecificBP ← site_entry siteSpecificMap lst ig h " " siteSpecificBP;
  mret (siteSpecificBP +:+ "]").

(** Lines 360-391, one iteration: the line written to the data file for
    pair [ig], and the three summary buffers extended.  The buffers are
    taken as large enough; [Buffers.pair_entry] has the 20 bytes of
    [branchPairIDs], the 30 of [branchPairNames] and the sizes of the
    three lists. *)
Definition pair_entry (dataFile : string) (siteSpecificMap : list Qc)
    (selectedBranchPairs : list Z) (numOfSelectedBranchPairs lst ig : nat)
    (summary : string * string * string) : IO (string * string * string) :=
  let '(siteSpecificBranchPairs, siteSpecificBranchPairsName,
        siteSpecificBranchPairsIDs) := summary in
  bp ← lift (siteSpecificBP siteSpecificMap lst ig);
  b1 ← lift (read "selectedBranchPairs" selectedBranchPairs (ig * 3));
  b2 ← lift (read "selectedBranchPairs" selectedBranchPairs (ig * 3 + 1));
  let branchPairIDs := "BP_" +:+ fmt_d b1 +:+ "x" +:+ fmt_d b2 in
  let branchPairNames :=
    dq +:+ "Branch Pair: " +:+ fmt_d b1 +:+ ".." +:+ fmt_d b2 +:+ dq in
  let bp := makeupDataOutput bp branchPairIDs in
  fprintf dataFile (bp +:+ ";" +:+ nl);;
  if decide (ig < numOfSelectedBranchPairs - 1) then
    mret (siteSpecificBranchPairs +:+ branchPairIDs +:+ ", ",
          siteSpecificBranchPairsName +:+ branchPairNames +:+ ", ",
          siteSpecificBranchPairsIDs +:+ dq +:+ branchPairIDs +:+ dq +:+ ", ")
  else
    mret (siteSpecificBranchPairs +:+ branchPairIDs +:+ " ]",
          siteSpecificBranchPairsName +:+ branchPairNames +:+ " ]",
          siteSpecificBranchPairsIDs +:+ dq +:+ branchPairIDs +:+ dq +:+ " ]").

Fixpoint pair_entries (dataFile : string) (siteSpecificMap : list Qc)
    (selectedBranchPairs : list Z) (numOfSelectedBranchPairs lst ig cnt : nat)
    (summary : string * string * string) : IO (string * string * string) :=
  match cnt with
  | 0 => mret summary
  | S c =>
      summary ← pair_entry dataFile siteSpecificMap selectedBranchPairs
                  numOfSelectedBranchPairs lst ig summary;
      pair_entries dataFile siteSpecificMap selectedBranchPairs
        numOfSelectedBranchPairs lst (S ig) c summary
  end.

(** Lines 269-276: the path of the data file; [strchr] returns NULL for a
    name without a dot. *)
Definition data_file_path (htmlFileName : string) : M string :=
  match String.index 0 "." htmlFileName with
  | None => inl (NullPointer "strchr(com.htmlFileName, .)")
  | Some pos =>
      let temp := String.substring 0 pos htmlFileName in
      mret ("UI/User/" +:+ temp +:+ "Data.js")
  end.

(** [outputDataInJS] from line 269 on.  [preamble] is the text that lines
    307-340 write (the popup functions, the regression coefficients, the
    tree and the scatter arrays), formatted by lines 219-266 from arguments
    that nothing below depends on. *)
Definition outputDataInJS (htmlFileName preamble : string)
    (siteSpecificMap : list Qc) (selectedBranchPairs : list Z)
    (numOfSelectedBranchPairs lst : nat) : IO unit :=
  file ← lift (data_file_path htmlFileName);
  dataFile ← fopen_w file;
  let sheetFile := "sheet-" +:+ htmlFileName in
  let siteSpecificFile := "siteSpecific-" +:+ htmlFileName in
  let rateVsDiversityFile := "rateVsDiversity-" +:+ htmlFileName in
  let rateVsProbConvergenceFile := "rateVsProbConvergence-" +:+ htmlFileName in
  fprintf dataFile preamble;;
  let summary :=
    if decide (numOfSelectedBranchPairs = 0) then ("[ ]", "[ ]", "[ ")
    else ("[ ", "[ ", "[ ") in
  '(siteSpecificBranchPairs, siteSpecificBranchPairsName, siteSpecificBranchPairsIDs) ←
    pair_entries dataFile siteSpecificMap selectedBranchPairs
      numOfSelectedBranchPairs lst 0 numOfSelectedBranchPairs summary;
  let siteSpecificBranchPairsIDs :=
    if decide (numOfSelectedBranchPairs = 0)
    then siteSpecificBranchPairsIDs +:+ "]" else siteSpecificBranchPairsIDs in
  fprintf dataFile
    (makeupDataOutput siteSpecificBranchPairs "siteSpecificBranchPairs" +:+ ";" +:+ nl);;
  fprintf dataFile
    (makeupDataOutput siteSpecificBranchPairsName "siteSpecificBranchPairsName"
     +:+ ";" +:+ nl);;
  fprintf dataFile
    (makeupDataOutput siteSpecificBranchPairsIDs "siteSpecificBranchPairsIDs"
     +:+ ";" +:+ nl);;
  (* fclose(dataFile); *)
  generateHTML htmlFileName file "UI/Template.html" None [] 0;;
  generateHTML htmlFileName file "UI/sheet-template.html" (Some sheetFile) [] 0;;
  generateHTML htmlFileName file "UI/siteSpecific-template.html"
    (Some siteSpecificFile) selectedBranchPairs numOfSelectedBranchPairs;;
  generateHTML htmlFileName file "UI/rateVsDiversity-template.html"
    (Some rateVsDiversityFile) [] 0;;
  generateHTML htmlFileName file "UI/rateVsProbConvergence-template.html"
    (Some rateVsProbConvergenceFile) selectedBranchPairs numOfSelectedBranchPairs.

(** ** The words of the specification *)

(** The sites of pair [ig] whose convergence or divergence value is not
    zero, in increasing order. *)
Definition conv_at (siteSpecificMap : list Qc) (lst ig h : nat) : Qc :=
  get siteSpecificMap (ig * lst * 2 + h * 2).
Definition div_at (siteSpecificMap : list Qc) (lst ig h : nat) : Qc :=
  get siteSpecificMap (ig * lst * 2 + h * 2 + 1).

Definition kept_sites (siteSpecificMap : list Qc) (lst ig : nat) : list nat :=
  filter (λ h, conv_at siteSpecificMap lst ig h ≠ 0%Qc
               ∨ div_at siteSpecificMap lst ig h ≠ 0%Qc) (seq 0 lst).

(** The text of the triples of the sites [hs]: [", "] follows a triple,
    [" "] the triple of the last site [lst - 1]. *)
Fixpoint triples_text (siteSpecificMap : list Qc) (lst ig : nat) (hs : list nat)
    : string :=
  match hs with
  | [] => EmptyString
  | h :: rest =>
      triple_text h (conv_at siteSpecificMap lst ig h) (div_at siteSpecificMap lst ig h)
        (if decide (h = lst - 1) then " " else ", ")
      +:+ triples_text siteSpecificMap lst ig rest
  end.

End OutputData.

(** The final paths of the six artifacts: the data file [file] and the five
    pages that [outputDataInJS] has [generateHTML] write. *)
Definition output_paths (htmlFileName file : string) : list string :=
  [ file;
    html_path htmlFileName None;
    html_path htmlFileName (Some ("sheet-" +:+ htmlFileName));
    html_path htmlFileName (Some ("siteSpecific-" +:+ htmlFileName));
    html_path htmlFileName (Some ("rateVsDiversity-" +:+ htmlFileName));
    html_path htmlFileName (Some ("rateVsProbConvergence-" +:+ htmlFileName)) ].

(** [m] changes no file but those whose path satisfies [P]. *)
Definition writes_only {A} (P : string → Prop) (m : IO A) : Prop :=
  ∀ (σ : fs) (p : string), ¬ P p → (m σ).2 !! p = σ !! p.

(** ** Inputs used below *)

(** A run directory that holds the report of an earlier run and from which
    the template of the main page is missing. *)
Definition earlier_run : fs :=
  {[ "UI/User/index.html" := "<html>report of the earlier run</html>" ]}.

(** A two-line template with the data marker. *)
Definition small_template : string :=
  "<head>" +:+ nl +:+ "<!-- @dataTag -->" +:+ nl.

Definition with_template : fs :=
  <[ "UI/Template.html" := small_template ]> earlier_run.

(** A site map for one selected pair and three sites: site 1 is all zero. *)
Definition three_sites : list Qc :=
  [Q2Qc (1 # 4); 0%Qc; 0%Qc; 0%Qc; 0%Qc; Q2Qc (1 # 2)].

(** A stand-in for ["%.6f"] that tells zero from the other values. *)
Definition fmt_sign (x : Qc) : string :=
  if decide (x = 0%Qc) then "0.000000" else "x.xxxxxx".

End Emit.

(** * The slope set of the regression, as a list *)

Module Slopes.
Import Regression.

(** Lines 162-167 and 175-180: what either pass does with the pair of points
    [(xi, yi)], [(xj, yj)]: the slope it counts and collects, if any. *)
Definition kept_slope (xi xj yi yj : Qc) : option double :=
  let xdelta := (xi - xj)%Qc in
  let ydelta := (yi - yj)%Qc in
  if decide (xdelta = 0%Qc ∧ ydelta = 0%Qc) then None
  else
    let slope := ddiv (Fin ydelta) (Fin xdelta) in
    if deq slope (Fin (-1)) then None
    else if dne slope (Fin 0) then Some slope
    else None.

(** The slopes kept for the pairs [(i, j)], [j] in [js], in the order of [js]. *)
Definition slopes_from (x y : list Qc) (i : nat) (js : list nat) : list double :=
  omap (λ j, kept_slope (get x i) (get x j) (get y i) (get y j)) js.

(** The slopes kept for all pairs [i < j < N], in the order of the loops. *)
Definition slopes_of (x y : list Qc) (N : nat) : list double :=
  flat_map (λ i, slopes_from x y i (seq (i + 1) (N - (i + 1)))) (seq 0 N).

(** The state [(vector, index)] of pass 2 once [written] has been stored:
    the written cells, then the cells as [malloc] left them. *)
Definition filled (total : nat) (written : list double) : list double * nat :=
  (written ++ replicate (total - length written) (Fin 0), length written).

(** The ordinates of the points of abscissas [x] on the line
    [y = a x + b0]. *)
Definition line_y (a b0 : Qc) (x : list Qc) : list Qc :=
  map (λ xi, (a * xi + b0)%Qc) x.

(** ** Inputs used below *)

(** Two points one above the other, and a third. *)
Definition tie_x : list Qc := [qz 1; qz 1; qz 2].
Definition tie_y : list Qc := [qz 3; qz 2; qz 2].

(** Slopes of which one, and of which two of three, are below -1. *)
Definition mostly_flat : list double :=
  [Fin (qz 1); Fin (qz (-3)); Fin (qz 7); Fin (qz 2); Fin (qz 5)].
Definition mostly_steep : list double :=
  [Fin (qz (-3)); Fin (qz 5); Fin (qz (-2))].

End Slopes.

(** * The alternative Metal kernel *)

Module SharedKernel.
Import Kernel.

(** ** Metal: [convergence_kernel_shared] of convergence_metal.metal *)

(** Lines 169-201: the reduction of the alternative kernel.  It has no
    [sumdK] array: [sumdK_k] and [sumdK_j] are computed where they are used.
    As in [convergence_kernel], every loop runs 20 times. *)
Definition shared_reduce (n : nat) (P1 P2 : nat → M Qc) : M (Qc * Qc) :=
  let sumcK := local20 in
  let sumdforJ := 0%Qc in
  sumcK ← for_ 0 20 (λ k sumcK, write "sumcK" sumcK k 0%Qc) sumcK;
  '(sumcK, sumdforJ) ←
    for_ 0 20 (λ j st,
      '(sumcK, sumdforJ) ←
        for_ 0 20 (λ k '(sumcK, sumdforJ),
          val ← P2 (j * n + k);
          c ← read "sumcK" sumcK k;
          sumcK ← write "sumcK" sumcK k (c + val)%Qc;
          mret (sumcK, (sumdforJ + val)%Qc)) st;
      d ← P2 (j * n + j);
      c ← read "sumcK" sumcK j;
      sumcK ← write "sumcK" sumcK j (c - d)%Qc;
      d ← P2 (j * n + j);
      mret (sumcK, (sumdforJ - d)%Qc)) (sumcK, sumdforJ);
  let probC := 0%Qc in
  let probD := 0%Qc in
  for_ 0 20 (λ j st,
    '(probC, probD) ←
      for_ 0 20 (λ k '(probC, probD),
        p1_val ← P1 (j * n + k);
        c ← read "sumcK" sumcK k;
        let sumdK_k := (sumdforJ - c)%Qc in
        c ← read "sumcK" sumcK k;
        mret ((probC + c * p1_val)%Qc, (probD + sumdK_k * p1_val)%Qc)) st;
    p1_diag ← P1 (j * n + j);
    c ← read "sumcK" sumcK j;
    let sumdK_j := (sumdforJ - c)%Qc in
    c ← read "sumcK" sumcK j;
    mret ((probC - c * p1_diag)%Qc, (probD - sumdK_j * p1_diag)%Qc)) (probC, probD).

(** One thread of the grid of [convergence_kernel_shared] (lines 141-207):
    [gid_x], [gid_y] are the components of [thread_position_in_grid]. *)
Definition metal_kernel_shared (L : launch) (gid_x gid_y : nat)
    (pConvergent pDivergent : list Qc) : M (list Qc * list Qc) :=
  let pairIdx := gid_x in
  let siteIdx := gid_y in
  if decide (numPairs L ≤ pairIdx ∨ numSites L ≤ siteIdx)
  then mret (pConvergent, pDivergent)
  else
    let n2 := n L * n L in
    inode ← read "nodePairs" (nodePairs L) (pairIdx * 3);
    jnode ← read "nodePairs" (nodePairs L) (pairIdx * 3 + 1);
    off1 ← read_at "offsets" (offsets L) inode;
    let P1 := deref (conP_part1 L) (off1 + siteIdx * n2) in
    off2 ← read_at "offsets" (offsets L) jnode;
    let P2 := deref (conP_part1 L) (off2 + siteIdx * n2) in
    '(probC, probD) ← shared_reduce (n L) P1 P2;
    let outIdx := pairIdx * numSites L + siteIdx in
    pConvergent ← write "pConvergent" pConvergent outIdx probC;
    pDivergent ← write "pDivergent" pDivergent outIdx probD;
    mret (pConvergent, pDivergent).

End SharedKernel.

(** * The kernel launches *)

Module Grid.
Import Kernel.

(** ** The launches of the host wrappers

    A launch runs the kernel once for every thread of its grid.  The threads
    of one launch read the input buffers, which no thread writes, and each
    writes output cells that it never reads; so a launch is modelled by the
    threads of the grid running one after another, in an order [sched] that
    the launch does not fix. *)

Definition run_threads {T} (kernel : T → list Qc → list Qc → M (list Qc * list Qc))
    (sched : list T) (out : list Qc * list Qc) : M (list Qc * list Qc) :=
  foldl (λ acc t, '(pC, pD) ← acc; kernel t pC pD) (mret out) sched.

(** [#define BLOCK_SIZE 256] *)
Definition BLOCK_SIZE : nat := 256.

(** [cuda_convergence], lines 226-227: [blockDim] is [(BLOCK_SIZE, 1, 1)] and
    [gridDim] is [(numPairs, (numSites + BLOCK_SIZE - 1) / BLOCK_SIZE, 1)].
    The threads [(blockIdx.x, blockIdx.y, threadIdx.x)] of that grid. *)
Definition cuda_threads (L : launch) : list (nat * nat * nat) :=
  blockIdx_x ← seq 0 (numPairs L);
  blockIdx_y ← seq 0 ((numSites L + BLOCK_SIZE - 1) / BLOCK_SIZE);
  threadIdx_x ← seq 0 BLOCK_SIZE;
  [(blockIdx_x, blockIdx_y, threadIdx_x)].

(** Lines 230-239: [convergence_kernel<<<gridDim, blockDim>>>(...)]. *)
Definition cuda_launch (L : launch) (sched : list (nat * nat * nat))
    (pConvergent pDivergent : list Qc) : M (list Qc * list Qc) :=
  run_threads (λ '(blockIdx_x, blockIdx_y, threadIdx_x),
                 cuda_kernel L blockIdx_x blockIdx_y BLOCK_SIZE threadIdx_x)
    sched (pConvergent, pDivergent).

(** [metal_convergence], lines 299-300 and 334: [sitesPerThread = 16],
    [numSiteBlocks = (numSites + sitesPerThread - 1) / sitesPerThread], and
    the grid [(numPairs, numSiteBlocks, 1)] that [dispatchThreads] runs
    thread by thread. *)
Definition sitesPerThread : nat := 16.

Definition metal_threads (L : launch) : list (nat * nat) :=
  gid_x ← seq 0 (numPairs L);
  gid_y ← seq 0 ((numSites L + sitesPerThread - 1) / sitesPerThread);
  [(gid_x, gid_y)].

(** Lines 303-349: the parameters and [dispatchThreads]. *)
Definition metal_launch (L : launch) (sched : list (nat * nat))
    (pConvergent pDivergent : list Qc) : M (list Qc * list Qc) :=
  run_threads (λ '(gid_x, gid_y), metal_kernel L sitesPerThread gid_x gid_y)
    sched (pConvergent, pDivergent).

(** ** What a launch is expected to store *)

(** The offset of the first ([which = 0]) or second ([which = 1]) node of
    pair [pairIdx]. *)
Definition node_offset (L : launch) (pairIdx which : nat) : nat :=
  default 0 (offsets L !! Z.to_nat (default 0%Z (nodePairs L !! (pairIdx * 3 + which)))).

Definition expected_probC (L : launch) (pairIdx siteIdx : nat) : Qc :=
  spec_probC (n L) (matrix_at L (node_offset L pairIdx 0) siteIdx)
                   (matrix_at L (node_offset L pairIdx 1) siteIdx).

Definition expected_probD (L : launch) (pairIdx siteIdx : nat) : Qc :=
  spec_probD (n L) (matrix_at L (node_offset L pairIdx 0) siteIdx)
                   (matrix_at L (node_offset L pairIdx 1) siteIdx).

(** Every pair names two nodes of the tree, every matrix lies inside the
    tensor, and the output buffers have a cell for every pair and site. *)
Definition launch_ok (L : launch) (pConvergent pDivergent : list Qc) : Prop :=
  ∀ pairIdx siteIdx, pairIdx < numPairs L → siteIdx < numSites L →
    work_item L pairIdx siteIdx (node_offset L pairIdx 0) (node_offset L pairIdx 1)
      pConvergent pDivergent.

(** The value expected in cell [i] of the output buffers, whose layout is
    [pair][site]. *)
Definition cell_probC (L : launch) (i : nat) : Qc :=
  expected_probC L (i / numSites L) (i mod numSites L).
Definition cell_probD (L : launch) (i : nat) : Qc :=
  expected_probD L (i / numSites L) (i mod numSites L).

(** The output cell [outIdx] of a CUDA thread that passes the guard of line
    61, and the output cells of a Metal thread: those of its pair and of the
    sites of its block that exist. *)
Definition cuda_cells (L : launch) (t : nat * nat * nat) (i : nat) : Prop :=
  let '(blockIdx_x, blockIdx_y, threadIdx_x) := t in
  blockIdx_x < numPairs L
  ∧ blockIdx_y * BLOCK_SIZE + threadIdx_x < numSites L
  ∧ i = blockIdx_x * numSites L + (blockIdx_y * BLOCK_SIZE + threadIdx_x).

Definition metal_cells (L : launch) (t : nat * nat) (i : nat) : Prop :=
  let '(gid_x, gid_y) := t in
  gid_x < numPairs L
  ∧ gid_x * numSites L ≤ i
  ∧ gid_y * sitesPerThread ≤ i - gid_x * numSites L
  ∧ i - gid_x * numSites L < gid_y * sitesPerThread + sitesPerThread
  ∧ i - gid_x * numSites L < numSites L.

(** Thread [t] returns on output buffers of lengths [lC], [lD], stores
    [vC i], [vD i] in its cells [i] and leaves every other cell as it was. *)
Definition thread_ok {T} (kernel : T → list Qc → list Qc → M (list Qc * list Qc))
    (cells : T → nat → Prop) (vC vD : nat → Qc) (lC lD : nat) (t : T) : Prop :=
  ∀ pC pD, length pC = lC → length pD = lD →
    ∃ pC' pD', kernel t pC pD = inr (pC', pD')
      ∧ length pC' = lC ∧ length pD' = lD
      ∧ ∀ i, (cells t i → pC' !! i = Some (vC i) ∧ pD' !! i = Some (vD i))
           ∧ (¬ cells t i → pC' !! i = pC !! i ∧ pD' !! i = pD !! i).

(** ** Inputs used below *)

(** Three nodes, one site, every entry of every 20x20 matrix 1/20, and the
    two pairs (0, 1) and (0, 2). *)
Definition two_pairs : launch :=
  Launch (replicate 1200 (Q2Qc (1 # 20))) [0; 400; 800; 1200]
         [0; 1; 0; 0; 2; 0]%Z 1 2 20.

End Grid.

(** * The pages and the data file, in words *)

Module Pages.
Import Emit.

(** The text has no character [c]. *)
Definition lacks (c : ascii) (s : string) : Prop :=
  ∀ i, String.get i s ≠ Some c.

(** The script element that line 97 writes for the data file [name], given
    relative to [UI/User/]. *)
Definition script_text (name : string) : string :=
  "<script src=" +:+ dq +:+ name +:+ dq +:+ "></script>" +:+ nl.

(** ** The text of the data file, in words *)

(** The items of a JS array between ["[ "] and [" ]"], separated by
    [", "]; ["[ ]"] when there is none. *)
Fixpoint items_text (items : list string) : string :=
  match items with
  | [] => EmptyString
  | [a] => a +:+ " ]"
  | a :: rest => a +:+ ", " +:+ items_text rest
  end.

Definition array_text (items : list string) : string :=
  match items with
  | [] => "[ ]"
  | _ => "[ " +:+ items_text items
  end.

Fixpoint cat_all (texts : list string) : string :=
  match texts with
  | [] => EmptyString
  | t :: rest => t +:+ cat_all rest
  end.

Section DataFile.
Variable fmt_6f : Qc → string.
Variable siteSpecificMap : list Qc.
Variable selectedBranchPairs : list Z.
Variable lst : nat.

Definition b1_of (ig : nat) : Z := default 0%Z (selectedBranchPairs !! (ig * 3)).
Definition b2_of (ig : nat) : Z := default 0%Z (selectedBranchPairs !! (ig * 3 + 1)).

(** The identifier [BP_<b1>x<b2>] and the quoted name of pair [ig]. *)
Definition pair_id (ig : nat) : string :=
  "BP_" +:+ fmt_d (b1_of ig) +:+ "x" +:+ fmt_d (b2_of ig).
Definition pair_name (ig : nat) : string :=
  dq +:+ "Branch Pair: " +:+ fmt_d (b1_of ig) +:+ ".." +:+ fmt_d (b2_of ig) +:+ dq.

(** The line of pair [ig]: its identifier and its site array. *)
Definition pair_line (ig : nat) : string :=
  makeupDataOutput
    ("[ " +:+ triples_text fmt_6f siteSpecificMap lst ig (kept_sites siteSpecificMap lst ig)
     +:+ "]") (pair_id ig)
  +:+ ";" +:+ nl.

(** The data file: the preamble, a line for every selected pair, and the
    three arrays that list the pairs. *)
Definition data_file_text (preamble : string) (num : nat) : string :=
  preamble
  +:+ cat_all (pair_line <$> seq 0 num)
  +:+ makeupDataOutput (array_text (pair_id <$> seq 0 num)) "siteSpecificBranchPairs"
  +:+ ";" +:+ nl
  +:+ makeupDataOutput (array_text (pair_name <$> seq 0 num)) "siteSpecificBranchPairsName"
  +:+ ";" +:+ nl
  +:+ makeupDataOutput (array_text ((λ ig, dq +:+ pair_id ig +:+ dq) <$> seq 0 num))
        "siteSpecificBranchPairsIDs"
  +:+ ";" +:+ nl.

(** The three summary buffers when the pairs below [ig] have been handled,
    and when all [num >= 1] pairs have. *)
Definition summary_at (ig : nat) : string * string * string :=
  ("[ " +:+ cat_all ((λ i, pair_id i +:+ ", ") <$> seq 0 ig),
   "[ " +:+ cat_all ((λ i, pair_name i +:+ ", ") <$> seq 0 ig),
   "[ " +:+ cat_all ((λ i, (dq +:+ pair_id i +:+ dq) +:+ ", ") <$> seq 0 ig)).

Definition summary_end (num : nat) : string * string * string :=
  (array_text (pair_id <$> seq 0 num),
   array_text (pair_name <$> seq 0 num),
   "[ " +:+ items_text ((λ i, dq +:+ pair_id i +:+ dq) <$> seq 0 num)).

End DataFile.





(** ** Inputs used below *)

(** A run directory with the five templates: the main page has the data
    marker, the others are plain. *)
Definition plain_page : string := "<html>" +:+ nl +:+ "</html>" +:+ nl.

Definition all_templates : fs :=
  {[ "UI/Template.html" := small_template;
     "UI/sheet-template.html" := plain_page;
     "UI/siteSpecific-template.html" := plain_page;
     "UI/rateVsDiversity-template.html" := plain_page;
     "UI/rateVsProbConvergence-template.html" := plain_page ]}.

End Pages.

(** * The emitter with the sizes of its buffers, and all of [outputDataInJS] *)

Module Buffers.
Import Regression Emit Pages.

(** ** Character buffers of a known size

    A buffer from [malloc(cap)] that holds a C string needs one byte for
    every character and one for the terminating NUL.  [strcpy], [strcat] and
    [sprintf] store the characters in order and the NUL last, so when the
    string does not fit, the first byte stored outside the buffer is the one
    at index [cap] ([malloc(0)] gives a buffer without any byte). *)
Definition store (name : string) (cap : nat) (text : string) : M string :=
  if decide (String.length text < cap) then mret text
  else inl (OutOfBounds name (Z.of_nat cap) cap).

Definition strcpy (name : string) (cap : nat) (src : string) : M string :=
  store name cap src.

(** [strcat(dest, src)] and [sprintf(dest + strlen(dest), ...)] with the
    formatted text [src]. *)
Definition strcat (name : string) (cap : nat) (dest src : string) : M string :=
  store name cap (dest +:+ src).

(** [buf[i] = '\0']. *)
Definition poke (name : string) (cap i : nat) : M unit :=
  if decide (i < cap) then mret ()
  else inl (OutOfBounds name (Z.of_nat i) cap).

(** ** [makeupDataOutput] (lines 60-71), with the sizes of its buffer

    [realloc] keeps the text and changes the size. *)
Definition makeupDataOutput (data type : string) : M string :=
  line ← strcpy "line" (1 + String.length type) type;
  line ← strcat "line" (String.length line + 4) line " = ";
  line ← strcat "line" (String.length line + String.length data + 1) line data;
  mret line.

(** ** The path of a page, [generateHTML] lines 74-85 *)
Definition html_path (htmlFileName : string) (moreFile : option string) : M string :=
  match moreFile with
  | None =>
      let cap := 9 + String.length htmlFileName in
      htmlFileNameFullPath ← strcpy "htmlFileNameFullPath" cap "UI/User/";
      htmlFileNameFullPath ←
        strcat "htmlFileNameFullPath" cap htmlFileNameFullPath htmlFileName;
      poke "htmlFileNameFullPath" cap (8 + String.length htmlFileName);;
      mret htmlFileNameFullPath
  | Some moreFile =>
      let cap := 9 + String.length moreFile in
      htmlFileNameFullPath ← strcpy "htmlFileNameFullPath" cap "UI/User/";
      htmlFileNameFullPath ←
        strcat "htmlFileNameFullPath" cap htmlFileNameFullPath moreFile;
      poke "htmlFileNameFullPath" cap (8 + String.length moreFile);;
      mret htmlFileNameFullPath
  end.

(** ** The names that [outputDataInJS] builds, lines 269-305

    The name of one of the four pages beside the main one (lines 282-305):
    a buffer of [extra + strlen(com.htmlFileName)] bytes, the NUL stored in
    its last byte, and the text [lead] followed by the name of the main
    page. *)
Definition page_name (buffer : string) (extra : nat) (lead htmlFileName : string)
    : M string :=
  let cap := extra + String.length htmlFileName in
  poke buffer cap (extra + String.length htmlFileName - 1);;
  name ← strcpy buffer cap lead;
  strcat buffer cap name htmlFileName.

(** The path [file] of the data file (lines 269-276).
    [strncpy(temp, com.htmlFileName, pos)] stores [pos] characters and line
    273 the NUL after them. *)
Definition file_name (htmlFileName : string) : M string :=
  match String.index 0 "." htmlFileName with
  | None => inl (NullPointer "strchr(com.htmlFileName, .)")
  | Some pos =>
      let cap := 16 + pos in
      temp ← store "temp" (pos + 1) (String.substring 0 pos htmlFileName);
      file ← strcpy "file" cap "UI/User/";
      file ← strcat "file" cap file temp;
      strcat "file" cap file "Data.js"
  end.

(** ** The arrays of the scatter plots, [outputDataInJS] lines 226-257 *)

Section Scatter.

(** [printf("%f", x)] of the C library; ["%.6f"] prints the same text. *)
Variable fmt_f : double → string.

(** [nodes[i].father], for the nodes of the tree. *)
Variable father : list Z.

Variables node1 node2 : list Z.
Variables pDivergent pAllConvergent : list Qc.
Variables numBranchPairs lst : nat.
Variable postNumSub : list Qc.
Variable siteClass : list Z.

(** The label of pair [ig] that lines 240 and 245 print. *)
Definition label (ig : nat) : M string :=
  n1 ← read "node1" node1 ig;
  f1 ← read_at "nodes" father n1;
  n2 ← read "node2" node2 ig;
  f2 ← read_at "nodes" father n2;
  mret (dq +:+ fmt_d f1 +:+ ".." +:+ fmt_d n1 +:+ " x "
        +:+ fmt_d f2 +:+ ".." +:+ fmt_d n2 +:+ dq).

(** Lines 238-240 with [tail = ", "] and lines 243-245 with no tail. *)
Definition pair_point (tail : string) (ig : nat) (st : string * string * string)
    : M (string * string * string) :=
  let '(xPoints, yPoints, labels) := st in
  d ← read "pDivergent" pDivergent ig;
  xPoints ← strcat "xPoints" (numBranchPairs * 20) xPoints (fmt_f (Fin d) +:+ tail);
  c ← read "pAllConvergent" pAllConvergent ig;
  yPoints ← strcat "yPoints" (numBranchPairs * 20) yPoints (fmt_f (Fin c) +:+ tail);
  l ← label ig;
  labels ← strcat "labels" (numBranchPairs * 25) labels (l +:+ tail);
  mret (xPoints, yPoints, labels).

(** Lines 251-252. *)
Definition site_point (h : nat) (st : string * string) : M (string * string) :=
  let '(xPostNumSub, ySiteClass) := st in
  p ← read "postNumSub" postNumSub h;
  xPostNumSub ← strcat "xPostNumSub" (lst * 20) xPostNumSub (fmt_f (Fin p) +:+ ", ");
  c ← read "siteClass" siteClass h;
  ySiteClass ← strcat "ySiteClass" (lst * 20) ySiteClass (fmt_d c +:+ ", ");
  mret (xPostNumSub, ySiteClass).

(** Lines 226-257.  After the first loop [ig] is [numBranchPairs - 1], or
    [0] when there is no pair. *)
Definition scatter_arrays : M (string * string * string * string * string) :=
  xPoints ← strcpy "xPoints" (numBranchPairs * 20) "[ ";
  yPoints ← strcpy "yPoints" (numBranchPairs * 20) "[ ";
  labels ← strcpy "labels" (numBranchPairs * 25) "[ ";
  xPostNumSub ← strcpy "xPostNumSub" (lst * 20) "[ ";
  ySiteClass ← strcpy "ySiteClass" (lst * 20) "[ ";
  st ← for_ 0 (numBranchPairs - 1) (pair_point ", ") (xPoints, yPoints, labels);
  let ig := numBranchPairs - 1 in
  '(xPoints, yPoints, labels) ← pair_point EmptyString ig st;
  xPoints ← strcat "xPoints" (numBranchPairs * 20) xPoints " ]";
  yPoints ← strcat "yPoints" (numBranchPairs * 20) yPoints " ]";
  labels ← strcat "labels" (numBranchPairs * 25) labels " ]";
  '(xPostNumSub, ySiteClass) ←
    for_ 0 (lst - 1) site_point (xPostNumSub, ySiteClass);
  p ← read_at "postNumSub" postNumSub (Z.of_nat lst - 1);
  xPostNumSub ← strcat "xPostNumSub" (lst * 20) xPostNumSub (fmt_f (Fin p));
  c ← read_at "siteClass" siteClass (Z.of_nat lst - 1);
  ySiteClass ← strcat "ySiteClass" (lst * 20) ySiteClass (fmt_d c);
  xPostNumSub ← strcat "xPostNumSub" (lst * 20) xPostNumSub " ]";
  ySiteClass ← strcat "ySiteClass" (lst * 20) ySiteClass " ]";
  mret (xPoints, yPoints, labels, xPostNumSub, ySiteClass).

(** *** The arrays, in words *)

Definition father_of (n : Z) : Z := default 0%Z (father !! Z.to_nat n).

Definition label_text (ig : nat) : string :=
  let n1 := default 0%Z (node1 !! ig) in
  let n2 := default 0%Z (node2 !! ig) in
  dq +:+ fmt_d (father_of n1) +:+ ".." +:+ fmt_d n1 +:+ " x "
     +:+ fmt_d (father_of n2) +:+ ".." +:+ fmt_d n2 +:+ dq.

Definition x_items : list string := (λ v, fmt_f (Fin v)) <$> take numBranchPairs pDivergent.
Definition y_items : list string :=
  (λ v, fmt_f (Fin v)) <$> take numBranchPairs pAllConvergent.
Definition label_items : list string := label_text <$> seq 0 numBranchPairs.
Definition rate_items : list string := (λ v, fmt_f (Fin v)) <$> take lst postNumSub.
Definition class_items : list string := fmt_d <$> take lst siteClass.

(** Every cell that lines 226-257 read exists. *)
Definition scatter_in_bounds : Prop :=
  numBranchPairs ≤ length pDivergent ∧ numBranchPairs ≤ length pAllConvergent
  ∧ numBranchPairs ≤ length node1 ∧ numBranchPairs ≤ length node2
  ∧ (∀ ig n, ig < numBranchPairs → node1 !! ig = Some n ∨ node2 !! ig = Some n →
             (0 ≤ n < Z.of_nat (length father))%Z)
  ∧ lst ≤ length postNumSub ∧ lst ≤ length siteClass.

(** Each array, with its NUL, is no longer than the buffer that line
    226-230 allocates for it. *)
Definition scatter_fits : Prop :=
  String.length (array_text x_items) < numBranchPairs * 20
  ∧ String.length (array_text y_items) < numBranchPairs * 20
  ∧ String.length (array_text label_items) < numBranchPairs * 25
  ∧ String.length (array_text rate_items) < lst * 20
  ∧ String.length (array_text class_items) < lst * 20.

(** Every value prints in at most 15 characters (as ["%f"] does for a value
    from 0 up to 10^8), every label in at most 20, and there is a pair and a
    site. *)
Definition scatter_widths : Prop :=
  1 ≤ numBranchPairs ∧ 1 ≤ lst
  ∧ (∀ s, s ∈ x_items ++ y_items ++ rate_items ++ class_items → String.length s ≤ 15)
  ∧ (∀ s, s ∈ label_items → String.length s ≤ 20).

End Scatter.

(** ** The site arrays and the lists of the selected pairs, lines 342-398 *)

Section Whole.

(** [printf("%f", x)] of the C library; ["%.6f"] prints the same text. *)
Variable fmt_f : double → string.

(** A [float] of the site map is promoted to [double] for ["%.6f"]. *)
Definition fmt_6f (x : Qc) : string := fmt_f (Fin x).

(** Lines 364-365 and 367-368. *)
Definition site_entry (siteSpecificMap : list Qc) (lst ig h : nat) (tail : string)
    (siteSpecificBP : string) : M string :=
  conv ← read "siteSpecificMap" siteSpecificMap (ig * lst * 2 + h * 2);
  nonzero ←
    (if decide (conv ≠ 0%Qc) then mret true
     else
       div ← read "siteSpecificMap" siteSpecificMap (ig * lst * 2 + h * 2 + 1);
       mret (bool_decide (div ≠ 0%Qc)));
  if nonzero : bool then
    conv ← read "siteSpecificMap" siteSpecificMap (ig * lst * 2 + h * 2);
    div ← read "siteSpecificMap" siteSpecificMap (ig * lst * 2 + h * 2 + 1);
    strcat "siteSpecificBP" (lst * 30) siteSpecificBP (triple_text fmt_6f h conv div tail)
  else mret siteSpecificBP.

(** Lines 361-369. *)
Definition siteSpecificBP (siteSpecificMap : list Qc) (lst ig : nat) : M string :=
  siteSpecificBP ← strcpy "siteSpecificBP" (lst * 30) "[ ";
  siteSpecificBP ←
    for_ 0 (lst - 1) (λ h siteSpecificBP,
      site_entry siteSpecificMap lst ig h ", " siteSpecificBP) siteSpecificBP;
  let h := lst - 1 in
  siteSpecificBP ← site_entry siteSpecificMap lst ig h " " siteSpecificBP;
  strcat "siteSpecificBP" (lst * 30) siteSpecificBP "]".

(** Lines 360-391, one iteration. *)
Definition pair_entry (dataFile : string) (siteSpecificMap : list Qc)
    (selectedBranchPairs : list Z) (numOfSelectedBranchPairs lst ig : nat)
    (summary : string * string * string) : IO (string * string * string) :=
  let '(siteSpecificBranchPairs, siteSpecificBranchPairsName,
        siteSpecificBranchPairsIDs) := summary in
  bp ← lift (siteSpecificBP siteSpecificMap lst ig);
  b1 ← lift (read "selectedBranchPairs" selectedBranchPairs (ig * 3));
  b2 ← lift (read "selectedBranchPairs" selectedBranchPairs (ig * 3 + 1));
  branchPairIDs ←
    lift (strcpy "branchPairIDs" 20 ("BP_" +:+ fmt_d b1 +:+ "x" +:+ fmt_d b2));
  branchPairNames ←
    lift (strcpy "branchPairNames" 30
            (dq +:+ "Branch Pair: " +:+ fmt_d b1 +:+ ".." +:+ fmt_d b2 +:+ dq));
  bp ← lift (makeupDataOutput bp branchPairIDs);
  fprintf dataFile (bp +:+ ";" +:+ nl);;
  let tail := if decide (ig < numOfSelectedBranchPairs - 1) then ", " else " ]" in
  siteSpecificBranchPairs ←
    lift (strcat "siteSpecificBranchPairs" (20 * numOfSelectedBranchPairs + 4)
            siteSpecificBranchPairs (branchPairIDs +:+ tail));
  siteSpecificBranchPairsName ←
    lift (strcat "siteSpecificBranchPairsName" (30 * numOfSelectedBranchPairs + 4)
            siteSpecificBranchPairsName (branchPairNames +:+ tail));
  siteSpecificBranchPairsIDs ←
    lift (strcat "siteSpecificBranchPairsIDs" (25 * numOfSelectedBranchPairs + 4)
            siteSpecificBranchPairsIDs (dq +:+ branchPairIDs +:+ dq +:+ tail));
  mret (siteSpecificBranchPairs, siteSpecificBranchPairsName,
        siteSpecificBranchPairsIDs).

Fixpoint pair_entries (dataFile : string) (siteSpecificMap : list Qc)
    (selectedBranchPairs : list Z) (numOfSelectedBranchPairs lst ig cnt : nat)
    (summary : string * string * string) : IO (string * string * string) :=
  match cnt with
  | 0 => mret summary
  | S c =>
      summary ← pair_entry dataFile siteSpecificMap selectedBranchPairs
                  numOfSelectedBranchPairs lst ig summary;
      pair_entries dataFile siteSpecificMap selectedBranchPairs
        numOfSelectedBranchPairs lst (S ig) c summary
  end.

(** Lines 343-353: the three lists before the loop. *)
Definition summary_start (numOfSelectedBranchPairs : nat)
    : M (string * string * string) :=
  let capacity := 20 * numOfSelectedBranchPairs + 4 in
  let capacityName := 30 * numOfSelectedBranchPairs + 4 in
  let capacityIDs := 25 * numOfSelectedBranchPairs + 4 in
  siteSpecificBranchPairs ← strcpy "siteSpecificBranchPairs" capacity "[ ";
  siteSpecificBranchPairsName ← strcpy "siteSpecificBranchPairsName" capacityName "[ ";
  siteSpecificBranchPairsIDs ← strcpy "siteSpecificBranchPairsIDs" capacityIDs "[ ";
  if decide (numOfSelectedBranchPairs = 0) then
    siteSpecificBranchPairs ←
      strcat "siteSpecificBranchPairs" capacity siteSpecificBranchPairs "]";
    siteSpecificBranchPairsName ←
      strcat "siteSpecificBranchPairsName" capacityName siteSpecificBranchPairsName "]";
    siteSpecificBranchPairsIDs ← strcpy "siteSpecificBranchPairsIDs" capacityIDs "[ ";
    mret (siteSpecificBranchPairs, siteSpecificBranchPairsName,
          siteSpecificBranchPairsIDs)
  else
    mret (siteSpecificBranchPairs, siteSpecificBranchPairsName,
          siteSpecificBranchPairsIDs).

(** ** [generateHTML] (lines 73-144), with the buffer of the path *)
Definition generateHTML (htmlFileName : string) (file templateFile : string)
    (moreFile : option string) (selectedBranchPairs : list Z)
    (numOfSelectedBranchPairs : nat) : IO unit :=
  htmlFileNameFullPath ← lift (html_path htmlFileName moreFile);
  template ← fopen_r templateFile;
  newHTML ← fopen_w htmlFileNameFullPath;
  match template with
  | None => lift (inl (NullStream templateFile))
  | Some text =>
      html_lines (String.length text) file selectedBranchPairs
        numOfSelectedBranchPairs newHTML text
  end.

(** ** [outputDataInJS] (lines 214-414), all of it *)

(** The text that [outputTreeInJson] returns.  It is built by the jansson
    library from the tree that codeml holds; neither is part of these
    sources. *)
Variable outputTreeInJson : string.

(** [nodes[i].father], for the nodes of that tree. *)
Variable father : list Z.

(** Lines 307-332. *)
Definition popup_text (sheetFile siteSpecificFile rateVsDiversityFile
    rateVsProbConvergenceFile : string) : string :=
  "function openSheetPopup() { " +:+ nl
  +:+ tab +:+ "    branchPairTab = window.open(" +:+ dq +:+ sheetFile +:+ dq +:+ ", "
      +:+ dq +:+ "branchPairTabViewer" +:+ dq +:+ ", strWindowFeatures);" +:+ nl
  +:+ tab +:+ "    var timer = setInterval(function() {" +:+ nl
  +:+ tab +:+ "    if(branchPairTab.closed) {  " +:+ nl
  +:+ tab +:+ "        clearInterval(timer);  " +:+ nl
  +:+ tab +:+ "        $(" +:+ dq +:+ ".hilighted" +:+ dq +:+ ").attr({ " +:+ nl
  +:+ tab +:+ "            fill: '#0000ff', " +:+ nl
  +:+ tab +:+ "            'fill-opacity': 0.3, " +:+ nl
  +:+ tab +:+ "            stroke: '#000000' " +:+ nl
  +:+ tab +:+ "        }); " +:+ nl
  +:+ tab +:+ "        $('.hilighted').each(function(i,v) { " +:+ nl
  +:+ tab +:+ "            t=$('#'+v.id).attr('class'); " +:+ nl
  +:+ tab +:+ "            $('#'+v.id).attr('class',t.replace(/ hilighted/g, " +:+ dq
      +:+ dq +:+ ")); " +:+ nl
  +:+ tab +:+ "        }) " +:+ nl
  +:+ tab +:+ "    }; " +:+ nl
  +:+ tab +:+ "    }, 1000); " +:+ nl
  +:+ "}" +:+ nl +:+ nl
  +:+ "function openSiteSpecificPopup() {" +:+ nl
  +:+ tab +:+ "    siteSpecificTab = window.open(" +:+ dq +:+ siteSpecificFile +:+ dq
      +:+ ",  " +:+ dq +:+ "siteSpecificTabViewer" +:+ dq +:+ ", strWindowFeatures);"
      +:+ nl
  +:+ "}" +:+ nl
  +:+ "function openRateVsDiversityPopup() {" +:+ nl
  +:+ tab +:+ "    siteSpecificTab = window.open(" +:+ dq +:+ rateVsDiversityFile +:+ dq
      +:+ ", " +:+ dq +:+ "rateVsDiversityTabViewer" +:+ dq +:+ ", strWindowFeatures);"
      +:+ nl
  +:+ "}" +:+ nl
  +:+ "function openRateVsProbConvergencePopup() {" +:+ nl
  +:+ tab +:+ "    siteSpecificTab = window.open(" +:+ dq +:+ rateVsProbConvergenceFile
      +:+ dq +:+ ", " +:+ dq +:+ "rateVsProbConvergenceTabViewer" +:+ dq
      +:+ ", strWindowFeatures);" +:+ nl
  +:+ "}" +:+ nl +:+ nl.

(** Lines 335-339. *)
Definition slope_text (k : double) : string :=
  "regressionSlope = " +:+ fmt_f k +:+ ";" +:+ nl.
Definition intercept_text (b : double) : string :=
  "regressionIntercept = " +:+ fmt_f b +:+ ";" +:+ nl.
Definition selected_text (numOfSelectedBranchPairs : nat) : string :=
  "numOfSelectedBranchPairs = " +:+ fmt_d (Z.of_nat numOfSelectedBranchPairs)
  +:+ ";" +:+ nl.
Definition sites_text (lst : nat) : string :=
  "numOfSites = " +:+ fmt_d (Z.of_nat lst) +:+ ";" +:+ nl.
Definition arrays_text (tree xPoints yPoints labels xPostNumSub ySiteClass : string)
    : string :=
  tree +:+ ";" +:+ nl +:+ xPoints +:+ ";" +:+ nl +:+ yPoints +:+ ";" +:+ nl
  +:+ labels +:+ ";" +:+ nl +:+ xPostNumSub +:+ ";" +:+ nl +:+ ySiteClass +:+ ";" +:+ nl.

Definition outputDataInJS (htmlFileName : string) (node1 node2 : list Z)
    (pDivergent pAllConvergent : list Qc) (siteSpecificMap : list Qc)
    (selectedBranchPairs : list Z) (numOfSelectedBranchPairs numBranchPairs lst : nat)
    (postNumSub : list Qc) (siteClass : list Z) : IO unit :=
  '(k, b) ← lift (calculateRegression pDivergent pAllConvergent numBranchPairs);
  '(xPoints, yPoints, labels, xPostNumSub, ySiteClass) ←
    lift (scatter_arrays fmt_f father node1 node2 pDivergent pAllConvergent
            numBranchPairs lst postNumSub siteClass);
  let tree := outputTreeInJson in
  tree ← lift (makeupDataOutput tree "tree");
  xPoints ← lift (makeupDataOutput xPoints "xPoints");
  yPoints ← lift (makeupDataOutput yPoints "yPoints");
  labels ← lift (makeupDataOutput labels "labels");
  xPostNumSub ← lift (makeupDataOutput xPostNumSub "xPostNumSub");
  ySiteClass ← lift (makeupDataOutput ySiteClass "ySiteClass");
  file ← lift (file_name htmlFileName);
  dataFile ← fopen_w file;
  sheetFile ← lift (page_name "sheetFile" 7 "sheet-" htmlFileName);
  siteSpecificFile ←
    lift (page_name "siteSpecificFile" 14 "siteSpecific-" htmlFileName);
  rateVsDiversityFile ←
    lift (page_name "rateVsDiversityFile" 17 "rateVsDiversity-" htmlFileName);
  rateVsProbConvergenceFile ←
    lift (page_name "rateVsProbConvergenceFile" 23 "rateVsProbConvergence-"
            htmlFileName);
  fprintf dataFile
    (popup_text sheetFile siteSpecificFile rateVsDiversityFile
       rateVsProbConvergenceFile);;
  fprintf dataFile (slope_text k);;
  fprintf dataFile (intercept_text b);;
  fprintf dataFile (selected_text numOfSelectedBranchPairs);;
  fprintf dataFile (sites_text lst);;
  fprintf dataFile (arrays_text tree xPoints yPoints labels xPostNumSub ySiteClass);;
  summary ← lift (summary_start numOfSelectedBranchPairs);
  '(siteSpecificBranchPairs, siteSpecificBranchPairsName, siteSpecificBranchPairsIDs) ←
    pair_entries dataFile siteSpecificMap selectedBranchPairs
      numOfSelectedBranchPairs lst 0 numOfSelectedBranchPairs summary;
  siteSpecificBranchPairsIDs ←
    (if decide (numOfSelectedBranchPairs = 0)
     then lift (strcat "siteSpecificBranchPairsIDs" (25 * numOfSelectedBranchPairs + 4)
                  siteSpecificBranchPairsIDs "]")
     else mret siteSpecificBranchPairsIDs);
  siteSpecificBranchPairs ←
    lift (makeupDataOutput siteSpecificBranchPairs "siteSpecificBranchPairs");
  siteSpecificBranchPairsName ←
    lift (makeupDataOutput siteSpecificBranchPairsName "siteSpecificBranchPairsName");
  siteSpecificBranchPairsIDs ←
    lift (makeupDataOutput siteSpecificBranchPairsIDs "siteSpecificBranchPairsIDs");
  fprintf dataFile (siteSpecificBranchPairs +:+ ";" +:+ nl);;
  fprintf dataFile (siteSpecificBranchPairsName +:+ ";" +:+ nl);;
  fprintf dataFile (siteSpecificBranchPairsIDs +:+ ";" +:+ nl);;
  (* fclose(dataFile); *)
  generateHTML htmlFileName file "UI/Template.html" None [] 0;;
  generateHTML htmlFileName file "UI/sheet-template.html" (Some sheetFile) [] 0;;
  generateHTML htmlFileName file "UI/siteSpecific-template.html"
    (Some siteSpecificFile) selectedBranchPairs numOfSelectedBranchPairs;;
  generateHTML htmlFileName file "UI/rateVsDiversity-template.html"
    (Some rateVsDiversityFile) [] 0;;
  generateHTML htmlFileName file "UI/rateVsProbConvergence-template.html"
    (Some rateVsProbConvergenceFile) selectedBranchPairs numOfSelectedBranchPairs.

(** *** The text before the site arrays, and when the buffers are large enough *)

Definition preamble_text (htmlFileName : string) (k b : double)
    (numOfSelectedBranchPairs lst : nat) (arrays : string * string * string * string * string)
    : string :=
  let '(xPoints, yPoints, labels, xPostNumSub, ySiteClass) := arrays in
  popup_text ("sheet-" +:+ htmlFileName) ("siteSpecific-" +:+ htmlFileName)
    ("rateVsDiversity-" +:+ htmlFileName) ("rateVsProbConvergence-" +:+ htmlFileName)
  +:+ slope_text k +:+ intercept_text b
  +:+ selected_text numOfSelectedBranchPairs +:+ sites_text lst
  +:+ arrays_text (Emit.makeupDataOutput outputTreeInJson "tree")
        (Emit.makeupDataOutput xPoints "xPoints")
        (Emit.makeupDataOutput yPoints "yPoints")
        (Emit.makeupDataOutput labels "labels")
        (Emit.makeupDataOutput xPostNumSub "xPostNumSub")
        (Emit.makeupDataOutput ySiteClass "ySiteClass").

(** The site array of pair [ig], and the conditions under which every
    buffer of lines 342-398 is large enough for the text it receives. *)
Definition site_array_text (siteSpecificMap : list Qc) (lst ig : nat) : string :=
  "[ " +:+ triples_text fmt_6f siteSpecificMap lst ig (kept_sites siteSpecificMap lst ig)
  +:+ "]".

Definition pairs_fit (siteSpecificMap : list Qc) (selectedBranchPairs : list Z)
    (num lst : nat) : Prop :=
  (∀ ig, ig < num →
     String.length (site_array_text siteSpecificMap lst ig) < lst * 30
     ∧ String.length (pair_id selectedBranchPairs ig) < 20
     ∧ String.length (pair_name selectedBranchPairs ig) < 30)
  ∧ String.length (array_text (pair_id selectedBranchPairs <$> seq 0 num)) < 20 * num + 4
  ∧ String.length (array_text (pair_name selectedBranchPairs <$> seq 0 num))
    < 30 * num + 4
  ∧ String.length
      (array_text ((λ ig, dq +:+ pair_id selectedBranchPairs ig +:+ dq) <$> seq 0 num))
    < 25 * num + 4.

End Whole.

(** ** An array that is built item by item

    The buffer when the items below [k] have been appended, each followed
    by [", "]. *)
Definition prefix_text (items : list string) (k : nat) : string :=
  "[ " +:+ cat_all ((λ a, a +:+ ", ") <$> take k items).

(** ** Inputs used below *)

(** A stand-in for ["%f"]: the sign and a fixed fraction. *)
Definition fmt_sign_f (x : double) : string :=
  match x with
  | Fin q => if decide (q = 0%Qc) then "0.000000" else "x.xxxxxx"
  | PInf => "inf"
  | NInf => "-inf"
  | NaN => "nan"
  end.

(** A tree of five nodes with root 4, and its two branch pairs. *)
Definition five_fathers : list Z := [3; 3; 4; 4; -1]%Z.
Definition two_node1 : list Z := [0; 1]%Z.
Definition two_node2 : list Z := [2; 2]%Z.
Definition two_x : list Qc := [Q2Qc (1 # 2); 0%Qc].
Definition two_y : list Qc := [0%Qc; Q2Qc (1 # 4)].
Definition three_rates : list Qc := [Q2Qc (1 # 2); 0%Qc; Q2Qc (3 # 2)].
Definition three_classes : list Z := [0; 1; 0]%Z.

(** One selected pair, the branches 0 and 2, and the files of a run
    directory in which the data file has just been opened. *)
Definition one_selected : list Z := [0; 2; 0]%Z.
Definition opened : fs := {[ "UI/User/outData.js" := EmptyString ]}.

End Buffers.

(** * The tree in JSON: [build_tree], [outputTreeInJson] *)

Module Tree.
Import Regression.

(** ** The tree of codeml

    The fields of a node ([struct TREEN] of PAML, with the [name] and
    [nodeID] that this program adds) that JDKLabUtility.c uses; [sons] is
    the array of the struct, [nson] the number of its cells in use. *)
Record TREEN : Type := Node {
  father : Z;
  nson : Z;
  sons : list Z;
  branch : double;
  name : string;
  nodeID : Z
}.

(** ** The jansson calls of [build_tree]

    A JSON object or array is a cell of a heap and is used through a
    reference, so that a change made through one reference is seen through
    every other; a number or a string is never changed once made and stands
    for itself.  A value that jansson does not make is NULL, here [None]:
    [json_real] makes none of a NaN or an infinity, [json_string] none of a
    text that is not valid UTF-8.  [json_object()] and [json_array()] make
    a new empty cell.  [json_object_set_new] and [json_array_append] return
    -1 and do nothing when the first argument is not an object or not an
    array; [json_object_set_new] does the same for a value that is NULL
    (its keys here are the four ASCII literals of [build_tree]).  A failed
    allocation is not modelled, and neither are reference counts: after
    [json_array_append(json_t_child, child)] the array holds a reference to
    [child], so [json_decref(child)] frees nothing. *)
Inductive json_t : Type :=
  | Real (value : Qc)
  | Text (value : string)
  | Integer (value : Z)
  | At (reference : nat).

Inductive cell : Type :=
  | Object (members : gmap string json_t)
  | Array (elements : list json_t).

Abbreviation heap := (list cell).

Definition json_object (h : heap) : nat * heap := (length h, h ++ [Object ∅]).
Definition json_array (h : heap) : nat * heap := (length h, h ++ [Array []]).

Definition json_real (value : double) : option json_t :=
  match value with
  | Fin q => Some (Real q)
  | PInf | NInf | NaN => None
  end.

Definition json_integer (value : Z) : option json_t := Some (Integer value).

Definition json_object_set_new (h : heap) (object : nat) (key : string)
    (value : option json_t) : heap :=
  match value, h !! object with
  | Some value, Some (Object members) =>
      <[object := Object (<[key := value]> members)]> h
  | _, _ => h
  end.

Definition json_array_append (h : heap) (array : nat) (value : json_t) : heap :=
  match h !! array with
  | Some (Array elements) => <[array := Array (elements ++ [value])]> h
  | _ => h
  end.

Section Jansson.

(** The check of jansson that a text is valid UTF-8; the library is not
    part of these sources. *)
Variable utf8 : string → bool.

Definition json_string (value : string) : option json_t :=
  if utf8 value then Some (Text value) else None.

(** ** [build_tree] (lines 18-33) *)

(** Lines 26-32: the loop over the sons from the son [i] on, with [cnt]
    sons to go; [build_son] is the recursive call of line 29. *)
Fixpoint children (build_son : Z → nat → heap → option (M heap)) (sons : list Z)
    (json_t_child : nat) (i cnt : nat) (h : heap) : option (M heap) :=
  match cnt with
  | 0 => Some (inr h)
  | S cnt' =>
      let '(child, h) := json_object h in
      let h := json_array_append h json_t_child (At child) in
      match read "sons" sons i with
      | inl e => Some (inl e)
      | inr son =>
          match build_son son child h with
          | Some (inr h) =>
              (* json_decref(child); *)
              children build_son sons json_t_child (S i) cnt' h
          | stopped => stopped
          end
      end
  end.

(** The recursion of the source follows the [sons] of the nodes and ends
    when they form a tree; [fuel] bounds its depth, and [None] says that
    the bound was too small. *)
Fixpoint build_tree (fuel : nat) (nodes : list TREEN) (tree_node : Z) (json_node : nat)
    (h : heap) : option (M heap) :=
  match fuel with
  | 0 => None
  | S fuel' =>
      match read_at "nodes" nodes tree_node with
      | inl e => Some (inl e)
      | inr node =>
          let h := json_object_set_new h json_node "length" (json_real (branch node)) in
          let h := json_object_set_new h json_node "name" (json_string (name node)) in
          let h := json_object_set_new h json_node "id" (json_integer (nodeID node)) in
          if decide (0 < nson node)%Z then
            let '(json_t_child, h) := json_array h in
            let h :=
              json_object_set_new h json_node "children" (Some (At json_t_child)) in
            children (build_tree fuel' nodes) (sons node) json_t_child
              0 (Z.to_nat (nson node)) h
          else Some (inr h)
      end
  end.

(** ** [outputTreeInJson] (lines 36-57) *)

(** Lines 39-46, for the node [i]; [spname] is [com.spname]. *)
Definition relabel (spname : list string) (i : nat) (nodes : list TREEN)
    : M (list TREEN) :=
  node ← read "nodes" nodes i;
  nodes ←
    (if decide (nson node = 0%Z) then
       species ← read "com.spname" spname i;
       write "nodes" nodes i
         (Node (father node) (nson node) (sons node) (branch node) species (Z.of_nat i))
     else mret nodes);
  node ← read "nodes" nodes i;
  if decide (0 < nson node)%Z then
    if decide (father node = (-1)%Z) then
      write "nodes" nodes i
        (Node (father node) (nson node) (sons node) (Fin 0) "Root" (Z.of_nat i))
    else
      write "nodes" nodes i
        (Node (father node) (nson node) (sons node) (branch node) "Internal" (Z.of_nat i))
  else mret nodes.

(** The nodes as relabelled, and the JSON value that line 52 hands to
    [json_dumps]: the reference [json_root] and the heap.  [nnode] is
    [tree.nnode], [root] is [tree.root]. *)
Definition outputTreeInJson (fuel : nat) (spname : list string) (nnode : nat) (root : Z)
    (nodes : list TREEN) : option (M (list TREEN * nat * heap)) :=
  match for_ 0 nnode (relabel spname) nodes with
  | inl e => Some (inl e)
  | inr nodes =>
      let '(json_root, h) := json_object [] in
      match build_tree fuel nodes root json_root h with
      | None => None
      | Some (inl e) => Some (inl e)
      | Some (inr h) => Some (inr (nodes, json_root, h))
      end
  end.

(** ** The words for the statements *)

(** The sons of the node [tree_node] and of the nodes below it exist, down
    to less than [depth] levels. *)
Fixpoint well_formed (depth : nat) (nodes : list TREEN) (tree_node : Z) : bool :=
  match depth with
  | 0 => false
  | S depth' =>
      match (if decide (0 ≤ tree_node)%Z then nodes !! Z.to_nat tree_node else None) with
      | None => false
      | Some node =>
          if decide (0 < nson node)%Z then
            bool_decide (Z.to_nat (nson node) ≤ length (sons node))
            && forallb (well_formed depth' nodes) (take (Z.to_nat (nson node)) (sons node))
          else true
      end
  end.

(** The members of the object of a node, apart from [children]: [id]
    always, [length] when the branch length is a finite number, [name] when
    the name is valid UTF-8. *)
Definition members_of (node : TREEN) : gmap string json_t :=
  let with_length : gmap string json_t :=
    match branch node with
    | Fin q => {[ "length" := Real q ]}
    | PInf | NInf | NaN => ∅
    end in
  let with_name : gmap string json_t :=
    if utf8 (name node) then <["name" := Text (name node)]> with_length
    else with_length in
  <["id" := Integer (nodeID node)]> with_name.

(** The object at [l] is the node [tree_node]: it has the members of the
    node; for a node without sons nothing else, for a node with sons also
    [children], an array with one object for each son in order, each of
    which is that son in the same way.  The array and the objects below [l]
    are at references from [lo] on. *)
Fixpoint mirrors (depth : nat) (nodes : list TREEN) (h : heap) (lo : nat)
    (tree_node : Z) (l : nat) : Prop :=
  match depth with
  | 0 => False
  | S depth' =>
      ∃ node, (0 ≤ tree_node)%Z ∧ nodes !! Z.to_nat tree_node = Some node ∧
        if decide (0 < nson node)%Z then
          ∃ (a : nat) (cs : list nat),
            lo ≤ a
            ∧ h !! l = Some (Object (<["children" := At a]> (members_of node)))
            ∧ h !! a = Some (Array (At <$> cs))
            ∧ Forall2 (λ son c, lo ≤ c ∧ mirrors depth' nodes h lo son c)
                (take (Z.to_nat (nson node)) (sons node)) cs
        else h !! l = Some (Object (members_of node))
  end.

(** What the recursive call does for a well-formed son. *)
Definition builds (depth : nat) (nodes : list TREEN)
    (build_son : Z → nat → heap → option (M heap)) : Prop :=
  ∀ son c (h : heap),
    well_formed depth nodes son = true → h !! c = Some (Object ∅) →
    ∃ h', build_son son c h = Some (inr h')
          ∧ mirrors depth nodes h' (length h) son c
          ∧ length h ≤ length h'
          ∧ (∀ x, x < length h → x ≠ c → h' !! x = h !! x).

End Jansson.

(** What lines 39-46 make of the node [i]. *)
Definition labelled (spname : list string) (i : nat) (node : TREEN) : TREEN :=
  if decide (nson node = 0%Z) then
    Node (father node) (nson node) (sons node) (branch node)
      (default EmptyString (spname !! i)) (Z.of_nat i)
  else if decide (0 < nson node)%Z then
    if decide (father node = (-1)%Z) then
      Node (father node) (nson node) (sons node) (Fin 0) "Root" (Z.of_nat i)
    else
      Node (father node) (nson node) (sons node) (branch node) "Internal" (Z.of_nat i)
  else node.

Definition relabelled (spname : list string) (nnode : nat) (nodes : list TREEN)
    : list TREEN :=
  imap (λ i node, if decide (i < nnode) then labelled spname i node else node) nodes.

(** ** Inputs used below *)

(** Two species under a root. *)
Definition cherry : list TREEN :=
  [ Node 2 0 [] (Fin (Q2Qc (1 # 10))) EmptyString 0;
    Node 2 0 [] (Fin (Q2Qc (2 # 10))) EmptyString 0;
    Node (-1) 2 [0; 1] (Fin (Q2Qc (3 # 10))) EmptyString 0 ]%Z.
Definition cherry_species : list string := ["human"; "mouse"].

(** A stand-in for the UTF-8 check on the names used below, which are
    ASCII: no byte has its high bit set. *)
Fixpoint ascii_only (s : string) : bool :=
  match s with
  | EmptyString => true
  | String (Ascii _ _ _ _ _ _ _ high) rest => negb high && ascii_only rest
  end.

End Tree.

(** * The site array of a selected pair, in words *)

Module SiteTriples.

(** ** The site array of a selected pair, in the words of the claim

    Nothing here is taken from the emitter: the text is written from what
    the data file is to show. *)

Section Claim.

(** The text of a value printed with six decimals. *)
Variable six_decimals : Qc → string.

Variable siteSpecificMap : list Qc.
Variables lst ig : nat.

(** The convergence and the divergence value of site [h] of pair [ig]. *)
Definition conv (h : nat) : Qc :=
  default 0%Qc (siteSpecificMap !! (ig * lst * 2 + h * 2)).
Definition div (h : nat) : Qc :=
  default 0%Qc (siteSpecificMap !! (ig * lst * 2 + h * 2 + 1)).

(** The triple [[h, conv, div]]. *)
Definition triple (h : nat) : string :=
  "[" +:+ pretty (Z.of_nat h) +:+ ", " +:+ six_decimals (conv h) +:+ ", "
  +:+ six_decimals (div h) +:+ "]".

(** What the array shows of site [h]: its triple if and only if [conv ≠ 0]
    or [div ≠ 0], and nothing otherwise.  A triple is followed by [", "],
    the one of the last site [lst - 1] by [" "]. *)
Definition shown (h : nat) : string :=
  if decide (conv h ≠ 0%Qc ∨ div h ≠ 0%Qc)
  then triple h +:+ (if decide (h = lst - 1) then " " else ", ")
  else EmptyString.

(** The array: what it shows of the sites [0, ..., lst - 1] in order,
    between ["[ "] and ["]"]. *)
Definition site_array : string :=
  "[ " +:+ foldr (λ h rest, shown h +:+ rest) "]" (seq 0 lst).

End Claim.

End SiteTriples.

(** * The emitter as the program runs it: sized buffers, and an [fopen] that can fail *)

Module Program.
Import Regression Emit Pages Buffers.

(** ** The stdio calls, with a [fopen] that can fail

    The emitter of [Buffers], now with streams that can be NULL.
    [fopen(path, "w")] returns NULL when the file cannot be created or
    truncated (no directory [UI/User/], no permission, a directory of that
    name); whether it can is a property of the file system beside the texts
    of its files.  The program never tests a stream: [fprintf] and [fclose]
    on NULL are faults, as [fgets] on NULL already is. *)

Section Stdio.

Variable can_write : string → bool.

Definition fopen_w (path : string) : IO (option string) :=
  λ σ, if can_write path then (inr (Some path), <[path := EmptyString]> σ)
       else (inr None, σ).

Definition fprintf (stream : option string) (text : string) : IO unit :=
  match stream with
  | Some path => Emit.fprintf path text
  | None => lift (inl (NullPointer "fprintf(NULL, ...)"))
  end.

Definition fclose (stream : option string) : IO unit :=
  match stream with
  | Some _ => mret ()
  | None => lift (inl (NullPointer "fclose(NULL)"))
  end.

(** ** [generateHTML] (lines 73-144) *)

(** The body of the [for(;;)] loop after a successful [fgets] (lines 95-139). *)
Definition html_line (file : string) (selectedBranchPairs : list Z)
    (numOfSelectedBranchPairs : nat) (newHTML : option string) (line : string)
    : IO unit :=
  fprintf newHTML line;;
  (if strstr line "@dataTag" is Some _ then
     match strstr file "User/" with
     | Some p =>
         fprintf newHTML
           ("<script src=" +:+ dq +:+ string_drop 5 p +:+ dq +:+ "></script>" +:+ nl)
     | None => lift (inl (NullPointer "strstr(file, User/)"))
     end
   else mret ());;
  (if strstr line "@tableAndPlot" is Some _ then
     for_io 0 numOfSelectedBranchPairs (λ i,
       b1 ← lift (read "selectedBranchPairs" selectedBranchPairs (i * 3));
       b2 ← lift (read "selectedBranchPairs" selectedBranchPairs (i * 3 + 1));
       fprintf newHTML (table_and_plot_text b1 b2));;
     (if decide (numOfSelectedBranchPairs = 0)
      then fprintf newHTML placeholder_text else mret ())
   else mret ());;
  (if strstr line "@rateVsDivPlot" is Some _ then
     for_io 0 numOfSelectedBranchPairs (λ i,
       b1 ← lift (read "selectedBranchPairs" selectedBranchPairs (i * 3));
       b2 ← lift (read "selectedBranchPairs" selectedBranchPairs (i * 3 + 1));
       fprintf newHTML (table_and_plot_text b1 b2))
   else mret ());;
  (if strstr line "@plot" is Some _ then
     for_io 0 numOfSelectedBranchPairs (λ i,
       b1 ← lift (read "selectedBranchPairs" selectedBranchPairs (i * 3));
       b2 ← lift (read "selectedBranchPairs" selectedBranchPairs (i * 3 + 1));
       fprintf newHTML (plot_text b1 b2));;
     (if decide (numOfSelectedBranchPairs = 0)
      then fprintf newHTML placeholder_text else mret ())
   else mret ()).

(** The [for(;;)] loop (lines 93-140) on the text still to be read.  Each
    successful [fgets] takes at least one character, so [fuel] equal to the
    length of the template never runs out. *)
Fixpoint html_lines (fuel : nat) (file : string) (selectedBranchPairs : list Z)
    (numOfSelectedBranchPairs : nat) (newHTML : option string) (template : string)
    : IO unit :=
  match fuel with
  | 0 => mret ()
  | S fuel' =>
      let '(line, rest) := fgets 1023 template in
      if decide (line = EmptyString) then mret ()    (* fgets returned NULL *)
      else
        html_line file selectedBranchPairs numOfSelectedBranchPairs newHTML line;;
        html_lines fuel' file selectedBranchPairs numOfSelectedBranchPairs newHTML rest
  end.

(** Lines 74-143.  [fclose(template)] is reached with a template that is
    not NULL only. *)
Definition generateHTML (htmlFileName : string) (file templateFile : string)
    (moreFile : option string) (selectedBranchPairs : list Z)
    (numOfSelectedBranchPairs : nat) : IO unit :=
  htmlFileNameFullPath ← lift (html_path htmlFileName moreFile);
  template ← fopen_r templateFile;
  newHTML ← fopen_w htmlFileNameFullPath;
  match template with
  | None => lift (inl (NullStream templateFile))    (* fgets(line, lline, NULL) *)
  | Some text =>
      html_lines (String.length text) file selectedBranchPairs
        numOfSelectedBranchPairs newHTML text;;
      fclose newHTML
  end.

(** ** [outputDataInJS] (lines 214-414) *)

Section Emitter.

(** [printf("%f", x)] of the C library. *)
Variable fmt_f : double → string.

(** The text that [outputTreeInJson] returns, and [nodes[i].father] for the
    nodes of the tree. *)
Variable outputTreeInJson : string.
Variable father : list Z.

(** Lines 360-391, one iteration. *)
Definition pair_entry (dataFile : option string) (siteSpecificMap : list Qc)
    (selectedBranchPairs : list Z) (numOfSelectedBranchPairs lst ig : nat)
    (summary : string * string * string) : IO (string * string * string) :=
  let '(siteSpecificBranchPairs, siteSpecificBranchPairsName,
        siteSpecificBranchPairsIDs) := summary in
  bp ← lift (siteSpecificBP fmt_f siteSpecificMap lst ig);
  b1 ← lift (read "selectedBranchPairs" selectedBranchPairs (ig * 3));
  b2 ← lift (read "selectedBranchPairs" selectedBranchPairs (ig * 3 + 1));
  branchPairIDs ←
    lift (strcpy "branchPairIDs" 20 ("BP_" +:+ fmt_d b1 +:+ "x" +:+ fmt_d b2));
  branchPairNames ←
    lift (strcpy "branchPairNames" 30
            (dq +:+ "Branch Pair: " +:+ fmt_d b1 +:+ ".." +:+ fmt_d b2 +:+ dq));
  bp ← lift (makeupDataOutput bp branchPairIDs);
  fprintf dataFile (bp +:+ ";" +:+ nl);;
  let tail := if decide (ig < numOfSelectedBranchPairs - 1) then ", " else " ]" in
  siteSpecificBranchPairs ←
    lift (strcat "siteSpecificBranchPairs" (20 * numOfSelectedBranchPairs + 4)
            siteSpecificBranchPairs (branchPairIDs +:+ tail));
  siteSpecificBranchPairsName ←
    lift (strcat "siteSpecificBranchPairsName" (30 * numOfSelectedBranchPairs + 4)
            siteSpecificBranchPairsName (branchPairNames +:+ tail));
  siteSpecificBranchPairsIDs ←
    lift (strcat "siteSpecificBranchPairsIDs" (25 * numOfSelectedBranchPairs + 4)
            siteSpecificBranchPairsIDs (dq +:+ branchPairIDs +:+ dq +:+ tail));
  mret (siteSpecificBranchPairs, siteSpecificBranchPairsName,
        siteSpecificBranchPairsIDs).

Fixpoint pair_entries (dataFile : option string) (siteSpecificMap : list Qc)
    (selectedBranchPairs : list Z) (numOfSelectedBranchPairs lst ig cnt : nat)
    (summary : string * string * string) : IO (string * string * string) :=
  match cnt with
  | 0 => mret summary
  | S c =>
      summary ← pair_entry dataFile siteSpecificMap selectedBranchPairs
                  numOfSelectedBranchPairs lst ig summary;
      pair_entries dataFile siteSpecificMap selectedBranchPairs
        numOfSelectedBranchPairs lst (S ig) c summary
  end.


Definition outputDataInJS (htmlFileName : string) (node1 node2 : list Z)
    (pDivergent pAllConvergent : list Qc) (siteSpecificMap : list Qc)
    (selectedBranchPairs : list Z) (numOfSelectedBranchPairs numBranchPairs lst : nat)
    (postNumSub : list Qc) (siteClass : list Z) : IO unit :=
  '(k, b) ← lift (calculateRegression pDivergent pAllConvergent numBranchPairs);
  '(xPoints, yPoints, labels, xPostNumSub, ySiteClass) ←
    lift (scatter_arrays fmt_f father node1 node2 pDivergent pAllConvergent
            numBranchPairs lst postNumSub siteClass);
  let tree := outputTreeInJson in
  tree ← lift (makeupDataOutput tree "tree");
  xPoints ← lift (makeupDataOutput xPoints "xPoints");
  yPoints ← lift (makeupDataOutput yPoints "yPoints");
  labels ← lift (makeupDataOutput labels "labels");
  xPostNumSub ← lift (makeupDataOutput xPostNumSub "xPostNumSub");
  ySiteClass ← lift (makeupDataOutput ySiteClass "ySiteClass");
  file ← lift (file_name htmlFileName);
  dataFile ← fopen_w file;
  sheetFile ← lift (page_name "sheetFile" 7 "sheet-" htmlFileName);
  siteSpecificFile ←
    lift (page_name "siteSpecificFile" 14 "siteSpecific-" htmlFileName);
  rateVsDiversityFile ←
    lift (page_name "rateVsDiversityFile" 17 "rateVsDiversity-" htmlFileName);
  rateVsProbConvergenceFile ←
    lift (page_name "rateVsProbConvergenceFile" 23 "rateVsProbConvergence-"
            htmlFileName);
  fprintf dataFile
    (popup_text sheetFile siteSpecificFile rateVsDiversityFile
       rateVsProbConvergenceFile);;
  fprintf dataFile (slope_text fmt_f k);;
  fprintf dataFile (intercept_text fmt_f b);;
  fprintf dataFile (selected_text numOfSelectedBranchPairs);;
  fprintf dataFile (sites_text lst);;
  fprintf dataFile (arrays_text tree xPoints yPoints labels xPostNumSub ySiteClass);;
  summary ← lift (summary_start numOfSelectedBranchPairs);
  '(siteSpecificBranchPairs, siteSpecificBranchPairsName, siteSpecificBranchPairsIDs) ←
    pair_entries dataFile siteSpecificMap selectedBranchPairs
      numOfSelectedBranchPairs lst 0 numOfSelectedBranchPairs summary;
  siteSpecificBranchPairsIDs ←
    (if decide (numOfSelectedBranchPairs = 0)
     then lift (strcat "siteSpecificBranchPairsIDs" (25 * numOfSelectedBranchPairs + 4)
                  siteSpecificBranchPairsIDs "]")
     else mret siteSpecificBranchPairsIDs);
  siteSpecificBranchPairs ←
    lift (makeupDataOutput siteSpecificBranchPairs "siteSpecificBranchPairs");
  siteSpecificBranchPairsName ←
    lift (makeupDataOutput siteSpecificBranchPairsName "siteSpecificBranchPairsName");
  siteSpecificBranchPairsIDs ←
    lift (makeupDataOutput siteSpecificBranchPairsIDs "siteSpecificBranchPairsIDs");
  fprintf dataFile (siteSpecificBranchPairs +:+ ";" +:+ nl);;
  fprintf dataFile (siteSpecificBranchPairsName +:+ ";" +:+ nl);;
  fprintf dataFile (siteSpecificBranchPairsIDs +:+ ";" +:+ nl);;
  fclose dataFile;;
  generateHTML htmlFileName file "UI/Template.html" None [] 0;;
  generateHTML htmlFileName file "UI/sheet-template.html" (Some sheetFile) [] 0;;
  generateHTML htmlFileName file "UI/siteSpecific-template.html"
    (Some siteSpecificFile) selectedBranchPairs numOfSelectedBranchPairs;;
  generateHTML htmlFileName file "UI/rateVsDiversity-template.html"
    (Some rateVsDiversityFile) [] 0;;
  generateHTML htmlFileName file "UI/rateVsProbConvergence-template.html"
    (Some rateVsProbConvergenceFile) selectedBranchPairs numOfSelectedBranchPairs.

End Emitter.

End Stdio.

(** ** The words for the statements *)

(** The name of a file in a directory: not empty, not [.] or [..], and
    without [/]. *)
Definition entry_name (name : string) : Prop :=
  name ≠ EmptyString ∧ name ≠ "." ∧ name ≠ ".." ∧ lacks "/" name.

(** The path names an entry of the directory [UI/User]. *)
Definition in_user (p : string) : Prop :=
  ∃ name, p = "UI/User/" +:+ name ∧ entry_name name.

(** The data file, in words.  Nothing here is taken from the emitter but
    [preamble], the text that lines 307-340 write. *)
Section Words.
Variable six_decimals : Qc → string.
Variable siteSpecificMap : list Qc.
Variable selectedBranchPairs : list Z.
Variable lst : nat.

Definition newline : string := String "010"%char EmptyString.
Definition quote : string := String "034"%char EmptyString.

(** The two branches of the selected pair [ig]. *)
Definition first_branch (ig : nat) : Z := default 0%Z (selectedBranchPairs !! (ig * 3)).
Definition second_branch (ig : nat) : Z :=
  default 0%Z (selectedBranchPairs !! (ig * 3 + 1)).

Definition identifier (ig : nat) : string :=
  "BP_" +:+ pretty (first_branch ig) +:+ "x" +:+ pretty (second_branch ig).
Definition quoted_name (ig : nat) : string :=
  quote +:+ "Branch Pair: " +:+ pretty (first_branch ig) +:+ ".."
  +:+ pretty (second_branch ig) +:+ quote.

(** A JS array of the items, separated by [", "]. *)
Definition js_array (items : list string) : string :=
  match items with
  | [] => "[ ]"
  | _ => "[ " +:+ String.concat ", " items +:+ " ]"
  end.

(** The line of the selected pair [ig]. *)
Definition site_line (ig : nat) : string :=
  identifier ig +:+ " = "
  +:+ SiteTriples.site_array six_decimals siteSpecificMap lst ig +:+ ";" +:+ newline.

Definition data_file (preamble : string) (num : nat) : string :=
  preamble
  +:+ foldr String.append EmptyString (site_line <$> seq 0 num)
  +:+ "siteSpecificBranchPairs = " +:+ js_array (identifier <$> seq 0 num)
  +:+ ";" +:+ newline
  +:+ "siteSpecificBranchPairsName = " +:+ js_array (quoted_name <$> seq 0 num)
  +:+ ";" +:+ newline
  +:+ "siteSpecificBranchPairsIDs = "
  +:+ js_array ((λ ig, quote +:+ identifier ig +:+ quote) <$> seq 0 num)
  +:+ ";" +:+ newline.

End Words.

(** ** Inputs used below *)

(** Every file can be written but the main page [UI/User/out.html]. *)
Definition all_but_main (path : string) : bool :=
  negb (String.eqb path "UI/User/out.html").

Definition every_file (path : string) : bool := true.

End Program.

(** * Generic facts: the monad, loops, sums *)

Lemma read_Some {A} name (a : list A) i v : a !! i = Some v → read name a i = inr v.
Proof. intros H. unfold read. by rewrite H. Qed.

Lemma read_get name (a : list Qc) i : i < length a → read name a i = inr (get a i).
Proof.
  intros H. destruct (lookup_lt_is_Some_2 a i H) as [v Hv].
  unfold get. rewrite (read_Some _ _ _ _ Hv), Hv. done.
Qed.

Lemma read_inv {A} name (a : list A) i v : read name a i = inr v → a !! i = Some v.
Proof. unfold read. destruct (a !! i); [|done]. by intros [= ->]. Qed.

Lemma write_lt {A} name (a : list A) i v :
  i < length a → write name a i v = inr (<[i:=v]> a).
Proof. intros H. unfold write. by rewrite decide_True. Qed.

Lemma write_ge {A} name (a : list A) i v :
  length a ≤ i → write name a i v = inl (OutOfBounds name (Z.of_nat i) (length a)).
Proof. intros H. unfold write. rewrite decide_False; [done | lia]. Qed.

Lemma get_insert (a : list Qc) i j v :
  i < length a → get (<[i:=v]> a) j = if decide (i = j) then v else get a j.
Proof.
  intros H. unfold get. case_decide as E.
  - subst. by rewrite list_lookup_insert_eq.
  - by rewrite list_lookup_insert_ne.
Qed.

(** The invariant rule for counted loops: a loop whose body keeps [Inv] and
    never faults returns, in a state that satisfies [Inv] at the bound. *)
Lemma for_invariant {St} (Inv : nat → St → Prop) (body : nat → St → M St) lo cnt s :
  Inv lo s →
  (∀ i s, lo ≤ i < lo + cnt → Inv i s → ∃ s', body i s = inr s' ∧ Inv (S i) s') →
  ∃ s', for_ lo cnt body s = inr s' ∧ Inv (lo + cnt) s'.
Proof.
  revert lo s. induction cnt as [|c IH]; intros lo s H0 Hstep; simpl.
  - exists s. by rewrite Nat.add_0_r.
  - destruct (Hstep lo s) as (s1 & E1 & H1); [lia | done |].
    rewrite E1. simpl.
    destruct (IH (S lo) s1 H1) as (s2 & E2 & H2).
    { intros i s' Hi. apply Hstep. lia. }
    exists s2. split; [done|]. by replace (lo + S c) with (S lo + c) by lia.
Qed.

Lemma sum_upto_ext n f g : (∀ i, i < n → f i = g i) → sum_upto n f = sum_upto n g.
Proof.
  induction n as [|m IH]; intros H; simpl; [done|].
  rewrite IH, (H m); [done | lia | intros; apply H; lia].
Qed.

Lemma sum_upto_plus n f g :
  sum_upto n (λ i, (f i + g i)%Qc) = (sum_upto n f + sum_upto n g)%Qc.
Proof. induction n as [|m IH]; simpl; [ring | rewrite IH; ring]. Qed.

Lemma sum_upto_minus n f g :
  sum_upto n (λ i, (f i - g i)%Qc) = (sum_upto n f - sum_upto n g)%Qc.
Proof. induction n as [|m IH]; simpl; [ring | rewrite IH; ring]. Qed.

Lemma sum_upto_scale n c f :
  sum_upto n (λ i, (c * f i)%Qc) = (c * sum_upto n f)%Qc.
Proof. induction n as [|m IH]; simpl; [ring | rewrite IH; ring]. Qed.

Lemma sum_upto_zero n f : (∀ i, i < n → f i = 0%Qc) → sum_upto n f = 0%Qc.
Proof.
  induction n as [|m IH]; intros H; simpl; [done|].
  rewrite IH, (H m); [ring | lia | intros; apply H; lia].
Qed.

Lemma bind_inr {A B} (x : A) (f : A → M B) : (inr x ≫= f) = f x.
Proof. reflexivity. Qed.

Lemma bind_mret {A B} (x : A) (f : A → M B) : (mret x ≫= f) = f x.
Proof. reflexivity. Qed.

Lemma bind_ret {A} (m : M A) : (m ≫= λ x, mret x) = m.
Proof. by destruct m. Qed.

(** Use the invariant rule on the first loop of the goal. *)
Ltac loop_with Inv s' E H :=
  match goal with
  | |- context [for_ ?lo ?cnt ?body ?s] =>
      destruct (for_invariant Inv body lo cnt s) as (s' & E & H);
      [ | | rewrite E; try rewrite bind_inr; clear E ]
  end.

Module KernelFacts.
Import Kernel.

Lemma init_sumcK :
  for_ 0 20 (λ k sumcK, write "sumcK" sumcK k 0%Qc) local20 = inr local20.
Proof. reflexivity. Qed.

Section Cuda.
Variable n : nat.
Variables P1 P2 : nat → M Qc.
Variables m1 m2 : nat → nat → Qc.
Hypothesis n_le : n ≤ 20.
Hypothesis P1_ok : ∀ j k, j < n → k < n → P1 (j * n + k) = inr (m1 j k).
Hypothesis P2_ok : ∀ j k, j < n → k < n → P2 (j * n + k) = inr (m2 j k).

Lemma cuda_reduce_correct :
  cuda_reduce n P1 P2 = inr (spec_probC n m1 m2, spec_probD n m1 m2).
Proof using n_le P1_ok P2_ok.
  unfold cuda_reduce. rewrite init_sumcK, bind_inr.
  (* column sums and total *)
  loop_with (λ j (st : list Qc * Qc),
    length st.1 = 20 ∧
    (∀ k, k < n → get st.1 k =
       (sum_upto j (λ j', m2 j' k) - (if decide (k < j)%nat then m2 k k else 0))%Qc) ∧
    st.2 = (sum_upto j (λ j', sum_upto n (m2 j')) - sum_upto j (λ j', m2 j' j'))%Qc)
    st1 E1 H1.
  { split; [done|]. split; [|simpl; ring]. intros k Hk.
    rewrite decide_False by lia. cbn [fst]. unfold get, local20.
    rewrite lookup_replicate_2 by lia. simpl. ring. }
  { intros j [c s] Hj (Hlen & Hc & Hs). simpl in *.
    loop_with (λ k (st : list Qc * Qc),
      length st.1 = 20 ∧
      (∀ k', k' < n → get st.1 k' =
         (get c k' + (if decide (k' < k)%nat then m2 j k' else 0))%Qc) ∧
      st.2 = (s + sum_upto k (m2 j))%Qc) st2 E2 H2.
    { split; [done|]. split; [|simpl; ring]. intros k' Hk'.
      rewrite decide_False by lia. simpl. ring. }
    { intros k [c' s'] Hk (Hlen' & Hc' & Hs'). simpl in *.
      rewrite P2_ok by lia. rewrite bind_inr.
      rewrite read_get by lia. rewrite bind_inr.
      rewrite write_lt by lia. rewrite bind_inr.
      eexists. split; [reflexivity|]. simpl.
      split; [by rewrite length_insert|]. split.
      - intros k' Hk'. rewrite get_insert by lia.
        repeat case_decide; subst; try lia; rewrite Hc' by lia;
          repeat case_decide; try lia; ring.
      - rewrite Hs'. ring. }
    destruct st2 as [c' s']. destruct H2 as (Hlen' & Hc' & Hs'). simpl in *.
    rewrite P2_ok by lia. rewrite bind_inr.
    rewrite read_get by lia. rewrite bind_inr.
    rewrite write_lt by lia. rewrite bind_inr.
    eexists. split; [reflexivity|]. simpl.
    split; [by rewrite length_insert|]. split.
    - intros k Hk. rewrite get_insert by lia.
      repeat case_decide; subst; try lia; rewrite !Hc' by lia;
        repeat case_decide; try lia; rewrite Hc by lia;
        repeat case_decide; try lia; ring.
    - rewrite Hs', Hs. ring. }
  destruct st1 as [sumcK sumdforJ]. destruct H1 as (Hlen & Hc & Hs). simpl in *.
  assert (HcK : ∀ k, k < n → get sumcK k = spec_sumcK n m2 k).
  { intros k Hk. rewrite Hc by done. rewrite decide_True by done. done. }
  assert (Htot : sumdforJ = spec_total n m2) by done.
  clear Hc Hs.
  (* sumdK *)
  loop_with (λ k (d : list Qc),
    length d = 20 ∧ ∀ k', k' < k → get d k' = (sumdforJ - get sumcK k')%Qc)
    sumdK E3 H3.
  { split; [done|]. intros; lia. }
  { intros k d Hk (Hlen' & Hd). simpl in *.
    rewrite read_get by lia. rewrite bind_inr.
    rewrite write_lt by lia.
    eexists. split; [reflexivity|]. split; [by rewrite length_insert|].
    intros k' Hk'. rewrite get_insert by lia.
    case_decide; subst; [done | apply Hd; lia]. }
  destruct H3 as (Hlen' & Hd). simpl in *.
  assert (HdK : ∀ k, k < n → get sumdK k = spec_sumdK n m2 k).
  { intros k Hk. rewrite Hd by done. rewrite HcK by done. by rewrite Htot. }
  clear Hd.
  (* probC and probD *)
  destruct (for_invariant (λ j (st : Qc * Qc),
    st.1 = sum_upto j (λ j', (sum_upto n (λ k, spec_sumcK n m2 k * m1 j' k)
                              - spec_sumcK n m2 j' * m1 j' j')%Qc) ∧
    st.2 = sum_upto j (λ j', (sum_upto n (λ k, spec_sumdK n m2 k * m1 j' k)
                              - spec_sumdK n m2 j' * m1 j' j')%Qc))
    (λ j st,
    '(probC, probD) ←
      for_ 0 n (λ k '(probC, probD),
        p1_val ← P1 (j * n + k);
        c ← read "sumcK" sumcK k;
        d ← read "sumdK" sumdK k;
        mret ((probC + c * p1_val)%Qc, (probD + d * p1_val)%Qc)) st;
    p1_diag ← P1 (j * n + j);
    c ← read "sumcK" sumcK j;
    d ← read "sumdK" sumdK j;
    mret ((probC - c * p1_diag)%Qc, (probD - d * p1_diag)%Qc)) 0 n (0%Qc, 0%Qc))
    as ([pc pd] & E4 & H4 & H4').
  { done. }
  { intros j [pc pd] Hj (Hpc & Hpd). simpl in *.
    loop_with (λ k (st : Qc * Qc),
      st.1 = (pc + sum_upto k (λ k, spec_sumcK n m2 k * m1 j k))%Qc ∧
      st.2 = (pd + sum_upto k (λ k, spec_sumdK n m2 k * m1 j k))%Qc) st2 E2 H2.
    { simpl. split; ring. }
    { intros k [pc' pd'] Hk (Hpc' & Hpd'). simpl in *.
      rewrite P1_ok by lia. rewrite bind_inr.
      rewrite !read_get by lia. rewrite !bind_inr.
      eexists. split; [reflexivity|]. simpl.
      rewrite Hpc', Hpd', HcK, HdK by lia. split; ring. }
    destruct st2 as [pc' pd']. destruct H2 as (Hpc' & Hpd'). simpl in *.
    rewrite P1_ok by lia. rewrite bind_inr.
    rewrite !read_get by lia. rewrite !bind_inr.
    eexists. split; [reflexivity|]. simpl.
    rewrite Hpc', Hpd', Hpc, Hpd, HcK, HdK by lia. split; ring. }
  simpl in *. etrans; [exact E4|]. f_equal.
  unfold spec_probC, spec_probD. rewrite H4, H4', !sum_upto_minus. done.
Qed.

End Cuda.

Section Metal.
Variable n : nat.
Variables P1 P2 : nat → M Qc.
Variables m1 m2 : nat → nat → Qc.
Hypothesis P1_ok : ∀ j k, j < 20 → k < 20 → P1 (j * n + k) = inr (m1 j k).
Hypothesis P2_ok : ∀ j k, j < 20 → k < 20 → P2 (j * n + k) = inr (m2 j k).

(** Whatever the stride [n], the Metal kernel reduces the 20x20 window
    [(j, k) ↦ P[j * n + k]]. *)
Lemma metal_reduce_correct :
  metal_reduce n P1 P2 = inr (spec_probC 20 m1 m2, spec_probD 20 m1 m2).
Proof using P1_ok P2_ok.
  unfold metal_reduce. rewrite init_sumcK, bind_inr.
  pose (m := 20). assert (Hm : m = 20) by done.
  change 20 with m. clearbody m.
  loop_with (λ j (st : list Qc * Qc),
    length st.1 = 20 ∧
    (∀ k, k < m → get st.1 k =
       (sum_upto j (λ j', m2 j' k) - (if decide (k < j)%nat then m2 k k else 0))%Qc) ∧
    st.2 = (sum_upto j (λ j', sum_upto m (m2 j')) - sum_upto j (λ j', m2 j' j'))%Qc)
    st1 E1 H1.
  { split; [done|]. split; [|simpl; ring]. intros k Hk.
    rewrite decide_False by lia. cbn [fst]. unfold get, local20.
    rewrite lookup_replicate_2 by lia. simpl. ring. }
  { intros j [c s] Hj (Hlen & Hc & Hs). simpl in *.
    rewrite P2_ok by lia. rewrite bind_inr.
    loop_with (λ k (st : list Qc * Qc),
      length st.1 = 20 ∧
      (∀ k', k' < m → get st.1 k' =
         (get c k' + (if decide (k' < k)%nat then m2 j k' else 0))%Qc) ∧
      st.2 = sum_upto k (m2 j)) st2 E2 H2.
    { split; [done|]. split; [|done]. intros k' Hk'.
      rewrite decide_False by lia. cbn [fst]. ring. }
    { intros k [c' s'] Hk (Hlen' & Hc' & Hs'). simpl in *.
      rewrite P2_ok by lia. rewrite bind_inr.
      rewrite read_get by lia. rewrite bind_inr.
      rewrite write_lt by lia. rewrite bind_inr.
      eexists. split; [reflexivity|]. simpl.
      split; [by rewrite length_insert|]. split.
      - intros k' Hk'. rewrite get_insert by lia.
        repeat case_decide; subst; try lia; rewrite Hc' by lia;
          repeat case_decide; try lia; ring.
      - rewrite Hs'. done. }
    destruct st2 as [c' s']. destruct H2 as (Hlen' & Hc' & Hs'). simpl in *.
    rewrite read_get by lia. rewrite bind_inr.
    rewrite write_lt by lia. rewrite bind_inr.
    eexists. split; [reflexivity|]. simpl.
    split; [by rewrite length_insert|]. split.
    - intros k Hk. rewrite get_insert by lia.
      repeat case_decide; subst; try lia; rewrite !Hc' by lia;
        repeat case_decide; try lia; rewrite Hc by lia;
        repeat case_decide; try lia; simpl; ring.
    - rewrite Hs', Hs. simpl. ring. }
  destruct st1 as [sumcK sumdforJ]. destruct H1 as (Hlen & Hc & Hs). simpl in *.
  assert (HcK : ∀ k, k < m → get sumcK k = spec_sumcK m m2 k).
  { intros k Hk. rewrite Hc by done. rewrite decide_True by done. done. }
  assert (Htot : sumdforJ = spec_total m m2) by done.
  clear Hc Hs.
  loop_with (λ k (d : list Qc),
    length d = 20 ∧ ∀ k', k' < k → get d k' = (sumdforJ - get sumcK k')%Qc)
    sumdK E3 H3.
  { split; [done|]. intros; lia. }
  { intros k d Hk (Hlen' & Hd).
    rewrite read_get by lia. rewrite bind_inr.
    rewrite write_lt by lia.
    eexists. split; [reflexivity|]. split; [by rewrite length_insert|].
    intros k' Hk'. rewrite get_insert by lia.
    case_decide; subst; [done | apply Hd; lia]. }
  destruct H3 as (Hlen' & Hd).
  assert (HdK : ∀ k, k < m → get sumdK k = spec_sumdK m m2 k).
  { intros k Hk. rewrite Hd by (simpl; lia). rewrite HcK by done. by rewrite Htot. }
  clear Hd.
  destruct (for_invariant (λ j (st : Qc * Qc),
    st.1 = sum_upto j (λ j', (sum_upto m (λ k, spec_sumcK m m2 k * m1 j' k)
                              - spec_sumcK m m2 j' * m1 j' j')%Qc) ∧
    st.2 = sum_upto j (λ j', (sum_upto m (λ k, spec_sumdK m m2 k * m1 j' k)
                              - spec_sumdK m m2 j' * m1 j' j')%Qc))
    (λ j st,
    diag_p1 ← P1 (j * n + j);
    '(probC, probD) ←
      for_ 0 m (λ k '(probC, probD),
        p1_val ← P1 (j * n + k);
        c ← read "sumcK" sumcK k;
        d ← read "sumdK" sumdK k;
        mret ((probC + c * p1_val)%Qc, (probD + d * p1_val)%Qc)) st;
    c ← read "sumcK" sumcK j;
    d ← read "sumdK" sumdK j;
    mret ((probC - c * diag_p1)%Qc, (probD - d * diag_p1)%Qc)) 0 m (0%Qc, 0%Qc))
    as ([pc pd] & E4 & H4 & H4').
  { done. }
  { intros j [pc pd] Hj (Hpc & Hpd). simpl in *.
    rewrite P1_ok by lia. rewrite bind_inr.
    loop_with (λ k (st : Qc * Qc),
      st.1 = (pc + sum_upto k (λ k, spec_sumcK m m2 k * m1 j k))%Qc ∧
      st.2 = (pd + sum_upto k (λ k, spec_sumdK m m2 k * m1 j k))%Qc) st2 E2 H2.
    { simpl. split; ring. }
    { intros k [pc' pd'] Hk (Hpc' & Hpd'). simpl in *.
      rewrite P1_ok by lia. rewrite bind_inr.
      rewrite !read_get by lia. rewrite !bind_inr.
      eexists. split; [reflexivity|]. simpl.
      rewrite Hpc', Hpd', HcK, HdK by lia. split; ring. }
    destruct st2 as [pc' pd']. destruct H2 as (Hpc' & Hpd'). simpl in *.
    rewrite !read_get by lia. rewrite !bind_inr.
    eexists. split; [reflexivity|]. simpl.
    rewrite Hpc', Hpd', Hpc, Hpd, HcK, HdK by lia. split; ring. }
  simpl in *. etrans; [exact E4|]. f_equal.
  unfold spec_probC, spec_probD. rewrite H4, H4', !sum_upto_minus. done.
Qed.

End Metal.

(** ** Sums of non-negative terms, and the diagonal taken out of a sum *)

Lemma sum_upto_nonneg n f : (∀ i, i < n → (0 ≤ f i)%Qc) → (0 ≤ sum_upto n f)%Qc.
Proof.
  induction n as [|m IH]; intros H; simpl; [done|].
  apply Qcplus_nonneg_nonneg; [apply IH; intros; apply H; lia | apply H; lia].
Qed.

Lemma sum_upto_without n f j :
  j < n →
  (sum_upto n f - f j)%Qc = sum_upto n (λ k, if decide (k = j) then 0%Qc else f k).
Proof.
  induction n as [|m IH]; intros Hj; [lia|]. simpl.
  destruct (decide (m = j)) as [->|Hne].
  - rewrite (sum_upto_ext j (λ k, if decide (k = j) then 0%Qc else f k) f).
    + ring.
    + intros i Hi. rewrite decide_False by lia. done.
  - rewrite <- IH by lia. ring.
Qed.

Lemma sum_upto_swap n m (f : nat → nat → Qc) :
  sum_upto n (λ j, sum_upto m (λ k, f j k)) = sum_upto m (λ k, sum_upto n (λ j, f j k)).
Proof.
  induction n as [|n' IH]; simpl.
  - symmetry. by apply sum_upto_zero.
  - rewrite IH, <- sum_upto_plus. done.
Qed.

Section Bounds.
Variable n : nat.
Variables m1 m2 : nat → nat → Qc.
Hypothesis m1_nonneg : ∀ j k, j < n → k < n → (0 ≤ m1 j k)%Qc.
Hypothesis m2_nonneg : ∀ j k, j < n → k < n → (0 ≤ m2 j k)%Qc.

Lemma spec_sumcK_off k :
  k < n → spec_sumcK n m2 k = sum_upto n (λ j, if decide (j = k) then 0%Qc else m2 j k).
Proof. intros Hk. unfold spec_sumcK. by rewrite (sum_upto_without n (λ j, m2 j k)). Qed.

Lemma spec_sumcK_nonneg k : k < n → (0 ≤ spec_sumcK n m2 k)%Qc.
Proof using m2_nonneg.
  intros Hk. rewrite spec_sumcK_off by done. apply sum_upto_nonneg.
  intros j Hj. case_decide; [done | by apply m2_nonneg].
Qed.

Lemma spec_total_columns : spec_total n m2 = sum_upto n (spec_sumcK n m2).
Proof.
  unfold spec_total, spec_sumcK. rewrite sum_upto_minus, sum_upto_swap. done.
Qed.

Lemma spec_total_off : spec_total n m2 = off_diagonal n m2.
Proof.
  unfold spec_total, off_diagonal. rewrite <- sum_upto_minus.
  apply sum_upto_ext. intros j Hj.
  rewrite (sum_upto_without n (m2 j)) by done.
  apply sum_upto_ext. intros k Hk. repeat case_decide; subst; done.
Qed.

Lemma spec_sumdK_nonneg k : k < n → (0 ≤ spec_sumdK n m2 k)%Qc.
Proof using m2_nonneg.
  intros Hk. unfold spec_sumdK. rewrite spec_total_columns.
  rewrite (sum_upto_without n (spec_sumcK n m2)) by done.
  apply sum_upto_nonneg. intros k' Hk'.
  case_decide; [done | by apply spec_sumcK_nonneg].
Qed.

Lemma spec_probC_off :
  spec_probC n m1 m2 =
  sum_upto n (λ j, sum_upto n (λ k,
    if decide (k = j) then 0%Qc else (spec_sumcK n m2 k * m1 j k)%Qc)).
Proof.
  unfold spec_probC. rewrite <- sum_upto_minus. apply sum_upto_ext. intros j Hj.
  by rewrite (sum_upto_without n (λ k, (spec_sumcK n m2 k * m1 j k)%Qc)).
Qed.

Lemma spec_probD_off :
  spec_probD n m1 m2 =
  sum_upto n (λ j, sum_upto n (λ k,
    if decide (k = j) then 0%Qc else (spec_sumdK n m2 k * m1 j k)%Qc)).
Proof.
  unfold spec_probD. rewrite <- sum_upto_minus. apply sum_upto_ext. intros j Hj.
  by rewrite (sum_upto_without n (λ k, (spec_sumdK n m2 k * m1 j k)%Qc)).
Qed.

Lemma spec_probC_nonneg : (0 ≤ spec_probC n m1 m2)%Qc.
Proof using m1_nonneg m2_nonneg.
  rewrite spec_probC_off. apply sum_upto_nonneg. intros j Hj.
  apply sum_upto_nonneg. intros k Hk. case_decide; [done|].
  apply Qcmult_nonneg_nonneg; [by apply spec_sumcK_nonneg | by apply m1_nonneg].
Qed.

Lemma spec_probD_nonneg : (0 ≤ spec_probD n m1 m2)%Qc.
Proof using m1_nonneg m2_nonneg.
  rewrite spec_probD_off. apply sum_upto_nonneg. intros j Hj.
  apply sum_upto_nonneg. intros k Hk. case_decide; [done|].
  apply Qcmult_nonneg_nonneg; [by apply spec_sumdK_nonneg | by apply m1_nonneg].
Qed.

Lemma off_diagonal_nonneg : (0 ≤ off_diagonal n m1)%Qc.
Proof using m1_nonneg.
  apply sum_upto_nonneg. intros j Hj. apply sum_upto_nonneg. intros k Hk.
  case_decide; [done | by apply m1_nonneg].
Qed.

(** Convergence and divergence together are the product of the two
    off-diagonal masses. *)
Lemma spec_probC_plus_probD :
  (spec_probC n m1 m2 + spec_probD n m1 m2)%Qc
  = (off_diagonal n m1 * off_diagonal n m2)%Qc.
Proof.
  rewrite spec_probC_off, spec_probD_off, <- spec_total_off, <- sum_upto_plus.
  unfold off_diagonal. rewrite Qcmult_comm, <- sum_upto_scale.
  apply sum_upto_ext. intros j Hj.
  rewrite <- sum_upto_plus, <- sum_upto_scale.
  apply sum_upto_ext. intros k Hk. unfold spec_sumdK.
  repeat case_decide; subst; try done; ring.
Qed.

End Bounds.

Lemma Qc_le_sum_l (a b : Qc) : (0 ≤ b)%Qc → (a ≤ a + b)%Qc.
Proof.
  intros H. rewrite <- (Qcplus_0_r a) at 1. apply Qcplus_le_compat; [apply Qcle_refl | done].
Qed.

Lemma Qc_le_sum_r (a b : Qc) : (0 ≤ a)%Qc → (b ≤ a + b)%Qc.
Proof. intros H. rewrite Qcplus_comm. by apply Qc_le_sum_l. Qed.

Lemma Qc_product_le_1 (x y : Qc) :
  (0 ≤ x)%Qc → (x ≤ 1)%Qc → (0 ≤ y)%Qc → (y ≤ 1)%Qc → (x * y ≤ 1)%Qc.
Proof.
  intros Hx0 Hx1 Hy0 Hy1.
  apply Qcle_trans with (1 * y)%Qc.
  - by apply Qcmult_le_compat_r.
  - by rewrite Qcmult_1_l.
Qed.

(** ** One work item *)

Section WorkItem.
Variable L : launch.
Variables pairIdx siteIdx off1 off2 : nat.
Variables pC pD : list Qc.
Hypothesis item : work_item L pairIdx siteIdx off1 off2 pC pD.

Lemma deref_matrix off j k :
  off + siteIdx * n L * n L + n L * n L ≤ length (conP_part1 L) →
  j * n L + k < n L * n L →
  deref (conP_part1 L) (off + siteIdx * n L * n L) (j * n L + k)
  = inr (matrix_at L off siteIdx j k).
Proof.
  intros Hlen Hjk. unfold deref, matrix_at.
  rewrite read_get by lia. by rewrite !Nat.add_assoc.
Qed.

Lemma cuda_work_item blockIdx_y blockDim_x threadIdx_x :
  n L ≤ 20 →
  blockIdx_y * blockDim_x + threadIdx_x = siteIdx →
  cuda_kernel L pairIdx blockIdx_y blockDim_x threadIdx_x pC pD =
  inr (<[pairIdx * numSites L + siteIdx :=
           spec_probC (n L) (matrix_at L off1 siteIdx) (matrix_at L off2 siteIdx)]> pC,
       <[pairIdx * numSites L + siteIdx :=
           spec_probD (n L) (matrix_at L off1 siteIdx) (matrix_at L off2 siteIdx)]> pD).
Proof using item.
  intros Hn Hsite. destruct item as [Hp Hs (i & Hi & Hi0 & Hoff1) (j & Hj & Hj0 & Hoff2) H1 H2 HC HD].
  unfold cuda_kernel. rewrite Hsite.
  rewrite decide_False by lia.
  rewrite (read_Some _ _ _ _ Hi), bind_inr, (read_Some _ _ _ _ Hj), bind_inr.
  unfold read_at. rewrite !decide_True by done.
  rewrite (read_Some _ _ _ _ Hoff1), bind_inr, (read_Some _ _ _ _ Hoff2), bind_inr.
  rewrite (cuda_reduce_correct (n L) _ _
             (matrix_at L off1 siteIdx) (matrix_at L off2 siteIdx)); [|done|..].
  - rewrite bind_inr. rewrite !write_lt by done. done.
  - intros j' k' Hj' Hk'. apply deref_matrix; [done | nia].
  - intros j' k' Hj' Hk'. apply deref_matrix; [done | nia].
Qed.

Lemma metal_work_item :
  n L = 20 →
  metal_site L pairIdx off1 off2 siteIdx (pC, pD) =
  inr (<[pairIdx * numSites L + siteIdx :=
           spec_probC 20 (matrix_at L off1 siteIdx) (matrix_at L off2 siteIdx)]> pC,
       <[pairIdx * numSites L + siteIdx :=
           spec_probD 20 (matrix_at L off1 siteIdx) (matrix_at L off2 siteIdx)]> pD).
Proof using item.
  intros Hn. destruct item as [Hp Hs _ _ H1 H2 HC HD].
  unfold metal_site. rewrite !Nat.mul_assoc.
  rewrite (metal_reduce_correct (n L) _ _
             (matrix_at L off1 siteIdx) (matrix_at L off2 siteIdx)).
  - rewrite bind_inr. rewrite !write_lt by done. done.
  - intros j' k' Hj' Hk'. apply deref_matrix; [done | nia].
  - intros j' k' Hj' Hk'. apply deref_matrix; [done | nia].
Qed.

Lemma matrix_at_nonneg off j k :
  Forall (λ x, (0 ≤ x)%Qc) (conP_part1 L) → (0 ≤ matrix_at L off siteIdx j k)%Qc.
Proof.
  intros Hall. unfold matrix_at, get.
  destruct (conP_part1 L !! _) as [v|] eqn:E; simpl; [|done].
  rewrite Forall_forall in Hall. apply Hall. by eapply list_elem_of_lookup_2.
Qed.

End WorkItem.

(** A thread of the Metal grid that is given one site runs the body of the
    site loop once. *)
Lemma metal_kernel_one_site L pairIdx siteIdx off1 off2 pC pD :
  work_item L pairIdx siteIdx off1 off2 pC pD →
  metal_kernel L 1 pairIdx siteIdx pC pD
  = metal_site L pairIdx off1 off2 siteIdx (pC, pD).
Proof.
  intros [Hp Hs (i & Hi & Hi0 & Hoff1) (j & Hj & Hj0 & Hoff2) _ _ _ _].
  unfold metal_kernel. rewrite decide_False by lia.
  rewrite (read_Some _ _ _ _ Hi), bind_inr, (read_Some _ _ _ _ Hj), bind_inr.
  unfold read_at. rewrite !decide_True by done.
  rewrite (read_Some _ _ _ _ Hoff1), bind_inr, (read_Some _ _ _ _ Hoff2), bind_inr.
  rewrite Nat.mul_1_r. simpl. rewrite bool_decide_eq_false_2 by lia.
  apply bind_ret.
Qed.

Lemma work_item_resize L pairIdx siteIdx off1 off2 pC pD pC' pD' :
  length pC' = length pC → length pD' = length pD →
  work_item L pairIdx siteIdx off1 off2 pC pD →
  work_item L pairIdx siteIdx off1 off2 pC' pD'.
Proof. intros HC HD [? ? ? ? ? ? ? ?]. split; try done; lia. Qed.

(** The site loop of a Metal thread, for any number of sites per thread:
    every site of the thread that exists gets its pair in its cell, and no
    other cell changes. *)
Lemma metal_site_loop L pairIdx off1 off2 :
  n L = 20 →
  ∀ cnt lo pC pD,
    (∀ s, lo ≤ s < lo + cnt → s < numSites L →
          work_item L pairIdx s off1 off2 pC pD) →
    ∃ pC' pD',
      for_break lo cnt (λ siteIdx, bool_decide (numSites L ≤ siteIdx))
        (metal_site L pairIdx off1 off2) (pC, pD) = inr (pC', pD')
      ∧ length pC' = length pC ∧ length pD' = length pD
      ∧ (∀ s, lo ≤ s < lo + cnt → s < numSites L →
           pC' !! (pairIdx * numSites L + s)
           = Some (spec_probC 20 (matrix_at L off1 s) (matrix_at L off2 s))
           ∧ pD' !! (pairIdx * numSites L + s)
             = Some (spec_probD 20 (matrix_at L off1 s) (matrix_at L off2 s)))
      ∧ (∀ i, (∀ s, lo ≤ s < lo + cnt → s < numSites L →
                    i ≠ pairIdx * numSites L + s) →
              pC' !! i = pC !! i ∧ pD' !! i = pD !! i).
Proof.
  intros Hn. induction cnt as [|c IH]; intros lo pC pD Hitems; cbn [for_break].
  { exists pC, pD. repeat split; try done; intros; lia. }
  case_bool_decide as Hstop.
  { exists pC, pD. repeat split; try done; intros; lia. }
  assert (item : work_item L pairIdx lo off1 off2 pC pD) by (apply Hitems; lia).
  rewrite (metal_work_item _ _ _ _ _ _ _ item Hn), bind_inr.
  destruct (IH (S lo)
              (<[pairIdx * numSites L + lo :=
                   spec_probC 20 (matrix_at L off1 lo) (matrix_at L off2 lo)]> pC)
              (<[pairIdx * numSites L + lo :=
                   spec_probD 20 (matrix_at L off1 lo) (matrix_at L off2 lo)]> pD))
    as (pC' & pD' & E & HlC & HlD & Hcells & Hrest).
  { intros s Hs Hs'. eapply work_item_resize; [..|apply Hitems; lia];
      by rewrite length_insert. }
  rewrite length_insert in HlC, HlD.
  exists pC', pD'. split; [done|]. split; [done|]. split; [done|]. split.
  - intros s Hs Hs'. destruct (decide (s = lo)) as [->|Hne].
    + destruct (Hrest (pairIdx * numSites L + lo)) as [-> ->]; [intros; lia|].
      destruct item. by rewrite !list_lookup_insert_eq.
    + apply Hcells; lia.
  - intros i Hi. destruct (Hrest i) as [-> ->]; [intros; apply Hi; lia|].
    assert (i ≠ pairIdx * numSites L + lo) by (apply Hi; lia).
    by rewrite !list_lookup_insert_ne.
Qed.

(** A Metal thread [(pairIdx, gid_y)] that has at least one site. *)
Lemma metal_kernel_thread L sitesPerThread pairIdx gid_y off1 off2 pC pD :
  n L = 20 →
  gid_y * sitesPerThread < numSites L →
  1 ≤ sitesPerThread →
  (∀ s, gid_y * sitesPerThread ≤ s < gid_y * sitesPerThread + sitesPerThread →
        s < numSites L → work_item L pairIdx s off1 off2 pC pD) →
  ∃ pC' pD',
    metal_kernel L sitesPerThread pairIdx gid_y pC pD = inr (pC', pD')
    ∧ ∀ s, gid_y * sitesPerThread ≤ s < gid_y * sitesPerThread + sitesPerThread →
           s < numSites L →
           pC' !! (pairIdx * numSites L + s)
           = Some (spec_probC 20 (matrix_at L off1 s) (matrix_at L off2 s))
           ∧ pD' !! (pairIdx * numSites L + s)
             = Some (spec_probD 20 (matrix_at L off1 s) (matrix_at L off2 s)).
Proof.
  intros Hn Hbase Hspt Hitems.
  destruct (Hitems (gid_y * sitesPerThread)) as
    [Hp _ (i & Hi & Hi0 & Hoff1) (j & Hj & Hj0 & Hoff2) _ _ _ _]; [lia | done |].
  unfold metal_kernel. rewrite decide_False by lia.
  rewrite (read_Some _ _ _ _ Hi), bind_inr, (read_Some _ _ _ _ Hj), bind_inr.
  unfold read_at. rewrite !decide_True by done.
  rewrite (read_Some _ _ _ _ Hoff1), bind_inr, (read_Some _ _ _ _ Hoff2), bind_inr.
  destruct (metal_site_loop L pairIdx off1 off2 Hn sitesPerThread
              (gid_y * sitesPerThread) pC pD Hitems)
    as (pC' & pD' & E & _ & _ & Hcells & _).
  exists pC', pD'. by split.
Qed.

(** The matrices given as arrays of exactly [n * n] cells: a kernel that
    returns has read no cell outside them. *)
Lemma cuda_reduce_window n (P1 P2 : list Qc) :
  n ≤ 20 → length P1 = n * n → length P2 = n * n →
  cuda_reduce n (read "P1" P1) (read "P2" P2)
  = inr (spec_probC n (λ j k, get P1 (j * n + k)) (λ j k, get P2 (j * n + k)),
         spec_probD n (λ j k, get P1 (j * n + k)) (λ j k, get P2 (j * n + k))).
Proof.
  intros Hn H1 H2. apply cuda_reduce_correct; [done|..];
    intros j k Hj Hk; apply read_get; nia.
Qed.

Lemma metal_reduce_window (P1 P2 : list Qc) :
  length P1 = 400 → length P2 = 400 →
  metal_reduce 20 (read "P1" P1) (read "P2" P2)
  = inr (spec_probC 20 (λ j k, get P1 (j * 20 + k)) (λ j k, get P2 (j * 20 + k)),
         spec_probD 20 (λ j k, get P1 (j * 20 + k)) (λ j k, get P2 (j * 20 + k))).
Proof.
  intros H1 H2. apply metal_reduce_correct;
    intros j k Hj Hk; apply read_get; lia.
Qed.

(** ** The claims about the kernels *)

(** C1.  For a work item [(pairIdx, siteIdx)] with [n = 20] whose two
    20x20 matrices [P1] (node [u]) and [P2] (node [v]) lie in the tensor, the
    CUDA thread of that item and the Metal site-loop body for that item store
    [probC = Σ_j Σ_k sumcK[k]·P1[j,k] − Σ_j sumcK[j]·P1[j,j]] and
    [probD = Σ_j Σ_k sumdK[k]·P1[j,k] − Σ_j sumdK[j]·P1[j,j]] in the cell
    of the item, with [sumcK], [total] and [sumdK] as the specification
    defines them ([spec_probC], [spec_probD]), in exact arithmetic. *)
Theorem kernel_reduction_closed_form
    (L : launch) (pairIdx siteIdx off1 off2 : nat) (pC pD : list Qc) :
  n L = 20 →
  work_item L pairIdx siteIdx off1 off2 pC pD →
  let P1 := matrix_at L off1 siteIdx in
  let P2 := matrix_at L off2 siteIdx in
  let out := (<[pairIdx * numSites L + siteIdx := spec_probC 20 P1 P2]> pC,
              <[pairIdx * numSites L + siteIdx := spec_probD 20 P1 P2]> pD) in
  (∀ blockIdx_y blockDim_x threadIdx_x,
     blockIdx_y * blockDim_x + threadIdx_x = siteIdx →
     cuda_kernel L pairIdx blockIdx_y blockDim_x threadIdx_x pC pD = inr out)
  ∧ metal_site L pairIdx off1 off2 siteIdx (pC, pD) = inr out
  ∧ metal_kernel L 1 pairIdx siteIdx pC pD = inr out.
Proof.
  intros Hn item P1 P2 out. split; [|split].
  - intros by_ bd tx Hsite.
    rewrite (cuda_work_item _ _ _ _ _ _ _ item) by (done || lia).
    subst out P1 P2. by rewrite Hn.
  - by apply metal_work_item.
  - rewrite (metal_kernel_one_site _ _ _ _ _ _ _ item). by apply metal_work_item.
Qed.

Lemma kernel_reduction_closed_form_witness :
  cuda_kernel uniform 0 0 256 0 [0%Qc] [0%Qc]
  = inr (<[0 := spec_probC 20 (matrix_at uniform 0 0) (matrix_at uniform 400 0)]> [0%Qc],
         <[0 := spec_probD 20 (matrix_at uniform 0 0) (matrix_at uniform 400 0)]> [0%Qc]).
Proof.
  assert (item : work_item uniform 0 0 0 400 [0%Qc] [0%Qc]).
  { split; simpl; try lia.
    - exists 0%Z. split; [reflexivity|]. split; [lia | reflexivity].
    - exists 1%Z. split; [reflexivity|]. split; [lia | reflexivity]. }
  destruct (kernel_reduction_closed_form uniform 0 0 0 400 [0%Qc] [0%Qc] eq_refl item)
    as [Hcuda _].
  exact (Hcuda 0 256 0 eq_refl).
Defined.

(** C2 (as stated, refuted).  On the uniform input of scenario S2 the kernel
    does not store 361 and 6859, not even within the backend precision. *)
Lemma uniform_outputs_not_361_6859 :
  ¬ ∃ probC probD,
      cuda_kernel uniform 0 0 256 0 [0%Qc] [0%Qc] = inr ([probC], [probD])
      ∧ within backend_eps probC (qz 361)
      ∧ within backend_eps probD (qz 6859).
Proof.
  intros (c & d & E & [Hc _] & _).
  assert (E' : cuda_kernel uniform 0 0 256 0 [0%Qc] [0%Qc]
               = inr ([Q2Qc (361 # 20)], [Q2Qc (6859 # 20)])) by compute_done.
  rewrite E' in E. injection E as <- <-.
  revert Hc. compute_done.
Qed.

(** C2 (amended).  On the uniform input of scenario S2 (every entry 1/20,
    [n = 20], one site, one pair) both kernels store [probC = 361/20 = 18.05]
    and [probD = 6859/20 = 342.95] for the pair; with one site these are
    [pConvergent] and [pDivergent] of the pair. *)
Theorem uniform_outputs :
  cuda_kernel uniform 0 0 256 0 [0%Qc] [0%Qc]
  = inr ([Q2Qc (361 # 20)], [Q2Qc (6859 # 20)])
  ∧ metal_kernel uniform 16 0 0 [0%Qc] [0%Qc]
    = inr ([Q2Qc (361 # 20)], [Q2Qc (6859 # 20)]).
Proof. split; compute_done. Qed.

(** C3 (as stated, refuted).  The uniform input is non-negative and its
    [probC] and [probD] exceed [1 + ε]. *)
Lemma nonnegative_input_exceeds_one :
  Forall (λ x, (0 ≤ x)%Qc) (conP_part1 uniform)
  ∧ ¬ ∃ probC probD,
        cuda_kernel uniform 0 0 256 0 [0%Qc] [0%Qc] = inr ([probC], [probD])
        ∧ (0 ≤ probC)%Qc ∧ (probC ≤ 1 + backend_eps)%Qc
        ∧ (0 ≤ probD)%Qc ∧ (probD ≤ 1 + backend_eps)%Qc.
Proof.
  split; [compute_done|].
  intros (c & d & E & _ & Hc & _).
  assert (E' : cuda_kernel uniform 0 0 256 0 [0%Qc] [0%Qc]
               = inr ([Q2Qc (361 # 20)], [Q2Qc (6859 # 20)])) by compute_done.
  rewrite E' in E. injection E as <- <-.
  revert Hc. compute_done.
Qed.

(** C3 (amended).  In exact arithmetic, that is for the kernels evaluated
    over the rationals, without the rounding of the binary64 and float32
    backends for which the claim has its [ε] (what rounding makes of the
    difference [sumdforJ - sumcK[k]] is not covered): for a work item with
    [n = 20] over a tensor without negative entries, both kernels store
    values [probC >= 0] and [probD >= 0]; their sum is the product of the
    off-diagonal masses of the two matrices, so both are at most 1 when
    each matrix has off-diagonal mass at most 1 (non-negativity alone gives
    no upper bound). *)
Theorem kernel_outputs_nonnegative
    (L : launch) (pairIdx siteIdx off1 off2 : nat) (pC pD : list Qc) :
  n L = 20 →
  work_item L pairIdx siteIdx off1 off2 pC pD →
  Forall (λ x, (0 ≤ x)%Qc) (conP_part1 L) →
  ∃ probC probD,
    (∀ blockIdx_y blockDim_x threadIdx_x,
       blockIdx_y * blockDim_x + threadIdx_x = siteIdx →
       cuda_kernel L pairIdx blockIdx_y blockDim_x threadIdx_x pC pD
       = inr (<[pairIdx * numSites L + siteIdx := probC]> pC,
              <[pairIdx * numSites L + siteIdx := probD]> pD))
    ∧ metal_site L pairIdx off1 off2 siteIdx (pC, pD)
      = inr (<[pairIdx * numSites L + siteIdx := probC]> pC,
             <[pairIdx * numSites L + siteIdx := probD]> pD)
    ∧ (0 ≤ probC)%Qc ∧ (0 ≤ probD)%Qc
    ∧ (probC + probD)%Qc
      = (off_diagonal 20 (matrix_at L off1 siteIdx)
         * off_diagonal 20 (matrix_at L off2 siteIdx))%Qc
    ∧ ((off_diagonal 20 (matrix_at L off1 siteIdx) ≤ 1)%Qc →
       (off_diagonal 20 (matrix_at L off2 siteIdx) ≤ 1)%Qc →
       (probC ≤ 1)%Qc ∧ (probD ≤ 1)%Qc).
Proof.
  intros Hn item Hall.
  set (P1 := matrix_at L off1 siteIdx). set (P2 := matrix_at L off2 siteIdx).
  assert (H1 : ∀ j k, j < 20 → k < 20 → (0 ≤ P1 j k)%Qc)
    by (intros; by apply matrix_at_nonneg).
  assert (H2 : ∀ j k, j < 20 → k < 20 → (0 ≤ P2 j k)%Qc)
    by (intros; by apply matrix_at_nonneg).
  pose proof (spec_probC_nonneg 20 P1 P2 H1 H2) as HC.
  pose proof (spec_probD_nonneg 20 P1 P2 H1 H2) as HD.
  pose proof (spec_probC_plus_probD 20 P1 P2) as Hsum.
  exists (spec_probC 20 P1 P2), (spec_probD 20 P1 P2).
  split; [|split; [|split; [|split; [|split]]]]; try done.
  - intros by_ bd tx Hsite.
    rewrite (cuda_work_item _ _ _ _ _ _ _ item) by (done || lia).
    subst P1 P2. by rewrite Hn.
  - by apply metal_work_item.
  - intros Hm1 Hm2.
    assert (Hprod : (off_diagonal 20 P1 * off_diagonal 20 P2 ≤ 1)%Qc).
    { apply Qc_product_le_1; try done; by apply off_diagonal_nonneg. }
    rewrite <- Hsum in Hprod. split.
    + eapply Qcle_trans; [apply (Qc_le_sum_l _ _ HD) | done].
    + eapply Qcle_trans; [apply (Qc_le_sum_r _ _ HC) | done].
Qed.

Lemma kernel_outputs_nonnegative_witness :
  ∃ probC probD,
    cuda_kernel uniform 0 0 256 0 [0%Qc] [0%Qc]
    = inr (<[0 := probC]> [0%Qc], <[0 := probD]> [0%Qc])
    ∧ (0 ≤ probC)%Qc ∧ (0 ≤ probD)%Qc.
Proof.
  assert (item : work_item uniform 0 0 0 400 [0%Qc] [0%Qc]).
  { split; simpl; try lia.
    - exists 0%Z. split; [reflexivity|]. split; [lia | reflexivity].
    - exists 1%Z. split; [reflexivity|]. split; [lia | reflexivity]. }
  assert (Hall : Forall (λ x, (0 ≤ x)%Qc) (conP_part1 uniform)) by compute_done.
  destruct (kernel_outputs_nonnegative uniform 0 0 0 400 [0%Qc] [0%Qc] eq_refl item Hall)
    as (c & d & Hcuda & _ & Hc & Hd & _).
  exists c, d. split; [exact (Hcuda 0 256 0 eq_refl) | split; [exact Hc | exact Hd]].
Defined.

(** C6 (as stated, refuted).  The accumulators are [sumcK[20]] and
    [sumdK[20]] and the Metal loops run 20 times, whatever [n] is.  With 61
    states the CUDA kernel indexes [sumcK[20]], outside the array; with 4
    states the Metal kernel stores 437 and 8303, which come from cells
    outside the 4x4 matrices of the site, where the reduction of section 4.3
    is 0. *)
Lemma hard_coded_20_breaks_other_n :
  cuda_kernel codon 0 0 256 0 [0%Qc] [0%Qc] = inl (OutOfBounds "sumcK" 20 20)
  ∧ metal_site nucleotide 0 0 96 0 (replicate 6 0%Qc, replicate 6 0%Qc)
    = inr (<[0 := qz 437]> (replicate 6 0%Qc),
           <[0 := qz 8303]> (replicate 6 0%Qc))
  ∧ spec_probC 4 (matrix_at nucleotide 0 0) (matrix_at nucleotide 96 0) = 0%Qc
  ∧ spec_probD 4 (matrix_at nucleotide 0 0) (matrix_at nucleotide 96 0) = 0%Qc.
Proof. repeat split; compute_done. Qed.

(** C6 (amended).  On matrices given as arrays of exactly [n * n] cells the
    CUDA kernel, for every [n <= 20] (so for [n = 4] and [n = 20]), and the
    Metal kernel, for [n = 20], return the reduction of section 4.3 of those
    cells: no access leaves the 20-cell accumulators or the two matrices, and
    nothing but the [n * n] entries of each matrix enters the result. *)
Theorem kernels_correct_within_20 (n : nat) (P1 P2 : list Qc) :
  n ≤ 20 → length P1 = n * n → length P2 = n * n →
  cuda_reduce n (read "P1" P1) (read "P2" P2)
  = inr (spec_probC n (λ j k, get P1 (j * n + k)) (λ j k, get P2 (j * n + k)),
         spec_probD n (λ j k, get P1 (j * n + k)) (λ j k, get P2 (j * n + k)))
  ∧ (n = 20 →
     metal_reduce n (read "P1" P1) (read "P2" P2)
     = inr (spec_probC n (λ j k, get P1 (j * n + k)) (λ j k, get P2 (j * n + k)),
            spec_probD n (λ j k, get P1 (j * n + k)) (λ j k, get P2 (j * n + k)))).
Proof.
  intros Hn H1 H2. split; [by apply cuda_reduce_window|].
  intros ->. by apply metal_reduce_window.
Qed.

Lemma kernels_correct_within_20_witness :
  cuda_reduce 4 (read "P1" identity4) (read "P2" (replicate 16 (Q2Qc (1 # 4))))
  = inr (spec_probC 4 (λ j k, get identity4 (j * 4 + k))
           (λ j k, get (replicate 16 (Q2Qc (1 # 4))) (j * 4 + k)),
         spec_probD 4 (λ j k, get identity4 (j * 4 + k))
           (λ j k, get (replicate 16 (Q2Qc (1 # 4))) (j * 4 + k))).
Proof.
  destruct (kernels_correct_within_20 4 identity4 (replicate 16 (Q2Qc (1 # 4))))
    as [Hcuda _]; [lia | reflexivity | reflexivity |].
  exact Hcuda.
Defined.

(** C8 (as stated, refuted).  With 4 states the two backends store
    different values for the same work item (pair 0, site 0) of the same
    tensor: CUDA 0 and 0, Metal 437 and 8303. *)
Lemma backends_differ_off_n20 :
  cuda_kernel nucleotide 0 0 256 0 (replicate 6 0%Qc) (replicate 6 0%Qc)
  = inr (<[0 := 0%Qc]> (replicate 6 0%Qc), <[0 := 0%Qc]> (replicate 6 0%Qc))
  ∧ metal_site nucleotide 0 0 96 0 (replicate 6 0%Qc, replicate 6 0%Qc)
    = inr (<[0 := qz 437]> (replicate 6 0%Qc),
           <[0 := qz 8303]> (replicate 6 0%Qc)).
Proof. split; compute_done. Qed.

(** C8 (amended).  With 20 states the two backends compute the same pair
    for every work item that lies inside its buffers: adding every entry and
    then subtracting the diagonal after each row (CUDA) and adding
    [rowSum - diag] per row (Metal) are the same sums in exact arithmetic. *)
Theorem backends_agree_for_20_states
    (L : launch) (pairIdx siteIdx off1 off2 : nat) (pC pD : list Qc)
    (blockIdx_y blockDim_x threadIdx_x : nat) :
  n L = 20 →
  work_item L pairIdx siteIdx off1 off2 pC pD →
  blockIdx_y * blockDim_x + threadIdx_x = siteIdx →
  cuda_kernel L pairIdx blockIdx_y blockDim_x threadIdx_x pC pD
  = metal_site L pairIdx off1 off2 siteIdx (pC, pD)
  ∧ cuda_kernel L pairIdx blockIdx_y blockDim_x threadIdx_x pC pD
    = metal_kernel L 1 pairIdx siteIdx pC pD.
Proof.
  intros Hn item Hsite.
  rewrite (metal_kernel_one_site _ _ _ _ _ _ _ item).
  rewrite (cuda_work_item _ _ _ _ _ _ _ item) by (done || lia).
  rewrite (metal_work_item _ _ _ _ _ _ _ item) by done.
  by rewrite Hn.
Qed.

Lemma backends_agree_for_20_states_witness :
  cuda_kernel uniform 0 0 256 0 [0%Qc] [0%Qc]
  = metal_site uniform 0 0 400 0 ([0%Qc], [0%Qc]).
Proof.
  assert (item : work_item uniform 0 0 0 400 [0%Qc] [0%Qc]).
  { split; simpl; try lia.
    - exists 0%Z. split; [reflexivity|]. split; [lia | reflexivity].
    - exists 1%Z. split; [reflexivity|]. split; [lia | reflexivity]. }
  destruct (backends_agree_for_20_states uniform 0 0 0 400 [0%Qc] [0%Qc] 0 256 0
              eq_refl item eq_refl) as [Hsite _].
  exact Hsite.
Defined.

End KernelFacts.




(** * Facts about the regression *)

Module RegressionFacts.
Import Regression.

(** ** The slope pass on degenerate inputs *)

(** One point: no pair [i < j] exists. *)
Lemma single_point_reads_outside (x y : Qc) :
  collect_slopes [x] [y] 1 = inr ([], 0)
  ∧ calculateRegression [x] [y] 1 = inl (OutOfBounds "vector" 0 0).
Proof. split; reflexivity. Qed.

Lemma read_replicate {A} name (a : A) N i :
  i < N → read name (replicate N a) i = inr a.
Proof. intros H. apply read_Some. by apply lookup_replicate_2. Qed.

(** [N] identical points: every pair is skipped by the test on line 164. *)
Lemma identical_points_collect (a b : Qc) (N : nat) :
  collect_slopes (replicate N a) (replicate N b) N = inr ([], 0).
Proof.
  unfold collect_slopes.
  loop_with (λ (i : nat) (counter : nat), counter = 0) c1 E1 H1; [done|..].
  { intros i c Hi ->.
    destruct (for_invariant (λ (j : nat) (counter : nat), counter = 0)
      (λ j counter,
        xi ← read "pDivergent" (replicate N a) i;
        xj ← read "pDivergent" (replicate N a) j;
        yi ← read "pAllConvergent" (replicate N b) i;
        yj ← read "pAllConvergent" (replicate N b) j;
        let xdelta := (xi - xj)%Qc in
        let ydelta := (yi - yj)%Qc in
        if decide (xdelta = 0%Qc ∧ ydelta = 0%Qc) then mret counter
        else
          let slope := ddiv (Fin ydelta) (Fin xdelta) in
          if deq slope (Fin (-1)) then mret counter
          else if dne slope (Fin 0) then mret (S counter)
          else mret counter) (i + 1) (N - (i + 1)) 0) as (c' & E & ->); [done| |eauto].
    intros j c Hj ->. rewrite !read_replicate by lia. rewrite !bind_inr.
    cbn zeta. rewrite decide_True by (split; ring). eauto. }
  subst c1.
  loop_with (λ (i : nat) (st : list double * nat), st = (malloc 0, 0)) st2 E2 H2;
    [done|..].
  { intros i st Hi ->.
    destruct (for_invariant (λ (j : nat) (st : list double * nat), st = (malloc 0, 0))
      (λ j '(vector, index),
        xi ← read "pDivergent" (replicate N a) i;
        xj ← read "pDivergent" (replicate N a) j;
        yi ← read "pAllConvergent" (replicate N b) i;
        yj ← read "pAllConvergent" (replicate N b) j;
        let xdelta := (xi - xj)%Qc in
        let ydelta := (yi - yj)%Qc in
        if decide (xdelta = 0%Qc ∧ ydelta = 0%Qc) then mret (vector, index)
        else
          let slope := ddiv (Fin ydelta) (Fin xdelta) in
          if deq slope (Fin (-1)) then mret (vector, index)
          else if dne slope (Fin 0) then
            vector ← write "vector" vector index slope;
            mret (vector, S index)
          else mret (vector, index)) (i + 1) (N - (i + 1)) (malloc 0, 0))
      as (st' & E & ->); [done| |eauto].
    intros j st Hj ->. rewrite !read_replicate by lia. rewrite !bind_inr.
    cbn zeta. rewrite decide_True by (split; ring). eauto. }
  subst st2. reflexivity.
Qed.

Lemma identical_points_read_outside (a b : Qc) (N : nat) :
  calculateRegression (replicate N a) (replicate N b) N
  = inl (OutOfBounds "vector" 0 0).
Proof.
  unfold calculateRegression, slope_phase.
  rewrite identical_points_collect. reflexivity.
Qed.

(** C4 (as stated, refuted).  With one branch pair, and with three
    identical points, the two passes collect no slope ([counter = 0], a
    [vector] of zero cells) and line 196 then reads [vector[0]]: an access
    outside the slope buffer, and no numeric-degeneracy outcome. *)
Lemma empty_slope_set_reads_outside_vector :
  collect_slopes single_x single_y 1 = inr ([], 0)
  ∧ calculateRegression single_x single_y 1 = inl (OutOfBounds "vector" 0 0)
  ∧ collect_slopes same_x same_y 3 = inr ([], 0)
  ∧ calculateRegression same_x same_y 3 = inl (OutOfBounds "vector" 0 0).
Proof. repeat split; compute_done. Qed.

(** C4 (amended).  On [N] identical points, for every [N] (so also on a
    single point), the two passes of [calculateRegression] find no usable
    slope: they return with [counter = 0] and a slope buffer of zero cells,
    every access of the passes being inside the two input arrays. *)
Theorem empty_slope_set_collects_nothing (a b : Qc) (N : nat) :
  collect_slopes (replicate N a) (replicate N b) N = inr ([], 0).
Proof. apply identical_points_collect. Qed.

(** ** The cutoff *)

(** When some slope is not below -1, the loop of lines 188-193 stops at the
    first such slope and [cutoff] is the index before it. *)
Lemma cutoff_loop_stops (below above : list double) (v : double) (i0 : nat) (c0 : Z) :
  Forall (λ x, dge x (Fin (-1)) = false) below →
  dge v (Fin (-1)) = true →
  ∀ front, length front = i0 →
  cutoff_loop (front ++ below ++ v :: above) i0 (length (below ++ v :: above)) c0
  = inr (Z.of_nat (i0 + length below) - 1)%Z.
Proof.
  intros Hbelow Hv. revert i0.
  induction Hbelow as [|x below Hx _ IH]; intros i0 front Hfront; simpl.
  - rewrite (read_Some _ _ _ v), bind_inr.
    + rewrite Hv. do 2 f_equal. lia.
    + rewrite lookup_app_r by lia. by rewrite Hfront, Nat.sub_diag.
  - rewrite (read_Some _ _ _ x), bind_inr.
    + rewrite Hx. specialize (IH (S i0) (front ++ [x])).
      rewrite <- app_assoc in IH. simpl in IH. rewrite IH.
      * do 2 f_equal. lia.
      * rewrite length_app. simpl. lia.
    + rewrite lookup_app_r by lia. by rewrite Hfront, Nat.sub_diag.
Qed.

(** When every slope is below -1 the loop ends without an assignment. *)
Lemma cutoff_loop_falls_through (below : list double) (i0 : nat) (c0 : Z) :
  Forall (λ x, dge x (Fin (-1)) = false) below →
  ∀ front, length front = i0 →
  cutoff_loop (front ++ below) i0 (length below) c0 = inr c0.
Proof.
  intros Hbelow. revert i0.
  induction Hbelow as [|x below Hx _ IH]; intros i0 front Hfront; simpl; [done|].
  rewrite (read_Some _ _ _ x), bind_inr.
  - rewrite Hx. specialize (IH (S i0) (front ++ [x])).
    rewrite <- app_assoc in IH. simpl in IH. apply IH.
    rewrite length_app. simpl. lia.
  - rewrite lookup_app_r by lia. by rewrite Hfront, Nat.sub_diag.
Qed.

Lemma last_index_below_app (below rest : list double) (i : nat) (found : Z) :
  Forall (λ x, dlt x (Fin (-1)) = true) below →
  below ≠ [] →
  last_index_below (below ++ rest) i found
  = last_index_below rest (i + length below) (Z.of_nat (i + length below) - 1)%Z.
Proof.
  intros Hbelow. revert i found.
  induction Hbelow as [|x below Hx Hb IH]; intros i found Hne; [done|].
  simpl. rewrite Hx. destruct below as [|x' below'].
  - simpl. replace (i + 1) with (S i) by lia.
    replace (Z.of_nat (S i) - 1)%Z with (Z.of_nat i) by lia. done.
  - rewrite IH by done. simpl. repeat f_equal; lia.
Qed.

Lemma last_index_below_none (above : list double) (i : nat) (found : Z) :
  Forall (λ x, dlt x (Fin (-1)) = false) above →
  last_index_below above i found = found.
Proof.
  intros H. revert i. induction H as [|x above Hx _ IH]; intros i; simpl; [done|].
  by rewrite Hx, IH.
Qed.

(** The loop computes the cutoff of the specification whenever the sorted
    slopes are some slopes below -1 followed by at least one slope that is
    not (a slope never equals -1 and is never a NaN, so "not below -1" is
    ">= -1"). *)
Lemma cutoff_loop_agrees (below above : list double) (v : double) :
  Forall (λ x, dlt x (Fin (-1)) = true ∧ dge x (Fin (-1)) = false) below →
  Forall (λ x, dlt x (Fin (-1)) = false) (v :: above) →
  dge v (Fin (-1)) = true →
  cutoff_loop (below ++ v :: above) 0 (length (below ++ v :: above)) 0
  = inr (spec_cutoff (below ++ v :: above)).
Proof.
  intros Hb Ha Hv.
  assert (Hb' : Forall (λ x, dge x (Fin (-1)) = false) below)
    by (eapply Forall_impl; [exact Hb|]; by intros x [_ ?]).
  pose proof (cutoff_loop_stops below above v 0 0 Hb' Hv [] eq_refl) as E.
  simpl in E. rewrite E. f_equal.
  unfold spec_cutoff. destruct below as [|x below'].
  - rewrite app_nil_l, last_index_below_none by done. done.
  - rewrite last_index_below_app;
      [|eapply Forall_impl; [exact Hb|]; by intros y [? _]|done].
    by rewrite last_index_below_none.
Qed.

(** With every slope below -1 the specification's cutoff is the last index,
    and the loop leaves the initial 0. *)
Lemma cutoff_loop_all_below (below : list double) :
  Forall (λ x, dlt x (Fin (-1)) = true ∧ dge x (Fin (-1)) = false) below →
  below ≠ [] →
  cutoff_loop below 0 (length below) 0 = inr 0%Z
  ∧ spec_cutoff below = (Z.of_nat (length below) - 1)%Z.
Proof.
  intros Hb Hne. split.
  - apply (cutoff_loop_falls_through below 0 0) with (front := []); [|done].
    eapply Forall_impl; [exact Hb|]. by intros x [_ ?].
  - unfold spec_cutoff.
    rewrite <- (app_nil_r below) at 1.
    rewrite last_index_below_app; [done| |done].
    eapply Forall_impl; [exact Hb|]. by intros x [? _].
Qed.

(** C5.  Three points on the line [y = -2x]: the three collected slopes are
    -2, all below -1.  The loop of lines 188-193 never assigns, [cutoff]
    keeps the 0 of its declaration, while the index of the last slope below
    -1 is 2; the median is then read at [(3+1)/2 + 0]. *)
Theorem cutoff_is_zero_when_all_slopes_below :
  ∃ vector,
    collect_slopes steep_x steep_y 3 = inr (vector, 3)
    ∧ qsort vector = [Fin (qz (-2)); Fin (qz (-2)); Fin (qz (-2))]
    ∧ cutoff_loop (qsort vector) 0 3 0 = inr 0%Z
    ∧ spec_cutoff (qsort vector) = 2%Z
    ∧ calculateRegression steep_x steep_y 3 = inr (Fin (qz (-2)), Fin (qz 0)).
Proof.
  exists [Fin (qz (-2)); Fin (qz (-2)); Fin (qz (-2))]. repeat split; compute_done.
Qed.

(** ** The intercept *)

#[export] Instance cmp_le_total : Total cmp_le.
Proof.
  intros a b. unfold cmp_le, cmpfunc.
  destruct (dlt a b), (dlt b a); (left; lia) || (right; lia).
Qed.

Lemma cmp_le_Fin (a b : Qc) : cmp_le (Fin a) (Fin b) ↔ (a ≤ b)%Qc.
Proof.
  unfold cmp_le, cmpfunc, dlt.
  destruct (decide (a < b)%Qc) as [Hab|Hab];
    [rewrite bool_decide_eq_true_2 by done | rewrite bool_decide_eq_false_2 by done].
  - split; [intros _; by apply Qclt_le_weak | lia].
  - destruct (decide (b < a)%Qc) as [Hba|Hba];
      [rewrite bool_decide_eq_true_2 by done | rewrite bool_decide_eq_false_2 by done].
    + split; [lia | intros Hle; exfalso; by eapply Qcle_not_lt].
    + split; [intros _; by apply Qcnot_lt_le | lia].
Qed.

Lemma Sorted_map_Fin (s : list Qc) : Sorted cmp_le (map Fin s) → Sorted Qcle s.
Proof.
  induction s as [|a s IH]; intros H; [constructor|].
  simpl in H. apply Sorted_inv in H as [Hs Hhd]. constructor; [by apply IH|].
  destruct s as [|b s']; constructor.
  simpl in Hhd. apply HdRel_inv in Hhd. by apply cmp_le_Fin.
Qed.

(** The array [temp] after the loop of lines 202-204. *)
Lemma temp_loop (k : Qc) (x y : list Qc) (N : nat) :
  length x = N → length y = N →
  for_ 0 N (λ i temp,
    yi ← read "pAllConvergent" y i;
    xi ← read "pDivergent" x i;
    write "temp" temp i (dsub (Fin yi) (dmul (Fin k) (Fin xi)))) (malloc N)
  = inr (map Fin (residuals k x y)).
Proof.
  intros Hx Hy.
  loop_with (λ (i : nat) (temp : list double),
    length temp = N ∧
    ∀ i', i' < i → temp !! i' = Fin <$> (residuals k x y !! i')) temp E H.
  { split; [apply length_replicate | intros; lia]. }
  { intros i temp Hi [Hlen Hpre].
    destruct (lookup_lt_is_Some_2 x i) as [xi Hxi]; [lia|].
    destruct (lookup_lt_is_Some_2 y i) as [yi Hyi]; [lia|].
    rewrite (read_Some _ _ _ _ Hyi), bind_inr, (read_Some _ _ _ _ Hxi), bind_inr.
    rewrite write_lt by lia. eexists. split; [done|].
    split; [by rewrite length_insert|]. intros i' Hi'.
    destruct (decide (i' = i)) as [->|Hne].
    - rewrite list_lookup_insert_eq by lia.
      unfold residuals. rewrite lookup_zip_with, Hxi, Hyi. reflexivity.
    - rewrite list_lookup_insert_ne by done. apply Hpre. lia. }
  destruct H as [Hlen Hall]. f_equal.
  apply list_eq. intros i. rewrite list_lookup_fmap.
  destruct (decide (i < N)) as [Hi|Hi]; [by apply Hall|].
  rewrite lookup_ge_None_2 by lia.
  rewrite lookup_ge_None_2; [done|].
  unfold residuals. rewrite length_zip_with. lia.
Qed.

Lemma read_at_nat {A} name (a : list A) (i : nat) (v : A) :
  a !! i = Some v → read_at name a (Z.of_nat i) = inr v.
Proof.
  intros H. unfold read_at. rewrite decide_True by lia.
  rewrite Nat2Z.id. by apply read_Some.
Qed.

Lemma intercept_phase_median (k : Qc) (x y : list Qc) (N : nat) :
  1 ≤ N → length x = N → length y = N →
  ∃ b, intercept_phase (Fin k) x y N = inr (Fin b)
       ∧ median_of (residuals k x y) b.
Proof.
  intros HN Hx Hy. unfold intercept_phase.
  rewrite (temp_loop k x y N Hx Hy), bind_inr.
  pose proof (merge_sort_Permutation cmp_le (map Fin (residuals k x y))) as Hperm.
  pose proof (Sorted_merge_sort cmp_le (map Fin (residuals k x y))) as Hsorted.
  fold (qsort (map Fin (residuals k x y))) in Hperm, Hsorted.
  destruct (Permutation_map_inv Fin _ Hperm) as (s & Hs & Hps).
  rewrite Hs in *. apply Sorted_map_Fin in Hsorted.
  assert (Hlen : length (residuals k x y) = N).
  { unfold residuals. rewrite length_zip_with. lia. }
  assert (HlenS : length s = N) by (by rewrite <- (Permutation_length Hps)).
  unfold median_of. rewrite Hlen.
  destruct (decide (N mod 2 = 0)) as [Heven|Hodd].
  - assert (N / 2 < N) by (apply Nat.div_lt; lia).
    assert (1 ≤ N / 2).
    { destruct (decide (N / 2 = 0)) as [E|]; [|lia].
      apply Nat.div_small_iff in E; [|lia]. rewrite Nat.mod_small in Heven; lia. }
    destruct (lookup_lt_is_Some_2 s (N / 2)) as [hi Hhi]; [lia|].
    destruct (lookup_lt_is_Some_2 s (N / 2 - 1)) as [lo Hlo]; [lia|].
    rewrite (read_at_nat _ _ _ (Fin hi)), bind_inr
      by (by rewrite list_lookup_fmap, Hhi).
    replace (Z.of_nat (N / 2) - 1)%Z with (Z.of_nat (N / 2 - 1)) by lia.
    rewrite (read_at_nat _ _ _ (Fin lo)), bind_inr
      by (by rewrite list_lookup_fmap, Hlo).
    exists ((lo + hi) / 2)%Qc. split.
    + simpl. by rewrite (Qcplus_comm hi lo).
    + exists s. split; [done|]. split; [done|]. eauto.
  - assert (N / 2 < N) by (apply Nat.div_lt; lia).
    destruct (lookup_lt_is_Some_2 s (N / 2)) as [b Hb]; [lia|].
    rewrite (read_at_nat _ _ _ (Fin b)) by (by rewrite list_lookup_fmap, Hb).
    exists b. split; [done|]. exists s. split; [done|]. by split.
Qed.

(** C7.  When lines 155-198 have stored a (finite) slope [k] for [N >= 1]
    points, [calculateRegression] returns that [k] and an intercept [b] that
    is the median of the values [t[i] = y[i] - k x[i]], [i < N]: [t] has an
    ascending arrangement of which [b] is the middle element when [N] is odd
    and the mean of the two middle elements when [N] is even. *)
Theorem intercept_is_median (k : Qc) (x y : list Qc) (N : nat) :
  1 ≤ N → length x = N → length y = N →
  slope_phase x y N = inr (Fin k) →
  ∃ b, calculateRegression x y N = inr (Fin k, Fin b)
       ∧ median_of (residuals k x y) b.
Proof.
  intros HN Hx Hy Hk.
  destruct (intercept_phase_median k x y N HN Hx Hy) as (b & Hb & Hmed).
  exists b. split; [|done].
  unfold calculateRegression. by rewrite Hk, bind_inr, Hb.
Qed.

Lemma intercept_is_median_witness :
  ∃ b, calculateRegression s4_x s4_y 5 = inr (Fin (qz 1), Fin b)
       ∧ median_of (residuals (qz 1) s4_x s4_y) b.
Proof.
  apply (intercept_is_median (qz 1) s4_x s4_y 5);
    [lia | reflexivity | reflexivity | compute_done].
Defined.

(** Scenario S4 of the specification: [k = 1] and [b = 0]. *)
Lemma scenario_S4 :
  calculateRegression s4_x s4_y 5 = inr (Fin (qz 1), Fin (qz 0)).
Proof. compute_done. Qed.

End RegressionFacts.

(** * Facts about the emitter *)

Module EmitFacts.
Import Emit.

Lemma string_app_assoc (s1 s2 s3 : string) : (s1 +:+ s2) +:+ s3 = s1 +:+ (s2 +:+ s3).
Proof.
  induction s1 as [|c s1 IH]; [reflexivity|].
  change (String c ((s1 +:+ s2) +:+ s3) = String c (s1 +:+ (s2 +:+ s3))).
  by f_equal.
Qed.

Lemma string_app_nil_r (s : string) : s +:+ EmptyString = s.
Proof.
  induction s as [|c s IH]; [reflexivity|].
  change (String c (s +:+ EmptyString) = String c s). by f_equal.
Qed.

(** ** The per-pair site array *)

Section SiteArray.
Variable fmt_6f : Qc → string.
Variable siteSpecificMap : list Qc.
Variables lst ig : nat.
Hypothesis in_map : (ig + 1) * lst * 2 ≤ length siteSpecificMap.

Lemma triples_text_app (hs1 hs2 : list nat) :
  triples_text fmt_6f siteSpecificMap lst ig (hs1 ++ hs2)
  = triples_text fmt_6f siteSpecificMap lst ig hs1
    +:+ triples_text fmt_6f siteSpecificMap lst ig hs2.
Proof.
  induction hs1 as [|h hs1 IH]; [done|].
  rewrite <- app_comm_cons. cbn [triples_text]. by rewrite IH, string_app_assoc.
Qed.

(** What one guarded [sprintf] does to the buffer. *)
Lemma site_entry_spec (h : nat) (tail buf : string) :
  h < lst →
  site_entry fmt_6f siteSpecificMap lst ig h tail buf
  = inr (buf +:+
         (if decide (conv_at siteSpecificMap lst ig h ≠ 0%Qc
                     ∨ div_at siteSpecificMap lst ig h ≠ 0%Qc)
          then triple_text fmt_6f h (conv_at siteSpecificMap lst ig h)
                 (div_at siteSpecificMap lst ig h) tail
          else EmptyString)).
Proof using in_map.
  intros Hh. unfold site_entry, conv_at, div_at.
  assert (ig * lst * 2 + h * 2 + 1 < length siteSpecificMap) by nia.
  rewrite !read_get by lia. rewrite bind_inr.
  destruct (decide (get siteSpecificMap (ig * lst * 2 + h * 2) ≠ 0%Qc)) as [Hc|Hc].
  - rewrite bind_mret, ?bind_inr. rewrite decide_True by (by left). done.
  - rewrite ?bind_inr. case_bool_decide as Hd.
    + rewrite bind_mret, ?bind_inr. rewrite decide_True by (by right). done.
    + rewrite bind_mret. rewrite decide_False by (intros [?|?]; done).
      by rewrite string_app_nil_r.
Qed.

Lemma kept_sites_step (h : nat) :
  filter (λ h, conv_at siteSpecificMap lst ig h ≠ 0%Qc
               ∨ div_at siteSpecificMap lst ig h ≠ 0%Qc) (seq 0 (S h))
  = filter (λ h, conv_at siteSpecificMap lst ig h ≠ 0%Qc
               ∨ div_at siteSpecificMap lst ig h ≠ 0%Qc) (seq 0 h)
    ++ (if decide (conv_at siteSpecificMap lst ig h ≠ 0%Qc
                   ∨ div_at siteSpecificMap lst ig h ≠ 0%Qc) then [h] else []).
Proof. rewrite seq_S, filter_app. f_equal. Qed.

Lemma siteSpecificBP_spec :
  1 ≤ lst →
  siteSpecificBP fmt_6f siteSpecificMap lst ig
  = inr ("[ " +:+ triples_text fmt_6f siteSpecificMap lst ig
                    (kept_sites siteSpecificMap lst ig) +:+ "]").
Proof using in_map.
  intros Hlst. unfold siteSpecificBP.
  loop_with (λ (h : nat) (buf : string),
    buf = "[ " +:+ triples_text fmt_6f siteSpecificMap lst ig
                     (filter (λ h, conv_at siteSpecificMap lst ig h ≠ 0%Qc
                                   ∨ div_at siteSpecificMap lst ig h ≠ 0%Qc)
                        (seq 0 h))) buf E H.
  { done. }
  { intros h buf Hh ->. rewrite site_entry_spec by lia.
    eexists. split; [done|]. rewrite kept_sites_step, triples_text_app.
    rewrite !string_app_assoc. do 2 f_equal.
    case_decide; simpl; [|done].
    rewrite decide_False by lia. by rewrite string_app_nil_r. }
  subst buf. rewrite site_entry_spec by lia. rewrite bind_inr. simpl.
  assert (Hk : kept_sites siteSpecificMap lst ig
               = filter (λ h, conv_at siteSpecificMap lst ig h ≠ 0%Qc
                              ∨ div_at siteSpecificMap lst ig h ≠ 0%Qc)
                   (seq 0 (S (lst - 1)))).
  { unfold kept_sites. do 2 f_equal. lia. }
  rewrite Hk, kept_sites_step, triples_text_app. rewrite !string_app_assoc.
  do 3 f_equal. case_decide; simpl; [|done].
  rewrite decide_True by done. by rewrite string_app_nil_r.
Qed.

End SiteArray.

(** The array of one pair with three sites, of which site 1 is all zero. *)
Lemma three_sites_text :
  siteSpecificBP fmt_sign three_sites 3 0
  = inr "[ [0, x.xxxxxx, 0.000000], [2, 0.000000, x.xxxxxx] ]".
Proof. compute_done. Qed.

(** ** The files the emitter writes *)

Lemma writes_only_ret {A} (P : string → Prop) (x : A) : writes_only P (mret x).
Proof. by intros σ p _. Qed.

Lemma writes_only_lift {A} (P : string → Prop) (m : M A) : writes_only P (lift m).
Proof. by intros σ p _. Qed.

Lemma writes_only_bind {A B} (P : string → Prop) (m : IO A) (f : A → IO B) :
  writes_only P m → (∀ x, writes_only P (f x)) → writes_only P (m ≫= f).
Proof.
  intros Hm Hf σ p Hp. unfold mbind, IO_bind.
  specialize (Hm σ p Hp). destruct (m σ) as [[e|x] σ']; simpl in *; [done|].
  by rewrite (Hf x σ' p Hp).
Qed.

Lemma writes_only_fopen_r (P : string → Prop) path : writes_only P (fopen_r path).
Proof. by intros σ p _. Qed.

Lemma writes_only_fopen_w (P : string → Prop) path : P path → writes_only P (fopen_w path).
Proof.
  intros HP σ p Hp. unfold fopen_w. simpl.
  apply lookup_insert_ne. by intros ->.
Qed.

Lemma writes_only_fprintf (P : string → Prop) stream text :
  P stream → writes_only P (fprintf stream text).
Proof.
  intros HP σ p Hp. unfold fprintf. simpl.
  apply lookup_insert_ne. by intros ->.
Qed.

(** The stream that [fopen(path, "w")] returns is [path]. *)
Lemma writes_only_fopen_w_bind {B} (P : string → Prop) path (f : string → IO B) :
  P path → writes_only P (f path) → writes_only P (fopen_w path ≫= f).
Proof.
  intros HP Hf σ p Hp. unfold mbind, IO_bind, fopen_w. simpl.
  rewrite (Hf _ p Hp). apply lookup_insert_ne. by intros ->.
Qed.

Lemma writes_only_for_io (P : string → Prop) lo cnt body :
  (∀ i, writes_only P (body i)) → writes_only P (for_io lo cnt body).
Proof.
  intros Hbody. revert lo. induction cnt as [|c IH]; intros lo; simpl.
  - apply writes_only_ret.
  - apply writes_only_bind; [done | intros _; apply IH].
Qed.

Create HintDb emit.
#[export] Hint Resolve writes_only_ret writes_only_lift writes_only_fopen_r
  writes_only_fprintf writes_only_fopen_w : emit.

Ltac writes_only_tac :=
  repeat match goal with
         | |- writes_only _ (mbind _ _) => apply writes_only_bind; [|intros ?]
         | |- writes_only _ (for_io _ _ _) => apply writes_only_for_io; intros ?
         | |- writes_only _ (match ?x with _ => _ end) => destruct x eqn:?
         | |- writes_only _ _ => solve [eauto with emit]
         end.

Lemma writes_only_html_line (P : string → Prop) file sel num newHTML line :
  P newHTML → writes_only P (html_line file sel num newHTML line).
Proof. intros HP. unfold html_line. writes_only_tac. Qed.

Lemma writes_only_html_lines (P : string → Prop) fuel file sel num newHTML template :
  P newHTML → writes_only P (html_lines fuel file sel num newHTML template).
Proof.
  intros HP. revert template.
  induction fuel as [|fuel IH]; intros template; cbn [html_lines].
  - apply writes_only_ret.
  - destruct (fgets 1023 template) as [line rest].
    destruct (decide (line = EmptyString)).
    + apply writes_only_ret.
    + apply writes_only_bind; [by apply writes_only_html_line | intros _; apply IH].
Qed.

(** [generateHTML] changes no file but the page at its final path. *)
Lemma writes_only_generateHTML htmlFileName file templateFile moreFile sel num :
  writes_only (λ p, p = html_path htmlFileName moreFile)
    (generateHTML htmlFileName file templateFile moreFile sel num).
Proof.
  unfold generateHTML.
  apply writes_only_bind; [apply writes_only_fopen_r | intros template].
  apply writes_only_fopen_w_bind; [done|].
  destruct template as [text|]; [|apply writes_only_lift].
  by apply writes_only_html_lines.
Qed.

(** Opening a page discards what its path held: the run cannot tell a
    previous page from none. *)
Lemma generateHTML_discards_previous htmlFileName file templateFile moreFile sel num
    (σ : fs) (previous : string) :
  templateFile ≠ html_path htmlFileName moreFile →
  generateHTML htmlFileName file templateFile moreFile sel num
    (<[html_path htmlFileName moreFile := previous]> σ)
  = generateHTML htmlFileName file templateFile moreFile sel num
      (delete (html_path htmlFileName moreFile) σ).
Proof.
  intros Hne. unfold generateHTML, mbind, IO_bind, fopen_r, fopen_w. simpl.
  rewrite lookup_insert_ne, lookup_delete_ne by done.
  by rewrite insert_insert_eq, insert_delete_eq.
Qed.

Lemma writes_only_weaken {A} (P Q : string → Prop) (m : IO A) :
  (∀ p, P p → Q p) → writes_only P m → writes_only Q m.
Proof. intros HPQ Hm σ p Hp. apply Hm. naive_solver. Qed.

Lemma lift_bind {A B} (x : A) (f : A → IO B) : (lift (inr x) ≫= f) = f x.
Proof. reflexivity. Qed.

Lemma fopen_w_discards {B} path (f : string → IO B) (σ : fs) (previous : string) :
  (fopen_w path ≫= f) (<[path := previous]> σ) = (fopen_w path ≫= f) (delete path σ).
Proof.
  unfold mbind, IO_bind, fopen_w. simpl.
  by rewrite insert_insert_eq, insert_delete_eq.
Qed.

Lemma writes_only_pair_entries (P : string → Prop) fmt_6f dataFile map sel num lst ig cnt
    summary :
  P dataFile →
  writes_only P (pair_entries fmt_6f dataFile map sel num lst ig cnt summary).
Proof.
  intros HP. revert ig summary.
  induction cnt as [|c IH]; intros ig summary; cbn [pair_entries].
  - apply writes_only_ret.
  - apply writes_only_bind; [|intros ?; apply IH].
    unfold pair_entry. destruct summary as [[s1 s2] s3]. writes_only_tac.
Qed.

(** [outputDataInJS] changes no file but the six artifacts. *)
Lemma writes_only_outputDataInJS fmt_6f htmlFileName preamble map sel num lst file :
  data_file_path htmlFileName = inr file →
  writes_only (λ p, p ∈ output_paths htmlFileName file)
    (outputDataInJS fmt_6f htmlFileName preamble map sel num lst).
Proof.
  intros Hfile. unfold outputDataInJS. rewrite Hfile, lift_bind.
  assert (Hfirst : file ∈ output_paths htmlFileName file) by apply list_elem_of_here.
  assert (Hin : ∀ moreFile,
            moreFile ∈ [None; Some ("sheet-" +:+ htmlFileName);
                        Some ("siteSpecific-" +:+ htmlFileName);
                        Some ("rateVsDiversity-" +:+ htmlFileName);
                        Some ("rateVsProbConvergence-" +:+ htmlFileName)] →
            ∀ templateFile sel' num',
              writes_only (λ p, p ∈ output_paths htmlFileName file)
                (generateHTML htmlFileName file templateFile moreFile sel' num')).
  { intros moreFile Hmore templateFile sel' num'.
    eapply writes_only_weaken; [|apply writes_only_generateHTML].
    intros p ->. apply list_elem_of_further.
    by apply (list_elem_of_fmap_2 (html_path htmlFileName)) in Hmore. }
  apply writes_only_fopen_w_bind; [done|].
  repeat match goal with
         | |- writes_only _ (mbind _ _) => apply writes_only_bind; [|intros ?]
         | |- writes_only _ (match ?x with _ => _ end) => destruct x
         | |- writes_only _ (fprintf _ _) => by apply writes_only_fprintf
         | |- writes_only _ (pair_entries _ _ _ _ _ _ _ _ _) =>
             by apply writes_only_pair_entries
         | |- writes_only _ (generateHTML _ _ _ _ _ _) =>
             apply Hin; repeat (apply list_elem_of_here || apply list_elem_of_further)
         end.
Qed.

(** C9 (as stated, refuted).  The run directory holds the main page of an
    earlier run and the template of the main page is missing.  The emitter
    opens [UI/User/index.html] itself for writing, which empties it, and
    then fails on the template: the earlier page is gone. *)
Lemma earlier_report_lost_on_failure :
  earlier_run !! "UI/User/index.html" = Some "<html>report of the earlier run</html>"
  ∧ generateHTML "index.html" "UI/User/indexData.js" "UI/Template.html" None [] 0
      earlier_run
    = (inl (NullStream "UI/Template.html"),
       <["UI/User/index.html" := EmptyString]> earlier_run)
  ∧ (outputDataInJS fmt_sign "index.html" "regressionSlope = 1;" three_sites
       [3; 5; 1]%Z 1 3 earlier_run).1
    = inl (NullStream "UI/Template.html")
  ∧ (outputDataInJS fmt_sign "index.html" "regressionSlope = 1;" three_sites
       [3; 5; 1]%Z 1 3 earlier_run).2 !! "UI/User/index.html"
    = Some EmptyString.
Proof. repeat split; compute_done. Qed.

(** C9 (amended).  The emitter opens every output artifact at its final
    path in write mode and writes it in place: it creates no temporary file
    and renames nothing, so no path but the six final paths changes; and
    what a final path held before is discarded when the artifact is opened
    (a run started on a directory that holds a previous artifact proceeds and
    ends exactly as on the directory without it), whether or not emission
    then fails. *)
Theorem emitter_writes_final_paths_in_place
    (fmt_6f : Qc → string) (htmlFileName preamble : string)
    (siteSpecificMap : list Qc) (selectedBranchPairs : list Z)
    (numOfSelectedBranchPairs lst : nat) (file : string)
    (σ : fs) (p previous : string) :
  data_file_path htmlFileName = inr file →
  p ∉ output_paths htmlFileName file →
  (outputDataInJS fmt_6f htmlFileName preamble siteSpecificMap selectedBranchPairs
     numOfSelectedBranchPairs lst σ).2 !! p = σ !! p
  ∧ outputDataInJS fmt_6f htmlFileName preamble siteSpecificMap selectedBranchPairs
      numOfSelectedBranchPairs lst (<[file := previous]> σ)
    = outputDataInJS fmt_6f htmlFileName preamble siteSpecificMap selectedBranchPairs
        numOfSelectedBranchPairs lst (delete file σ)
  ∧ ∀ templateFile moreFile sel num,
      templateFile ≠ html_path htmlFileName moreFile →
      generateHTML htmlFileName file templateFile moreFile sel num
        (<[html_path htmlFileName moreFile := previous]> σ)
      = generateHTML htmlFileName file templateFile moreFile sel num
          (delete (html_path htmlFileName moreFile) σ).
Proof.
  intros Hfile Hp. split; [|split].
  - by apply (writes_only_outputDataInJS _ _ _ _ _ _ _ file).
  - unfold outputDataInJS. rewrite Hfile, lift_bind. apply fopen_w_discards.
  - intros. by apply generateHTML_discards_previous.
Qed.

Lemma emitter_writes_final_paths_in_place_witness :
  (outputDataInJS fmt_sign "index.html" "regressionSlope = 1;" three_sites
     [3; 5; 1]%Z 1 3 with_template).2 !! "UI/Template.html"
  = with_template !! "UI/Template.html"
  ∧ generateHTML "index.html" "UI/User/indexData.js" "UI/Template.html" None [] 0
      (<["UI/User/index.html" := "previous page"]> with_template)
    = generateHTML "index.html" "UI/User/indexData.js" "UI/Template.html" None [] 0
        (delete "UI/User/index.html" with_template).
Proof.
  destruct (emitter_writes_final_paths_in_place fmt_sign "index.html"
              "regressionSlope = 1;" three_sites [3; 5; 1]%Z 1 3
              "UI/User/indexData.js" with_template "UI/Template.html" "previous page")
    as (Hframe & _ & Hpage).
  - reflexivity.
  - compute_done.
  - split; [exact Hframe|].
    apply (Hpage "UI/Template.html" None [] 0). compute_done.
Defined.

End EmitFacts.

(** * Facts about the slope set and the regression *)

Module SlopesFacts.
Import Regression Slopes RegressionFacts.

Lemma slopes_from_app x y i js1 js2 :
  slopes_from x y i (js1 ++ js2) = slopes_from x y i js1 ++ slopes_from x y i js2.
Proof. unfold slopes_from. apply omap_app. Qed.

Lemma slopes_from_one x y i j :
  slopes_from x y i [j]
  = match kept_slope (get x i) (get x j) (get y i) (get y j) with
    | Some s => [s]
    | None => []
    end.
Proof. reflexivity. Qed.

Lemma slopes_of_split x y N i j :
  i < N → i + 1 ≤ j ≤ N →
  slopes_of x y N
  = flat_map (λ i, slopes_from x y i (seq (i + 1) (N - (i + 1)))) (seq 0 i)
    ++ slopes_from x y i (seq (i + 1) (j - (i + 1)))
    ++ slopes_from x y i (seq j (N - j))
    ++ flat_map (λ i, slopes_from x y i (seq (i + 1) (N - (i + 1)))) (seq (S i) (N - S i)).
Proof.
  intros Hi Hj. unfold slopes_of.
  assert (E : seq 0 N = seq 0 i ++ i :: seq (S i) (N - S i)).
  { replace N with (i + S (N - S i)) at 1 by lia. by rewrite seq_app. }
  rewrite E at 1. rewrite flat_map_app. cbn [flat_map]. f_equal.
  rewrite app_assoc. f_equal. rewrite <- slopes_from_app. f_equal.
  replace (N - (i + 1)) with ((j - (i + 1)) + (N - j)) by lia.
  rewrite seq_app. do 2 f_equal. lia.
Qed.

(** Pass 1 over the rows below [i]. *)
Lemma pass1_row x y N i (c0 : nat) :
  length x = N → length y = N → i < N →
  for_ (i + 1) (N - (i + 1)) (λ j counter,
        xi ← read "pDivergent" x i;
        xj ← read "pDivergent" x j;
        yi ← read "pAllConvergent" y i;
        yj ← read "pAllConvergent" y j;
        let xdelta := (xi - xj)%Qc in
        let ydelta := (yi - yj)%Qc in
        if decide (xdelta = 0%Qc ∧ ydelta = 0%Qc) then mret counter
        else
          let slope := ddiv (Fin ydelta) (Fin xdelta) in
          if deq slope (Fin (-1)) then mret counter
          else if dne slope (Fin 0) then mret (S counter)
          else mret counter) c0
  = inr (c0 + length (slopes_from x y i (seq (i + 1) (N - (i + 1))))).
Proof.
  intros Hx Hy Hi.
  match goal with |- for_ ?lo ?cnt ?body ?s = _ =>
    destruct (for_invariant
      (λ (j : nat) (c : nat),
         c = c0 + length (slopes_from x y i (seq (i + 1) (j - (i + 1)))))
      body lo cnt s) as (c' & E & Hc)
  end.
  - rewrite Nat.sub_diag. simpl. lia.
  - intros j c Hj ->.
    rewrite (read_get _ x i), bind_inr by lia.
    rewrite (read_get _ x j), bind_inr by lia.
    rewrite (read_get _ y i), bind_inr by lia.
    rewrite (read_get _ y j), bind_inr by lia.
    cbn zeta.
    replace (S j - (i + 1)) with ((j - (i + 1)) + 1) by lia.
    rewrite seq_app, slopes_from_app, length_app.
    replace (i + 1 + (j - (i + 1))) with j by lia.
    cbn [seq]. rewrite slopes_from_one. unfold kept_slope. cbn zeta.
    destruct (decide _); [eexists; split; [done|simpl; lia]|].
    destruct (deq _ _); [eexists; split; [done|simpl; lia]|].
    destruct (dne _ _); eexists; (split; [done|simpl; lia]).
  - rewrite E, Hc.
    by replace (i + 1 + (N - (i + 1)) - (i + 1)) with (N - (i + 1)) by lia.
Qed.

Lemma slopes_from_split x y N i j :
  i + 1 ≤ j < N →
  slopes_from x y i (seq (i + 1) (N - (i + 1)))
  = slopes_from x y i (seq (i + 1) (j - (i + 1)))
    ++ slopes_from x y i [j]
    ++ slopes_from x y i (seq (S j) (N - S j)).
Proof.
  intros Hj. rewrite <- !slopes_from_app. f_equal.
  replace (N - (i + 1)) with ((j - (i + 1)) + S (N - S j)) by lia.
  rewrite seq_app. cbn [seq].
  by replace (i + 1 + (j - (i + 1))) with j by lia.
Qed.

Lemma filled_write total written s :
  length written < total →
  write "vector" (filled total written).1 (filled total written).2 s
  = inr (filled total (written ++ [s])).1.
Proof.
  intros H. unfold filled. cbn [fst snd].
  rewrite write_lt by (rewrite length_app, length_replicate; lia).
  f_equal. rewrite insert_app_r_alt by lia. rewrite Nat.sub_diag.
  rewrite length_app. cbn [length].
  replace (total - length written) with (S (total - (length written + 1))) by lia.
  cbn [replicate]. by rewrite <- app_assoc.
Qed.

(** Pass 2 over the row of [i]. *)
Lemma pass2_row x y N i total written :
  length x = N → length y = N → i < N →
  length written + length (slopes_from x y i (seq (i + 1) (N - (i + 1)))) ≤ total →
  for_ (i + 1) (N - (i + 1)) (λ j '(vector, index),
        xi ← read "pDivergent" x i;
        xj ← read "pDivergent" x j;
        yi ← read "pAllConvergent" y i;
        yj ← read "pAllConvergent" y j;
        let xdelta := (xi - xj)%Qc in
        let ydelta := (yi - yj)%Qc in
        if decide (xdelta = 0%Qc ∧ ydelta = 0%Qc) then mret (vector, index)
        else
          let slope := ddiv (Fin ydelta) (Fin xdelta) in
          if deq slope (Fin (-1)) then mret (vector, index)
          else if dne slope (Fin 0) then
            vector ← write "vector" vector index slope;
            mret (vector, S index)
          else mret (vector, index)) (filled total written)
  = inr (filled total (written ++ slopes_from x y i (seq (i + 1) (N - (i + 1))))).
Proof.
  intros Hx Hy Hi Htotal.
  match goal with |- for_ ?lo ?cnt ?body ?s = _ =>
    destruct (for_invariant
      (λ (j : nat) (st : list double * nat),
         st = filled total (written ++ slopes_from x y i (seq (i + 1) (j - (i + 1)))))
      body lo cnt s) as (st' & E & Hst)
  end.
  - rewrite Nat.sub_diag. simpl. by rewrite app_nil_r.
  - intros j st Hj ->.
    set (w := written ++ slopes_from x y i (seq (i + 1) (j - (i + 1)))).
    change (filled total w) with ((filled total w).1, (filled total w).2) at 1.
    cbv beta iota.
    rewrite (read_get _ x i), bind_inr by lia.
    rewrite (read_get _ x j), bind_inr by lia.
    rewrite (read_get _ y i), bind_inr by lia.
    rewrite (read_get _ y j), bind_inr by lia.
    cbn zeta.
    replace (S j - (i + 1)) with ((j - (i + 1)) + 1) by lia.
    rewrite seq_app, slopes_from_app.
    replace (i + 1 + (j - (i + 1))) with j by lia.
    cbn [seq]. rewrite app_assoc. fold w.
    pose proof (slopes_from_split x y N i j ltac:(lia)) as Hsplit.
    rewrite Hsplit, !length_app in Htotal.
    rewrite slopes_from_one in Htotal |- *. unfold kept_slope in Htotal |- *.
    cbn zeta in Htotal |- *.
    destruct (decide _); [eexists; split; [done|by rewrite app_nil_r]|].
    destruct (deq _ _); [eexists; split; [done|by rewrite app_nil_r]|].
    destruct (dne _ _); [|eexists; split; [done|by rewrite app_nil_r]].
    cbn [length] in Htotal.
    rewrite filled_write, bind_inr.
    + eexists. split; [done|]. unfold filled. cbn [fst snd].
      f_equal. rewrite length_app. cbn [length]. lia.
    + unfold w. rewrite length_app. lia.
  - rewrite E, Hst.
    by replace (i + 1 + (N - (i + 1)) - (i + 1)) with (N - (i + 1)) by lia.
Qed.

(** The two passes agree: the buffer that pass 1 sizes is the buffer that
    pass 2 fills, cell by cell, with the kept slopes in loop order. *)
Lemma collect_slopes_spec (x y : list Qc) (N : nat) :
  length x = N → length y = N →
  collect_slopes x y N = inr (slopes_of x y N, length (slopes_of x y N)).
Proof.
  intros Hx Hy. unfold collect_slopes.
  set (rows := λ i, slopes_from x y i (seq (i + 1) (N - (i + 1)))).
  loop_with (λ (i : nat) (counter : nat),
               counter = length (flat_map rows (seq 0 i))) c1 E1 H1; [done|..].
  { intros i c Hi ->. rewrite pass1_row by (done || lia).
    eexists. split; [done|].
    rewrite seq_S, flat_map_app, length_app. cbn [flat_map].
    by rewrite app_nil_r. }
  cbn [Nat.add] in H1. subst c1.
  change (flat_map rows (seq 0 N)) with (slopes_of x y N).
  set (total := length (slopes_of x y N)).
  assert (Hnil : (malloc total, 0) = filled total []).
  { unfold filled. cbn [length app]. by rewrite Nat.sub_0_r. }
  rewrite Hnil. clear Hnil.
  loop_with (λ (i : nat) (st : list double * nat),
               st = filled total (flat_map rows (seq 0 i))) st2 E2 H2; [done|..].
  { intros i st Hi ->. eexists. split.
    - apply pass2_row; [done|done|lia|].
      unfold total. rewrite (slopes_of_split x y N i (i + 1)) by lia.
      rewrite !length_app. unfold rows. lia.
    - rewrite seq_S, flat_map_app. cbn [flat_map]. by rewrite app_nil_r. }
  cbn [Nat.add] in H2. subst st2.
  change (flat_map rows (seq 0 N)) with (slopes_of x y N).
  unfold filled, total. rewrite Nat.sub_diag. cbn [replicate].
  by rewrite app_nil_r.
Qed.

(** What a kept slope is. *)
Lemma kept_slope_Some xi xj yi yj s :
  kept_slope xi xj yi yj = Some s →
  s = ddiv (Fin (yi - yj)) (Fin (xi - xj))
  ∧ s ≠ NaN ∧ s ≠ Fin (-1) ∧ s ≠ Fin 0.
Proof.
  unfold kept_slope. cbn zeta.
  destruct (decide _) as [|Hne]; [done|].
  destruct (deq _ _) eqn:E1; [done|].
  destruct (dne _ _) eqn:E2; [|done].
  intros [= <-]. split; [done|]. revert E1 E2. unfold dne, ddiv.
  destruct (decide ((xi - xj)%Qc = 0%Qc)) as [Hx|Hx].
  - destruct ((yi - yj ?= 0)%Qc) eqn:C; cbn; try done.
    apply Qceq_alt in C. destruct Hne. done.
  - unfold deq. intros E1 E2. apply bool_decide_eq_false in E1.
    apply negb_true_iff, bool_decide_eq_false in E2. done.
Qed.

Lemma slopes_from_elem x y i js s :
  s ∈ slopes_from x y i js →
  ∃ j, j ∈ js ∧ kept_slope (get x i) (get x j) (get y i) (get y j) = Some s.
Proof. unfold slopes_from. intros H. apply list_elem_of_omap in H. naive_solver. Qed.

Lemma slopes_of_elem x y N s :
  s ∈ slopes_of x y N →
  ∃ i j, i < j < N ∧ kept_slope (get x i) (get x j) (get y i) (get y j) = Some s.
Proof.
  unfold slopes_of. intros H. apply list_elem_of_In, in_flat_map in H.
  destruct H as (i & Hi & H). apply list_elem_of_In in H.
  apply slopes_from_elem in H as (j & Hj & H).
  exists i, j. split; [|done].
  apply list_elem_of_In, in_seq in Hj. lia.
Qed.

(** ** The median slope *)

Lemma qsort_length (v : list double) : length (qsort v) = length v.
Proof. apply Permutation_length, merge_sort_Permutation. Qed.

(** With [K] sorted slopes below -1 and at least one that is not, the
    slope is read [K] places above the middle of the sorted array. *)
Lemma median_slope_shifted (vector below above : list double) (v : double) :
  qsort vector = below ++ v :: above →
  Forall (λ s, dge s (Fin (-1)) = false) below →
  dge v (Fin (-1)) = true →
  median_slope vector (length vector)
  = if decide (length vector mod 2 = 0) then
      a ← read "vector" (qsort vector) (length vector / 2 + length below - 1);
      b ← read "vector" (qsort vector) (length vector / 2 + length below);
      mret (dmul (Fin (Q2Qc (1 # 2))) (dadd a b))
    else read "vector" (qsort vector) ((length vector + 1) / 2 + length below - 1).
Proof.
  intros Hs Hb Hv. unfold median_slope. cbn zeta.
  pose proof (qsort_length vector) as Hlen.
  pose proof (cutoff_loop_stops below above v 0 0 Hb Hv [] eq_refl) as E.
  cbn [app] in E. rewrite <- Hs, Hlen in E. rewrite E, bind_inr. clear E.
  assert (1 ≤ length vector).
  { rewrite <- Hlen, Hs, length_app. simpl. lia. }
  destruct (decide (length vector mod 2 = 0)) as [Heven|Hodd].
  - assert (1 ≤ length vector / 2).
    { destruct (decide (length vector / 2 = 0)) as [E|]; [|lia].
      apply Nat.div_small_iff in E; [|lia]. rewrite Nat.mod_small in Heven; lia. }
    unfold read_at. rewrite !decide_True by lia.
    replace (Z.to_nat (Z.of_nat (length vector / 2) + (Z.of_nat (0 + length below) - 1)))
      with (length vector / 2 + length below - 1) by lia.
    replace (Z.to_nat (Z.of_nat (length vector / 2) + (Z.of_nat (0 + length below) - 1) + 1))
      with (length vector / 2 + length below) by lia.
    done.
  - assert (1 ≤ (length vector + 1) / 2).
    { apply Nat.div_str_pos. lia. }
    unfold read_at. rewrite !decide_True by lia. f_equal. lia.
Qed.

Lemma read_outside {A} name (a : list A) i :
  length a ≤ i → read name a i = inl (OutOfBounds name (Z.of_nat i) (length a)).
Proof. intros H. unfold read. by rewrite lookup_ge_None_2. Qed.

Lemma half_lt (c : nat) : 1 ≤ c → c / 2 < c.
Proof. intros. apply Nat.div_lt; lia. Qed.

Lemma odd_half (c : nat) : c mod 2 ≠ 0 → (c + 1) / 2 = c / 2 + 1 ∧ c = 2 * (c / 2) + 1.
Proof.
  intros H. pose proof (Nat.div_mod_eq c 2). pose proof (Nat.mod_upper_bound c 2).
  assert (c mod 2 = 1) by lia. split; [|lia].
  replace (c + 1) with (2 * (c / 2 + 1) ) by lia.
  rewrite Nat.mul_comm, Nat.div_mul; lia.
Qed.

Lemma even_half (c : nat) : c mod 2 = 0 → c = 2 * (c / 2).
Proof. intros H. pose proof (Nat.div_mod_eq c 2). lia. Qed.

Lemma Forall_qsort (P : double → Prop) (v : list double) :
  Forall P v → Forall P (qsort v).
Proof.
  intros H. eapply Permutation_Forall; [|exact H].
  symmetry. apply merge_sort_Permutation.
Qed.

Lemma median_slope_plain (vector : list double) :
  vector ≠ [] →
  Forall (λ s, dge s (Fin (-1)) = true) vector →
  if decide (length vector mod 2 = 0) then
    ∃ a b, qsort vector !! (length vector / 2 - 1) = Some a
           ∧ qsort vector !! (length vector / 2) = Some b
           ∧ median_slope vector (length vector)
             = inr (dmul (Fin (Q2Qc (1 # 2))) (dadd a b))
  else
    ∃ k, qsort vector !! (length vector / 2) = Some k
         ∧ median_slope vector (length vector) = inr k.
Proof.
  intros Hne Hall. apply Forall_qsort in Hall.
  pose proof (qsort_length vector) as Hlen.
  assert (1 ≤ length vector) by (destruct vector; [done | simpl; lia]).
  assert (∃ v above, qsort vector = v :: above) as (v & above & Hs).
  { destruct (qsort vector) as [|v above]; [simpl in Hlen; lia | eauto]. }
  assert (Hv : dge v (Fin (-1)) = true).
  { rewrite Hs in Hall. by apply Forall_cons in Hall as [Hv _]. }
  rewrite (median_slope_shifted vector [] above v Hs (Forall_nil_2 _) Hv).
  cbn [length]. rewrite !Nat.add_0_r.
  pose proof (half_lt (length vector) ltac:(done)).
  destruct (decide (length vector mod 2 = 0)) as [Heven|Hodd].
  - destruct (lookup_lt_is_Some_2 (qsort vector) (length vector / 2 - 1)) as [a Ha];
      [lia|].
    destruct (lookup_lt_is_Some_2 (qsort vector) (length vector / 2)) as [b Hb];
      [lia|].
    exists a, b. split; [done|]. split; [done|].
    by rewrite (read_Some _ _ _ _ Ha), bind_inr, (read_Some _ _ _ _ Hb).
  - destruct (odd_half _ Hodd) as [-> _].
    replace (length vector / 2 + 1 - 1) with (length vector / 2) by lia.
    destruct (lookup_lt_is_Some_2 (qsort vector) (length vector / 2)) as [k Hk];
      [lia|].
    exists k. split; [done|]. by apply read_Some.
Qed.

Lemma median_slope_in_buffer (vector below above : list double) (v : double) :
  qsort vector = below ++ v :: above →
  Forall (λ s, dge s (Fin (-1)) = false) below →
  dge v (Fin (-1)) = true →
  2 * length below < length vector →
  if decide (length vector mod 2 = 0) then
    ∃ a b, qsort vector !! (length vector / 2 + length below - 1) = Some a
           ∧ qsort vector !! (length vector / 2 + length below) = Some b
           ∧ median_slope vector (length vector)
             = inr (dmul (Fin (Q2Qc (1 # 2))) (dadd a b))
  else
    ∃ k, qsort vector !! ((length vector + 1) / 2 + length below - 1) = Some k
         ∧ median_slope vector (length vector) = inr k.
Proof.
  intros Hs Hb Hv HK.
  rewrite (median_slope_shifted vector below above v Hs Hb Hv).
  pose proof (qsort_length vector) as Hlen.
  destruct (decide (length vector mod 2 = 0)) as [Heven|Hodd].
  - pose proof (even_half _ Heven).
    destruct (lookup_lt_is_Some_2 (qsort vector) (length vector / 2 + length below - 1))
      as [a Ha]; [lia|].
    destruct (lookup_lt_is_Some_2 (qsort vector) (length vector / 2 + length below))
      as [b Hb']; [lia|].
    exists a, b. split; [done|]. split; [done|].
    by rewrite (read_Some _ _ _ _ Ha), bind_inr, (read_Some _ _ _ _ Hb').
  - destruct (odd_half _ Hodd) as [E ?].
    destruct (lookup_lt_is_Some_2 (qsort vector) ((length vector + 1) / 2 + length below - 1))
      as [k Hk]; [lia|].
    exists k. split; [done|]. by apply read_Some.
Qed.

Lemma median_slope_outside (vector below above : list double) (v : double) :
  qsort vector = below ++ v :: above →
  Forall (λ s, dge s (Fin (-1)) = false) below →
  dge v (Fin (-1)) = true →
  length vector ≤ 2 * length below →
  ∃ i, length vector ≤ i
       ∧ median_slope vector (length vector)
         = inl (OutOfBounds "vector" (Z.of_nat i) (length vector)).
Proof.
  intros Hs Hb Hv HK.
  rewrite (median_slope_shifted vector below above v Hs Hb Hv).
  pose proof (qsort_length vector) as Hlen.
  assert (length below < length vector).
  { rewrite <- Hlen, Hs, length_app. simpl. lia. }
  destruct (decide (length vector mod 2 = 0)) as [Heven|Hodd].
  - pose proof (even_half _ Heven).
    destruct (decide (length vector ≤ length vector / 2 + length below - 1)) as [Hout|Hin].
    + eexists. split; [exact Hout|].
      rewrite (read_outside _ _ (length vector / 2 + length below - 1)) by lia.
      rewrite Hlen. reflexivity.
    + destruct (lookup_lt_is_Some_2 (qsort vector) (length vector / 2 + length below - 1))
        as [a Ha]; [lia|].
      rewrite (read_Some _ _ _ _ Ha), bind_inr.
      exists (length vector / 2 + length below). split; [lia|].
      rewrite read_outside by lia. rewrite Hlen. reflexivity.
  - destruct (odd_half _ Hodd) as [E ?].
    eexists. split; [|rewrite read_outside, Hlen; [done|lia]]. lia.
Qed.

(** ** Points on a line *)

Section Line.
Variables a b0 : Qc.
Variable x : list Qc.
Hypothesis a_not_0 : a ≠ 0%Qc.
Hypothesis a_not_m1 : a ≠ (-1)%Qc.
Hypothesis x_distinct : NoDup x.

#[local] Abbreviation line_y := (line_y a b0 x).

Lemma get_line_y i : i < length x → get line_y i = (a * get x i + b0)%Qc.
Proof.
  intros Hi. unfold get, Slopes.line_y.
  destruct (lookup_lt_is_Some_2 x i Hi) as [xi Hxi].
  by rewrite list_lookup_fmap, Hxi.
Qed.

Lemma kept_slope_line xi xj :
  xi ≠ xj → kept_slope xi xj (a * xi + b0) (a * xj + b0) = Some (Fin a).
Proof using a_not_0 a_not_m1.
  intros Hne. unfold kept_slope. cbn zeta.
  assert (Hd : (xi - xj)%Qc ≠ 0%Qc).
  { intros E. apply Hne. replace xi with ((xi - xj) + xj)%Qc by ring.
    rewrite E. ring. }
  rewrite decide_False by (by intros [? _]).
  assert (E : ddiv (Fin (a * xi + b0 - (a * xj + b0))) (Fin (xi - xj)) = Fin a).
  { unfold ddiv. rewrite decide_False by done. f_equal. by field. }
  rewrite E. unfold dne, deq.
  rewrite !bool_decide_eq_false_2 by congruence. done.
Qed.

Lemma slopes_from_line i js :
  i < length x → Forall (λ j, i < j < length x) js →
  slopes_from x line_y i js = replicate (length js) (Fin a).
Proof using a_not_0 a_not_m1 x_distinct.
  intros Hi Hjs. induction Hjs as [|j js Hj _ IH]; [done|].
  change (j :: js) with ([j] ++ js). rewrite slopes_from_app, IH, slopes_from_one.
  rewrite !get_line_y by lia. rewrite kept_slope_line; [done|].
  destruct (lookup_lt_is_Some_2 x i Hi) as [xi Hxi].
  destruct (lookup_lt_is_Some_2 x j) as [xj Hxj]; [lia|].
  unfold get. rewrite Hxi, Hxj. simpl. intros ->.
  pose proof (NoDup_lookup x i j xj x_distinct Hxi Hxj). lia.
Qed.

Lemma slopes_of_line :
  2 ≤ length x →
  slopes_of x line_y (length x) ≠ []
  ∧ Forall (λ s, s = Fin a) (slopes_of x line_y (length x)).
Proof using a_not_0 a_not_m1 x_distinct.
  intros HN. split.
  - rewrite (slopes_of_split x line_y (length x) 0 1) by lia.
    cbn [seq flat_map app]. replace (1 - (0 + 1)) with 0 by lia. cbn [seq].
    rewrite (slopes_from_line 0 (seq 1 (length x - 1))).
    + rewrite length_seq. destruct (length x - 1) as [|m] eqn:E; [lia|]. done.
    + lia.
    + apply Forall_forall. intros j Hj. apply list_elem_of_In, in_seq in Hj. lia.
  - apply Forall_forall. intros s Hs.
    apply slopes_of_elem in Hs as (i & j & Hij & Hs).
    rewrite !get_line_y in Hs by lia. rewrite kept_slope_line in Hs; [congruence|].
    destruct (lookup_lt_is_Some_2 x i) as [xi Hxi]; [lia|].
    destruct (lookup_lt_is_Some_2 x j) as [xj Hxj]; [lia|].
    unfold get. rewrite Hxi, Hxj. simpl. intros ->.
    pose proof (NoDup_lookup x i j xj x_distinct Hxi Hxj). lia.
Qed.

Lemma residuals_line : residuals a x line_y = replicate (length x) b0.
Proof.
  unfold residuals, Slopes.line_y. clear. induction x as [|xi l IH]; [done|].
  cbn. rewrite IH. f_equal. ring.
Qed.

End Line.

Lemma median_of_constant (N : nat) (b0 b : Qc) :
  1 ≤ N → median_of (replicate N b0) b → b = b0.
Proof.
  intros HN (s & Hperm & _ & Hmid). rewrite length_replicate in Hmid.
  symmetry in Hperm. apply replicate_Permutation in Hperm. subst s.
  destruct (decide (N mod 2 = 0)).
  - destruct Hmid as (lo & hi & Hlo & Hhi & ->).
    apply lookup_replicate in Hlo as [-> _]. apply lookup_replicate in Hhi as [-> _].
    field. done.
  - by apply lookup_replicate in Hmid as [-> _].
Qed.

Lemma half_of_double (a : Qc) : (Q2Qc (1 # 2) * (a + a))%Qc = a.
Proof.
  assert (E : (Q2Qc (1 # 2) * (1 + 1))%Qc = 1%Qc) by compute_done.
  replace (Q2Qc (1 # 2) * (a + a))%Qc with ((Q2Qc (1 # 2) * (1 + 1)) * a)%Qc by ring.
  rewrite E. ring.
Qed.

Lemma line_recovered (a b0 : Qc) (x : list Qc) :
  2 ≤ length x → NoDup x → a ≠ 0%Qc → (-1 < a)%Qc →
  calculateRegression x (line_y a b0 x) (length x) = inr (Fin a, Fin b0).
Proof.
  intros HN Hnd Ha0 Ha1.
  assert (Ham1 : a ≠ (-1)%Qc).
  { intros ->. by apply Qclt_not_eq in Ha1. }
  assert (Hleny : length (line_y a b0 x) = length x) by apply length_map.
  destruct (slopes_of_line a b0 x Ha0 Ham1 Hnd HN) as [Hne Hall].
  unfold calculateRegression, slope_phase.
  rewrite collect_slopes_spec by done. rewrite bind_inr.
  set (vector := slopes_of x (line_y a b0 x) (length x)) in *.
  assert (Hge : Forall (λ s, dge s (Fin (-1)) = true) vector).
  { eapply Forall_impl; [exact Hall|]. intros s ->. unfold dge, dlt, deq.
    rewrite (bool_decide_eq_true_2 (-1 < a)%Qc) by done. done. }
  assert (Hsorted : Forall (λ s, s = Fin a) (qsort vector)) by by apply Forall_qsort.
  rewrite Forall_lookup in Hsorted.
  pose proof (median_slope_plain vector Hne Hge) as Hmed.
  assert (Hk : median_slope vector (length vector) = inr (Fin a)).
  { destruct (decide (length vector mod 2 = 0)).
    - destruct Hmed as (lo & hi & Hlo & Hhi & ->).
      apply Hsorted in Hlo, Hhi. subst. cbn. by rewrite half_of_double.
    - destruct Hmed as (k & Hk & ->). apply Hsorted in Hk. by subst. }
  rewrite Hk, bind_inr.
  destruct (intercept_phase_median a x (line_y a b0 x) (length x)) as (b & Hb & Hmedian);
    [lia | done | done |].
  rewrite Hb, bind_inr. rewrite residuals_line in Hmedian.
  apply median_of_constant in Hmedian; [|lia]. by subst.
Qed.

(** ** The comparator *)

Lemma dlt_asym (a b : double) : dlt a b = true → dlt b a = false.
Proof.
  destruct a, b; simpl; try done.
  intros H. apply bool_decide_eq_true in H. apply bool_decide_eq_false.
  by apply Qcle_not_lt, Qclt_le_weak.
Qed.

Lemma dlt_trans (a b c : double) : dlt a b = true → dlt b c = true → dlt a c = true.
Proof.
  destruct a, b, c; simpl; try done.
  intros H1 H2. apply bool_decide_eq_true in H1, H2. apply bool_decide_eq_true.
  by apply Qclt_trans with q0.
Qed.

Lemma dlt_total (a b : double) :
  a ≠ NaN → b ≠ NaN → dlt a b = false → dlt b a = false → a = b.
Proof.
  destruct a, b; simpl; try done.
  intros _ _ H1 H2. apply bool_decide_eq_false in H1, H2. f_equal.
  apply Qcle_antisym; by apply Qcnot_lt_le.
Qed.

Lemma dlt_irrefl (a : double) : dlt a a = false.
Proof.
  destruct a; simpl; try done. apply bool_decide_eq_false. apply Qcle_not_lt, Qcle_refl.
Qed.

Lemma cmpfunc_flip (x y : double) : cmpfunc y x = (- cmpfunc x y)%Z.
Proof.
  unfold cmpfunc. cbn zeta.
  destruct (dlt x y) eqn:E1; [by rewrite (dlt_asym _ _ E1)|].
  by destruct (dlt y x).
Qed.

Lemma cmpfunc_order (x y z : double) :
  x ≠ NaN → y ≠ NaN → z ≠ NaN →
  cmpfunc y x = (- cmpfunc x y)%Z
  ∧ (cmpfunc x y = 0%Z ↔ x = y)
  ∧ (cmpfunc x y = (-1)%Z → cmpfunc y z = (-1)%Z → cmpfunc x z = (-1)%Z)
  ∧ ((cmpfunc x y ≤ 0)%Z → (cmpfunc y z ≤ 0)%Z → (cmpfunc x z ≤ 0)%Z).
Proof.
  intros Hx Hy Hz. split; [apply cmpfunc_flip|]. unfold cmpfunc. cbn zeta.
  split; [|split].
  - split.
    + destruct (dlt x y) eqn:E1; [done|]. destruct (dlt y x) eqn:E2; [done|].
      intros _. by apply dlt_total.
    + intros ->. by rewrite dlt_irrefl.
  - destruct (dlt x y) eqn:E1; [|by destruct (dlt y x)].
    destruct (dlt y z) eqn:E2; [|by destruct (dlt z y)].
    by rewrite (dlt_trans _ _ _ E1 E2).
  - destruct (dlt x z) eqn:E; [lia|]. destruct (dlt z x) eqn:E'; [|lia].
    destruct (dlt x y) eqn:E1.
    + destruct (dlt y z) eqn:E2; [by rewrite (dlt_trans _ _ _ E1 E2) in E|].
      destruct (dlt z y) eqn:E3; [lia|].
      rewrite (dlt_total y z Hy Hz E2 E3) in E1. congruence.
    + destruct (dlt y x) eqn:E2; [lia|].
      rewrite (dlt_total x y Hx Hy E1 E2) in *.
      destruct (dlt y z) eqn:E3; [congruence|].
      destruct (dlt z y); [lia|congruence].
Qed.

Lemma cmpfunc_NaN (x : double) : cmpfunc NaN x = 0%Z ∧ cmpfunc x NaN = 0%Z.
Proof. by destruct x. Qed.

(** ** Pairs of points with the same abscissa *)

Lemma slopes_of_intro x y N i j s :
  i < j < N →
  kept_slope (get x i) (get x j) (get y i) (get y j) = Some s →
  s ∈ slopes_of x y N.
Proof.
  intros Hij Hs. rewrite (slopes_of_split x y N i j) by lia.
  rewrite !elem_of_app. right. right. left.
  replace (N - j) with (S (N - S j)) by lia. cbn [seq].
  change (j :: seq (S j) (N - S j)) with ([j] ++ seq (S j) (N - S j)).
  rewrite slopes_from_app, slopes_from_one, Hs. apply elem_of_app. left.
  apply list_elem_of_singleton. done.
Qed.

Lemma kept_slope_vertical xi yi yj :
  yi ≠ yj →
  kept_slope xi xi yi yj = Some (inf_signed (yi - yj ?= 0)%Qc)
  ∧ ((yj < yi)%Qc → inf_signed (yi - yj ?= 0)%Qc = PInf)
  ∧ ((yi < yj)%Qc → inf_signed (yi - yj ?= 0)%Qc = NInf).
Proof.
  intros Hy.
  assert (Hd : (yi - yj)%Qc ≠ 0%Qc).
  { intros E. apply Hy. replace yi with ((yi - yj) + yj)%Qc by ring.
    rewrite E. ring. }
  split; [|split].
  - unfold kept_slope. cbn zeta.
    rewrite decide_False by (by intros [_ ?]).
    replace (xi - xi)%Qc with 0%Qc by ring. unfold ddiv.
    rewrite decide_True by done.
    destruct ((yi - yj ?= 0)%Qc) eqn:C; [by apply Qceq_alt in C|done|done].
  - intros Hlt. assert (C : (yi - yj ?= 0)%Qc = Gt); [|by rewrite C].
    apply Qcgt_alt. apply Qclt_minus_iff in Hlt.
    by replace (yi - yj)%Qc with (yi + - yj)%Qc by ring.
  - intros Hlt. assert (C : (yi - yj ?= 0)%Qc = Lt); [|by rewrite C].
    apply Qclt_alt. apply Qclt_minus_iff in Hlt.
    apply Qclt_minus_iff. by replace (0 + - (yi - yj))%Qc with (yj + - yi)%Qc by ring.
Qed.

Lemma vertical_pair_kept x y N i j :
  length x = N → length y = N → i < j < N →
  get x i = get x j → get y i ≠ get y j →
  ∃ vector, collect_slopes x y N = inr (vector, length vector)
            ∧ (PInf ∈ vector ∨ NInf ∈ vector).
Proof.
  intros Hx Hy Hij Hxx Hyy. eexists. split; [by apply collect_slopes_spec|].
  destruct (kept_slope_vertical (get x i) _ _ Hyy) as [Hk _].
  rewrite Hxx in Hk at 2.
  pose proof (slopes_of_intro x y N i j _ Hij Hk) as Hin.
  destruct ((get y i - get y j ?= 0)%Qc); [|by right|by left].
  apply slopes_of_elem in Hin as (? & ? & _ & Hs).
  by apply kept_slope_Some in Hs as (_ & ? & _).
Qed.

Lemma vertical_pair_regression (x0 y0 y1 : Qc) :
  (y1 < y0)%Qc →
  ∃ b, calculateRegression [x0; x0] [y0; y1] 2 = inr (PInf, b) ∧ ∀ q, b ≠ Fin q.
Proof.
  intros Hlt. unfold calculateRegression, slope_phase.
  rewrite collect_slopes_spec by done. rewrite bind_inr.
  assert (Hne : y0 ≠ y1) by (intros ->; by apply Qclt_not_eq in Hlt).
  destruct (kept_slope_vertical x0 y0 y1 Hne) as (Hk & Hinf & _).
  rewrite Hinf in Hk by done.
  assert (E : slopes_of [x0; x0] [y0; y1] 2 = [PInf]).
  { unfold slopes_of. cbn [seq flat_map Nat.add Nat.sub].
    rewrite slopes_from_one. change (slopes_from _ _ 1 []) with (@nil double).
    change (get [x0; x0] 0) with x0. change (get [x0; x0] 1) with x0.
    change (get [y0; y1] 0) with y0. change (get [y0; y1] 1) with y1.
    by rewrite Hk. }
  rewrite E. change (median_slope [PInf] (length [PInf])) with (inr PInf : M double).
  rewrite bind_inr.
  destruct ((x0 ?= 0)%Qc) eqn:C.
  - exists NaN. split; [|done]. unfold intercept_phase. cbn. by rewrite C.
  - exists PInf. split; [|done]. unfold intercept_phase. cbn. by rewrite C.
  - exists NInf. split; [|done]. unfold intercept_phase. cbn. by rewrite C.
Qed.

(** ** The properties *)

(** X1.  The two passes of [calculateRegression] agree: on [N] points the
    function returns from both, the buffer sized by the count of pass 1 is
    filled by pass 2 cell by cell and completely, with the slopes of the
    pairs [i < j] that the filter keeps, in loop order; no store leaves the
    buffer. *)
Theorem slope_buffer_filled_exactly (x y : list Qc) (N : nat) :
  length x = N → length y = N →
  ∃ vector, collect_slopes x y N = inr (vector, length vector)
            ∧ vector = slopes_of x y N.
Proof. intros Hx Hy. eexists. split; [by apply collect_slopes_spec | done]. Qed.

Lemma slope_buffer_filled_exactly_witness :
  ∃ vector, collect_slopes s4_x s4_y 5 = inr (vector, length vector)
            ∧ vector = slopes_of s4_x s4_y 5.
Proof. exact (slope_buffer_filled_exactly s4_x s4_y 5 eq_refl eq_refl). Defined.

(** X2.  No collected slope is a NaN, -1 or 0: a 0/0 pair is skipped by line
    164, the slopes -1 and 0 by lines 166 and 167. *)
Theorem collected_slopes_are_usable (x y : list Qc) (N : nat) :
  length x = N → length y = N →
  ∃ vector, collect_slopes x y N = inr (vector, length vector)
            ∧ Forall (λ s, s ≠ NaN ∧ s ≠ Fin (-1) ∧ s ≠ Fin 0) vector.
Proof.
  intros Hx Hy. eexists. split; [by apply collect_slopes_spec|].
  apply Forall_forall. intros s Hs.
  apply slopes_of_elem in Hs as (i & j & _ & Hs).
  by apply kept_slope_Some in Hs as (_ & ? & ? & ?).
Qed.

Lemma collected_slopes_are_usable_witness :
  ∃ vector, collect_slopes s4_x s4_y 5 = inr (vector, length vector)
            ∧ Forall (λ s, s ≠ NaN ∧ s ≠ Fin (-1) ∧ s ≠ Fin 0) vector.
Proof. exact (collected_slopes_are_usable s4_x s4_y 5 eq_refl eq_refl). Defined.

(** X3.  Two points with the same abscissa and different ordinates are not
    skipped: their slope, an infinity, is stored in the slope buffer. *)
Theorem tie_in_x_collects_infinite_slope (x y : list Qc) (N i j : nat) :
  length x = N → length y = N → i < j < N →
  get x i = get x j → get y i ≠ get y j →
  ∃ vector, collect_slopes x y N = inr (vector, length vector)
            ∧ (PInf ∈ vector ∨ NInf ∈ vector).
Proof. apply vertical_pair_kept. Qed.

Lemma tie_in_x_collects_infinite_slope_witness :
  ∃ vector, collect_slopes tie_x tie_y 3 = inr (vector, length vector)
            ∧ (PInf ∈ vector ∨ NInf ∈ vector).
Proof.
  apply (tie_in_x_collects_infinite_slope tie_x tie_y 3 0 1);
    [reflexivity | reflexivity | lia | reflexivity | vm_compute; discriminate].
Defined.

(** X4.  For two points one above the other, the first the higher, the slope
    returned is plus infinity and the intercept is not a finite number. *)
Theorem vertical_pair_has_no_finite_line (x0 y0 y1 : Qc) :
  (y1 < y0)%Qc →
  ∃ b, calculateRegression [x0; x0] [y0; y1] 2 = inr (PInf, b) ∧ ∀ q, b ≠ Fin q.
Proof. apply vertical_pair_regression. Qed.

Lemma vertical_pair_has_no_finite_line_witness :
  ∃ b, calculateRegression [qz 1; qz 1] [qz 3; qz 2] 2 = inr (PInf, b)
       ∧ ∀ q, b ≠ Fin q.
Proof. apply (vertical_pair_has_no_finite_line (qz 1) (qz 3) (qz 2)). reflexivity. Defined.

(** X5.  When no collected slope is below -1 the slope returned is the median of
    the collected slopes: the middle element of the sorted buffer, or half
    the sum of its two middle elements; both reads are inside the buffer. *)
Theorem slope_is_plain_median (vector : list double) :
  vector ≠ [] →
  Forall (λ s, dge s (Fin (-1)) = true) vector →
  if decide (length vector mod 2 = 0) then
    ∃ a b, qsort vector !! (length vector / 2 - 1) = Some a
           ∧ qsort vector !! (length vector / 2) = Some b
           ∧ median_slope vector (length vector)
             = inr (dmul (Fin (Q2Qc (1 # 2))) (dadd a b))
  else
    ∃ k, qsort vector !! (length vector / 2) = Some k
         ∧ median_slope vector (length vector) = inr k.
Proof. apply median_slope_plain. Qed.

Lemma slope_is_plain_median_witness :
  ∃ k, qsort [Fin (qz 2); Fin (qz 1); Fin (qz 3)] !! 1 = Some k
       ∧ median_slope [Fin (qz 2); Fin (qz 1); Fin (qz 3)] 3 = inr k.
Proof.
  apply (slope_is_plain_median [Fin (qz 2); Fin (qz 1); Fin (qz 3)]);
    [discriminate | repeat constructor].
Defined.

(** X6.  When the sorted slopes are [K] slopes below -1 followed by at least one
    that is not, and fewer than half of the slopes are below -1, the slope
    returned is read [K] places above the median position. *)
Theorem slope_is_shifted_median (vector below above : list double) (v : double) :
  qsort vector = below ++ v :: above →
  Forall (λ s, dge s (Fin (-1)) = false) below →
  dge v (Fin (-1)) = true →
  2 * length below < length vector →
  if decide (length vector mod 2 = 0) then
    ∃ a b, qsort vector !! (length vector / 2 + length below - 1) = Some a
           ∧ qsort vector !! (length vector / 2 + length below) = Some b
           ∧ median_slope vector (length vector)
             = inr (dmul (Fin (Q2Qc (1 # 2))) (dadd a b))
  else
    ∃ k, qsort vector !! ((length vector + 1) / 2 + length below - 1) = Some k
         ∧ median_slope vector (length vector) = inr k.
Proof. apply median_slope_in_buffer. Qed.

Lemma slope_is_shifted_median_witness :
  ∃ k, qsort mostly_flat !! 3 = Some k ∧ median_slope mostly_flat 5 = inr k.
Proof.
  apply (slope_is_shifted_median mostly_flat [Fin (qz (-3))]
           [Fin (qz 2); Fin (qz 5); Fin (qz 7)] (Fin (qz 1)));
    [reflexivity | repeat constructor | reflexivity | simpl; lia].
Defined.

(** X7.  When at least half of the collected slopes are below -1 (and one is
    not), the read of the slope is outside the slope buffer. *)
Theorem slope_read_leaves_buffer (vector below above : list double) (v : double) :
  qsort vector = below ++ v :: above →
  Forall (λ s, dge s (Fin (-1)) = false) below →
  dge v (Fin (-1)) = true →
  length vector ≤ 2 * length below →
  ∃ i, length vector ≤ i
       ∧ median_slope vector (length vector)
         = inl (OutOfBounds "vector" (Z.of_nat i) (length vector)).
Proof. apply median_slope_outside. Qed.

Lemma slope_read_leaves_buffer_witness :
  ∃ i, 3 ≤ i ∧ median_slope mostly_steep 3 = inl (OutOfBounds "vector" (Z.of_nat i) 3).
Proof.
  apply (slope_read_leaves_buffer mostly_steep [Fin (qz (-3)); Fin (qz (-2))] []
           (Fin (qz 5)));
    [reflexivity | repeat constructor | reflexivity | simpl; lia].
Defined.

(** X8.  Points on a line, in exact arithmetic (the regression evaluated
    over the rationals; the rounding of the program's doubles, which moves
    the result by some units in the last place, is not modelled): for at
    least two points with pairwise different abscissas on [y = a x + b0],
    with [a] above -1 and not 0, [calculateRegression] returns the slope
    [a] and the intercept [b0]. *)
Theorem exact_line_is_recovered (a b0 : Qc) (x : list Qc) :
  2 ≤ length x → NoDup x → a ≠ 0%Qc → (-1 < a)%Qc →
  calculateRegression x (line_y a b0 x) (length x) = inr (Fin a, Fin b0).
Proof. apply line_recovered. Qed.

Lemma exact_line_is_recovered_witness :
  calculateRegression [qz 0; qz 1; qz 3] (line_y (qz 2) (qz 1) [qz 0; qz 1; qz 3]) 3
  = inr (Fin (qz 2), Fin (qz 1)).
Proof.
  apply (exact_line_is_recovered (qz 2) (qz 1) [qz 0; qz 1; qz 3]);
    [simpl; lia | compute_done | compute_done | reflexivity].
Defined.

(** X9.  On values that are not NaN, [cmpfunc] is the comparator of a total
    order: swapping the arguments negates the result, the result is 0 for
    equal values only, and "less" and "not greater" are transitive. *)
Theorem cmpfunc_orders_numbers (x y z : double) :
  x ≠ NaN → y ≠ NaN → z ≠ NaN →
  cmpfunc y x = (- cmpfunc x y)%Z
  ∧ (cmpfunc x y = 0%Z ↔ x = y)
  ∧ (cmpfunc x y = (-1)%Z → cmpfunc y z = (-1)%Z → cmpfunc x z = (-1)%Z)
  ∧ ((cmpfunc x y ≤ 0)%Z → (cmpfunc y z ≤ 0)%Z → (cmpfunc x z ≤ 0)%Z).
Proof. apply cmpfunc_order. Qed.

Lemma cmpfunc_orders_numbers_witness :
  cmpfunc PInf (Fin (qz 1)) = (- cmpfunc (Fin (qz 1)) PInf)%Z
  ∧ (cmpfunc (Fin (qz 1)) PInf = 0%Z ↔ Fin (qz 1) = PInf)
  ∧ (cmpfunc (Fin (qz 1)) PInf = (-1)%Z → cmpfunc PInf NInf = (-1)%Z
     → cmpfunc (Fin (qz 1)) NInf = (-1)%Z)
  ∧ ((cmpfunc (Fin (qz 1)) PInf ≤ 0)%Z → (cmpfunc PInf NInf ≤ 0)%Z
     → (cmpfunc (Fin (qz 1)) NInf ≤ 0)%Z).
Proof.
  apply (cmpfunc_orders_numbers (Fin (qz 1)) PInf NInf); discriminate.
Defined.

(** X10.  A NaN compares equal to every value, in either position; so with a NaN
    in the array the comparator no longer orders it: 1 and 0 both compare
    equal to the NaN, and 1 compares greater than 0. *)
Theorem cmpfunc_nan_equals_everything (x y : double) :
  cmpfunc x NaN = 0%Z ∧ cmpfunc NaN y = 0%Z
  ∧ cmpfunc (Fin 1) NaN = 0%Z ∧ cmpfunc NaN (Fin 0) = 0%Z
  ∧ cmpfunc (Fin 1) (Fin 0) = 1%Z.
Proof.
  destruct (cmpfunc_NaN x) as [_ ->]. destruct (cmpfunc_NaN y) as [-> _].
  repeat split; reflexivity.
Qed.

End SlopesFacts.

(** * Facts about the alternative Metal kernel *)

Module SharedKernelFacts.
Import Kernel SharedKernel KernelFacts.

Section Shared.
Variable n : nat.
Variables P1 P2 : nat → M Qc.
Variables m1 m2 : nat → nat → Qc.
Hypothesis P1_ok : ∀ j k, j < 20 → k < 20 → P1 (j * n + k) = inr (m1 j k).
Hypothesis P2_ok : ∀ j k, j < 20 → k < 20 → P2 (j * n + k) = inr (m2 j k).

Lemma shared_reduce_correct :
  shared_reduce n P1 P2 = inr (spec_probC 20 m1 m2, spec_probD 20 m1 m2).
Proof using P1_ok P2_ok.
  unfold shared_reduce. rewrite init_sumcK, bind_inr.
  pose (m := 20). assert (Hm : m = 20) by done.
  change 20 with m. clearbody m.
  loop_with (λ j (st : list Qc * Qc),
    length st.1 = 20 ∧
    (∀ k, k < m → get st.1 k =
       (sum_upto j (λ j', m2 j' k) - (if decide (k < j)%nat then m2 k k else 0))%Qc) ∧
    st.2 = (sum_upto j (λ j', sum_upto m (m2 j')) - sum_upto j (λ j', m2 j' j'))%Qc)
    st1 E1 H1.
  { split; [done|]. split; [|simpl; ring]. intros k Hk.
    rewrite decide_False by lia. cbn [fst]. unfold get, local20.
    rewrite lookup_replicate_2 by lia. simpl. ring. }
  { intros j [c s] Hj (Hlen & Hc & Hs). simpl in *.
    loop_with (λ k (st : list Qc * Qc),
      length st.1 = 20 ∧
      (∀ k', k' < m → get st.1 k' =
         (get c k' + (if decide (k' < k)%nat then m2 j k' else 0))%Qc) ∧
      st.2 = (s + sum_upto k (m2 j))%Qc) st2 E2 H2.
    { split; [done|]. split; [|simpl; ring]. intros k' Hk'.
      rewrite decide_False by lia. simpl. ring. }
    { intros k [c' s'] Hk (Hlen' & Hc' & Hs'). simpl in *.
      rewrite P2_ok by lia. rewrite bind_inr.
      rewrite read_get by lia. rewrite bind_inr.
      rewrite write_lt by lia. rewrite bind_inr.
      eexists. split; [reflexivity|]. simpl.
      split; [by rewrite length_insert|]. split.
      - intros k' Hk'. rewrite get_insert by lia.
        repeat case_decide; subst; try lia; rewrite Hc' by lia;
          repeat case_decide; try lia; ring.
      - rewrite Hs'. ring. }
    destruct st2 as [c' s']. destruct H2 as (Hlen' & Hc' & Hs'). simpl in *.
    rewrite P2_ok by lia. rewrite bind_inr.
    rewrite read_get by lia. rewrite bind_inr.
    rewrite write_lt by lia. rewrite bind_inr.
    eexists. split; [reflexivity|]. simpl.
    split; [by rewrite length_insert|]. split.
    - intros k Hk. rewrite get_insert by lia.
      repeat case_decide; subst; try lia; rewrite !Hc' by lia;
        repeat case_decide; try lia; rewrite Hc by lia;
        repeat case_decide; try lia; ring.
    - rewrite Hs', Hs. ring. }
  destruct st1 as [sumcK sumdforJ]. destruct H1 as (Hlen & Hc & Hs). simpl in *.
  assert (HcK : ∀ k, k < m → get sumcK k = spec_sumcK m m2 k).
  { intros k Hk. rewrite Hc by done. rewrite decide_True by done. done. }
  assert (Htot : sumdforJ = spec_total m m2) by done.
  clear Hc Hs.
  destruct (for_invariant (λ j (st : Qc * Qc),
    st.1 = sum_upto j (λ j', (sum_upto m (λ k, spec_sumcK m m2 k * m1 j' k)
                              - spec_sumcK m m2 j' * m1 j' j')%Qc) ∧
    st.2 = sum_upto j (λ j', (sum_upto m (λ k, spec_sumdK m m2 k * m1 j' k)
                              - spec_sumdK m m2 j' * m1 j' j')%Qc))
    (λ j st,
    '(probC, probD) ←
      for_ 0 m (λ k '(probC, probD),
        p1_val ← P1 (j * n + k);
        c ← read "sumcK" sumcK k;
        let sumdK_k := (sumdforJ - c)%Qc in
        c ← read "sumcK" sumcK k;
        mret ((probC + c * p1_val)%Qc, (probD + sumdK_k * p1_val)%Qc)) st;
    p1_diag ← P1 (j * n + j);
    c ← read "sumcK" sumcK j;
    let sumdK_j := (sumdforJ - c)%Qc in
    c ← read "sumcK" sumcK j;
    mret ((probC - c * p1_diag)%Qc, (probD - sumdK_j * p1_diag)%Qc)) 0 m (0%Qc, 0%Qc))
    as ([pc pd] & E4 & H4 & H4').
  { done. }
  { intros j [pc pd] Hj (Hpc & Hpd). simpl in *.
    loop_with (λ k (st : Qc * Qc),
      st.1 = (pc + sum_upto k (λ k, spec_sumcK m m2 k * m1 j k))%Qc ∧
      st.2 = (pd + sum_upto k (λ k, spec_sumdK m m2 k * m1 j k))%Qc) st2 E2 H2.
    { simpl. split; ring. }
    { intros k [pc' pd'] Hk (Hpc' & Hpd'). simpl in *.
      rewrite P1_ok by lia. rewrite bind_inr.
      rewrite !read_get by lia. rewrite !bind_inr.
      eexists. split; [reflexivity|]. simpl.
      rewrite Hpc', Hpd', HcK by lia. unfold spec_sumdK. rewrite Htot.
      split; ring. }
    destruct st2 as [pc' pd']. destruct H2 as (Hpc' & Hpd'). simpl in *.
    rewrite P1_ok by lia. rewrite bind_inr.
    rewrite !read_get by lia. rewrite !bind_inr.
    eexists. split; [reflexivity|]. simpl.
    rewrite Hpc', Hpd', Hpc, Hpd, HcK by lia. unfold spec_sumdK. rewrite Htot.
    split; ring. }
  simpl in *. etrans; [exact E4|]. f_equal.
  unfold spec_probC, spec_probD. rewrite H4, H4', !sum_upto_minus. subst m. done.
Qed.

End Shared.

(** The alternative kernel on a work item. *)
Lemma shared_work_item L pairIdx siteIdx off1 off2 pC pD :
  n L = 20 →
  work_item L pairIdx siteIdx off1 off2 pC pD →
  metal_kernel_shared L pairIdx siteIdx pC pD
  = inr (<[pairIdx * numSites L + siteIdx :=
             spec_probC 20 (matrix_at L off1 siteIdx) (matrix_at L off2 siteIdx)]> pC,
         <[pairIdx * numSites L + siteIdx :=
             spec_probD 20 (matrix_at L off1 siteIdx) (matrix_at L off2 siteIdx)]> pD).
Proof.
  intros Hn [Hp Hs (i & Hi & Hi0 & Hoff1) (j & Hj & Hj0 & Hoff2) H1 H2 HC HD].
  unfold metal_kernel_shared. rewrite decide_False by lia. cbn zeta.
  rewrite (read_Some _ _ _ _ Hi), bind_inr, (read_Some _ _ _ _ Hj), bind_inr.
  unfold read_at. rewrite !decide_True by done.
  rewrite (read_Some _ _ _ _ Hoff1), bind_inr, (read_Some _ _ _ _ Hoff2), bind_inr.
  rewrite !Nat.mul_assoc.
  rewrite (shared_reduce_correct (n L) _ _
             (matrix_at L off1 siteIdx) (matrix_at L off2 siteIdx)).
  - rewrite bind_inr. rewrite !write_lt by done. done.
  - intros j' k' Hj' Hk'. apply deref_matrix; [done | nia].
  - intros j' k' Hj' Hk'. apply deref_matrix; [done | nia].
Qed.

(** X11.  On a work item with 20 states the alternative kernel
    [convergence_kernel_shared] stores what [convergence_kernel] stores: the
    pair of section 4.3 in the cell of the item. *)
Theorem shared_kernel_matches_main_kernel L pairIdx siteIdx off1 off2 pC pD :
  n L = 20 →
  work_item L pairIdx siteIdx off1 off2 pC pD →
  metal_kernel_shared L pairIdx siteIdx pC pD
  = metal_kernel L 1 pairIdx siteIdx pC pD
  ∧ metal_kernel_shared L pairIdx siteIdx pC pD
    = inr (<[pairIdx * numSites L + siteIdx :=
               spec_probC 20 (matrix_at L off1 siteIdx) (matrix_at L off2 siteIdx)]> pC,
           <[pairIdx * numSites L + siteIdx :=
               spec_probD 20 (matrix_at L off1 siteIdx) (matrix_at L off2 siteIdx)]> pD).
Proof.
  intros Hn item. split; [|by apply shared_work_item].
  rewrite (metal_kernel_one_site _ _ _ _ _ _ _ item).
  rewrite (metal_work_item _ _ _ _ _ _ _ item Hn).
  by apply shared_work_item.
Qed.

Lemma shared_kernel_matches_main_kernel_witness :
  metal_kernel_shared uniform 0 0 [0%Qc] [0%Qc]
  = metal_kernel uniform 1 0 0 [0%Qc] [0%Qc].
Proof.
  assert (item : work_item uniform 0 0 0 400 [0%Qc] [0%Qc]).
  { split; simpl; try lia.
    - exists 0%Z. split; [reflexivity|]. split; [lia | reflexivity].
    - exists 1%Z. split; [reflexivity|]. split; [lia | reflexivity]. }
  destruct (shared_kernel_matches_main_kernel uniform 0 0 0 400 [0%Qc] [0%Qc]
              eq_refl item) as [Hsame _].
  exact Hsame.
Defined.

End SharedKernelFacts.

(** * Facts about the kernel launches *)

Module GridFacts.
Import Kernel Grid KernelFacts.

(** ** Threads that write cells of their own *)

Section Threads.
Context {T : Type}.
Variable kernel : T → list Qc → list Qc → M (list Qc * list Qc).
Variable cells : T → nat → Prop.
Context `{∀ t i, Decision (cells t i)}.
Variables vC vD : nat → Qc.
Variables lC lD : nat.

#[local] Abbreviation thread_ok := (thread_ok kernel cells vC vD lC lD).

Lemma run_threads_snoc sched t out :
  run_threads kernel (sched ++ [t]) out
  = '(pC, pD) ← run_threads kernel sched out; kernel t pC pD.
Proof. unfold run_threads. by rewrite foldl_app. Qed.

Lemma run_threads_cells (sched : list T) (pC pD : list Qc) :
  Forall thread_ok sched → length pC = lC → length pD = lD →
  ∃ pC' pD', run_threads kernel sched (pC, pD) = inr (pC', pD')
    ∧ length pC' = lC ∧ length pD' = lD
    ∧ ∀ i, ((∃ t, t ∈ sched ∧ cells t i) →
              pC' !! i = Some (vC i) ∧ pD' !! i = Some (vD i))
         ∧ ((∀ t, t ∈ sched → ¬ cells t i) →
              pC' !! i = pC !! i ∧ pD' !! i = pD !! i).
Proof.
  intros Hok HC HD. induction sched as [|t sched IH] using rev_ind.
  { exists pC, pD. split; [done|]. split; [done|]. split; [done|].
    intros i. split; [|done]. intros (t & Ht & _). by apply elem_of_nil in Ht. }
  apply Forall_app in Hok as [Hok Ht]. rewrite Forall_singleton in Ht.
  destruct (IH Hok) as (pC1 & pD1 & E1 & HC1 & HD1 & Hcells1).
  destruct (Ht pC1 pD1 HC1 HD1) as (pC2 & pD2 & E2 & HC2 & HD2 & Hcells2).
  exists pC2, pD2. rewrite run_threads_snoc, E1, bind_inr.
  split; [done|]. split; [done|]. split; [done|].
  intros i. destruct (Hcells1 i) as [Hin1 Hout1]. destruct (Hcells2 i) as [Hin2 Hout2].
  split.
  - intros (t' & Ht' & Hc). destruct (decide (cells t i)) as [Hti|Hti]; [by apply Hin2|].
    destruct (Hout2 Hti) as [-> ->]. apply Hin1.
    apply elem_of_app in Ht' as [Ht'|Ht']; [by exists t'|].
    apply list_elem_of_singleton in Ht'. by subst.
  - intros Hnone.
    destruct Hout2 as [-> ->].
    { apply Hnone, elem_of_app. right. by apply list_elem_of_singleton. }
    apply Hout1. intros t' Ht'. apply Hnone, elem_of_app. by left.
Qed.

End Threads.

(** ** The CUDA launch *)

Lemma cell_pair_site (S p s : nat) :
  s < S → (p * S + s) / S = p ∧ (p * S + s) mod S = s.
Proof.
  intros Hs. split.
  - rewrite Nat.add_comm, Nat.div_add by lia. rewrite Nat.div_small by done. done.
  - rewrite Nat.add_comm, Nat.Div0.mod_add. by apply Nat.mod_small.
Qed.

#[local] Instance cuda_cells_dec L t i : Decision (cuda_cells L t i).
Proof. destruct t as [[? ?] ?]. unfold cuda_cells. apply _. Defined.

Lemma cuda_thread_ok (L : launch) (pC0 pD0 : list Qc) (t : nat * nat * nat) :
  n L ≤ 20 → launch_ok L pC0 pD0 →
  thread_ok (λ '(blockIdx_x, blockIdx_y, threadIdx_x),
               cuda_kernel L blockIdx_x blockIdx_y BLOCK_SIZE threadIdx_x)
    (cuda_cells L) (cell_probC L) (cell_probD L) (length pC0) (length pD0) t.
Proof.
  intros Hn Hok. destruct t as [[bx by_] tx]. intros pC pD HC HD.
  destruct (decide (bx < numPairs L ∧ by_ * BLOCK_SIZE + tx < numSites L)) as [[Hp Hs]|Hout].
  - pose proof (Hok bx _ Hp Hs) as item.
    apply (work_item_resize _ _ _ _ _ _ _ pC pD) in item; [|done..].
    rewrite (cuda_work_item _ _ _ _ _ _ _ item by_ BLOCK_SIZE tx Hn eq_refl).
    eexists _, _. split; [done|]. rewrite !length_insert.
    split; [done|]. split; [done|]. intros i. split.
    + intros (_ & _ & ->). destruct item.
      rewrite !list_lookup_insert_eq by lia.
      unfold cell_probC, cell_probD.
      destruct (cell_pair_site (numSites L) bx (by_ * BLOCK_SIZE + tx) Hs) as [-> ->].
      done.
    + intros Hc. rewrite !list_lookup_insert_ne; [done|..];
        intros <-; apply Hc; done.
  - unfold cuda_kernel. rewrite decide_True by lia.
    exists pC, pD. split; [done|]. split; [done|]. split; [done|].
    intros i. split; [|done]. intros (? & ? & _). lia.
Qed.

Lemma cuda_threads_cover (L : launch) (p s : nat) :
  p < numPairs L → s < numSites L →
  (p, s / BLOCK_SIZE, s mod BLOCK_SIZE) ∈ cuda_threads L.
Proof.
  intros Hp Hs. unfold cuda_threads.
  apply list_elem_of_bind. exists p. split; [|apply elem_of_seq; lia].
  apply list_elem_of_bind. exists (s / BLOCK_SIZE). split.
  - apply list_elem_of_bind. exists (s mod BLOCK_SIZE). split.
    + by apply list_elem_of_singleton.
    + apply elem_of_seq. split; [lia|]. apply Nat.mod_upper_bound. done.
  - apply elem_of_seq. split; [lia|]. cbn [Nat.add].
    apply Nat.Div0.div_lt_upper_bound.
    pose proof (Nat.div_mod_eq (numSites L + BLOCK_SIZE - 1) BLOCK_SIZE).
    pose proof (Nat.mod_upper_bound (numSites L + BLOCK_SIZE - 1) BLOCK_SIZE).
    unfold BLOCK_SIZE in *. lia.
Qed.

Lemma cuda_launch_cells (L : launch) (sched : list (nat * nat * nat)) (pC pD : list Qc) :
  n L ≤ 20 → launch_ok L pC pD → sched ≡ₚ cuda_threads L →
  ∃ pC' pD', cuda_launch L sched pC pD = inr (pC', pD')
    ∧ length pC' = length pC ∧ length pD' = length pD
    ∧ (∀ p s, p < numPairs L → s < numSites L →
         pC' !! (p * numSites L + s) = Some (expected_probC L p s)
         ∧ pD' !! (p * numSites L + s) = Some (expected_probD L p s))
    ∧ (∀ i, numPairs L * numSites L ≤ i → pC' !! i = pC !! i ∧ pD' !! i = pD !! i).
Proof.
  intros Hn Hok Hperm.
  destruct (run_threads_cells
              (λ '(blockIdx_x, blockIdx_y, threadIdx_x),
                 cuda_kernel L blockIdx_x blockIdx_y BLOCK_SIZE threadIdx_x)
              (cuda_cells L) (cell_probC L) (cell_probD L) (length pC) (length pD)
              sched pC pD)
    as (pC' & pD' & E & HC & HD & Hcells); [|done|done|].
  { apply Forall_forall. intros t _. by apply cuda_thread_ok. }
  exists pC', pD'. split; [exact E|]. split; [done|]. split; [done|]. split.
  - intros p s Hp Hs. destruct (Hcells (p * numSites L + s)) as [Hin _].
    unfold cell_probC, cell_probD in Hin.
    destruct (cell_pair_site (numSites L) p s Hs) as [Ep Es].
    rewrite Ep, Es in Hin. apply Hin.
    exists (p, s / BLOCK_SIZE, s mod BLOCK_SIZE). split.
    + rewrite Hperm. by apply cuda_threads_cover.
    + pose proof (Nat.div_mod_eq s BLOCK_SIZE). unfold cuda_cells.
      split; [done|]. split; [lia|]. f_equal. lia.
  - intros i Hi. destruct (Hcells i) as [_ Hout]. apply Hout.
    intros [[bx by_] tx] _ (Hp & Hs & ->). nia.
Qed.

(** ** The Metal launch *)

#[local] Instance metal_cells_dec L t i : Decision (metal_cells L t i).
Proof. destruct t as [? ?]. unfold metal_cells. apply _. Defined.

Lemma metal_threads_elem (L : launch) (gx gy : nat) :
  (gx, gy) ∈ metal_threads L ↔
  gx < numPairs L ∧ gy < (numSites L + sitesPerThread - 1) / sitesPerThread.
Proof.
  unfold metal_threads. rewrite list_elem_of_bind. split.
  - intros (p & Hin & Hp). apply list_elem_of_bind in Hin as (b & Hin & Hb).
    apply list_elem_of_singleton in Hin as [= -> ->].
    apply elem_of_seq in Hp, Hb. lia.
  - intros [Hp Hb]. exists gx. split; [|apply elem_of_seq; lia].
    apply list_elem_of_bind. exists gy. split; [|apply elem_of_seq; lia].
    by apply list_elem_of_singleton.
Qed.

Lemma site_block_has_site (S gy : nat) :
  gy < (S + sitesPerThread - 1) / sitesPerThread → gy * sitesPerThread < S.
Proof.
  unfold sitesPerThread. intros H.
  pose proof (Nat.div_mod_eq (S + 16 - 1) 16).
  pose proof (Nat.mod_upper_bound (S + 16 - 1) 16). lia.
Qed.

Lemma metal_thread_ok (L : launch) (pC0 pD0 : list Qc) (t : nat * nat) :
  n L = 20 → launch_ok L pC0 pD0 → t ∈ metal_threads L →
  thread_ok (λ '(gid_x, gid_y), metal_kernel L sitesPerThread gid_x gid_y)
    (metal_cells L) (cell_probC L) (cell_probD L) (length pC0) (length pD0) t.
Proof.
  intros Hn Hok Ht. destruct t as [gx gy].
  apply metal_threads_elem in Ht as [Hp Hb]. apply site_block_has_site in Hb.
  intros pC pD HC HD.
  assert (Hitems : ∀ s, s < numSites L →
            work_item L gx s (node_offset L gx 0) (node_offset L gx 1) pC pD).
  { intros s Hs. eapply work_item_resize; [..|by apply Hok]; done. }
  destruct (Hitems (gy * sitesPerThread) Hb)
    as [_ _ (i & Hi & Hi0 & Hoff1) (j & Hj & Hj0 & Hoff2) _ _ _ _].
  unfold metal_kernel. rewrite decide_False by lia.
  rewrite (read_Some _ _ _ _ Hi), bind_inr, (read_Some _ _ _ _ Hj), bind_inr.
  unfold read_at. rewrite !decide_True by done.
  rewrite (read_Some _ _ _ _ Hoff1), bind_inr, (read_Some _ _ _ _ Hoff2), bind_inr.
  destruct (metal_site_loop L gx (node_offset L gx 0) (node_offset L gx 1) Hn
              sitesPerThread (gy * sitesPerThread) pC pD)
    as (pC' & pD' & E & HlC & HlD & Hcells & Hrest).
  { intros s _ Hs. by apply Hitems. }
  exists pC', pD'. split; [exact E|]. split; [lia|]. split; [lia|].
  intros c. split.
  - intros (_ & Hge & Hlo & Hhi & Hs).
    destruct (Hcells (c - gx * numSites L)) as [HcC HcD]; [lia | done |].
    replace (gx * numSites L + (c - gx * numSites L)) with c in HcC, HcD by lia.
    unfold cell_probC, cell_probD, expected_probC, expected_probD.
    destruct (cell_pair_site (numSites L) gx (c - gx * numSites L) Hs) as [Ep Es].
    replace (gx * numSites L + (c - gx * numSites L)) with c in Ep, Es by lia.
    rewrite Ep, Es, Hn. done.
  - intros Hc. apply Hrest. intros s Hs Hs' ->. apply Hc.
    unfold metal_cells. split; [done|]. split; [lia|].
    replace (gx * numSites L + s - gx * numSites L) with s by lia. lia.
Qed.

Lemma metal_launch_cells (L : launch) (sched : list (nat * nat)) (pC pD : list Qc) :
  n L = 20 → launch_ok L pC pD → sched ≡ₚ metal_threads L →
  ∃ pC' pD', metal_launch L sched pC pD = inr (pC', pD')
    ∧ length pC' = length pC ∧ length pD' = length pD
    ∧ (∀ p s, p < numPairs L → s < numSites L →
         pC' !! (p * numSites L + s) = Some (expected_probC L p s)
         ∧ pD' !! (p * numSites L + s) = Some (expected_probD L p s))
    ∧ (∀ i, numPairs L * numSites L ≤ i → pC' !! i = pC !! i ∧ pD' !! i = pD !! i).
Proof.
  intros Hn Hok Hperm.
  destruct (run_threads_cells
              (λ '(gid_x, gid_y), metal_kernel L sitesPerThread gid_x gid_y)
              (metal_cells L) (cell_probC L) (cell_probD L) (length pC) (length pD)
              sched pC pD)
    as (pC' & pD' & E & HC & HD & Hcells); [|done|done|].
  { apply Forall_forall. intros t Ht. apply metal_thread_ok; [done|done|].
    by rewrite <- Hperm. }
  exists pC', pD'. split; [exact E|]. split; [done|]. split; [done|]. split.
  - intros p s Hp Hs. destruct (Hcells (p * numSites L + s)) as [Hin _].
    unfold cell_probC, cell_probD in Hin.
    destruct (cell_pair_site (numSites L) p s Hs) as [Ep Es].
    rewrite Ep, Es in Hin. apply Hin.
    exists (p, s / sitesPerThread). 
    pose proof (Nat.div_mod_eq s sitesPerThread).
    pose proof (Nat.mod_upper_bound s sitesPerThread).
    split.
    + rewrite Hperm. apply metal_threads_elem. split; [done|].
      apply Nat.Div0.div_lt_upper_bound.
      pose proof (Nat.div_mod_eq (numSites L + sitesPerThread - 1) sitesPerThread).
      pose proof (Nat.mod_upper_bound (numSites L + sitesPerThread - 1) sitesPerThread).
      unfold sitesPerThread in *. lia.
    + unfold metal_cells. split; [done|]. split; [lia|].
      replace (p * numSites L + s - p * numSites L) with s by lia.
      unfold sitesPerThread in *. lia.
  - intros i Hi. destruct (Hcells i) as [_ Hout]. apply Hout.
    intros [gx gy] _ (Hp & Hge & _ & _ & Hs). nia.
Qed.

(** ** What a thread leaves alone, for any launch arguments *)

Lemma bind_inv {A B} (m : M A) (f : A → M B) (r : B) :
  m ≫= f = inr r → ∃ x, m = inr x ∧ f x = inr r.
Proof. destruct m as [e|x]; [done|]. intros H. by exists x. Qed.

Lemma write_inv {A} name (a a' : list A) i v :
  write name a i v = inr a' → i < length a ∧ a' = <[i:=v]> a.
Proof. unfold write. case_decide; [|done]. by intros [= <-]. Qed.

Lemma store_pair_frame (pC pD pC' pD' : list Qc) (outIdx : nat) (probC probD : Qc) :
  (pConvergent ← write "pConvergent" pC outIdx probC;
   pDivergent ← write "pDivergent" pD outIdx probD;
   mret (pConvergent, pDivergent)) = inr (pC', pD') →
  length pC' = length pC ∧ length pD' = length pD
  ∧ ∀ i, i ≠ outIdx → pC' !! i = pC !! i ∧ pD' !! i = pD !! i.
Proof.
  intros H. apply bind_inv in H as (c & Hc & H). apply bind_inv in H as (d & Hd & H).
  injection H as <- <-.
  apply write_inv in Hc as [_ ->]. apply write_inv in Hd as [_ ->].
  rewrite !length_insert. split; [done|]. split; [done|].
  intros i Hi. by rewrite !list_lookup_insert_ne.
Qed.

Lemma cuda_kernel_frame L bx by_ bd tx pC pD pC' pD' :
  cuda_kernel L bx by_ bd tx pC pD = inr (pC', pD') →
  length pC' = length pC ∧ length pD' = length pD
  ∧ ∀ i, i ≠ bx * numSites L + (by_ * bd + tx) →
         pC' !! i = pC !! i ∧ pD' !! i = pD !! i.
Proof.
  unfold cuda_kernel. case_decide as Hguard.
  { by intros [= <- <-]. }
  intros H.
  apply bind_inv in H as (inode & _ & H). apply bind_inv in H as (jnode & _ & H).
  apply bind_inv in H as (off1 & _ & H). apply bind_inv in H as (off2 & _ & H).
  apply bind_inv in H as ([probC probD] & _ & H).
  by apply store_pair_frame in H.
Qed.

Lemma metal_site_frame L p off1 off2 s pC pD pC' pD' :
  metal_site L p off1 off2 s (pC, pD) = inr (pC', pD') →
  length pC' = length pC ∧ length pD' = length pD
  ∧ ∀ i, i ≠ p * numSites L + s → pC' !! i = pC !! i ∧ pD' !! i = pD !! i.
Proof.
  unfold metal_site. intros H.
  apply bind_inv in H as ([probC probD] & _ & H).
  by apply store_pair_frame in H.
Qed.

Lemma metal_loop_frame L p off1 off2 cnt :
  ∀ lo pC pD pC' pD',
    for_break lo cnt (λ siteIdx, bool_decide (numSites L ≤ siteIdx))
      (metal_site L p off1 off2) (pC, pD) = inr (pC', pD') →
    length pC' = length pC ∧ length pD' = length pD
    ∧ ∀ i, (∀ s, lo ≤ s < lo + cnt → s < numSites L → i ≠ p * numSites L + s) →
           pC' !! i = pC !! i ∧ pD' !! i = pD !! i.
Proof.
  induction cnt as [|c IH]; intros lo pC pD pC' pD'; cbn [for_break].
  { by intros [= <- <-]. }
  case_bool_decide as Hstop.
  { by intros [= <- <-]. }
  intros H. apply bind_inv in H as ([pC1 pD1] & H1 & H).
  apply metal_site_frame in H1 as (HC1 & HD1 & Hf1).
  apply IH in H as (HC & HD & Hf).
  split; [lia|]. split; [lia|]. intros i Hi.
  destruct (Hf i) as [-> ->]; [intros; apply Hi; lia|].
  apply Hf1. apply Hi; lia.
Qed.

Lemma metal_kernel_frame L spt gx gy pC pD pC' pD' :
  metal_kernel L spt gx gy pC pD = inr (pC', pD') →
  length pC' = length pC ∧ length pD' = length pD
  ∧ ∀ i, (∀ s, gy * spt ≤ s < gy * spt + spt → s < numSites L →
               i ≠ gx * numSites L + s) →
         pC' !! i = pC !! i ∧ pD' !! i = pD !! i.
Proof.
  unfold metal_kernel. case_decide as Hguard.
  { by intros [= <- <-]. }
  intros H.
  apply bind_inv in H as (inode & _ & H). apply bind_inv in H as (jnode & _ & H).
  apply bind_inv in H as (off1 & _ & H). apply bind_inv in H as (off2 & _ & H).
  by apply metal_loop_frame in H.
Qed.

Lemma cuda_cells_frame L bx by_ tx pC pD pC' pD' :
  cuda_kernel L bx by_ BLOCK_SIZE tx pC pD = inr (pC', pD') →
  ∀ i, ¬ cuda_cells L (bx, by_, tx) i → pC' !! i = pC !! i ∧ pD' !! i = pD !! i.
Proof.
  intros H i Hi.
  destruct (decide (numPairs L ≤ bx ∨ numSites L ≤ by_ * BLOCK_SIZE + tx)) as [Hg|Hg].
  - unfold cuda_kernel in H. rewrite decide_True in H by done. by injection H as <- <-.
  - apply cuda_kernel_frame in H as (_ & _ & H). apply H.
    intros ->. apply Hi. unfold cuda_cells. lia.
Qed.

Lemma metal_cells_frame L gx gy pC pD pC' pD' :
  metal_kernel L sitesPerThread gx gy pC pD = inr (pC', pD') →
  ∀ i, ¬ metal_cells L (gx, gy) i → pC' !! i = pC !! i ∧ pD' !! i = pD !! i.
Proof.
  intros H i Hi.
  destruct (decide (numPairs L ≤ gx)) as [Hg|Hg].
  - unfold metal_kernel in H. rewrite decide_True in H by done. by injection H as <- <-.
  - apply metal_kernel_frame in H as (_ & _ & H). apply H.
    intros s Hs Hs' ->. apply Hi. unfold metal_cells.
    replace (gx * numSites L + s - gx * numSites L) with s by lia. lia.
Qed.

Lemma cuda_cells_distinct L t1 t2 i :
  t1 ∈ cuda_threads L → t2 ∈ cuda_threads L →
  cuda_cells L t1 i → cuda_cells L t2 i → t1 = t2.
Proof.
  destruct t1 as [[bx1 by1] tx1], t2 as [[bx2 by2] tx2].
  unfold cuda_threads. intros H1 H2.
  apply list_elem_of_bind in H1 as (? & H1 & _).
  apply list_elem_of_bind in H1 as (? & H1 & _).
  apply list_elem_of_bind in H1 as (? & H1 & Ht1).
  apply list_elem_of_singleton in H1 as [= <- <- <-].
  apply list_elem_of_bind in H2 as (? & H2 & _).
  apply list_elem_of_bind in H2 as (? & H2 & _).
  apply list_elem_of_bind in H2 as (? & H2 & Ht2).
  apply list_elem_of_singleton in H2 as [= <- <- <-].
  apply elem_of_seq in Ht1, Ht2.
  intros (_ & Hs1 & ->) (_ & Hs2 & E). unfold BLOCK_SIZE in *.
  assert (bx1 = bx2) by nia. subst.
  assert (by1 = by2) by lia. subst.
  assert (tx1 = tx2) by lia. by subst.
Qed.

Lemma metal_cells_distinct L t1 t2 i :
  metal_cells L t1 i → metal_cells L t2 i → t1 = t2.
Proof.
  destruct t1 as [gx1 gy1], t2 as [gx2 gy2]. unfold metal_cells, sitesPerThread.
  intros (_ & Hge1 & Hlo1 & Hhi1 & Hs1) (_ & Hge2 & Hlo2 & Hhi2 & Hs2).
  assert (gx1 = gx2) by nia. subst.
  assert (gy1 = gy2) by lia. by subst.
Qed.

(** ** The properties *)

(** X12.  The CUDA launch of [cuda_convergence] fills the output: for at most 20
    states and launch arguments that name nodes of the tree and matrices
    inside the tensor, whatever the order in which the threads of the grid
    run, the launch returns and every cell [(pair, site)] of both output
    arrays holds the pair of section 4.3 for the two nodes of the pair at
    that site, [numSites] being a multiple of the block size or not; cells
    beyond [numPairs * numSites] are not changed. *)
Theorem cuda_launch_fills_every_cell
    (L : launch) (sched : list (nat * nat * nat)) (pC pD : list Qc) :
  n L ≤ 20 → launch_ok L pC pD → sched ≡ₚ cuda_threads L →
  ∃ pC' pD', cuda_launch L sched pC pD = inr (pC', pD')
    ∧ length pC' = length pC ∧ length pD' = length pD
    ∧ (∀ p s, p < numPairs L → s < numSites L →
         pC' !! (p * numSites L + s) = Some (expected_probC L p s)
         ∧ pD' !! (p * numSites L + s) = Some (expected_probD L p s))
    ∧ (∀ i, numPairs L * numSites L ≤ i → pC' !! i = pC !! i ∧ pD' !! i = pD !! i).
Proof. apply cuda_launch_cells. Qed.

Lemma uniform_launch_ok : launch_ok uniform [0%Qc] [0%Qc].
Proof.
  intros p s Hp Hs. simpl in Hp, Hs.
  assert (p = 0) as -> by lia. assert (s = 0) as -> by lia.
  split; simpl; try lia.
  - exists 0%Z. split; [reflexivity|]. split; [lia | reflexivity].
  - exists 1%Z. split; [reflexivity|]. split; [lia | reflexivity].
Defined.

Lemma cuda_launch_fills_every_cell_witness :
  ∃ pC' pD', cuda_launch uniform (cuda_threads uniform) [0%Qc] [0%Qc] = inr (pC', pD')
    ∧ length pC' = 1 ∧ length pD' = 1
    ∧ (∀ p s, p < 1 → s < 1 →
         pC' !! (p * 1 + s) = Some (expected_probC uniform p s)
         ∧ pD' !! (p * 1 + s) = Some (expected_probD uniform p s))
    ∧ (∀ i, 1 * 1 ≤ i → pC' !! i = [0%Qc] !! i ∧ pD' !! i = [0%Qc] !! i).
Proof.
  apply (cuda_launch_fills_every_cell uniform (cuda_threads uniform) [0%Qc] [0%Qc]);
    [simpl; lia | exact uniform_launch_ok | reflexivity].
Defined.

(** X13.  The Metal dispatch of [metal_convergence] fills the output in the same
    way, for 20 states: with 16 sites per thread and
    [(numSites + 15) / 16] site blocks, every cell [(pair, site)] is
    written, with the pair of section 4.3, whatever the order of the
    threads. *)
Theorem metal_launch_fills_every_cell
    (L : launch) (sched : list (nat * nat)) (pC pD : list Qc) :
  n L = 20 → launch_ok L pC pD → sched ≡ₚ metal_threads L →
  ∃ pC' pD', metal_launch L sched pC pD = inr (pC', pD')
    ∧ length pC' = length pC ∧ length pD' = length pD
    ∧ (∀ p s, p < numPairs L → s < numSites L →
         pC' !! (p * numSites L + s) = Some (expected_probC L p s)
         ∧ pD' !! (p * numSites L + s) = Some (expected_probD L p s))
    ∧ (∀ i, numPairs L * numSites L ≤ i → pC' !! i = pC !! i ∧ pD' !! i = pD !! i).
Proof. apply metal_launch_cells. Qed.

Lemma metal_launch_fills_every_cell_witness :
  ∃ pC' pD', metal_launch uniform (metal_threads uniform) [0%Qc] [0%Qc] = inr (pC', pD')
    ∧ length pC' = 1 ∧ length pD' = 1
    ∧ (∀ p s, p < 1 → s < 1 →
         pC' !! (p * 1 + s) = Some (expected_probC uniform p s)
         ∧ pD' !! (p * 1 + s) = Some (expected_probD uniform p s))
    ∧ (∀ i, 1 * 1 ≤ i → pC' !! i = [0%Qc] !! i ∧ pD' !! i = [0%Qc] !! i).
Proof.
  apply (metal_launch_fills_every_cell uniform (metal_threads uniform) [0%Qc] [0%Qc]);
    [reflexivity | exact uniform_launch_ok | reflexivity].
Defined.

(** X14.  The CUDA launch has no write conflict, whatever the launch arguments
    are: a thread that returns has changed no cell but its own
    [pairIdx * numSites + siteIdx], and then only if it passed the guard of
    line 61; and no two threads of the grid have the same cell.  So a thread
    never changes the cell of another thread. *)
Theorem cuda_launch_is_race_free
    (L : launch) (t1 t2 : nat * nat * nat) (pC pD pC' pD' : list Qc) (i : nat) :
  t1 ∈ cuda_threads L → t2 ∈ cuda_threads L → t1 ≠ t2 →
  cuda_launch L [t1] pC pD = inr (pC', pD') →
  cuda_cells L t2 i →
  pC' !! i = pC !! i ∧ pD' !! i = pD !! i.
Proof.
  intros H1 H2 Hne Hrun Hi. destruct t1 as [[bx by_] tx].
  apply (cuda_cells_frame L bx by_ tx pC pD pC' pD'); [exact Hrun|].
  intros Hi1. apply Hne. by apply (cuda_cells_distinct L _ _ i).
Qed.

Lemma cuda_launch_is_race_free_witness :
  <[0 := 0%Qc]> (replicate 6 0%Qc) !! 1 = replicate 6 0%Qc !! 1
  ∧ <[0 := 0%Qc]> (replicate 6 0%Qc) !! 1 = replicate 6 0%Qc !! 1.
Proof.
  apply (cuda_launch_is_race_free nucleotide (0, 0, 0) (0, 0, 1)
           (replicate 6 0%Qc) (replicate 6 0%Qc) _ _ 1);
    [compute_done | compute_done | discriminate | compute_done
     | unfold cuda_cells, BLOCK_SIZE; simpl; lia].
Defined.

(** X15.  The Metal dispatch has no write conflict either: a thread that returns
    has changed no cell but those of its pair and of the existing sites of
    its block of 16, and no two threads have a cell in common. *)
Theorem metal_launch_is_race_free
    (L : launch) (t1 t2 : nat * nat) (pC pD pC' pD' : list Qc) (i : nat) :
  t1 ≠ t2 →
  metal_launch L [t1] pC pD = inr (pC', pD') →
  metal_cells L t2 i →
  pC' !! i = pC !! i ∧ pD' !! i = pD !! i.
Proof.
  intros Hne Hrun Hi. destruct t1 as [gx gy].
  apply (metal_cells_frame L gx gy pC pD pC' pD'); [exact Hrun|].
  intros Hi1. apply Hne. by apply (metal_cells_distinct L _ _ i).
Qed.

Lemma metal_launch_is_race_free_witness :
  [Q2Qc (361 # 20); 0%Qc] !! 1 = [0%Qc; 0%Qc] !! 1
  ∧ [Q2Qc (6859 # 20); 0%Qc] !! 1 = [0%Qc; 0%Qc] !! 1.
Proof.
  apply (metal_launch_is_race_free two_pairs (0, 0) (1, 0) [0%Qc; 0%Qc] [0%Qc; 0%Qc]
           _ _ 1);
    [discriminate | compute_done | unfold metal_cells, sitesPerThread; simpl; lia].
Defined.

End GridFacts.

(** * Facts about the pages and the data file *)

Module PagesFacts.
Import Emit Pages EmitFacts.

(** ** Strings *)

Lemma string_app_length (s t : string) :
  String.length (s +:+ t) = String.length s + String.length t.
Proof.
  induction s as [|c s IH]; [reflexivity|].
  change (S (String.length (s +:+ t)) = S (String.length s + String.length t)).
  by rewrite IH.
Qed.

Lemma string_app_cons (c : ascii) (s t : string) :
  String c s +:+ t = String c (s +:+ t).
Proof. reflexivity. Qed.

Lemma string_app_inv_head (s t1 t2 : string) : s +:+ t1 = s +:+ t2 → t1 = t2.
Proof.
  induction s as [|c s IH]; [done|]. rewrite !string_app_cons. intros [= H]. by apply IH.
Qed.

(** Two texts with tails of the same length. *)
Lemma string_app_inj_tail (s1 s2 t1 t2 : string) :
  String.length t1 = String.length t2 → s1 +:+ t1 = s2 +:+ t2 → s1 = s2 ∧ t1 = t2.
Proof.
  revert s2. induction s1 as [|c s1 IH]; intros s2 Hlen H.
  - destruct s2 as [|c2 s2]; [done|]. exfalso.
    apply (f_equal String.length) in H. rewrite !string_app_length in H.
    simpl in H. lia.
  - destruct s2 as [|c2 s2].
    + exfalso. apply (f_equal String.length) in H. rewrite !string_app_length in H.
      simpl in H. lia.
    + rewrite !string_app_cons in H. injection H as -> H.
      destruct (IH s2 Hlen H) as [-> ->]. done.
Qed.

Lemma lacks_cons (c d : ascii) (s : string) :
  lacks c (String d s) ↔ d ≠ c ∧ lacks c s.
Proof.
  split.
  - intros H. split.
    + intros ->. by apply (H 0).
    + intros i. apply (H (S i)).
  - intros [Hd Hs] [|i]; simpl; [congruence | apply Hs].
Qed.

Lemma prefix_cons_ne (c d : ascii) (s t : string) :
  d ≠ c → String.prefix (String c s) (String d t) = false.
Proof.
  intros H. cbn [String.prefix]. destruct (ascii_dec c d); [congruence | done].
Qed.

Lemma prefix_nil (s : string) : String.prefix "" s = true.
Proof. by destruct s. Qed.

Lemma prefix_cons_eq (c : ascii) (s t : string) :
  String.prefix (String c s) (String c t) = String.prefix s t.
Proof. cbn [String.prefix]. by destruct (ascii_dec c c). Qed.

(** A needle whose first character the text lacks is not found. *)
Lemma index_lacks (c : ascii) (needle s : string) :
  lacks c s → String.index 0 (String c needle) s = None.
Proof.
  induction s as [|d s IH]; intros H; [done|].
  apply lacks_cons in H as [Hd Hs].
  cbn [String.index]. rewrite prefix_cons_ne by done. by rewrite IH.
Qed.

Lemma strstr_lacks (c : ascii) (needle s : string) :
  lacks c s → strstr s (String c needle) = None.
Proof. intros H. unfold strstr. by rewrite index_lacks. Qed.

(** The first dot of a name. *)
Lemma index_dot (stem rest : string) :
  lacks "." stem →
  String.index 0 "." (stem +:+ "." +:+ rest) = Some (String.length stem).
Proof.
  induction stem as [|d stem IH]; intros H.
  - change ("" +:+ "." +:+ rest) with (String "." rest).
    cbn [String.index]. by rewrite prefix_cons_eq, prefix_nil.
  - apply lacks_cons in H as [Hd Hs]. rewrite string_app_cons.
    cbn [String.index]. rewrite prefix_cons_ne by done.
    rewrite IH by done. done.
Qed.

Lemma substring_app (s t : string) : String.substring 0 (String.length s) (s +:+ t) = s.
Proof.
  induction s as [|c s IH]; [by destruct t|].
  rewrite string_app_cons. simpl. by rewrite IH.
Qed.

Lemma index_dot_inv (name : string) (pos : nat) :
  String.index 0 "." name = Some pos →
  ∃ rest, name = String.substring 0 pos name +:+ "." +:+ rest
          ∧ lacks "." (String.substring 0 pos name).
Proof.
  revert pos. induction name as [|d name IH]; intros pos; [done|].
  cbn [String.index].
  destruct (String.prefix "." (String d name)) eqn:Hp.
  - intros [= <-]. cbn [String.prefix] in Hp.
    destruct (ascii_dec "." d) as [<-|]; [|done].
    exists name. split; [reflexivity|]. intros i. by destruct i.
  - destruct (String.index 0 "." name) as [p|] eqn:Hi; [|done].
    intros [= <-]. destruct (IH p eq_refl) as (rest & E & Hl).
    exists rest. simpl. split.
    + rewrite string_app_cons. by f_equal.
    + apply lacks_cons. split; [|done].
      intros ->. by rewrite prefix_cons_eq, prefix_nil in Hp.
Qed.

(** ** The path of the data file *)

Lemma data_file_path_stem (stem rest : string) :
  lacks "." stem →
  data_file_path (stem +:+ "." +:+ rest) = inr ("UI/User/" +:+ stem +:+ "Data.js").
Proof.
  intros H. unfold data_file_path. rewrite index_dot by done.
  by rewrite substring_app.
Qed.

Lemma data_file_path_no_dot (name : string) :
  lacks "." name →
  data_file_path name = inl (NullPointer "strchr(com.htmlFileName, .)").
Proof. intros H. unfold data_file_path. by rewrite index_lacks. Qed.

Lemma data_file_path_inv (name file : string) :
  data_file_path name = inr file →
  ∃ stem rest, name = stem +:+ "." +:+ rest ∧ lacks "." stem
               ∧ file = "UI/User/" +:+ stem +:+ "Data.js".
Proof.
  unfold data_file_path. destruct (String.index 0 "." name) as [pos|] eqn:Hi; [|done].
  intros [= <-]. destruct (index_dot_inv name pos Hi) as (rest & E & Hl).
  by exists (String.substring 0 pos name), rest.
Qed.

(** ** The final paths *)

Lemma prefix_app (s t : string) : String.prefix s (s +:+ t) = true.
Proof.
  induction s as [|c s IH]; [apply prefix_nil|].
  by rewrite string_app_cons, prefix_cons_eq.
Qed.

Lemma output_paths_under_user (htmlFileName file : string) (p : string) :
  data_file_path htmlFileName = inr file →
  p ∈ output_paths htmlFileName file → String.prefix "UI/User/" p = true.
Proof.
  intros Hfile Hp. apply data_file_path_inv in Hfile as (stem & rest & _ & _ & ->).
  unfold output_paths, html_path in Hp.
  repeat (apply elem_of_cons in Hp as [->|Hp]; [apply prefix_app|]).
  by apply elem_of_nil in Hp.
Qed.

Lemma output_paths_distinct (htmlFileName file : string) :
  data_file_path htmlFileName = inr file → NoDup (output_paths htmlFileName file).
Proof.
  intros Hfile. apply data_file_path_inv in Hfile as (stem & rest & -> & _ & ->).
  set (name := stem +:+ "." +:+ rest).
  assert (Hpaths : output_paths name ("UI/User/" +:+ stem +:+ "Data.js")
                   = String.append "UI/User/" <$>
                       [stem +:+ "Data.js"; name; "sheet-" +:+ name;
                        "siteSpecific-" +:+ name; "rateVsDiversity-" +:+ name;
                        "rateVsProbConvergence-" +:+ name]) by reflexivity.
  rewrite Hpaths. apply NoDup_fmap_2.
  { intros a b. apply string_app_inv_head. }
  assert (Hlen : String.length name = String.length stem + 1 + String.length rest).
  { unfold name. rewrite !string_app_length. simpl. lia. }
  apply NoDup_cons. split.
  - intros Hin. repeat (apply elem_of_cons in Hin as [Hin|Hin]);
      try (apply (f_equal String.length) in Hin;
           rewrite !string_app_length, ?Hlen in Hin; simpl in Hin; lia).
    + unfold name in Hin. apply string_app_inv_head in Hin. discriminate.
    + assert (rest = EmptyString) as ->.
      { apply (f_equal String.length) in Hin.
        rewrite !string_app_length, ?Hlen in Hin. simpl in Hin.
        destruct rest; [done | simpl in Hin; lia]. }
      unfold name in Hin.
      change (stem +:+ "Data.js") with (stem +:+ ("Data.j" +:+ "s")) in Hin.
      rewrite <- !string_app_assoc, string_app_nil_r in Hin.
      apply string_app_inj_tail in Hin as [_ Hin]; [discriminate | done].
    + by apply elem_of_nil in Hin.
  - apply (NoDup_fmap_1 String.length). cbn [fmap list_fmap].
    rewrite !string_app_length. cbn [String.length].
    generalize (String.length name). intros n.
    repeat (apply NoDup_cons; split;
            [rewrite ?elem_of_cons, elem_of_nil; lia|]).
    apply NoDup_nil_2.
Qed.

(** [outputDataInJS] changes no file outside [UI/User/]. *)
(** ** Reading the template *)

Lemma fgets_app (room : nat) (s : string) :
  (fgets room s).1 +:+ (fgets room s).2 = s.
Proof.
  revert s. induction room as [|r IH]; intros s; [by destruct s|].
  destruct s as [|c s]; [done|]. cbn [fgets].
  destruct (Ascii.eqb c "010"); [done|].
  specialize (IH s). destruct (fgets r s) as [line rest]. cbn [fst snd] in *.
  by rewrite string_app_cons, IH.
Qed.

Lemma fgets_nonempty (room : nat) (c : ascii) (s : string) :
  (fgets (S room) (String c s)).1 ≠ EmptyString.
Proof.
  cbn [fgets]. destruct (Ascii.eqb c "010"); [done|]. by destruct (fgets room s).
Qed.

Lemma fgets_empty (room : nat) : fgets room EmptyString = (EmptyString, EmptyString).
Proof. by destruct room. Qed.

Lemma lacks_app (c : ascii) (s t : string) : lacks c (s +:+ t) ↔ lacks c s ∧ lacks c t.
Proof.
  induction s as [|d s IH].
  - change ("" +:+ t) with t. split; [|by intros [_ ?]].
    intros H. split; [|done]. intros i. by destruct i.
  - rewrite string_app_cons, !lacks_cons, IH. tauto.
Qed.

(** A line without [@] holds none of the four markers: it is copied and
    nothing is added. *)
Lemma html_line_plain file sel num newHTML line :
  lacks "@" line → html_line file sel num newHTML line = (fprintf newHTML line;; mret ()).
Proof.
  intros H. unfold html_line. by rewrite !strstr_lacks.
Qed.

Lemma fprintf_fprintf stream s t (σ : fs) :
  (fprintf stream s;; fprintf stream t) σ = fprintf stream (s +:+ t) σ.
Proof.
  unfold fprintf, mbind, IO_bind. simpl.
  rewrite lookup_insert_eq, insert_insert_eq. simpl. by rewrite string_app_assoc.
Qed.

Lemma html_lines_plain fuel file sel num newHTML template (σ : fs) (old : string) :
  lacks "@" template → String.length template ≤ fuel →
  σ !! newHTML = Some old →
  html_lines fuel file sel num newHTML template σ
  = (inr (), <[newHTML := old +:+ template]> σ).
Proof.
  revert template σ old. induction fuel as [|fuel IH]; intros template σ old Hl Hlen Hold.
  { destruct template; [|simpl in Hlen; lia].
    cbn [html_lines]. by rewrite string_app_nil_r, insert_id. }
  cbn [html_lines]. destruct template as [|c template].
  { rewrite fgets_empty. rewrite decide_True by done.
    by rewrite string_app_nil_r, insert_id. }
  pose proof (fgets_app 1023 (String c template)) as Happ.
  pose proof (fgets_nonempty 1022 c template) as Hline.
  destruct (fgets 1023 (String c template)) as [line rest]. cbn [fst snd] in *.
  rewrite decide_False by done.
  rewrite <- Happ in Hl. apply lacks_app in Hl as [Hl1 Hl2].
  rewrite html_line_plain by done.
  assert (Hrest : String.length rest ≤ fuel).
  { apply (f_equal String.length) in Happ. rewrite string_app_length in Happ.
    simpl in Happ, Hlen. destruct line; [done | simpl in Happ; lia]. }
  unfold mbind at 1, IO_bind at 1. unfold mbind at 1, IO_bind at 1.
  unfold fprintf at 1. cbn [fst snd mret IO_ret].
  rewrite (IH rest _ (old +:+ line)); [|done|done|].
  - rewrite insert_insert_eq. by rewrite string_app_assoc, Happ.
  - rewrite lookup_insert_eq, Hold. done.
Qed.

(** A template without [@] is copied to the page as it is, lines longer than
    the 1023 characters of one [fgets] included; what the page held before
    is replaced. *)
Lemma generateHTML_plain htmlFileName file templateFile moreFile sel num
    (σ : fs) (text : string) :
  σ !! templateFile = Some text →
  lacks "@" text →
  templateFile ≠ html_path htmlFileName moreFile →
  generateHTML htmlFileName file templateFile moreFile sel num σ
  = (inr (), <[html_path htmlFileName moreFile := text]> σ).
Proof.
  intros Ht Hl Hne. unfold generateHTML.
  unfold mbind at 1, IO_bind at 1, fopen_r at 1. rewrite Ht.
  unfold mbind at 1, IO_bind at 1, fopen_w at 1.
  rewrite (html_lines_plain _ _ _ _ _ _ _ EmptyString); [|done|done|].
  - by rewrite insert_insert_eq.
  - by rewrite lookup_insert_eq.
Qed.

(** ** Pages that are written without a fault *)









(** ** The script element *)

Lemma strstr_user (name : string) :
  strstr ("UI/User/" +:+ name) "User/" = Some ("User/" +:+ name).
Proof.
  unfold strstr.
  assert (E : String.index 0 "User/" ("UI/User/" +:+ name) = Some 3).
  { change ("UI/User/" +:+ name)
      with (String "U" (String "I" (String "/" ("User/" +:+ name)))).
    cbn [String.index].
    rewrite prefix_cons_eq, (prefix_cons_ne "s" "I") by done.
    rewrite (prefix_cons_ne "U" "I"), (prefix_cons_ne "U" "/") by done.
    change ("User/" +:+ name) with (String "U" ("ser/" +:+ name)) at 1.
    cbn [String.index]. by rewrite prefix_cons_eq, prefix_app. }
  rewrite E. reflexivity.
Qed.

Lemma html_line_data_tag htmlFileName file sel num newHTML line (σ : fs) :
  data_file_path htmlFileName = inr file →
  is_Some (strstr line "@dataTag") →
  strstr line "@tableAndPlot" = None → strstr line "@rateVsDivPlot" = None →
  strstr line "@plot" = None →
  ∃ name, file = "UI/User/" +:+ name
    ∧ html_line file sel num newHTML line σ
      = (inr (), <[newHTML := default EmptyString (σ !! newHTML)
                                +:+ line +:+ script_text name]> σ).
Proof.
  intros Hfile [p Hp] H1 H2 H3.
  apply data_file_path_inv in Hfile as (stem & rest & _ & _ & ->).
  exists (stem +:+ "Data.js"). split; [done|].
  unfold html_line. rewrite Hp, H1, H2, H3, strstr_user.
  change (string_drop 5 ("User/" +:+ stem +:+ "Data.js")) with (stem +:+ "Data.js").
  fold (script_text (stem +:+ "Data.js")).
  unfold mbind, IO_bind, fprintf. simpl.
  rewrite lookup_insert_eq, insert_insert_eq. simpl. by rewrite string_app_assoc.
Qed.

(** ** The data file *)

Lemma cat_all_app (l1 l2 : list string) : cat_all (l1 ++ l2) = cat_all l1 +:+ cat_all l2.
Proof.
  induction l1 as [|t l1 IH]; [done|]. cbn [app cat_all].
  by rewrite IH, string_app_assoc.
Qed.

Lemma items_text_snoc (l : list string) (a : string) :
  items_text (l ++ [a]) = cat_all ((λ x, x +:+ ", ") <$> l) +:+ a +:+ " ]".
Proof.
  induction l as [|x l IH]; [done|].
  cbn [app fmap list_fmap cat_all]. rewrite string_app_assoc, <- IH.
  cbn [items_text]. destruct (l ++ [a]) eqn:E; [by destruct l|].
  by rewrite string_app_assoc.
Qed.

Lemma array_text_nonempty (l : list string) :
  l ≠ [] → array_text l = "[ " +:+ items_text l.
Proof. by destruct l. Qed.

Section DataFileFacts.
Variable fmt_6f : Qc → string.
Variable siteSpecificMap : list Qc.
Variable selectedBranchPairs : list Z.
Variables num lst : nat.
Hypothesis lst_pos : 1 ≤ lst.
Hypothesis in_map : num * lst * 2 ≤ length siteSpecificMap.
Hypothesis in_sel : num * 3 ≤ length selectedBranchPairs.

#[local] Abbreviation pair_id := (pair_id selectedBranchPairs).
#[local] Abbreviation pair_name := (pair_name selectedBranchPairs).
#[local] Abbreviation pair_line := (pair_line fmt_6f siteSpecificMap selectedBranchPairs lst).

#[local] Abbreviation summary_at := (summary_at selectedBranchPairs).
#[local] Abbreviation summary_end := (summary_end selectedBranchPairs num).

Lemma pair_entry_spec dataFile ig (σ : fs) (old : string) :
  ig < num → σ !! dataFile = Some old →
  pair_entry fmt_6f dataFile siteSpecificMap selectedBranchPairs num lst ig
    (summary_at ig) σ
  = (inr (if decide (ig < num - 1) then summary_at (S ig) else summary_end),
     <[dataFile := old +:+ pair_line ig]> σ).
Proof using lst_pos in_map in_sel.
  intros Hig Hold. unfold pair_entry, summary_at. cbn zeta iota beta.
  rewrite siteSpecificBP_spec by (done || nia). rewrite lift_bind.
  destruct (lookup_lt_is_Some_2 selectedBranchPairs (ig * 3)) as [b1 H1]; [lia|].
  destruct (lookup_lt_is_Some_2 selectedBranchPairs (ig * 3 + 1)) as [b2 H2]; [lia|].
  rewrite (read_Some _ _ _ _ H1), lift_bind, (read_Some _ _ _ _ H2), lift_bind.
  assert (Eid : "BP_" +:+ fmt_d b1 +:+ "x" +:+ fmt_d b2 = pair_id ig).
  { unfold Pages.pair_id, b1_of, b2_of. by rewrite H1, H2. }
  assert (Ename : dq +:+ "Branch Pair: " +:+ fmt_d b1 +:+ ".." +:+ fmt_d b2 +:+ dq
                  = pair_name ig).
  { unfold Pages.pair_name, b1_of, b2_of. by rewrite H1, H2. }
  rewrite Eid, Ename.
  unfold mbind, IO_bind, fprintf. cbn [fst snd]. rewrite Hold. cbn [default].
  fold (pair_line ig).
  destruct (decide (ig < num - 1)) as [Hlt|Hlast]; cbn [mret IO_ret]; f_equal; f_equal.
  - rewrite !seq_S, !fmap_app, !cat_all_app. cbn [fmap list_fmap cat_all Nat.add].
    rewrite !string_app_nil_r, !string_app_assoc. done.
  - assert (num = S ig) as Hn by lia. unfold summary_end. rewrite Hn.
    rewrite !seq_S, !fmap_app. cbn [fmap list_fmap Nat.add].
    unfold array_text.
    destruct (_ ++ [pair_id ig]) eqn:E1; [by destruct (pair_id <$> seq 0 ig)|].
    rewrite <- E1. clear E1.
    destruct (_ ++ [pair_name ig]) eqn:E2; [by destruct (pair_name <$> seq 0 ig)|].
    rewrite <- E2. clear E2.
    rewrite !items_text_snoc, <- !list_fmap_compose.
    rewrite !string_app_assoc. done.
Qed.

Lemma pair_entries_spec dataFile cnt ig (σ : fs) (old : string) :
  ig + cnt = num → 1 ≤ cnt → σ !! dataFile = Some old →
  pair_entries fmt_6f dataFile siteSpecificMap selectedBranchPairs num lst ig cnt
    (summary_at ig) σ
  = (inr summary_end, <[dataFile := old +:+ cat_all (pair_line <$> seq ig cnt)]> σ).
Proof using lst_pos in_map in_sel.
  revert ig σ old. induction cnt as [|c IH]; intros ig σ old Hn Hc Hold; [lia|].
  cbn [pair_entries]. unfold mbind at 1, IO_bind at 1.
  rewrite (pair_entry_spec _ _ _ old) by (done || lia).
  destruct (decide (c = 0)) as [->|Hc'].
  - rewrite decide_False by lia. cbn [pair_entries seq fmap list_fmap cat_all].
    by rewrite string_app_nil_r.
  - rewrite decide_True by lia.
    rewrite (IH (S ig) _ (old +:+ pair_line ig)); [|lia|lia|by rewrite lookup_insert_eq].
    rewrite insert_insert_eq. cbn [seq fmap list_fmap cat_all].
    by rewrite string_app_assoc.
Qed.

(** The five pages leave the data file alone. *)
Lemma pages_keep_data_file htmlFileName file (σ : fs) :
  data_file_path htmlFileName = inr file →
  ((generateHTML htmlFileName file "UI/Template.html" None [] 0;;
    generateHTML htmlFileName file "UI/sheet-template.html"
      (Some ("sheet-" +:+ htmlFileName)) [] 0;;
    generateHTML htmlFileName file "UI/siteSpecific-template.html"
      (Some ("siteSpecific-" +:+ htmlFileName)) selectedBranchPairs num;;
    generateHTML htmlFileName file "UI/rateVsDiversity-template.html"
      (Some ("rateVsDiversity-" +:+ htmlFileName)) [] 0;;
    generateHTML htmlFileName file "UI/rateVsProbConvergence-template.html"
      (Some ("rateVsProbConvergence-" +:+ htmlFileName)) selectedBranchPairs num) σ).2
    !! file
  = σ !! file.
Proof.
  intros Hfile. pose proof (output_paths_distinct _ _ Hfile) as Hnd.
  apply NoDup_cons in Hnd as [Hnotin _].
  assert (Hpage : ∀ templateFile moreFile sel' num',
            html_path htmlFileName moreFile
              ∈ [html_path htmlFileName None;
                 html_path htmlFileName (Some ("sheet-" +:+ htmlFileName));
                 html_path htmlFileName (Some ("siteSpecific-" +:+ htmlFileName));
                 html_path htmlFileName (Some ("rateVsDiversity-" +:+ htmlFileName));
                 html_path htmlFileName
                   (Some ("rateVsProbConvergence-" +:+ htmlFileName))] →
            writes_only (λ p, p ≠ file)
              (generateHTML htmlFileName file templateFile moreFile sel' num')).
  { intros templateFile moreFile sel' num' Hin.
    eapply writes_only_weaken; [|apply writes_only_generateHTML].
    intros p -> E. rewrite E in Hin. done. }
  match goal with |- (?m σ).2 !! file = _ =>
    assert (Hw : writes_only (λ p, p ≠ file) m)
  end.
  { repeat match goal with
           | |- writes_only _ (mbind _ _) => apply writes_only_bind; [|intros ?]
           | |- writes_only _ (generateHTML _ _ _ _ _ _) =>
               apply Hpage; repeat (apply list_elem_of_here || apply list_elem_of_further)
           end. }
  apply Hw. by intros ?.
Qed.

Lemma summary_then_pages htmlFileName file (t1 t2 t3 old : string) (σ : fs) :
  data_file_path htmlFileName = inr file →
  σ !! file = Some old →
  ((fprintf file t1;; fprintf file t2;; fprintf file t3;;
    generateHTML htmlFileName file "UI/Template.html" None [] 0;;
    generateHTML htmlFileName file "UI/sheet-template.html"
      (Some ("sheet-" +:+ htmlFileName)) [] 0;;
    generateHTML htmlFileName file "UI/siteSpecific-template.html"
      (Some ("siteSpecific-" +:+ htmlFileName)) selectedBranchPairs num;;
    generateHTML htmlFileName file "UI/rateVsDiversity-template.html"
      (Some ("rateVsDiversity-" +:+ htmlFileName)) [] 0;;
    generateHTML htmlFileName file "UI/rateVsProbConvergence-template.html"
      (Some ("rateVsProbConvergence-" +:+ htmlFileName)) selectedBranchPairs num) σ).2
    !! file
  = Some (old +:+ t1 +:+ t2 +:+ t3).
Proof.
  intros Hfile Hold.
  do 3 (unfold mbind at 1, IO_bind at 1, fprintf at 1; cbn [fst snd]).
  rewrite pages_keep_data_file by done.
  rewrite Hold. cbn [default from_option id].
  rewrite !lookup_insert_eq. cbn [default from_option id].
  by rewrite !string_app_assoc.
Qed.

(** What [outputDataInJS] has written to the data file when it returns or
    stops. *)
Lemma data_file_written htmlFileName file preamble (σ : fs) :
  data_file_path htmlFileName = inr file →
  (outputDataInJS fmt_6f htmlFileName preamble siteSpecificMap selectedBranchPairs
     num lst σ).2 !! file
  = Some (data_file_text fmt_6f siteSpecificMap selectedBranchPairs lst preamble num).
Proof using lst_pos in_map in_sel.
  intros Hfile. unfold outputDataInJS. rewrite Hfile, lift_bind.
  unfold mbind at 1, IO_bind at 1, fopen_w at 1.
  unfold mbind at 1, IO_bind at 1, fprintf at 1.
  rewrite lookup_insert_eq, insert_insert_eq. cbn [default from_option id].
  change (EmptyString +:+ preamble) with preamble.
  unfold mbind at 1, IO_bind at 1. unfold data_file_text.
  destruct (decide (num = 0)) as [Hz|Hnum].
  - assert (Hpe : ∀ s σ',
              pair_entries fmt_6f file siteSpecificMap selectedBranchPairs num lst 0 num
                s σ' = (inr s, σ')) by (by rewrite Hz).
    assert (Hseq : seq 0 num = []) by (by rewrite Hz).
    rewrite Hpe, Hseq. cbn [fmap list_fmap cat_all array_text].
    rewrite (summary_then_pages _ _ _ _ _ preamble) by (done || by rewrite lookup_insert_eq).
    done.
  - change ("[ ", "[ ", "[ ") with (summary_at 0).
    rewrite (pair_entries_spec _ _ _ _ preamble) by (lia || by rewrite lookup_insert_eq).
    rewrite insert_insert_eq. unfold summary_end.
    rewrite (summary_then_pages _ _ _ _ _
               (preamble +:+ cat_all (pair_line <$> seq 0 num)))
      by (done || by rewrite lookup_insert_eq).
    rewrite !string_app_assoc.
    rewrite (array_text_nonempty ((λ ig, dq +:+ pair_id ig +:+ dq) <$> seq 0 num)); [done|].
    intros E. apply (f_equal length) in E. rewrite length_fmap, length_seq in E. done.
Qed.







End DataFileFacts.

Lemma lacks_nil (c : ascii) : lacks c EmptyString.
Proof. intros i. by destruct i. Qed.

(** ** The properties *)

(** X16.  The data file is named after the page name up to its first dot:
    [UI/User/<stem>Data.js]; for a page name without a dot, [strchr]
    returns NULL and the pointer difference of line 269 is a fault. *)
Theorem data_file_named_after_stem (stem rest : string) :
  lacks "." stem →
  data_file_path (stem +:+ "." +:+ rest) = inr ("UI/User/" +:+ stem +:+ "Data.js")
  ∧ data_file_path stem = inl (NullPointer "strchr(com.htmlFileName, .)").
Proof.
  intros H. split; [by apply data_file_path_stem | by apply data_file_path_no_dot].
Qed.

Lemma data_file_named_after_stem_witness :
  data_file_path ("my" +:+ "." +:+ "results.html") = inr ("UI/User/" +:+ "my" +:+ "Data.js")
  ∧ data_file_path "my" = inl (NullPointer "strchr(com.htmlFileName, .)").
Proof.
  apply (data_file_named_after_stem "my" "results.html").
  apply lacks_cons. split; [discriminate|].
  apply lacks_cons. split; [discriminate|]. apply lacks_nil.
Defined.

(** X17.  On a template line that holds [@dataTag] and no other marker, the page
    gets the line and then a script element whose source is the data file,
    named relative to [UI/User/]. *)
Theorem page_references_data_file
    htmlFileName file sel num newHTML line (σ : fs) :
  data_file_path htmlFileName = inr file →
  is_Some (strstr line "@dataTag") →
  strstr line "@tableAndPlot" = None → strstr line "@rateVsDivPlot" = None →
  strstr line "@plot" = None →
  ∃ name, file = "UI/User/" +:+ name
    ∧ html_line file sel num newHTML line σ
      = (inr (), <[newHTML := default EmptyString (σ !! newHTML)
                                +:+ line +:+ script_text name]> σ).
Proof. apply html_line_data_tag. Qed.

Lemma page_references_data_file_witness :
  ∃ name, "UI/User/indexData.js" = "UI/User/" +:+ name
    ∧ html_line "UI/User/indexData.js" [] 0 "UI/User/index.html"
        "<!-- @dataTag -->" earlier_run
      = (inr (), <["UI/User/index.html" :=
                     default EmptyString (earlier_run !! "UI/User/index.html")
                     +:+ "<!-- @dataTag -->" +:+ script_text name]> earlier_run).
Proof.
  apply (page_references_data_file "index.html" "UI/User/indexData.js" [] 0
           "UI/User/index.html" "<!-- @dataTag -->" earlier_run);
    [reflexivity | by eexists | reflexivity | reflexivity | reflexivity].
Defined.

(** X18.  A template without [@] is copied to the page as it is, whatever the
    length of its lines, and replaces what the page held. *)
Theorem plain_template_is_copied
    htmlFileName file templateFile moreFile sel num (σ : fs) (text : string) :
  σ !! templateFile = Some text →
  lacks "@" text →
  templateFile ≠ html_path htmlFileName moreFile →
  generateHTML htmlFileName file templateFile moreFile sel num σ
  = (inr (), <[html_path htmlFileName moreFile := text]> σ).
Proof. apply generateHTML_plain. Qed.

Lemma plain_template_is_copied_witness :
  generateHTML "index.html" "UI/User/indexData.js" "UI/Template.html" None [] 0
    {[ "UI/Template.html" := "ab" ]}
  = (inr (), <[html_path "index.html" None := "ab"]> {[ "UI/Template.html" := "ab" ]}).
Proof.
  apply (plain_template_is_copied "index.html" "UI/User/indexData.js" "UI/Template.html"
           None [] 0 {[ "UI/Template.html" := "ab" ]} "ab");
    [reflexivity | | discriminate].
  apply lacks_cons. split; [discriminate|].
  apply lacks_cons. split; [discriminate|]. apply lacks_nil.
Defined.

(** X19.  The six artifacts of a run are six different files: no page replaces
    the data file or another page. *)
Theorem output_files_are_distinct (htmlFileName file : string) :
  data_file_path htmlFileName = inr file → NoDup (output_paths htmlFileName file).
Proof. apply output_paths_distinct. Qed.

Lemma output_files_are_distinct_witness :
  NoDup (output_paths "index.html" "UI/User/indexData.js").
Proof. apply (output_files_are_distinct "index.html" "UI/User/indexData.js"). reflexivity. Defined.

End PagesFacts.

(** * Facts about the sized buffers of the emitter *)

Module BuffersFacts.
Import Regression Emit Pages RegressionFacts EmitFacts PagesFacts Buffers.

Lemma store_fits name cap text :
  String.length text < cap → store name cap text = inr text.
Proof. intros H. unfold store. by rewrite decide_True. Qed.

Lemma store_overflow name cap text :
  cap ≤ String.length text → store name cap text = inl (OutOfBounds name (Z.of_nat cap) cap).
Proof. intros H. unfold store. rewrite decide_False; [done | lia]. Qed.

Lemma strcat_fits name cap dest src :
  String.length (dest +:+ src) < cap → strcat name cap dest src = inr (dest +:+ src).
Proof. apply store_fits. Qed.

Lemma makeupDataOutput_fits (data type : string) :
  Buffers.makeupDataOutput data type = inr (Emit.makeupDataOutput data type).
Proof.
  unfold Buffers.makeupDataOutput, Emit.makeupDataOutput, strcpy.
  rewrite store_fits by lia. cbn [mbind M_bind].
  rewrite strcat_fits by (rewrite string_app_length; simpl; lia). cbn [mbind M_bind].
  rewrite strcat_fits by (rewrite !string_app_length; simpl; lia).
  reflexivity.
Qed.

Lemma html_path_fits (htmlFileName : string) (moreFile : option string) :
  Buffers.html_path htmlFileName moreFile = inr (Emit.html_path htmlFileName moreFile).
Proof.
  unfold Buffers.html_path, Emit.html_path, strcpy, poke.
  destruct moreFile as [more|].
  - rewrite store_fits by (simpl; lia). cbn [mbind M_bind].
    rewrite strcat_fits by (rewrite string_app_length; simpl; lia). cbn [mbind M_bind].
    by rewrite decide_True by lia.
  - rewrite store_fits by (simpl; lia). cbn [mbind M_bind].
    rewrite strcat_fits by (rewrite string_app_length; simpl; lia). cbn [mbind M_bind].
    by rewrite decide_True by lia.
Qed.

Lemma page_name_fits buffer extra lead htmlFileName :
  extra = S (String.length lead) →
  page_name buffer extra lead htmlFileName = inr (lead +:+ htmlFileName).
Proof.
  intros ->. unfold page_name, poke, strcpy.
  rewrite decide_True by lia. cbn [mbind M_bind].
  rewrite store_fits by lia. cbn [mbind M_bind].
  apply strcat_fits. rewrite string_app_length. lia.
Qed.

Lemma index_dot_length (name : string) (pos : nat) :
  String.index 0 "." name = Some pos →
  String.length (String.substring 0 pos name) = pos.
Proof.
  revert pos. induction name as [|d name IH]; intros pos; [done|].
  cbn [String.index].
  destruct (String.prefix "." (String d name)) eqn:Hp.
  - by intros [= <-].
  - destruct (String.index 0 "." name) as [p|] eqn:Hi; [|done].
    intros [= <-]. simpl. by rewrite IH.
Qed.

Lemma file_name_fits (htmlFileName : string) :
  file_name htmlFileName = data_file_path htmlFileName.
Proof.
  unfold file_name, data_file_path.
  destruct (String.index 0 "." htmlFileName) as [pos|] eqn:Hi; [|done].
  pose proof (index_dot_length _ _ Hi) as Hl.
  rewrite (store_fits "temp") by (rewrite Hl; lia). cbn [mbind M_bind]. unfold strcpy.
  rewrite store_fits by (simpl; lia). cbn [mbind M_bind].
  rewrite strcat_fits by (rewrite string_app_length, Hl; simpl; lia). cbn [mbind M_bind].
  rewrite strcat_fits by (rewrite !string_app_length, Hl; simpl; lia).
  cbn [mret M_ret]. by rewrite string_app_assoc.
Qed.

(** ** An array built item by item *)

Lemma prefix_text_S (items : list string) (k : nat) (a : string) :
  items !! k = Some a →
  prefix_text items (S k) = prefix_text items k +:+ a +:+ ", ".
Proof.
  intros H. unfold prefix_text.
  rewrite (take_S_r _ _ _ H), fmap_app, cat_all_app. cbn [fmap list_fmap cat_all].
  by rewrite string_app_nil_r, !string_app_assoc.
Qed.

Lemma prefix_text_last (items : list string) (k : nat) (a : string) :
  items !! k = Some a → S k = length items →
  array_text items = prefix_text items k +:+ a +:+ " ]".
Proof.
  intros H Hk.
  assert (E : items = take k items ++ [a]).
  { rewrite <- (take_S_r _ _ _ H), Hk. by rewrite firstn_all. }
  rewrite array_text_nonempty by (intros ->; done).
  rewrite E at 1. rewrite items_text_snoc. unfold prefix_text.
  by rewrite !string_app_assoc.
Qed.

Lemma prefix_text_mono (items : list string) (k m : nat) :
  k ≤ m → String.length (prefix_text items k) ≤ String.length (prefix_text items m).
Proof.
  intros H. unfold prefix_text.
  rewrite <- (take_drop k (take m items)), take_take, Nat.min_l by done.
  rewrite fmap_app, cat_all_app, !string_app_length. lia.
Qed.

Lemma build_step name cap (items : list string) (k : nat) (a : string) :
  items !! k = Some a → S k < length items →
  String.length (array_text items) < cap →
  strcat name cap (prefix_text items k) (a +:+ ", ") = inr (prefix_text items (S k)).
Proof.
  intros H Hk Hfit.
  destruct (lookup_lt_is_Some_2 items (length items - 1)) as [z Hz]; [lia|].
  pose proof (prefix_text_last items (length items - 1) z Hz ltac:(lia)) as E.
  pose proof (prefix_text_mono items (S k) (length items - 1) ltac:(lia)) as Hm.
  rewrite E, !string_app_length in Hfit.
  rewrite (prefix_text_S _ _ _ H) in *.
  apply strcat_fits. lia.
Qed.

Lemma build_last name cap (items : list string) (k : nat) (a : string) :
  items !! k = Some a → S k = length items →
  String.length (array_text items) < cap →
  strcat name cap (prefix_text items k) a = inr (prefix_text items k +:+ a)
  ∧ strcat name cap (prefix_text items k +:+ a) " ]" = inr (array_text items).
Proof.
  intros H Hk Hfit. rewrite (prefix_text_last _ _ _ H Hk) in *.
  rewrite !string_app_length in Hfit.
  split.
  - apply strcat_fits. rewrite string_app_length. lia.
  - unfold strcat. rewrite string_app_assoc. apply store_fits.
    rewrite !string_app_length. lia.
Qed.

Section ScatterFacts.
Variable fmt_f : double → string.
Variable father : list Z.
Variables node1 node2 : list Z.
Variables pDivergent pAllConvergent : list Qc.
Variables numBranchPairs lst : nat.
Variable postNumSub : list Qc.
Variable siteClass : list Z.

#[local] Abbreviation scatter_arrays :=
  (scatter_arrays fmt_f father node1 node2 pDivergent pAllConvergent numBranchPairs lst
     postNumSub siteClass).
#[local] Abbreviation x_items := (x_items fmt_f pDivergent numBranchPairs).
#[local] Abbreviation y_items := (y_items fmt_f pAllConvergent numBranchPairs).
#[local] Abbreviation label_items := (label_items father node1 node2 numBranchPairs).
#[local] Abbreviation rate_items := (rate_items fmt_f lst postNumSub).
#[local] Abbreviation class_items := (class_items lst siteClass).

(** Without a pair the first [strcpy] has no room; with pairs and without a
    site the fourth has none. *)
Lemma scatter_arrays_empty :
  numBranchPairs = 0 ∨ lst = 0 →
  scatter_arrays
  = inl (OutOfBounds (if decide (numBranchPairs = 0) then "xPoints" else "xPostNumSub")
           0 0).
Proof.
  intros H. unfold Buffers.scatter_arrays, strcpy.
  destruct (decide (numBranchPairs = 0)) as [Hn|Hn].
  - rewrite Hn. reflexivity.
  - destruct H as [H|H]; [done|].
    rewrite !(store_fits _ (numBranchPairs * _)) by (simpl; lia).
    cbn [mbind M_bind]. rewrite H. reflexivity.
Qed.

Section Fits.
Hypothesis in_bounds :
  scatter_in_bounds father node1 node2 pDivergent pAllConvergent numBranchPairs lst
    postNumSub siteClass.
Hypothesis fits :
  scatter_fits fmt_f father node1 node2 pDivergent pAllConvergent numBranchPairs lst
    postNumSub siteClass.

Lemma pairs_pos : 1 ≤ numBranchPairs.
Proof using fits. destruct fits as (H & _). lia. Qed.

Lemma sites_pos : 1 ≤ lst.
Proof using fits. destruct fits as (_ & _ & _ & H & _). lia. Qed.

Lemma x_items_lookup ig :
  ig < numBranchPairs →
  ∃ d, pDivergent !! ig = Some d ∧ x_items !! ig = Some (fmt_f (Fin d)).
Proof using in_bounds.
  intros Hig. destruct in_bounds as (H & _).
  destruct (lookup_lt_is_Some_2 pDivergent ig) as [d Hd]; [lia|].
  exists d. split; [done|]. unfold Buffers.x_items.
  by rewrite list_lookup_fmap, lookup_take_lt, Hd.
Qed.

Lemma y_items_lookup ig :
  ig < numBranchPairs →
  ∃ c, pAllConvergent !! ig = Some c ∧ y_items !! ig = Some (fmt_f (Fin c)).
Proof using in_bounds.
  intros Hig. destruct in_bounds as (_ & H & _).
  destruct (lookup_lt_is_Some_2 pAllConvergent ig) as [d Hd]; [lia|].
  exists d. split; [done|]. unfold Buffers.y_items.
  by rewrite list_lookup_fmap, lookup_take_lt, Hd.
Qed.

Lemma rate_items_lookup h :
  h < lst →
  ∃ p, postNumSub !! h = Some p ∧ rate_items !! h = Some (fmt_f (Fin p)).
Proof using in_bounds.
  intros Hh. destruct in_bounds as (_ & _ & _ & _ & _ & H & _).
  destruct (lookup_lt_is_Some_2 postNumSub h) as [d Hd]; [lia|].
  exists d. split; [done|]. unfold Buffers.rate_items.
  by rewrite list_lookup_fmap, lookup_take_lt, Hd.
Qed.

Lemma class_items_lookup h :
  h < lst →
  ∃ c, siteClass !! h = Some c ∧ class_items !! h = Some (fmt_d c).
Proof using in_bounds.
  intros Hh. destruct in_bounds as (_ & _ & _ & _ & _ & _ & H).
  destruct (lookup_lt_is_Some_2 siteClass h) as [d Hd]; [lia|].
  exists d. split; [done|]. unfold Buffers.class_items.
  by rewrite list_lookup_fmap, lookup_take_lt, Hd.
Qed.

Lemma father_read (n : Z) :
  (0 ≤ n < Z.of_nat (length father))%Z →
  read_at "nodes" father n = inr (father_of father n).
Proof.
  intros Hn. unfold read_at, father_of. rewrite decide_True by lia.
  destruct (lookup_lt_is_Some_2 father (Z.to_nat n)) as [f Hf]; [lia|].
  by rewrite (read_Some _ _ _ _ Hf), Hf.
Qed.

Lemma label_spec ig :
  ig < numBranchPairs →
  label father node1 node2 ig = inr (label_text father node1 node2 ig)
  ∧ label_items !! ig = Some (label_text father node1 node2 ig).
Proof using in_bounds.
  intros Hig. destruct in_bounds as (_ & _ & H1 & H2 & Hn & _).
  destruct (lookup_lt_is_Some_2 node1 ig) as [n1 E1]; [lia|].
  destruct (lookup_lt_is_Some_2 node2 ig) as [n2 E2]; [lia|].
  split.
  - unfold label, label_text.
    rewrite (read_Some _ _ _ _ E1). cbn [mbind M_bind].
    rewrite father_read by (apply (Hn ig); auto). cbn [mbind M_bind].
    rewrite (read_Some _ _ _ _ E2). cbn [mbind M_bind].
    rewrite father_read by (apply (Hn ig); auto). cbn [mbind M_bind].
    by rewrite E1, E2.
  - unfold Buffers.label_items. rewrite list_lookup_fmap, lookup_seq_lt by done.
    reflexivity.
Qed.

Lemma x_items_length : length x_items = numBranchPairs.
Proof using in_bounds.
  destruct in_bounds as (H & _). unfold Buffers.x_items.
  rewrite length_fmap, length_take. lia.
Qed.

Lemma y_items_length : length y_items = numBranchPairs.
Proof using in_bounds.
  destruct in_bounds as (_ & H & _). unfold Buffers.y_items.
  rewrite length_fmap, length_take. lia.
Qed.

Lemma label_items_length : length label_items = numBranchPairs.
Proof. unfold Buffers.label_items. by rewrite length_fmap, length_seq. Qed.

Lemma rate_items_length : length rate_items = lst.
Proof using in_bounds.
  destruct in_bounds as (_ & _ & _ & _ & _ & H & _). unfold Buffers.rate_items.
  rewrite length_fmap, length_take. lia.
Qed.

Lemma class_items_length : length class_items = lst.
Proof using in_bounds.
  destruct in_bounds as (_ & _ & _ & _ & _ & _ & H). unfold Buffers.class_items.
  rewrite length_fmap, length_take. lia.
Qed.

Lemma scatter_arrays_spec :
  scatter_arrays
  = inr (array_text x_items, array_text y_items, array_text label_items,
         array_text rate_items, array_text class_items).
Proof using in_bounds fits.
  pose proof pairs_pos as Hn. pose proof sites_pos as Hl.
  destruct fits as (Fx & Fy & Fl & Fr & Fc).
  pose proof x_items_length as Lx. pose proof y_items_length as Ly.
  pose proof label_items_length as Ll. pose proof rate_items_length as Lr.
  pose proof class_items_length as Lc.
  unfold Buffers.scatter_arrays, strcpy.
  rewrite !store_fits by (simpl; lia). cbn [mbind M_bind].
  (* the pairs before the last *)
  loop_with (λ (ig : nat) (st : string * string * string),
               st = (prefix_text x_items ig, prefix_text y_items ig,
                     prefix_text label_items ig)) st E Hst.
  { reflexivity. }
  { intros ig s Hig ->. unfold pair_point.
    destruct (x_items_lookup ig) as (d & Hd & Ex); [lia|].
    destruct (y_items_lookup ig) as (c & Hc & Ey); [lia|].
    destruct (label_spec ig) as (El & Ei); [lia|].
    rewrite (read_Some _ _ _ _ Hd). cbn [mbind M_bind].
    rewrite (build_step _ _ _ _ _ Ex) by (done || lia). cbn [mbind M_bind].
    rewrite (read_Some _ _ _ _ Hc). cbn [mbind M_bind].
    rewrite (build_step _ _ _ _ _ Ey) by (done || lia). cbn [mbind M_bind].
    rewrite El. cbn [mbind M_bind].
    rewrite (build_step _ _ _ _ _ Ei) by (done || lia). cbn [mbind M_bind].
    by eexists. }
  subst st. cbn [Nat.add].
  (* the last pair *)
  unfold pair_point.
  destruct (x_items_lookup (numBranchPairs - 1)) as (d & Hd & Ex); [lia|].
  destruct (y_items_lookup (numBranchPairs - 1)) as (c & Hc & Ey); [lia|].
  destruct (label_spec (numBranchPairs - 1)) as (El & Ei); [lia|].
  destruct (build_last "xPoints" (numBranchPairs * 20) _ _ _ Ex) as (X1 & X2);
    [lia | done |].
  destruct (build_last "yPoints" (numBranchPairs * 20) _ _ _ Ey) as (Y1 & Y2);
    [lia | done |].
  destruct (build_last "labels" (numBranchPairs * 25) _ _ _ Ei) as (L1 & L2);
    [lia | done |].
  rewrite (read_Some _ _ _ _ Hd). cbn [mbind M_bind].
  rewrite string_app_nil_r, X1. cbn [mbind M_bind].
  rewrite (read_Some _ _ _ _ Hc). cbn [mbind M_bind].
  rewrite string_app_nil_r, Y1. cbn [mbind M_bind].
  rewrite El. cbn [mbind M_bind].
  rewrite string_app_nil_r, L1. cbn [mbind M_bind mret M_ret].
  rewrite X2. cbn [mbind M_bind]. rewrite Y2. cbn [mbind M_bind].
  rewrite L2. cbn [mbind M_bind].
  (* the sites before the last *)
  loop_with (λ (h : nat) (st : string * string),
               st = (prefix_text rate_items h, prefix_text class_items h)) st E Hst.
  { reflexivity. }
  { intros h s Hh ->. unfold site_point.
    destruct (rate_items_lookup h) as (p & Hp & Er); [lia|].
    destruct (class_items_lookup h) as (k & Hk & Ec); [lia|].
    rewrite (read_Some _ _ _ _ Hp). cbn [mbind M_bind].
    rewrite (build_step _ _ _ _ _ Er) by (done || lia). cbn [mbind M_bind].
    rewrite (read_Some _ _ _ _ Hk). cbn [mbind M_bind].
    rewrite (build_step _ _ _ _ _ Ec) by (done || lia). cbn [mbind M_bind].
    by eexists. }
  subst st. cbn [Nat.add].
  destruct (rate_items_lookup (lst - 1)) as (p & Hp & Er); [lia|].
  destruct (class_items_lookup (lst - 1)) as (k & Hk & Ec); [lia|].
  destruct (build_last "xPostNumSub" (lst * 20) _ _ _ Er) as (R1 & R2); [lia | done |].
  destruct (build_last "ySiteClass" (lst * 20) _ _ _ Ec) as (C1 & C2); [lia | done |].
  replace (Z.of_nat lst - 1)%Z with (Z.of_nat (lst - 1)) by lia.
  rewrite (read_at_nat _ _ _ _ Hp). cbn [mbind M_bind].
  rewrite R1. cbn [mbind M_bind].
  rewrite (read_at_nat _ _ _ _ Hk). cbn [mbind M_bind].
  rewrite C1. cbn [mbind M_bind].
  rewrite R2. cbn [mbind M_bind]. rewrite C2. reflexivity.
Qed.

End Fits.
End ScatterFacts.

(** ** The buffers of lines 342-398 *)

Lemma for_refine {St} (len : St → nat) (cap : nat) (body body' : nat → St → M St) :
  (∀ i s r, body i s = inr r → len s ≤ len r) →
  (∀ i s r, body i s = inr r → len r < cap → body' i s = inr r) →
  ∀ cnt lo s sf,
    for_ lo cnt body s = inr sf → len sf < cap →
    for_ lo cnt body' s = inr sf ∧ len s ≤ len sf.
Proof.
  intros Hgrow Hsame. induction cnt as [|c IH]; intros lo s sf H Hfit.
  - simpl in *. injection H as <-. done.
  - cbn [for_] in *. destruct (body lo s) as [e|s1] eqn:E1; [done|].
    cbn [mbind M_bind] in H. destruct (IH _ _ _ H Hfit) as [H' Hle].
    rewrite (Hsame _ _ _ E1) by lia. cbn [mbind M_bind].
    split; [done|]. pose proof (Hgrow _ _ _ E1). lia.
Qed.

Lemma build_end name cap (items : list string) (k : nat) (a : string) :
  items !! k = Some a → S k = length items →
  String.length (array_text items) < cap →
  strcat name cap (prefix_text items k) (a +:+ " ]") = inr (array_text items).
Proof.
  intros H Hk Hfit. rewrite (prefix_text_last _ _ _ H Hk) in *.
  by apply strcat_fits.
Qed.

Lemma prefix_text_seq (f : nat → string) (num k : nat) :
  k ≤ num →
  prefix_text (f <$> seq 0 num) k = "[ " +:+ cat_all ((λ i, f i +:+ ", ") <$> seq 0 k).
Proof.
  intros H. unfold prefix_text.
  rewrite <- fmap_take, take_seq, Nat.min_l by done.
  by rewrite <- list_fmap_compose.
Qed.

Section PairFacts.
Variable fmt_f : double → string.
Variable siteSpecificMap : list Qc.
Variable selectedBranchPairs : list Z.
Variables num lst : nat.
Hypothesis lst_pos : 1 ≤ lst.
Hypothesis in_map : num * lst * 2 ≤ length siteSpecificMap.
Hypothesis in_sel : num * 3 ≤ length selectedBranchPairs.
Hypothesis fit : pairs_fit fmt_f siteSpecificMap selectedBranchPairs num lst.

#[local] Abbreviation fmt_6f := (fmt_6f fmt_f).
#[local] Abbreviation pair_id := (pair_id selectedBranchPairs).
#[local] Abbreviation pair_name := (pair_name selectedBranchPairs).
#[local] Abbreviation pair_line := (pair_line fmt_6f siteSpecificMap selectedBranchPairs lst).
#[local] Abbreviation summary_at := (summary_at selectedBranchPairs).
#[local] Abbreviation summary_end := (summary_end selectedBranchPairs num).

Lemma site_entry_refines ig h tail bp r :
  Emit.site_entry fmt_6f siteSpecificMap lst ig h tail bp = inr r →
  String.length bp ≤ String.length r
  ∧ (String.length r < lst * 30 →
     Buffers.site_entry fmt_f siteSpecificMap lst ig h tail bp = inr r).
Proof.
  unfold Emit.site_entry, Buffers.site_entry.
  destruct (read "siteSpecificMap" siteSpecificMap (ig * lst * 2 + h * 2))
    as [e|conv]; [done|].
  cbn [mbind M_bind].
  destruct (decide (conv ≠ 0%Qc)) as [Hc|Hc]; cbn [mbind M_bind mret M_ret].
  - destruct (read "siteSpecificMap" siteSpecificMap (ig * lst * 2 + h * 2 + 1))
      as [e|div]; [done|].
    cbn [mbind M_bind]. intros [= <-]. split.
    + rewrite string_app_length. lia.
    + apply strcat_fits.
  - destruct (read "siteSpecificMap" siteSpecificMap (ig * lst * 2 + h * 2 + 1))
      as [e|div]; [done|].
    cbn [mbind M_bind]. destruct (bool_decide (div ≠ 0%Qc)).
    + intros [= <-]. split.
      * rewrite string_app_length. lia.
      * apply strcat_fits.
    + intros [= <-]. done.
Qed.

Lemma siteSpecificBP_fits ig :
  ig < num →
  Buffers.siteSpecificBP fmt_f siteSpecificMap lst ig
  = inr (site_array_text fmt_f siteSpecificMap lst ig).
Proof using lst_pos in_map in_sel fit.
  intros Hig. destruct fit as (Hall & _). destruct (Hall ig Hig) as (Hfit & _).
  pose proof (siteSpecificBP_spec fmt_6f siteSpecificMap lst ig ltac:(nia) lst_pos) as E.
  fold (site_array_text fmt_f siteSpecificMap lst ig) in E.
  revert E Hfit. generalize (site_array_text fmt_f siteSpecificMap lst ig). intros r.
  unfold Emit.siteSpecificBP, Buffers.siteSpecificBP. cbn zeta.
  destruct (for_ 0 (lst - 1) _ "[ ") as [e|s1] eqn:E1; [done|]. cbn [mbind M_bind].
  destruct (Emit.site_entry _ _ _ _ _ _ s1) as [e|s2] eqn:E2; [done|].
  cbn [mbind M_bind mret M_ret]. intros [= <-] Hfit.
  rewrite string_app_length in Hfit. cbn [String.length] in Hfit.
  destruct (site_entry_refines _ _ _ _ _ E2) as [Hle2 Hs2].
  destruct (for_refine String.length (lst * 30)
              (λ h bp, Emit.site_entry fmt_6f siteSpecificMap lst ig h ", " bp)
              (λ h bp, Buffers.site_entry fmt_f siteSpecificMap lst ig h ", " bp))
    with (cnt := lst - 1) (lo := 0) (s := "[ ") (sf := s1) as [E1' Hle1].
  { intros i s r Hr. by destruct (site_entry_refines _ _ _ _ _ Hr). }
  { intros i s r Hr. by destruct (site_entry_refines _ _ _ _ _ Hr). }
  { done. }
  { lia. }
  unfold strcpy. rewrite store_fits by lia.
  cbn [mbind M_bind]. rewrite E1'. cbn [mbind M_bind].
  rewrite Hs2 by lia. cbn [mbind M_bind].
  apply strcat_fits. rewrite string_app_length. cbn [String.length]. lia.
Qed.

Lemma id_items_lookup ig :
  ig < num → (pair_id <$> seq 0 num) !! ig = Some (pair_id ig).
Proof. intros H. by rewrite list_lookup_fmap, lookup_seq_lt. Qed.

Lemma name_items_lookup ig :
  ig < num → (pair_name <$> seq 0 num) !! ig = Some (pair_name ig).
Proof. intros H. by rewrite list_lookup_fmap, lookup_seq_lt. Qed.

Lemma quoted_items_lookup ig :
  ig < num →
  ((λ i, dq +:+ pair_id i +:+ dq) <$> seq 0 num) !! ig = Some (dq +:+ pair_id ig +:+ dq).
Proof. intros H. by rewrite list_lookup_fmap, lookup_seq_lt. Qed.

Lemma summary_at_prefix ig :
  ig ≤ num →
  summary_at ig
  = (prefix_text (pair_id <$> seq 0 num) ig, prefix_text (pair_name <$> seq 0 num) ig,
     prefix_text ((λ i, dq +:+ pair_id i +:+ dq) <$> seq 0 num) ig).
Proof. intros H. unfold Pages.summary_at. by rewrite !prefix_text_seq. Qed.

Lemma pair_entry_fits dataFile ig (σ : fs) (old : string) :
  ig < num → σ !! dataFile = Some old →
  Buffers.pair_entry fmt_f dataFile siteSpecificMap selectedBranchPairs num lst ig
    (summary_at ig) σ
  = (inr (if decide (ig < num - 1) then summary_at (S ig) else summary_end),
     <[dataFile := old +:+ pair_line ig]> σ).
Proof using lst_pos in_map in_sel fit.
  intros Hig Hold. pose proof fit as (Hall & Fa & Fb & Fc).
  destruct (Hall ig Hig) as (_ & Fid & Fname).
  rewrite summary_at_prefix by lia. unfold Buffers.pair_entry. cbn zeta iota beta.
  rewrite siteSpecificBP_fits by done. rewrite lift_bind.
  destruct (lookup_lt_is_Some_2 selectedBranchPairs (ig * 3)) as [b1 H1]; [lia|].
  destruct (lookup_lt_is_Some_2 selectedBranchPairs (ig * 3 + 1)) as [b2 H2]; [lia|].
  rewrite (read_Some _ _ _ _ H1), lift_bind, (read_Some _ _ _ _ H2), lift_bind.
  assert (Eid : "BP_" +:+ fmt_d b1 +:+ "x" +:+ fmt_d b2 = pair_id ig).
  { unfold Pages.pair_id, b1_of, b2_of. by rewrite H1, H2. }
  assert (Ename : dq +:+ "Branch Pair: " +:+ fmt_d b1 +:+ ".." +:+ fmt_d b2 +:+ dq
                  = pair_name ig).
  { unfold Pages.pair_name, b1_of, b2_of. by rewrite H1, H2. }
  rewrite Eid, Ename. unfold strcpy.
  rewrite !store_fits by done. rewrite !lift_bind.
  rewrite makeupDataOutput_fits, lift_bind.
  unfold mbind at 1, IO_bind at 1, fprintf at 1. cbn [fst snd].
  rewrite Hold. cbn [default from_option id].
  assert (Eline : Emit.makeupDataOutput (site_array_text fmt_f siteSpecificMap lst ig)
                    (pair_id ig) +:+ ";" +:+ nl = pair_line ig) by reflexivity.
  rewrite Eline.
  assert (Lid : length (pair_id <$> seq 0 num) = num)
    by (by rewrite length_fmap, length_seq).
  assert (Lname : length (pair_name <$> seq 0 num) = num)
    by (by rewrite length_fmap, length_seq).
  assert (Lq : length ((λ i, dq +:+ pair_id i +:+ dq) <$> seq 0 num) = num)
    by (by rewrite length_fmap, length_seq).
  assert (Eq3 : ∀ tail, dq +:+ pair_id ig +:+ dq +:+ tail
                        = (dq +:+ pair_id ig +:+ dq) +:+ tail).
  { intros tail. by rewrite !string_app_assoc. }
  rewrite Eq3.
  destruct (decide (ig < num - 1)) as [Hlt|Hlast].
  - rewrite (build_step _ _ _ _ _ (id_items_lookup ig Hig)) by lia. rewrite lift_bind.
    rewrite (build_step _ _ _ _ _ (name_items_lookup ig Hig)) by lia. rewrite lift_bind.
    rewrite (build_step _ _ _ _ _ (quoted_items_lookup ig Hig)) by lia. rewrite lift_bind.
    by rewrite summary_at_prefix by lia.
  - rewrite (build_end _ _ _ _ _ (id_items_lookup ig Hig)) by lia. rewrite lift_bind.
    rewrite (build_end _ _ _ _ _ (name_items_lookup ig Hig)) by lia. rewrite lift_bind.
    rewrite (build_end _ _ _ _ _ (quoted_items_lookup ig Hig)) by lia. rewrite lift_bind.
    unfold Pages.summary_end.
    rewrite (array_text_nonempty ((λ i, dq +:+ pair_id i +:+ dq) <$> seq 0 num)); [done|].
    intros E. apply (f_equal length) in E. rewrite Lq in E. simpl in E. lia.
Qed.

Lemma pair_entries_fits dataFile cnt ig (σ : fs) (old : string) :
  ig + cnt = num → 1 ≤ cnt → σ !! dataFile = Some old →
  Buffers.pair_entries fmt_f dataFile siteSpecificMap selectedBranchPairs num lst ig cnt
    (summary_at ig) σ
  = (inr summary_end, <[dataFile := old +:+ cat_all (pair_line <$> seq ig cnt)]> σ).
Proof using lst_pos in_map in_sel fit.
  revert ig σ old. induction cnt as [|c IH]; intros ig σ old Hn Hc Hold; [lia|].
  cbn [Buffers.pair_entries]. unfold mbind at 1, IO_bind at 1.
  rewrite (pair_entry_fits _ _ _ old) by (done || lia).
  destruct (decide (c = 0)) as [->|Hc'].
  - rewrite decide_False by lia. cbn [Buffers.pair_entries seq fmap list_fmap cat_all].
    by rewrite string_app_nil_r.
  - rewrite decide_True by lia.
    rewrite (IH (S ig) _ (old +:+ pair_line ig)); [|lia|lia|by rewrite lookup_insert_eq].
    rewrite insert_insert_eq. cbn [seq fmap list_fmap cat_all].
    by rewrite string_app_assoc.
Qed.

(** With buffers that are large enough the loop over the selected pairs does
    what it does with buffers of any length. *)
Lemma pair_entries_same dataFile (σ : fs) (old : string) :
  σ !! dataFile = Some old →
  Buffers.pair_entries fmt_f dataFile siteSpecificMap selectedBranchPairs num lst 0 num
    (summary_at 0) σ
  = Emit.pair_entries fmt_6f dataFile siteSpecificMap selectedBranchPairs num lst 0 num
      (summary_at 0) σ.
Proof using lst_pos in_map in_sel fit.
  intros Hold. destruct (decide (num = 0)) as [Hz|Hnum].
  - assert (E : ∀ n, n = 0 →
              Buffers.pair_entries fmt_f dataFile siteSpecificMap selectedBranchPairs
                num lst 0 n (summary_at 0) σ
              = Emit.pair_entries fmt_6f dataFile siteSpecificMap selectedBranchPairs
                  num lst 0 n (summary_at 0) σ) by (by intros n ->).
    by apply E.
  - rewrite (pair_entries_fits _ _ _ _ old) by (done || lia).
    by rewrite (pair_entries_spec fmt_6f siteSpecificMap selectedBranchPairs num lst
                  lst_pos in_map in_sel _ _ _ _ old) by (done || lia).
Qed.

End PairFacts.

Lemma generateHTML_same htmlFileName file templateFile moreFile sel num :
  Buffers.generateHTML htmlFileName file templateFile moreFile sel num
  = Emit.generateHTML htmlFileName file templateFile moreFile sel num.
Proof. unfold Buffers.generateHTML. by rewrite html_path_fits. Qed.

Lemma summary_start_fits (num : nat) :
  summary_start num
  = inr (if decide (num = 0) then ("[ ]", "[ ]", "[ ") else ("[ ", "[ ", "[ ")).
Proof.
  unfold summary_start, strcpy, strcat. cbn zeta.
  rewrite !store_fits by (simpl; lia). cbn [mbind M_bind].
  destruct (decide (num = 0)); [|done].
  rewrite !store_fits by (simpl; lia). done.
Qed.

(** ** All of [outputDataInJS] *)

Lemma fopen_w_bind {B} path (f : string → IO B) (σ : fs) :
  (fopen_w path ≫= f) σ = f path (<[path := EmptyString]> σ).
Proof. reflexivity. Qed.

Lemma fprintf_bind {B} stream text (f : unit → IO B) (σ : fs) :
  (fprintf stream text ≫= f) σ
  = f () (<[stream := default EmptyString (σ !! stream) +:+ text]> σ).
Proof. reflexivity. Qed.

Lemma IO_bind_ext {A B} (m : IO A) (f g : A → IO B) (σ : fs) :
  (∀ x σ', f x σ' = g x σ') → (m ≫= f) σ = (m ≫= g) σ.
Proof.
  intros H. unfold mbind, IO_bind. destruct (m σ) as [[e|x] σ']; [done|apply H].
Qed.

Lemma IO_bind_val {A B} (m : IO A) (f : A → IO B) (σ σ' : fs) (x : A) :
  m σ = (inr x, σ') → (m ≫= f) σ = f x σ'.
Proof. intros H. unfold mbind, IO_bind. by rewrite H. Qed.

Lemma IO_bind_head {A B} (m m' : IO A) (f : A → IO B) (σ : fs) :
  m σ = m' σ → (m ≫= f) σ = (m' ≫= f) σ.
Proof. intros H. unfold mbind, IO_bind. by rewrite H. Qed.

Lemma string_app_nil_l (s : string) : EmptyString +:+ s = s.
Proof. reflexivity. Qed.

Lemma IO_ret_bind {A B} (x : A) (f : A → IO B) : (mret x ≫= f) = f x.
Proof. reflexivity. Qed.

Section WholeFacts.
Variable fmt_f : double → string.
Variable outputTreeInJson : string.
Variable father : list Z.
Variable htmlFileName : string.
Variables node1 node2 : list Z.
Variables pDivergent pAllConvergent siteSpecificMap : list Qc.
Variable selectedBranchPairs : list Z.
Variables num numBranchPairs lst : nat.
Variable postNumSub : list Qc.
Variable siteClass : list Z.

#[local] Abbreviation whole :=
  (Buffers.outputDataInJS fmt_f outputTreeInJson father htmlFileName node1 node2
     pDivergent pAllConvergent siteSpecificMap selectedBranchPairs num numBranchPairs lst
     postNumSub siteClass).

Lemma pages_same file sheetFile siteSpecificFile rateVsDiversityFile
    rateVsProbConvergenceFile (σ : fs) :
  (Buffers.generateHTML htmlFileName file "UI/Template.html" None [] 0;;
   Buffers.generateHTML htmlFileName file "UI/sheet-template.html" (Some sheetFile) [] 0;;
   Buffers.generateHTML htmlFileName file "UI/siteSpecific-template.html"
     (Some siteSpecificFile) selectedBranchPairs num;;
   Buffers.generateHTML htmlFileName file "UI/rateVsDiversity-template.html"
     (Some rateVsDiversityFile) [] 0;;
   Buffers.generateHTML htmlFileName file "UI/rateVsProbConvergence-template.html"
     (Some rateVsProbConvergenceFile) selectedBranchPairs num) σ
  = (Emit.generateHTML htmlFileName file "UI/Template.html" None [] 0;;
     Emit.generateHTML htmlFileName file "UI/sheet-template.html" (Some sheetFile) [] 0;;
     Emit.generateHTML htmlFileName file "UI/siteSpecific-template.html"
       (Some siteSpecificFile) selectedBranchPairs num;;
     Emit.generateHTML htmlFileName file "UI/rateVsDiversity-template.html"
       (Some rateVsDiversityFile) [] 0;;
     Emit.generateHTML htmlFileName file "UI/rateVsProbConvergence-template.html"
       (Some rateVsProbConvergenceFile) selectedBranchPairs num) σ.
Proof.
  rewrite (generateHTML_same _ _ "UI/Template.html").
  apply IO_bind_ext. intros [] σ1.
  rewrite (generateHTML_same _ _ "UI/sheet-template.html").
  apply IO_bind_ext. intros [] σ2.
  rewrite (generateHTML_same _ _ "UI/siteSpecific-template.html").
  apply IO_bind_ext. intros [] σ3.
  rewrite (generateHTML_same _ _ "UI/rateVsDiversity-template.html").
  apply IO_bind_ext. intros [] σ4.
  by rewrite generateHTML_same.
Qed.

Lemma outputDataInJS_same (k b : double) (σ : fs) :
  calculateRegression pDivergent pAllConvergent numBranchPairs = inr (k, b) →
  scatter_in_bounds father node1 node2 pDivergent pAllConvergent numBranchPairs lst
    postNumSub siteClass →
  scatter_fits fmt_f father node1 node2 pDivergent pAllConvergent numBranchPairs lst
    postNumSub siteClass →
  num * lst * 2 ≤ length siteSpecificMap →
  num * 3 ≤ length selectedBranchPairs →
  pairs_fit fmt_f siteSpecificMap selectedBranchPairs num lst →
  whole σ
  = Emit.outputDataInJS (fmt_6f fmt_f) htmlFileName
      (preamble_text fmt_f outputTreeInJson htmlFileName k b num lst
         (array_text (x_items fmt_f pDivergent numBranchPairs),
          array_text (y_items fmt_f pAllConvergent numBranchPairs),
          array_text (label_items father node1 node2 numBranchPairs),
          array_text (rate_items fmt_f lst postNumSub),
          array_text (class_items lst siteClass)))
      siteSpecificMap selectedBranchPairs num lst σ.
Proof.
  intros Hreg Hin Hfit Hmap Hsel Hpairs.
  pose proof (sites_pos _ _ _ _ _ _ _ _ _ _ Hfit) as lst_pos.
  unfold Buffers.outputDataInJS, Emit.outputDataInJS.
  rewrite Hreg, lift_bind. cbn beta iota.
  rewrite (scatter_arrays_spec _ _ _ _ _ _ _ _ _ _ Hin Hfit), lift_bind. cbn beta iota.
  rewrite !makeupDataOutput_fits, !lift_bind.
  rewrite file_name_fits.
  destruct (data_file_path htmlFileName) as [e|file] eqn:Hfile; [done|].
  rewrite !lift_bind, !fopen_w_bind.
  rewrite !page_name_fits by done. rewrite !lift_bind.
  rewrite !fprintf_bind.
  rewrite !lookup_insert_eq, !insert_insert_eq. cbn [default from_option id].
  rewrite summary_start_fits, lift_bind. cbn zeta.
  rewrite !string_app_assoc, !string_app_nil_l. unfold preamble_text.
  match goal with |- context [<[file := ?t]> σ] =>
    set (σ2 := <[file := t]> σ);
    assert (Hold : σ2 !! file = Some t) by apply lookup_insert_eq;
    clearbody σ2
  end.
  destruct (decide (num = 0)) as [Hz|Hnum].
  - assert (HB : ∀ s σ',
              Buffers.pair_entries fmt_f file siteSpecificMap selectedBranchPairs
                num lst 0 num s σ' = (inr s, σ')) by (by rewrite Hz).
    assert (HE : ∀ s σ',
              Emit.pair_entries (fmt_6f fmt_f) file siteSpecificMap selectedBranchPairs
                num lst 0 num s σ' = (inr s, σ')) by (by rewrite Hz).
    rewrite (IO_bind_val _ _ _ _ _ (HB _ _)), (IO_bind_val _ _ _ _ _ (HE _ _)).
    cbn beta iota.
    rewrite strcat_fits by (simpl; lia). rewrite lift_bind.
    rewrite !makeupDataOutput_fits, !lift_bind.
    do 3 (apply IO_bind_ext; intros [] ?).
    apply pages_same.
  - cbn iota.
    change ("[ ", "[ ", "[ ") with (summary_at selectedBranchPairs 0).
    rewrite (IO_bind_head _ _ _ _
               (pair_entries_same fmt_f siteSpecificMap selectedBranchPairs num lst
                  lst_pos Hmap Hsel Hpairs file σ2 _ Hold)).
    apply IO_bind_ext. intros [[s1 s2] s3] σ3.
    rewrite IO_ret_bind.
    rewrite !makeupDataOutput_fits, !lift_bind.
    do 3 (apply IO_bind_ext; intros [] ?).
    apply pages_same.
Qed.

End WholeFacts.

(** ** Twenty bytes for a value, twenty-five for a label *)

Lemma items_text_length (w : nat) (items : list string) :
  (∀ s, s ∈ items → String.length s ≤ w) →
  String.length (array_text items) ≤ 3 `max` (2 + (w + 2) * length items).
Proof.
  intros H. destruct items as [|a items]; [simpl; lia|].
  rewrite array_text_nonempty by done. rewrite string_app_length.
  change (String.length "[ ") with 2.
  enough (String.length (items_text (a :: items)) ≤ (w + 2) * length (a :: items)) by lia.
  revert a H. induction items as [|b items IH]; intros a H.
  - cbn [items_text length]. rewrite string_app_length.
    pose proof (H a ltac:(apply list_elem_of_here)). simpl. nia.
  - change (items_text (a :: b :: items)) with (a +:+ ", " +:+ items_text (b :: items)).
    rewrite !string_app_length.
    pose proof (H a ltac:(apply list_elem_of_here)).
    pose proof (IH b ltac:(intros s Hs; apply H; by apply list_elem_of_further)).
    cbn [length] in *. change (String.length ", ") with 2. nia.
Qed.

Lemma scatter_widths_fit fmt_f father node1 node2 pDivergent pAllConvergent
    numBranchPairs lst postNumSub siteClass :
  scatter_widths fmt_f father node1 node2 pDivergent pAllConvergent numBranchPairs lst
    postNumSub siteClass →
  scatter_fits fmt_f father node1 node2 pDivergent pAllConvergent numBranchPairs lst
    postNumSub siteClass.
Proof.
  intros (Hn & Hl & Hv & Hlab).
  assert (Lx : length (x_items fmt_f pDivergent numBranchPairs) ≤ numBranchPairs).
  { unfold x_items. rewrite length_fmap, length_take. lia. }
  assert (Ly : length (y_items fmt_f pAllConvergent numBranchPairs) ≤ numBranchPairs).
  { unfold y_items. rewrite length_fmap, length_take. lia. }
  assert (Ll : length (label_items father node1 node2 numBranchPairs) = numBranchPairs).
  { unfold label_items. by rewrite length_fmap, length_seq. }
  assert (Lr : length (rate_items fmt_f lst postNumSub) ≤ lst).
  { unfold rate_items. rewrite length_fmap, length_take. lia. }
  assert (Lc : length (class_items lst siteClass) ≤ lst).
  { unfold class_items. rewrite length_fmap, length_take. lia. }
  assert (Hx : ∀ s, s ∈ x_items fmt_f pDivergent numBranchPairs → String.length s ≤ 15)
    by (intros s Hs; apply Hv; rewrite !elem_of_app; auto).
  assert (Hy : ∀ s, s ∈ y_items fmt_f pAllConvergent numBranchPairs → String.length s ≤ 15)
    by (intros s Hs; apply Hv; rewrite !elem_of_app; auto).
  assert (Hr : ∀ s, s ∈ rate_items fmt_f lst postNumSub → String.length s ≤ 15)
    by (intros s Hs; apply Hv; rewrite !elem_of_app; auto).
  assert (Hc : ∀ s, s ∈ class_items lst siteClass → String.length s ≤ 15)
    by (intros s Hs; apply Hv; rewrite !elem_of_app; auto).
  pose proof (items_text_length 15 _ Hx). pose proof (items_text_length 15 _ Hy).
  pose proof (items_text_length 20 _ Hlab).
  pose proof (items_text_length 15 _ Hr). pose proof (items_text_length 15 _ Hc).
  repeat split; nia.
Qed.

(** ** The properties *)

(** X23.  [makeupDataOutput] never stores outside its buffer: each of its three
    allocations has room for the text and the NUL that are then stored in
    it, whatever [data] and [type] are, and the result is [type = data]. *)
Theorem makeupDataOutput_buffer_suffices (data type : string) :
  Buffers.makeupDataOutput data type = inr (type +:+ " = " +:+ data).
Proof.
  rewrite makeupDataOutput_fits. unfold Emit.makeupDataOutput.
  by rewrite string_app_assoc.
Qed.

(** X24.  The buffers of the path of the data file, of the names of the four
    further pages and of the path of a page are large enough for every name
    of the main page: the sized code builds the same texts as the model
    without sizes, and the only fault is the one of a name without a dot. *)
Theorem path_buffers_suffice (htmlFileName : string) (moreFile : option string) :
  file_name htmlFileName = data_file_path htmlFileName
  ∧ page_name "sheetFile" 7 "sheet-" htmlFileName = inr ("sheet-" +:+ htmlFileName)
  ∧ page_name "siteSpecificFile" 14 "siteSpecific-" htmlFileName
    = inr ("siteSpecific-" +:+ htmlFileName)
  ∧ page_name "rateVsDiversityFile" 17 "rateVsDiversity-" htmlFileName
    = inr ("rateVsDiversity-" +:+ htmlFileName)
  ∧ page_name "rateVsProbConvergenceFile" 23 "rateVsProbConvergence-" htmlFileName
    = inr ("rateVsProbConvergence-" +:+ htmlFileName)
  ∧ Buffers.html_path htmlFileName moreFile = inr (Emit.html_path htmlFileName moreFile).
Proof.
  repeat split; try (by apply page_name_fits).
  - apply file_name_fits.
  - apply html_path_fits.
Qed.

(** X25.  When every cell that is read exists and each of the five arrays, with
    its NUL, is no longer than its buffer, lines 226-257 overflow no buffer
    on the way and leave the five arrays [[ v0, v1, ..., vn ]] of the
    printed values, labels, rates and classes. *)
Theorem scatter_arrays_are_the_printed_items
    fmt_f father node1 node2 pDivergent pAllConvergent numBranchPairs lst
    postNumSub siteClass :
  scatter_in_bounds father node1 node2 pDivergent pAllConvergent numBranchPairs lst
    postNumSub siteClass →
  scatter_fits fmt_f father node1 node2 pDivergent pAllConvergent numBranchPairs lst
    postNumSub siteClass →
  scatter_arrays fmt_f father node1 node2 pDivergent pAllConvergent numBranchPairs lst
    postNumSub siteClass
  = inr (array_text (x_items fmt_f pDivergent numBranchPairs),
         array_text (y_items fmt_f pAllConvergent numBranchPairs),
         array_text (label_items father node1 node2 numBranchPairs),
         array_text (rate_items fmt_f lst postNumSub),
         array_text (class_items lst siteClass)).
Proof. apply scatter_arrays_spec. Qed.

Lemma two_pairs_in_bounds :
  scatter_in_bounds five_fathers two_node1 two_node2 two_x two_y 2 3 three_rates
    three_classes.
Proof.
  unfold scatter_in_bounds. split_and!; try (simpl; lia).
  intros ig n Hig [H|H]; destruct ig as [|[|ig]]; try lia;
    simpl in H; injection H as <-; simpl; lia.
Qed.

Lemma scatter_arrays_are_the_printed_items_witness :
  scatter_arrays fmt_sign_f five_fathers two_node1 two_node2 two_x two_y 2 3
    three_rates three_classes
  = inr (array_text (x_items fmt_sign_f two_x 2), array_text (y_items fmt_sign_f two_y 2),
         array_text (label_items five_fathers two_node1 two_node2 2),
         array_text (rate_items fmt_sign_f 3 three_rates),
         array_text (class_items 3 three_classes)).
Proof.
  apply scatter_arrays_are_the_printed_items;
    [apply two_pairs_in_bounds | repeat split; vm_compute; lia].
Defined.

(** X26.  Twenty bytes for each value and twenty-five for each label are enough
    for short items: when every cell read exists, every value prints in at
    most 15 characters and every label in at most 20, and there is at least
    one pair and one site, lines 226-257 overflow no buffer and leave the
    five arrays of the printed items. *)
Theorem short_items_never_overflow
    fmt_f father node1 node2 pDivergent pAllConvergent numBranchPairs lst
    postNumSub siteClass :
  scatter_in_bounds father node1 node2 pDivergent pAllConvergent numBranchPairs lst
    postNumSub siteClass →
  scatter_widths fmt_f father node1 node2 pDivergent pAllConvergent numBranchPairs lst
    postNumSub siteClass →
  scatter_arrays fmt_f father node1 node2 pDivergent pAllConvergent numBranchPairs lst
    postNumSub siteClass
  = inr (array_text (x_items fmt_f pDivergent numBranchPairs),
         array_text (y_items fmt_f pAllConvergent numBranchPairs),
         array_text (label_items father node1 node2 numBranchPairs),
         array_text (rate_items fmt_f lst postNumSub),
         array_text (class_items lst siteClass)).
Proof.
  intros Hin Hw. apply scatter_arrays_spec; [done|]. by apply scatter_widths_fit.
Qed.

Lemma two_pairs_widths :
  scatter_widths fmt_sign_f five_fathers two_node1 two_node2 two_x two_y 2 3 three_rates
    three_classes.
Proof.
  repeat split; try lia.
  - intros s Hs. vm_compute in Hs.
    repeat (apply elem_of_cons in Hs as [->|Hs]; [vm_compute; lia|]).
    by apply elem_of_nil in Hs.
  - intros s Hs. vm_compute in Hs.
    repeat (apply elem_of_cons in Hs as [->|Hs]; [vm_compute; lia|]).
    by apply elem_of_nil in Hs.
Qed.

Lemma short_items_never_overflow_witness :
  scatter_arrays fmt_sign_f five_fathers two_node1 two_node2 two_x two_y 2 3
    three_rates three_classes
  = inr (array_text (x_items fmt_sign_f two_x 2), array_text (y_items fmt_sign_f two_y 2),
         array_text (label_items five_fathers two_node1 two_node2 2),
         array_text (rate_items fmt_sign_f 3 three_rates),
         array_text (class_items 3 three_classes)).
Proof.
  apply short_items_never_overflow; [apply two_pairs_in_bounds | apply two_pairs_widths].
Defined.

(** X27.  When the site map and the list of the selected pairs are long enough
    and every text of lines 342-398 fits the buffer allocated for it, the
    loop over the selected pairs with sized buffers writes the same lines
    and leaves the same three lists as the loop with buffers of any
    length. *)
Theorem selected_pair_buffers_suffice
    fmt_f (siteSpecificMap : list Qc) (selectedBranchPairs : list Z) (num lst : nat)
    dataFile (σ : fs) (old : string) :
  1 ≤ lst →
  num * lst * 2 ≤ length siteSpecificMap →
  num * 3 ≤ length selectedBranchPairs →
  pairs_fit fmt_f siteSpecificMap selectedBranchPairs num lst →
  σ !! dataFile = Some old →
  Buffers.pair_entries fmt_f dataFile siteSpecificMap selectedBranchPairs num lst 0 num
    (summary_at selectedBranchPairs 0) σ
  = Emit.pair_entries (fmt_6f fmt_f) dataFile siteSpecificMap selectedBranchPairs num lst
      0 num (summary_at selectedBranchPairs 0) σ.
Proof. intros. by eapply pair_entries_same. Qed.

Lemma one_selected_fits : pairs_fit fmt_sign_f three_sites one_selected 1 3.
Proof.
  split; [|vm_compute; lia].
  intros ig Hig. assert (ig = 0) as -> by lia. vm_compute. lia.
Qed.

Lemma selected_pair_buffers_suffice_witness :
  Buffers.pair_entries fmt_sign_f "UI/User/outData.js" three_sites one_selected 1 3 0 1
    (summary_at one_selected 0) opened
  = Emit.pair_entries (fmt_6f fmt_sign_f) "UI/User/outData.js" three_sites one_selected
      1 3 0 1 (summary_at one_selected 0) opened.
Proof.
  apply (selected_pair_buffers_suffice fmt_sign_f three_sites one_selected 1 3
           "UI/User/outData.js" opened EmptyString);
    [lia | simpl; lia | simpl; lia | apply one_selected_fits | reflexivity].
Defined.

(** X28.  Without a branch pair or without a site, the lines of
    [outputDataInJS] that format the scatter arrays (225-257; they run
    before any file is opened) store outside a buffer: with
    [numBranchPairs = 0] the buffer [xPoints] comes from [malloc(0)] and
    [strcpy(xPoints, "[ ")] stores its three bytes past it; with a pair and
    [lst = 0] the first three copies have room and the fourth, into
    [xPostNumSub], has none.  C does not define what follows such a store,
    and nothing is said here about what the compiled program then does. *)
Theorem empty_run_overruns_first_buffer
    fmt_f father node1 node2 pDivergent pAllConvergent numBranchPairs lst postNumSub
    siteClass :
  numBranchPairs = 0 ∨ lst = 0 →
  scatter_arrays fmt_f father node1 node2 pDivergent pAllConvergent numBranchPairs lst
    postNumSub siteClass
  = inl (OutOfBounds (if decide (numBranchPairs = 0) then "xPoints" else "xPostNumSub")
           0 0).
Proof. apply scatter_arrays_empty. Qed.

Lemma empty_run_overruns_first_buffer_witness :
  scatter_arrays fmt_sign_f five_fathers two_node1 two_node2 two_x two_y 2 0 [] []
  = inl (OutOfBounds "xPostNumSub" 0 0).
Proof.
  apply (empty_run_overruns_first_buffer fmt_sign_f five_fathers two_node1 two_node2
           two_x two_y 2 0 [] []).
  by right.
Defined.

(** X29.  When the regression returns, every cell read exists and every text
    fits its buffer, all of [outputDataInJS] does what the part of it from
    line 269 on does with buffers of any length, for the text that lines
    219-266 and 307-340 put before the site arrays: the popup functions,
    the regression line, the two counts, the tree and the five arrays of
    the scatter plots. *)
Theorem whole_emitter_is_the_unsized_one
    fmt_f outputTreeInJson father htmlFileName node1 node2 pDivergent pAllConvergent
    siteSpecificMap selectedBranchPairs num numBranchPairs lst postNumSub siteClass
    (k b : double) (σ : fs) :
  calculateRegression pDivergent pAllConvergent numBranchPairs = inr (k, b) →
  scatter_in_bounds father node1 node2 pDivergent pAllConvergent numBranchPairs lst
    postNumSub siteClass →
  scatter_fits fmt_f father node1 node2 pDivergent pAllConvergent numBranchPairs lst
    postNumSub siteClass →
  num * lst * 2 ≤ length siteSpecificMap →
  num * 3 ≤ length selectedBranchPairs →
  pairs_fit fmt_f siteSpecificMap selectedBranchPairs num lst →
  Buffers.outputDataInJS fmt_f outputTreeInJson father htmlFileName node1 node2
    pDivergent pAllConvergent siteSpecificMap selectedBranchPairs num numBranchPairs lst
    postNumSub siteClass σ
  = Emit.outputDataInJS (fmt_6f fmt_f) htmlFileName
      (preamble_text fmt_f outputTreeInJson htmlFileName k b num lst
         (array_text (x_items fmt_f pDivergent numBranchPairs),
          array_text (y_items fmt_f pAllConvergent numBranchPairs),
          array_text (label_items father node1 node2 numBranchPairs),
          array_text (rate_items fmt_f lst postNumSub),
          array_text (class_items lst siteClass)))
      siteSpecificMap selectedBranchPairs num lst σ.
Proof. apply outputDataInJS_same. Qed.

Lemma whole_emitter_is_the_unsized_one_witness :
  Buffers.outputDataInJS fmt_sign_f "{}" five_fathers "out.html" two_node1 two_node2
    two_x two_y three_sites one_selected 1 2 3 three_rates three_classes all_templates
  = Emit.outputDataInJS (fmt_6f fmt_sign_f) "out.html"
      (preamble_text fmt_sign_f "{}" "out.html" (Fin (Q2Qc (-1 # 2))) (Fin (Q2Qc (1 # 4)))
         1 3
         (array_text (x_items fmt_sign_f two_x 2), array_text (y_items fmt_sign_f two_y 2),
          array_text (label_items five_fathers two_node1 two_node2 2),
          array_text (rate_items fmt_sign_f 3 three_rates),
          array_text (class_items 3 three_classes)))
      three_sites one_selected 1 3 all_templates.
Proof.
  apply whole_emitter_is_the_unsized_one;
    [ compute_done | apply two_pairs_in_bounds
    | repeat split; vm_compute; lia | simpl; lia | simpl; lia | apply one_selected_fits ].
Defined.

End BuffersFacts.

(** * Facts about the tree in JSON *)

Module TreeFacts.
Import Regression Tree.

Section JanssonFacts.

Variable utf8 : string → bool.

Lemma well_formed_inv depth nodes tree_node :
  well_formed depth nodes tree_node = true →
  ∃ depth' node,
    depth = S depth' ∧ (0 ≤ tree_node)%Z ∧ nodes !! Z.to_nat tree_node = Some node
    ∧ ((0 < nson node)%Z →
       Z.to_nat (nson node) ≤ length (sons node)
       ∧ Forall (λ son, well_formed depth' nodes son = true)
           (take (Z.to_nat (nson node)) (sons node))).
Proof.
  destruct depth as [|depth']; [done|]. cbn [well_formed].
  destruct (decide (0 ≤ tree_node)%Z) as [Hi|]; [|done].
  destruct (nodes !! Z.to_nat tree_node) as [node|] eqn:E; [|done].
  intros H. exists depth', node. split_and!; try done.
  intros Hn. rewrite decide_True in H by done.
  apply andb_true_iff in H as [H1 H2]. apply bool_decide_eq_true in H1.
  split; [done|]. apply Forall_forall. intros son Hson.
  rewrite forallb_forall in H2. apply H2. by apply list_elem_of_In.
Qed.

Lemma json_object_set_new_object (h : heap) l m key value :
  h !! l = Some (Object m) →
  json_object_set_new h l key (Some value) = <[l := Object (<[key := value]> m)]> h.
Proof. intros H. unfold json_object_set_new. by rewrite H. Qed.

Lemma json_object_set_new_null (h : heap) l key :
  json_object_set_new h l key None = h.
Proof. done. Qed.

(** Lines 20-22 on an empty object: the members that jansson makes. *)
Lemma build_tree_members (h : heap) l node :
  h !! l = Some (Object ∅) →
  json_object_set_new
    (json_object_set_new
       (json_object_set_new h l "length" (json_real (branch node)))
       l "name" (json_string utf8 (name node)))
    l "id" (json_integer (nodeID node))
  = <[l := Object (members_of utf8 node)]> h.
Proof.
  intros Hl. pose proof (lookup_lt_Some _ _ _ Hl) as Hlt.
  assert (E : ∀ m key value,
            json_object_set_new (<[l := Object m]> h) l key (Some value)
            = <[l := Object (<[key := value]> m)]> h).
  { intros m key value.
    rewrite (json_object_set_new_object _ _ m) by (by apply list_lookup_insert_eq).
    apply list_insert_insert_eq. }
  unfold members_of, json_real, json_string, json_integer.
  destruct (branch node), (utf8 (name node));
    rewrite ?json_object_set_new_null;
    rewrite ?(json_object_set_new_object h l ∅) by done;
    rewrite ?E; try done;
    by rewrite (json_object_set_new_object h l ∅) by done.
Qed.

Lemma json_array_append_array (h : heap) a es value :
  h !! a = Some (Array es) →
  json_array_append h a value = <[a := Array (es ++ [value])]> h.
Proof. intros H. unfold json_array_append. by rewrite H. Qed.

(** The members by name. *)
Lemma members_of_lookup node :
  members_of utf8 node !! "id" = Some (Integer (nodeID node))
  ∧ members_of utf8 node !! "name"
    = (if utf8 (name node) then Some (Text (name node)) else None)
  ∧ members_of utf8 node !! "length"
    = match branch node with Fin q => Some (Real q) | _ => None end
  ∧ members_of utf8 node !! "children" = None.
Proof.
  unfold members_of. destruct (branch node), (utf8 (name node)); by simplify_map_eq.
Qed.

(** A change of the heap outside the object and the references from [lo]
    on is not seen. *)
Lemma mirrors_frame depth nodes (h h' : heap) lo tree_node l :
  mirrors utf8 depth nodes h lo tree_node l →
  h' !! l = h !! l →
  (∀ x, lo ≤ x → x < length h → h' !! x = h !! x) →
  mirrors utf8 depth nodes h' lo tree_node l.
Proof.
  revert tree_node l. induction depth as [|depth' IH]; intros i l; [done|].
  cbn [mirrors]. intros (node & Hi & Hnode & H) Hl Hx.
  exists node. split_and!; try done.
  destruct (decide (0 < nson node)%Z); [|by rewrite Hl].
  destruct H as (a & cs & Ha & Hobj & Harr & Hcs).
  exists a, cs. split_and!; try done.
  - by rewrite Hl.
  - rewrite Hx; [done | done | by eapply lookup_lt_Some].
  - eapply Forall2_impl; [exact Hcs|]. intros son c [Hc Hm]. split; [done|].
    apply IH; [done | | done].
    apply Hx; [done|].
    destruct depth'; [done|]. cbn [mirrors] in Hm.
    destruct Hm as (nd & _ & _ & Hm). destruct (decide (0 < nson nd)%Z).
    + destruct Hm as (? & ? & _ & Hm & _). by eapply lookup_lt_Some.
    + by eapply lookup_lt_Some.
Qed.

Lemma mirrors_lower depth nodes (h : heap) lo lo' tree_node l :
  lo' ≤ lo → mirrors utf8 depth nodes h lo tree_node l → mirrors utf8 depth nodes h lo' tree_node l.
Proof.
  intros Hlo. revert tree_node l. induction depth as [|depth' IH]; intros i l; [done|].
  cbn [mirrors]. intros (node & Hi & Hnode & H).
  exists node. split_and!; try done.
  destruct (decide (0 < nson node)%Z); [|done].
  destruct H as (a & cs & Ha & Hobj & Harr & Hcs).
  exists a, cs. split_and!; try done; [lia|].
  eapply Forall2_impl; [exact Hcs|]. intros son c [Hc Hm]. split; [lia|by apply IH].
Qed.

Lemma mirrors_deeper depth depth' nodes (h : heap) lo tree_node l :
  depth ≤ depth' → mirrors utf8 depth nodes h lo tree_node l →
  mirrors utf8 depth' nodes h lo tree_node l.
Proof.
  revert depth' tree_node l. induction depth as [|d IH]; intros d' i l Hd; [done|].
  destruct d' as [|d']; [lia|]. cbn [mirrors]. intros (node & Hi & Hnode & H).
  exists node. split_and!; try done.
  destruct (decide (0 < nson node)%Z); [|done].
  destruct H as (a & cs & Ha & Hobj & Harr & Hcs).
  exists a, cs. split_and!; try done.
  eapply Forall2_impl; [exact Hcs|]. intros son c [Hc Hm]. split; [done|].
  apply IH; [lia|done].
Qed.

(** ** What a call of [build_tree] leaves in the heap *)

Lemma children_spec depth nodes build_son (sons : list Z) (a : nat) :
  builds utf8 depth nodes build_son →
  ∀ cnt k (h : heap) (cs : list nat),
    k + cnt ≤ length sons →
    Forall (λ son, well_formed depth nodes son = true) (take (k + cnt) sons) →
    h !! a = Some (Array (At <$> cs)) →
    Forall2 (λ son c, S a ≤ c ∧ mirrors utf8 depth nodes h (S a) son c) (take k sons) cs →
    ∃ h' cs',
      children build_son sons a k cnt h = Some (inr h')
      ∧ h' !! a = Some (Array (At <$> cs'))
      ∧ Forall2 (λ son c, S a ≤ c ∧ mirrors utf8 depth nodes h' (S a) son c)
          (take (k + cnt) sons) cs'
      ∧ length h ≤ length h'
      ∧ (∀ x, x < length h → x ≠ a → h' !! x = h !! x).
Proof.
  intros Hrec. induction cnt as [|cnt IH]; intros k h cs Hk Hwf Ha Hcs.
  - exists h, cs. rewrite Nat.add_0_r. by split_and!.
  - cbn [children json_object].
    pose proof (lookup_lt_Some _ _ _ Ha) as Hlt.
    rewrite (json_array_append_array _ _ (At <$> cs))
      by (by apply lookup_app_l_Some).
    destruct (lookup_lt_is_Some_2 sons k) as [son Hson]; [lia|].
    rewrite (read_Some _ _ _ _ Hson). cbn beta iota zeta.
    set (c := length h).
    set (h2 := <[a := Array ((At <$> cs) ++ [At c])]> (h ++ [Object ∅])).
    assert (L2 : length h2 = S c).
    { unfold h2. rewrite length_insert, length_app. simpl. lia. }
    assert (Hc : h2 !! c = Some (Object ∅)).
    { unfold h2. rewrite list_lookup_insert_ne by lia.
      rewrite lookup_app_r by done. by rewrite Nat.sub_diag. }
    assert (Hold : ∀ x, x < c → x ≠ a → h2 !! x = h !! x).
    { intros x Hx Hxa. unfold h2. rewrite list_lookup_insert_ne by done.
      by rewrite lookup_app_l. }
    assert (Hwson : well_formed depth nodes son = true).
    { rewrite Forall_forall in Hwf. apply Hwf.
      apply list_elem_of_lookup. exists k. rewrite lookup_take_lt by lia. done. }
    destruct (Hrec son c h2 Hwson Hc) as (h3 & E3 & M3 & L3 & F3).
    rewrite E3.
    destruct (IH (S k) h3 (cs ++ [c])) as (h' & cs' & E & Ha' & Hcs' & L' & F').
    + lia.
    + by replace (S k + cnt) with (k + S cnt) by lia.
    + rewrite F3 by lia. unfold h2. rewrite list_lookup_insert_eq.
      * by rewrite fmap_app.
      * rewrite length_app. simpl. lia.
    + rewrite (take_S_r _ _ _ Hson). apply Forall2_app.
      * eapply Forall2_impl; [exact Hcs|]. intros s x [Hx Hm]. split; [done|].
        assert (Hxc : x < c).
        { destruct depth; [done|]. cbn [mirrors] in Hm.
          destruct Hm as (nd & _ & _ & Hm). destruct (decide (0 < nson nd)%Z).
          - destruct Hm as (? & ? & _ & Hm & _). by eapply lookup_lt_Some.
          - by eapply lookup_lt_Some. }
        apply (mirrors_frame _ _ h); [done | | ].
        -- rewrite F3 by lia. apply Hold; lia.
        -- intros y Hy Hyc. rewrite F3 by lia. apply Hold; lia.
      * constructor; [|constructor]. split; [unfold c; lia|].
        apply (mirrors_lower _ _ _ (length h2)); [lia|done].
    + exists h', cs'. split_and!.
      * done.
      * done.
      * by replace (k + S cnt) with (S k + cnt) by lia.
      * lia.
      * intros x Hx Hxa. rewrite F' by lia. rewrite F3 by lia. apply Hold; lia.
Qed.

Lemma build_tree_spec fuel :
  ∀ depth nodes tree_node l (h : heap),
    well_formed depth nodes tree_node = true → depth ≤ fuel →
    h !! l = Some (Object ∅) →
    ∃ h', build_tree utf8 fuel nodes tree_node l h = Some (inr h')
          ∧ mirrors utf8 depth nodes h' (length h) tree_node l
          ∧ length h ≤ length h'
          ∧ (∀ x, x < length h → x ≠ l → h' !! x = h !! x).
Proof.
  induction fuel as [|fuel IH]; intros depth nodes i l h Hwf Hd Hl;
    destruct (well_formed_inv _ _ _ Hwf) as (d' & node & -> & Hi & Hnode & Hsons);
    [lia|].
  pose proof (lookup_lt_Some _ _ _ Hl) as Hlt.
  cbn [build_tree]. unfold read_at. rewrite decide_True by done.
  rewrite (read_Some _ _ _ _ Hnode).
  rewrite build_tree_members by done.
  set (h1 := <[l := Object (members_of utf8 node)]> h).
  assert (L1 : length h1 = length h) by apply length_insert.
  destruct (decide (0 < nson node)%Z) as [Hn|Hn].
  - destruct (Hsons Hn) as [Hlen Hall]. cbn [json_array]. rewrite L1.
    rewrite (json_object_set_new_object (h1 ++ [Array []]) l (members_of utf8 node)).
    2:{ apply lookup_app_l_Some. by apply list_lookup_insert_eq. }
    rewrite insert_app_l by lia. unfold h1. rewrite list_insert_insert_eq.
    set (m := <["children" := At (length h)]> (members_of utf8 node)).
    set (h3 := <[l := Object m]> h ++ [Array []]).
    assert (L3 : length h3 = S (length h)).
    { unfold h3. rewrite length_app, length_insert. simpl. lia. }
    destruct (children_spec d' nodes (build_tree utf8 fuel nodes) (sons node) (length h)
                ltac:(intros son c hc Hw Hc; apply IH; [done | lia | done])
                (Z.to_nat (nson node)) 0 h3 [])
      as (h' & cs & E & Ha & Hcs & L' & F').
    + simpl. lia.
    + done.
    + unfold h3. rewrite lookup_app_r by (by rewrite length_insert).
      by rewrite length_insert, Nat.sub_diag.
    + constructor.
    + exists h'. split_and!.
      * done.
      * cbn [mirrors]. exists node. split_and!; try done.
        rewrite decide_True by done. exists (length h), cs. split_and!.
        -- done.
        -- rewrite F' by lia. unfold h3.
           rewrite lookup_app_l by (by rewrite length_insert).
           by apply list_lookup_insert_eq.
        -- done.
        -- eapply Forall2_impl; [exact Hcs|]. intros son c [Hc Hm].
           split; [lia|]. apply (mirrors_lower _ _ _ (S (length h))); [lia|done].
      * lia.
      * intros x Hx Hxl. rewrite F' by lia. unfold h3.
        rewrite lookup_app_l by (by rewrite length_insert).
        by apply list_lookup_insert_ne.
  - exists h1. split_and!.
    + done.
    + cbn [mirrors]. exists node. split_and!; try done.
      rewrite decide_False by done. by apply list_lookup_insert_eq.
    + lia.
    + intros x Hx Hxl. by apply list_lookup_insert_ne.
Qed.

(** ** The relabelling of [outputTreeInJson] *)

Lemma labelled_sons spname i node :
  nson (labelled spname i node) = nson node ∧ sons (labelled spname i node) = sons node.
Proof. unfold labelled. repeat case_decide; done. Qed.

Lemma relabel_spec spname i (nodes : list TREEN) node :
  nodes !! i = Some node →
  (nson node = 0%Z → i < length spname) →
  relabel spname i nodes = inr (<[i := labelled spname i node]> nodes).
Proof.
  intros Hnode Hsp. pose proof (lookup_lt_Some _ _ _ Hnode) as Hlt.
  unfold relabel, labelled. rewrite (read_Some _ _ _ _ Hnode). cbn [mbind M_bind].
  destruct (decide (nson node = 0%Z)) as [Hz|Hz].
  - destruct (lookup_lt_is_Some_2 spname i (Hsp Hz)) as [species Hs].
    rewrite (read_Some _ _ _ _ Hs), Hs. cbn [mbind M_bind default from_option id].
    rewrite (write_lt _ nodes i) by done. cbn [mbind M_bind mret M_ret].
    rewrite (read_Some _ _ _ _ (list_lookup_insert_eq _ _ _ Hlt)).
    cbn [mbind M_bind nson]. rewrite decide_False by lia. done.
  - cbn [mbind M_bind mret M_ret]. rewrite (read_Some _ _ _ _ Hnode).
    cbn [mbind M_bind]. destruct (decide (0 < nson node)%Z); [|by rewrite list_insert_id].
    destruct (decide (father node = (-1)%Z)); by rewrite write_lt.
Qed.

Lemma relabel_loop spname nnode (nodes : list TREEN) :
  nnode ≤ length nodes →
  (∀ i node, i < nnode → nodes !! i = Some node → nson node = 0%Z → i < length spname) →
  for_ 0 nnode (relabel spname) nodes = inr (relabelled spname nnode nodes).
Proof.
  intros Hlen Hsp.
  destruct (for_invariant
              (λ k nodes', nodes' = relabelled spname k nodes)
              (relabel spname) 0 nnode nodes) as (nodes' & E & H).
  - unfold relabelled. apply list_eq. intros i. rewrite list_lookup_imap.
    destruct (nodes !! i); [|done]. cbn [fmap option_fmap option_map].
    by rewrite decide_False by lia.
  - intros k s Hk ->.
    destruct (lookup_lt_is_Some_2 nodes k) as [node Hnode]; [lia|].
    assert (Hk' : relabelled spname k nodes !! k = Some node).
    { unfold relabelled. rewrite list_lookup_imap, Hnode.
      cbn [fmap option_fmap option_map]. by rewrite decide_False by lia. }
    rewrite (relabel_spec _ _ _ _ Hk') by (intros; eapply Hsp; [| done | done]; lia).
    eexists. split; [done|]. unfold relabelled. apply list_eq. intros i.
    destruct (decide (i = k)) as [->|Hne].
    + rewrite list_lookup_insert_eq by (rewrite length_imap; lia).
      rewrite list_lookup_imap, Hnode. cbn [fmap option_fmap option_map].
      by rewrite decide_True by lia.
    + rewrite list_lookup_insert_ne by done. rewrite !list_lookup_imap.
      destruct (nodes !! i); [|done]. cbn [fmap option_fmap option_map].
      destruct (decide (i < k)); [by rewrite decide_True by lia |
                                  by rewrite decide_False by lia].
  - by rewrite E, H.
Qed.

Lemma well_formed_relabelled spname nnode depth (nodes : list TREEN) tree_node :
  well_formed depth (relabelled spname nnode nodes) tree_node
  = well_formed depth nodes tree_node.
Proof.
  revert tree_node. induction depth as [|d IH]; intros i; [done|].
  cbn [well_formed]. destruct (decide (0 ≤ i)%Z); [|done].
  unfold relabelled at 1. rewrite list_lookup_imap.
  destruct (nodes !! Z.to_nat i) as [node|]; [|done]. cbn [fmap option_fmap option_map].
  assert (E : ∀ nd', nson nd' = nson node → sons nd' = sons node →
              (if decide (0 < nson nd')%Z then
                 bool_decide (Z.to_nat (nson nd') ≤ length (sons nd'))
                 && forallb (well_formed d (relabelled spname nnode nodes))
                      (take (Z.to_nat (nson nd')) (sons nd'))
               else true)
              = (if decide (0 < nson node)%Z then
                   bool_decide (Z.to_nat (nson node) ≤ length (sons node))
                   && forallb (well_formed d nodes) (take (Z.to_nat (nson node)) (sons node))
                 else true)).
  { intros nd' -> ->. destruct (decide (0 < nson node)%Z); [|done].
    f_equal. induction (take (Z.to_nat (nson node)) (sons node)) as [|son rest IHrest];
      [done|]. cbn [forallb]. by rewrite IH, IHrest. }
  destruct (decide (Z.to_nat i < nnode)); [|by apply E].
  apply E; apply labelled_sons.
Qed.

Lemma outputTreeInJson_spec fuel depth spname nnode root (nodes : list TREEN) :
  nnode ≤ length nodes →
  (∀ i node, i < nnode → nodes !! i = Some node → nson node = 0%Z → i < length spname) →
  well_formed depth nodes root = true → depth ≤ fuel →
  ∃ h, outputTreeInJson utf8 fuel spname nnode root nodes
       = Some (inr (relabelled spname nnode nodes, 0, h))
       ∧ mirrors utf8 depth (relabelled spname nnode nodes) h 1 root 0.
Proof.
  intros Hlen Hsp Hwf Hd. unfold outputTreeInJson.
  rewrite relabel_loop by done. cbn [json_object length app].
  destruct (build_tree_spec fuel depth (relabelled spname nnode nodes) root 0 [Object ∅])
    as (h & E & Hm & _ & _); [by rewrite well_formed_relabelled | done | done |].
  rewrite E. by exists h.
Qed.

End JanssonFacts.

(** X30.  For a tree whose sons exist down from the root, [outputTreeInJson]
    returns; it has relabelled every node (its index as [nodeID]; the
    species name for a node without sons, [Root] with branch length 0 for
    the node with sons and father -1, [Internal] for the other nodes with
    sons), and the JSON value it serialises mirrors the tree: one object
    for each node below the root, with the member [id] of the node, the
    member [length] when the branch length is a finite number and the
    member [name] when the name is valid UTF-8 (jansson makes no value of
    a NaN, an infinity or a text that is not UTF-8, and the object is then
    left without that member), and for a node with sons a member
    [children] that lists the objects of its sons in order, although each
    of them is filled only after it has been appended to the list.  The
    check of UTF-8 is the one of jansson, whatever it decides. *)
Theorem json_tree_mirrors_tree (utf8 : string → bool) fuel depth spname nnode root
    (nodes : list TREEN) :
  nnode ≤ length nodes →
  (∀ i node, i < nnode → nodes !! i = Some node → nson node = 0%Z → i < length spname) →
  well_formed depth nodes root = true → depth ≤ fuel →
  ∃ h, outputTreeInJson utf8 fuel spname nnode root nodes
       = Some (inr (relabelled spname nnode nodes, 0, h))
       ∧ mirrors utf8 depth (relabelled spname nnode nodes) h 1 root 0.
Proof. apply outputTreeInJson_spec. Qed.

Lemma json_tree_mirrors_tree_witness :
  ∃ h, outputTreeInJson ascii_only 2 cherry_species 3 2 cherry
       = Some (inr (relabelled cherry_species 3 cherry, 0, h))
       ∧ mirrors ascii_only 2 (relabelled cherry_species 3 cherry) h 1 2 0.
Proof.
  apply json_tree_mirrors_tree; [simpl; lia | | reflexivity | lia].
  intros i node Hi Hnode Hz.
  destruct i as [|[|[|i]]]; [simpl; lia | simpl; lia | | lia].
  injection Hnode as <-. done.
Defined.

End TreeFacts.

(** * Facts about the site array of a selected pair *)

Module SiteTriplesFacts.
Import Regression Emit Pages Buffers EmitFacts PagesFacts BuffersFacts.

Section Facts.
Variable fmt_f : double → string.
Variable siteSpecificMap : list Qc.
Variables lst ig : nat.

(** The text that the unsized emitter builds is the text of the claim. *)
Lemma triples_text_shown (hs : list nat) (rest : string) :
  triples_text (fmt_6f fmt_f) siteSpecificMap lst ig
    (filter (λ h, conv_at siteSpecificMap lst ig h ≠ 0%Qc
                  ∨ div_at siteSpecificMap lst ig h ≠ 0%Qc) hs)
  +:+ rest
  = foldr (λ h rest, SiteTriples.shown (fmt_6f fmt_f) siteSpecificMap lst ig h +:+ rest)
      rest hs.
Proof.
  induction hs as [|h hs IH]; [done|].
  rewrite filter_cons. cbn [foldr]. rewrite <- IH. unfold SiteTriples.shown.
  change (SiteTriples.conv siteSpecificMap lst ig h) with (conv_at siteSpecificMap lst ig h).
  change (SiteTriples.div siteSpecificMap lst ig h) with (div_at siteSpecificMap lst ig h).
  destruct (decide (conv_at siteSpecificMap lst ig h ≠ 0%Qc
                    ∨ div_at siteSpecificMap lst ig h ≠ 0%Qc)); [|done].
  cbn [triples_text]. unfold triple_text, SiteTriples.triple, fmt_d.
  change (SiteTriples.conv siteSpecificMap lst ig h) with (conv_at siteSpecificMap lst ig h).
  change (SiteTriples.div siteSpecificMap lst ig h) with (div_at siteSpecificMap lst ig h).
  by rewrite !string_app_assoc.
Qed.

Lemma site_array_text_claimed :
  site_array_text fmt_f siteSpecificMap lst ig
  = SiteTriples.site_array (fmt_6f fmt_f) siteSpecificMap lst ig.
Proof.
  unfold site_array_text, SiteTriples.site_array, kept_sites.
  by rewrite <- triples_text_shown.
Qed.


End Facts.



End SiteTriplesFacts.

(** * Facts about the emitter as the program runs it *)

Module ProgramFacts.
Import Regression Emit Pages Buffers EmitFacts PagesFacts BuffersFacts SiteTriplesFacts.

(** ** When every file can be opened, the program is the emitter of
    [Buffers] *)

Lemma fopen_w_can {B} can_write path (f : option string → IO B) (σ : fs) :
  can_write path = true →
  (Program.fopen_w can_write path ≫= f) σ = f (Some path) (<[path := EmptyString]> σ).
Proof. intros H. unfold mbind, IO_bind, Program.fopen_w. by rewrite H. Qed.

Lemma fopen_w_cannot {B} can_write path (f : option string → IO B) (σ : fs) :
  can_write path = false → (Program.fopen_w can_write path ≫= f) σ = f None σ.
Proof. intros H. unfold mbind, IO_bind, Program.fopen_w. by rewrite H. Qed.

Lemma IO_bind_unit (m : IO unit) (σ : fs) : (m;; mret ()) σ = m σ.
Proof.
  unfold mbind, IO_bind. destruct (m σ) as [[e|[]] σ']; reflexivity.
Qed.

Lemma html_lines_some fuel file sel num path template (σ : fs) :
  Program.html_lines fuel file sel num (Some path) template σ
  = Emit.html_lines fuel file sel num path template σ.
Proof.
  revert template σ. induction fuel as [|fuel IH]; intros template σ; [done|].
  cbn [Program.html_lines Emit.html_lines].
  destruct (fgets 1023 template) as [line rest].
  destruct (decide (line = EmptyString)); [done|].
  change (Program.html_line file sel num (Some path) line)
    with (Emit.html_line file sel num path line).
  apply IO_bind_ext. intros _ σ'. apply IH.
Qed.

Lemma generateHTML_can can_write htmlFileName file templateFile moreFile sel num (σ : fs) :
  can_write (Emit.html_path htmlFileName moreFile) = true →
  Program.generateHTML can_write htmlFileName file templateFile moreFile sel num σ
  = Buffers.generateHTML htmlFileName file templateFile moreFile sel num σ.
Proof.
  intros Hcan. unfold Program.generateHTML, Buffers.generateHTML.
  rewrite html_path_fits, !lift_bind.
  apply IO_bind_ext. intros template σ'.
  rewrite fopen_w_can by done. rewrite fopen_w_bind.
  destruct template as [text|]; [|done].
  change (Program.fclose (Some (Emit.html_path htmlFileName moreFile))) with (mret () : IO unit).
  rewrite IO_bind_unit. apply html_lines_some.
Qed.

Lemma pair_entry_some fmt_f dataFile map sel num lst ig summary (σ : fs) :
  Program.pair_entry fmt_f (Some dataFile) map sel num lst ig summary σ
  = Buffers.pair_entry fmt_f dataFile map sel num lst ig summary σ.
Proof. by destruct summary as [[s1 s2] s3]. Qed.

Lemma pair_entries_some fmt_f dataFile map sel num lst ig cnt summary (σ : fs) :
  Program.pair_entries fmt_f (Some dataFile) map sel num lst ig cnt summary σ
  = Buffers.pair_entries fmt_f dataFile map sel num lst ig cnt summary σ.
Proof.
  revert ig summary σ. induction cnt as [|cnt IH]; intros ig summary σ; [done|].
  cbn [Program.pair_entries Buffers.pair_entries].
  rewrite (IO_bind_head _ (Buffers.pair_entry fmt_f dataFile map sel num lst ig summary))
    by apply pair_entry_some.
  apply IO_bind_ext. intros s σ'. apply IH.
Qed.

Section Same.
Variable can_write : string → bool.
Variable fmt_f : double → string.
Variable outputTreeInJson : string.
Variable father : list Z.
Variable htmlFileName file : string.
Variables node1 node2 : list Z.
Variables pDivergent pAllConvergent siteSpecificMap : list Qc.
Variable selectedBranchPairs : list Z.
Variables num numBranchPairs lst : nat.
Variable postNumSub : list Qc.
Variable siteClass : list Z.

Hypothesis has_dot : data_file_path htmlFileName = inr file.
Hypothesis can : ∀ p, p ∈ output_paths htmlFileName file → can_write p = true.

Lemma can_page (moreFile : option string) :
  Emit.html_path htmlFileName moreFile ∈ output_paths htmlFileName file →
  ∀ templateFile sel n (σ : fs),
    Program.generateHTML can_write htmlFileName file templateFile moreFile sel n σ
    = Buffers.generateHTML htmlFileName file templateFile moreFile sel n σ.
Proof using can. intros Hin ????. apply generateHTML_can. by apply can. Qed.

Lemma outputDataInJS_can (σ : fs) :
  Program.outputDataInJS can_write fmt_f outputTreeInJson father htmlFileName node1 node2
    pDivergent pAllConvergent siteSpecificMap selectedBranchPairs num numBranchPairs lst
    postNumSub siteClass σ
  = Buffers.outputDataInJS fmt_f outputTreeInJson father htmlFileName node1 node2
      pDivergent pAllConvergent siteSpecificMap selectedBranchPairs num numBranchPairs lst
      postNumSub siteClass σ.
Proof using has_dot can.
  unfold Program.outputDataInJS, Buffers.outputDataInJS.
  apply IO_bind_ext. intros [k b] σ0.
  apply IO_bind_ext. intros [[[[xPoints yPoints] labels] xPostNumSub] ySiteClass] σ1.
  cbn zeta.
  do 6 (apply IO_bind_ext; intros ? ?).
  rewrite file_name_fits, has_dot, !lift_bind.
  rewrite fopen_w_can by (apply can; unfold output_paths; set_solver).
  rewrite fopen_w_bind.
  rewrite !page_name_fits by done. rewrite !lift_bind.
  do 6 (apply IO_bind_ext; intros [] ?).
  apply IO_bind_ext. intros summary ?.
  rewrite (IO_bind_head _ (Buffers.pair_entries fmt_f file siteSpecificMap
                             selectedBranchPairs num lst 0 num summary))
    by apply pair_entries_some.
  apply IO_bind_ext. intros [[s1 s2] s3] ?.
  do 4 (apply IO_bind_ext; intros ? ?).
  do 3 (apply IO_bind_ext; intros [] ?).
  change (Program.fclose (Some file)) with (mret () : IO unit). rewrite IO_ret_bind.
  rewrite (IO_bind_head _ (Buffers.generateHTML htmlFileName file "UI/Template.html"
                             None [] 0))
    by (apply can_page; unfold output_paths; set_solver).
  apply IO_bind_ext. intros [] ?.
  rewrite (IO_bind_head _ (Buffers.generateHTML htmlFileName file "UI/sheet-template.html"
                             (Some ("sheet-" +:+ htmlFileName)) [] 0))
    by (apply can_page; unfold output_paths; set_solver).
  apply IO_bind_ext. intros [] ?.
  rewrite (IO_bind_head _ (Buffers.generateHTML htmlFileName file
                             "UI/siteSpecific-template.html"
                             (Some ("siteSpecific-" +:+ htmlFileName))
                             selectedBranchPairs num))
    by (apply can_page; unfold output_paths; set_solver).
  apply IO_bind_ext. intros [] ?.
  rewrite (IO_bind_head _ (Buffers.generateHTML htmlFileName file
                             "UI/rateVsDiversity-template.html"
                             (Some ("rateVsDiversity-" +:+ htmlFileName)) [] 0))
    by (apply can_page; unfold output_paths; set_solver).
  apply IO_bind_ext. intros [] ?.
  apply can_page. unfold output_paths. set_solver.
Qed.

End Same.

(** ** The data file, in the words of [Program.data_file] *)

Lemma cat_all_foldr (texts : list string) :
  cat_all texts = foldr String.append EmptyString texts.
Proof. induction texts as [|t texts IH]; [done|]. cbn [cat_all foldr]. by rewrite IH. Qed.

Lemma items_text_concat (a : string) (items : list string) :
  items_text (a :: items) = String.concat ", " (a :: items) +:+ " ]".
Proof.
  revert a. induction items as [|b items IH]; intros a; [done|].
  change (items_text (a :: b :: items)) with (a +:+ ", " +:+ items_text (b :: items)).
  change (String.concat ", " (a :: b :: items))
    with (a +:+ ", " +:+ String.concat ", " (b :: items)).
  by rewrite IH, !string_app_assoc.
Qed.

Lemma array_text_js_array (items : list string) :
  array_text items = Program.js_array items.
Proof.
  destruct items as [|a items]; [done|].
  unfold array_text, Program.js_array. by rewrite items_text_concat.
Qed.

Lemma pair_line_site_line fmt_f map sel lst ig :
  pair_line (fmt_6f fmt_f) map sel lst ig
  = Program.site_line (fmt_6f fmt_f) map sel lst ig.
Proof.
  unfold pair_line, Program.site_line, Emit.makeupDataOutput.
  fold (site_array_text fmt_f map lst ig). rewrite site_array_text_claimed.
  change (pair_id sel ig) with (Program.identifier sel ig).
  by rewrite !string_app_assoc.
Qed.

Lemma data_file_text_claimed fmt_f map sel lst preamble num :
  data_file_text (fmt_6f fmt_f) map sel lst preamble num
  = Program.data_file (fmt_6f fmt_f) map sel lst preamble num.
Proof.
  unfold data_file_text, Program.data_file, Emit.makeupDataOutput.
  rewrite cat_all_foldr, !array_text_js_array.
  assert (E : pair_line (fmt_6f fmt_f) map sel lst <$> seq 0 num
              = Program.site_line (fmt_6f fmt_f) map sel lst <$> seq 0 num).
  { apply list_fmap_ext. intros _ ig _. apply pair_line_site_line. }
  rewrite E. reflexivity.
Qed.

(** ** What the program leaves when nothing fails *)

Section Run.
Variable can_write : string → bool.
Variable fmt_f : double → string.
Variable outputTreeInJson : string.
Variable father : list Z.
Variable htmlFileName file : string.
Variables node1 node2 : list Z.
Variables pDivergent pAllConvergent siteSpecificMap : list Qc.
Variable selectedBranchPairs : list Z.
Variables num numBranchPairs lst : nat.
Variable postNumSub : list Qc.
Variable siteClass : list Z.
Variables k b : double.

Hypothesis regression :
  calculateRegression pDivergent pAllConvergent numBranchPairs = inr (k, b).
Hypothesis in_bounds :
  scatter_in_bounds father node1 node2 pDivergent pAllConvergent numBranchPairs lst
    postNumSub siteClass.
Hypothesis fits :
  scatter_fits fmt_f father node1 node2 pDivergent pAllConvergent numBranchPairs lst
    postNumSub siteClass.
Hypothesis in_map : num * lst * 2 ≤ length siteSpecificMap.
Hypothesis in_sel : num * 3 ≤ length selectedBranchPairs.
Hypothesis fit : pairs_fit fmt_f siteSpecificMap selectedBranchPairs num lst.
Hypothesis has_dot : data_file_path htmlFileName = inr file.
Hypothesis can : ∀ p, p ∈ output_paths htmlFileName file → can_write p = true.

#[local] Abbreviation program :=
  (Program.outputDataInJS can_write fmt_f outputTreeInJson father htmlFileName node1 node2
     pDivergent pAllConvergent siteSpecificMap selectedBranchPairs num numBranchPairs lst
     postNumSub siteClass).

#[local] Abbreviation preamble :=
  (preamble_text fmt_f outputTreeInJson htmlFileName k b num lst
     (array_text (x_items fmt_f pDivergent numBranchPairs),
      array_text (y_items fmt_f pAllConvergent numBranchPairs),
      array_text (label_items father node1 node2 numBranchPairs),
      array_text (rate_items fmt_f lst postNumSub),
      array_text (class_items lst siteClass))).

Lemma program_unsized (σ : fs) :
  program σ
  = Emit.outputDataInJS (fmt_6f fmt_f) htmlFileName preamble siteSpecificMap
      selectedBranchPairs num lst σ.
Proof using regression in_bounds fits in_map in_sel fit has_dot can.
  rewrite (outputDataInJS_can can_write fmt_f outputTreeInJson father htmlFileName file)
    by done.
  by apply outputDataInJS_same.
Qed.


Lemma program_data_file (σ : fs) :
  (program σ).2 !! file
  = Some (Program.data_file (fmt_6f fmt_f) siteSpecificMap selectedBranchPairs lst
            preamble num).
Proof using regression in_bounds fits in_map in_sel fit has_dot can.
  rewrite program_unsized, <- data_file_text_claimed.
  apply data_file_written; try done. by eapply sites_pos.
Qed.

End Run.

(** ** The files the program writes *)

(** The stream is NULL or a file with [P]. *)
Definition stream_in (P : string → Prop) (stream : option string) : Prop :=
  ∀ path, stream = Some path → P path.

Lemma writes_only_program_fprintf (P : string → Prop) stream text :
  stream_in P stream → writes_only P (Program.fprintf stream text).
Proof.
  intros HP. destruct stream as [path|]; [|apply writes_only_lift].
  apply writes_only_fprintf. by apply HP.
Qed.

Lemma writes_only_program_fclose (P : string → Prop) stream :
  writes_only P (Program.fclose stream).
Proof. destruct stream; [apply writes_only_ret | apply writes_only_lift]. Qed.

Lemma writes_only_program_fopen_w {B} (P : string → Prop) can_write path
    (f : option string → IO B) :
  P path → (∀ stream, stream_in P stream → writes_only P (f stream)) →
  writes_only P (Program.fopen_w can_write path ≫= f).
Proof.
  intros HP Hf σ p Hp. unfold mbind, IO_bind, Program.fopen_w.
  destruct (can_write path).
  - rewrite (Hf (Some path)); [|by intros ? [= <-]|done].
    apply lookup_insert_ne. by intros ->.
  - apply Hf; [by intros ? [=] | done].
Qed.

Lemma writes_only_lift_bind {A B} (P : string → Prop) (m : M A) (f : A → IO B) :
  (∀ x, m = inr x → writes_only P (f x)) → writes_only P (lift m ≫= f).
Proof.
  intros Hf σ p Hp. unfold mbind, IO_bind, lift.
  destruct m as [e|x]; [done|]. by apply Hf.
Qed.

Ltac program_writes_only :=
  repeat match goal with
         | |- writes_only _ (mbind _ (lift _)) => apply writes_only_lift_bind; intros ? ?
         | |- writes_only _ (mbind _ _) => apply writes_only_bind; [|intros ?]
         | |- writes_only _ (for_io _ _ _) => apply writes_only_for_io; intros ?
         | |- writes_only _ (Program.fprintf _ _) => by apply writes_only_program_fprintf
         | |- writes_only _ (Program.fclose _) => apply writes_only_program_fclose
         | |- writes_only _ (match ?x with _ => _ end) => destruct x eqn:?
         | |- writes_only _ _ => solve [eauto with emit]
         end.

Lemma writes_only_program_html_line (P : string → Prop) file sel num newHTML line :
  stream_in P newHTML → writes_only P (Program.html_line file sel num newHTML line).
Proof. intros HP. unfold Program.html_line. program_writes_only. Qed.

Lemma writes_only_program_html_lines (P : string → Prop) fuel file sel num newHTML
    template :
  stream_in P newHTML →
  writes_only P (Program.html_lines fuel file sel num newHTML template).
Proof.
  intros HP. revert template.
  induction fuel as [|fuel IH]; intros template; cbn [Program.html_lines].
  - apply writes_only_ret.
  - destruct (fgets 1023 template) as [line rest].
    destruct (decide (line = EmptyString)).
    + apply writes_only_ret.
    + apply writes_only_bind;
        [by apply writes_only_program_html_line | intros _; apply IH].
Qed.

Lemma writes_only_program_generateHTML (P : string → Prop) can_write htmlFileName file
    templateFile moreFile sel num :
  P (Emit.html_path htmlFileName moreFile) →
  writes_only P
    (Program.generateHTML can_write htmlFileName file templateFile moreFile sel num).
Proof.
  intros HP. unfold Program.generateHTML. rewrite html_path_fits, lift_bind.
  apply writes_only_bind; [apply writes_only_fopen_r | intros template].
  apply writes_only_program_fopen_w; [done|]. intros newHTML Hnew.
  destruct template as [text|]; [|apply writes_only_lift].
  apply writes_only_bind; [|intros _; apply writes_only_program_fclose].
  by apply writes_only_program_html_lines.
Qed.

Lemma writes_only_program_pair_entries (P : string → Prop) fmt_f dataFile map sel num lst
    ig cnt summary :
  stream_in P dataFile →
  writes_only P (Program.pair_entries fmt_f dataFile map sel num lst ig cnt summary).
Proof.
  intros HP. revert ig summary.
  induction cnt as [|c IH]; intros ig summary; cbn [Program.pair_entries].
  - apply writes_only_ret.
  - apply writes_only_bind; [|intros ?; apply IH].
    unfold Program.pair_entry. destruct summary as [[s1 s2] s3]. program_writes_only.
Qed.

(** The program changes no file but the six artifacts, and none when the
    page name has no dot. *)
Lemma writes_only_program (P : string → Prop) can_write fmt_f outputTreeInJson father
    htmlFileName node1 node2 pDivergent pAllConvergent map sel num numBranchPairs lst
    postNumSub siteClass :
  (∀ file p, data_file_path htmlFileName = inr file →
             p ∈ output_paths htmlFileName file → P p) →
  writes_only P
    (Program.outputDataInJS can_write fmt_f outputTreeInJson father htmlFileName node1
       node2 pDivergent pAllConvergent map sel num numBranchPairs lst postNumSub
       siteClass).
Proof.
  intros HP. unfold Program.outputDataInJS.
  apply writes_only_lift_bind. intros [k b] _.
  apply writes_only_lift_bind. intros [[[[xPoints yPoints] labels] xPostNumSub] ySiteClass] _.
  cbn zeta.
  do 6 (apply writes_only_lift_bind; intros ? _).
  apply writes_only_lift_bind. intros file Hfile. rewrite file_name_fits in Hfile.
  assert (Hin : ∀ p, p ∈ output_paths htmlFileName file → P p) by (intros; by eapply HP).
  apply writes_only_program_fopen_w; [apply Hin; unfold output_paths; set_solver|].
  intros dataFile Hdata.
  rewrite !page_name_fits by done. rewrite !lift_bind.
  repeat match goal with
         | |- writes_only _ (mbind _ (lift _)) => apply writes_only_lift_bind; intros ? _
         | |- writes_only _ (mbind _ _) => apply writes_only_bind; [|intros ?]
         | |- writes_only _ (match ?x with _ => _ end) => destruct x
         | |- writes_only _ (Program.fprintf _ _) => by apply writes_only_program_fprintf
         | |- writes_only _ (Program.fclose _) => apply writes_only_program_fclose
         | |- writes_only _ (Program.pair_entries _ _ _ _ _ _ _ _ _) =>
             by apply writes_only_program_pair_entries
         | |- writes_only _ (Program.generateHTML _ _ _ _ _ _ _) =>
             apply writes_only_program_generateHTML; apply Hin;
             unfold output_paths; set_solver
         | |- writes_only _ (lift _) => apply writes_only_lift
         | |- writes_only _ (mret _) => apply writes_only_ret
         end.
Qed.

(** ** The six artifacts are entries of [UI/User] *)

Lemma long_entry_name (name : string) :
  3 ≤ String.length name → lacks "/" name → Program.entry_name name.
Proof.
  intros Hlen Hl. unfold Program.entry_name.
  split_and!; try done; intros ->; simpl in Hlen; lia.
Qed.

Ltac lacks_literal :=
  repeat (apply lacks_cons; split; [discriminate|]); apply lacks_nil.

Lemma output_paths_in_user (htmlFileName file p : string) :
  Program.entry_name htmlFileName →
  data_file_path htmlFileName = inr file →
  p ∈ output_paths htmlFileName file → Program.in_user p.
Proof.
  intros Hname Hfile Hp. pose proof Hname as (_ & _ & _ & Hslash).
  apply data_file_path_inv in Hfile as (stem & rest & E & _ & ->).
  assert (Hstem : lacks "/" stem).
  { rewrite E in Hslash. by apply lacks_app in Hslash as [? _]. }
  assert (Hlead : ∀ lead, 3 ≤ String.length lead → lacks "/" lead →
            Program.in_user (Emit.html_path htmlFileName (Some (lead +:+ htmlFileName)))).
  { intros lead Hlen Hl. exists (lead +:+ htmlFileName). split; [done|].
    apply long_entry_name; [rewrite string_app_length; lia|].
    by apply lacks_app. }
  unfold output_paths in Hp.
  repeat (apply elem_of_cons in Hp as [->|Hp]).
  - exists (stem +:+ "Data.js"). split; [done|].
    apply long_entry_name; [rewrite string_app_length; simpl; lia|].
    apply lacks_app. split; [done | lacks_literal].
  - by exists htmlFileName.
  - apply Hlead; [simpl; lia | lacks_literal].
  - apply Hlead; [simpl; lia | lacks_literal].
  - apply Hlead; [simpl; lia | lacks_literal].
  - apply Hlead; [simpl; lia | lacks_literal].
  - by apply elem_of_nil in Hp.
Qed.

(** ** The properties *)

(** X20.  When the page name [com.htmlFileName] is the name of a directory
    entry (not empty, not [.] or [..], without [/]), every file that
    [outputDataInJS] creates or changes has a path [UI/User/<name>] with
    such a name, so it is an entry of the directory [UI/User] (links in
    that directory are not modelled); the templates, which lie in [UI/],
    are not among them.  This holds for any other arguments, whether the
    program returns or stops at a fault, for the program with the sizes of
    its buffers and an [fopen] that can fail, and also when every buffer is
    taken as large enough and every [fopen] as successful.  (With a [/] in
    the page name the pages can lie elsewhere: [../Template.html] names the
    template of the main page.) *)
Theorem emitter_writes_entries_of_user_only
    (can_write : string → bool) (fmt_f : double → string) (outputTreeInJson : string)
    (father : list Z) (htmlFileName : string) (node1 node2 : list Z)
    (pDivergent pAllConvergent siteSpecificMap : list Qc) (selectedBranchPairs : list Z)
    (num numBranchPairs lst : nat) (postNumSub : list Qc) (siteClass : list Z)
    (preamble : string) (σ : fs) (p : string) :
  Program.entry_name htmlFileName →
  ¬ Program.in_user p →
  (Program.outputDataInJS can_write fmt_f outputTreeInJson father htmlFileName node1
     node2 pDivergent pAllConvergent siteSpecificMap selectedBranchPairs num
     numBranchPairs lst postNumSub siteClass σ).2 !! p = σ !! p
  ∧ (Emit.outputDataInJS (λ x, fmt_f (Fin x)) htmlFileName preamble siteSpecificMap
       selectedBranchPairs num lst σ).2 !! p = σ !! p.
Proof.
  intros Hname Hp. split.
  - apply (writes_only_program Program.in_user); [|done].
    intros file q Hfile Hq. by eapply output_paths_in_user.
  - destruct (data_file_path htmlFileName) as [e|file] eqn:Hfile.
    + unfold Emit.outputDataInJS. by rewrite Hfile.
    + apply (writes_only_outputDataInJS _ _ _ _ _ _ _ file Hfile).
      intros Hq. apply Hp. by eapply output_paths_in_user.
Qed.

Lemma emitter_writes_entries_of_user_only_witness :
  (Program.outputDataInJS Program.all_but_main fmt_sign_f "{}" five_fathers "out.html"
     two_node1 two_node2 two_x two_y three_sites one_selected 1 2 3 three_rates
     three_classes all_templates).2 !! "UI/Template.html"
  = all_templates !! "UI/Template.html"
  ∧ (Emit.outputDataInJS (λ x, fmt_sign_f (Fin x)) "out.html" "regressionSlope = 1;"
       three_sites one_selected 1 3 all_templates).2 !! "UI/Template.html"
    = all_templates !! "UI/Template.html".
Proof.
  apply emitter_writes_entries_of_user_only.
  - unfold Program.entry_name. split_and!; [discriminate.. | lacks_literal].
  - intros (name & E & _). discriminate E.
Defined.

(** X21.  When the regression (in exact arithmetic) returns, every cell read
    exists, every text fits its buffer, the page name is the name of a
    directory entry and has a dot, and the six files can be opened for
    writing, the data file holds, once
    [outputDataInJS] has returned or has stopped for a missing template:
    the text of lines 307-340, one line [BP_<b1>x<b2> = <site array>;] for
    every selected pair in order, and the three arrays
    [siteSpecificBranchPairs], [siteSpecificBranchPairsName] and
    [siteSpecificBranchPairsIDs] that list the identifiers, the names and
    the quoted identifiers of the selected pairs, separated by [", "],
    each ["[ ]"] when no pair is selected. *)
Theorem data_file_has_site_lines_and_lists
    (can_write : string → bool) (fmt_f : double → string) (outputTreeInJson : string)
    (father : list Z) (htmlFileName file : string) (node1 node2 : list Z)
    (pDivergent pAllConvergent siteSpecificMap : list Qc) (selectedBranchPairs : list Z)
    (num numBranchPairs lst : nat) (postNumSub : list Qc) (siteClass : list Z)
    (k b : double) (σ : fs) :
  calculateRegression pDivergent pAllConvergent numBranchPairs = inr (k, b) →
  scatter_in_bounds father node1 node2 pDivergent pAllConvergent numBranchPairs lst
    postNumSub siteClass →
  scatter_fits fmt_f father node1 node2 pDivergent pAllConvergent numBranchPairs lst
    postNumSub siteClass →
  num * lst * 2 ≤ length siteSpecificMap →
  num * 3 ≤ length selectedBranchPairs →
  pairs_fit fmt_f siteSpecificMap selectedBranchPairs num lst →
  Program.entry_name htmlFileName →
  data_file_path htmlFileName = inr file →
  (∀ p, p ∈ output_paths htmlFileName file → can_write p = true) →
  (Program.outputDataInJS can_write fmt_f outputTreeInJson father htmlFileName node1
     node2 pDivergent pAllConvergent siteSpecificMap selectedBranchPairs num
     numBranchPairs lst postNumSub siteClass σ).2 !! file
  = Some (Program.data_file (λ x, fmt_f (Fin x)) siteSpecificMap selectedBranchPairs lst
            (preamble_text fmt_f outputTreeInJson htmlFileName k b num lst
               (array_text (x_items fmt_f pDivergent numBranchPairs),
                array_text (y_items fmt_f pAllConvergent numBranchPairs),
                array_text (label_items father node1 node2 numBranchPairs),
                array_text (rate_items fmt_f lst postNumSub),
                array_text (class_items lst siteClass)))
            num).
Proof. intros. by apply program_data_file. Qed.

Lemma data_file_has_site_lines_and_lists_witness :
  (Program.outputDataInJS Program.every_file fmt_sign_f "{}" five_fathers "out.html"
     two_node1 two_node2 two_x two_y three_sites one_selected 1 2 3 three_rates
     three_classes earlier_run).2 !! "UI/User/outData.js"
  = Some (Program.data_file (λ x, fmt_sign_f (Fin x)) three_sites one_selected 3
            (preamble_text fmt_sign_f "{}" "out.html" (Fin (Q2Qc (-1 # 2)))
               (Fin (Q2Qc (1 # 4))) 1 3
               (array_text (x_items fmt_sign_f two_x 2),
                array_text (y_items fmt_sign_f two_y 2),
                array_text (label_items five_fathers two_node1 two_node2 2),
                array_text (rate_items fmt_sign_f 3 three_rates),
                array_text (class_items 3 three_classes)))
            1).
Proof.
  apply data_file_has_site_lines_and_lists;
    [ compute_done | apply two_pairs_in_bounds
    | repeat split; vm_compute; lia | simpl; lia | simpl; lia | apply one_selected_fits
    | unfold Program.entry_name; split_and!; [discriminate.. | lacks_literal]
    | reflexivity | done ].
Defined.



(** A page that cannot be opened: the data file is written, and the first
    [fprintf] on the page is one on NULL. *)
Lemma unwritable_page_is_a_fault :
  (Program.outputDataInJS Program.all_but_main fmt_sign_f "{}" five_fathers "out.html"
     two_node1 two_node2 two_x two_y three_sites one_selected 1 2 3 three_rates
     three_classes all_templates).1 = inl (NullPointer "fprintf(NULL, ...)").
Proof. vm_compute. reflexivity. Qed.

End ProgramFacts.
